(** * lmpsdat: a codec for LAMMPS data files

    A shallow embedding of the Go packages [lmpsdat] and [lmpsdat/key]:
    the Keys (Title, Header, Box, Masses, Coeffs, Atoms, Links), the atom
    styles, the registry built by [MakeKeys], and the [Decoder.Decode] /
    [Encoder.Encode] drivers, followed by the properties proved of them.

    Conventions of the embedding.
    - A Go [string] / [[]byte] is a [string] (a sequence of 8-bit [ascii]).
    - A Go [int] is a [Z]; [strconv.Atoi] enforces the 64-bit range.
    - A Go [float64] is a primitive [float] (IEEE 754 binary64).
    - A Go map is [option (gmap K V)]: [None] is the nil map.
    - A pointer [*Header] held by a table Key is the [Name] under which the
      registry owns that Header; [None] is the nil pointer.
    - A pointer [*Atom] / [*Link] stored in a map is an [option]: [None] is nil.
    - A function returning [error] returns an [outcome]; a run-time panic
      (nil dereference, failed unchecked type assertion) is [Panic]. *)

From Stdlib Require Import ZArith String Ascii List Bool Lia.
From Stdlib Require Import DecimalString DecimalZ DecimalN DecimalPos.
From Stdlib Require Import Floats.PrimFloat.
From stdpp Require Import gmap strings list fin_maps sorting.

Local Open Scope string_scope.
Local Open Scope Z_scope.

(** ** Outcomes and errors *)

(** The error values the packages build with [fmt.Errorf] and [errors.New],
    one constructor per kind of message; [Wrap] is [%w] wrapping with the
    text before the colon. *)
Inductive error : Type :=
| ErrUnsupported                  (* key.ErrUnsupported *)
| ErrTypeAssertion                (* "type assertion error: ..." *)
| ErrKeyCount                     (* "only one Key is accepted" *)
| ErrKeyName                      (* "Key provided does not have a Name equal to ..." *)
| ErrNilKey                       (* "Key ... is nil: use the Set method" *)
| ErrNilMap                       (* "map[...] is nil: use the Decode or Set methods" *)
| ErrNotEnoughFields (got want : Z)
| ErrSyntax (s : string)          (* strconv.ErrSyntax, parsing s *)
| ErrOutOfRange (s : string)      (* strconv.ErrRange, parsing s *)
| ErrCount (got want : Z)         (* row count differs from the counter *)
| ErrRange (v bound : Z)          (* identifier or type out of range *)
| ErrImageFlag (id : Z)           (* "n defined to ... but atom ... has n set to ..." *)
| ErrNegative                     (* "... is lower than zero" *)
| ErrBoxOrder                     (* "lo = ... is greater than hi = ..." *)
| ErrIO (msg : string)            (* an error of the underlying reader *)
| ErrNotAssignable                (* "Key = ... has type = ... that is not assignable ..." *)
| Wrap (ctx : string) (e : error).

Inductive outcome (A : Type) : Type :=
| Ok (a : A)
| Err (e : error)
| Panic.
Arguments Ok {A} a.
Arguments Err {A} e.
Arguments Panic {A}.

(** [errors.Is]: does [target] occur on the wrapping chain of [e]?  Only
    used with the sentinel [ErrUnsupported]. *)
Fixpoint is_unsupported (e : error) : bool :=
  match e with
  | ErrUnsupported => true
  | Wrap _ e' => is_unsupported e'
  | _ => false
  end.

(** ** Bytes, runes and the text helpers of [bytes], [strings], [unicode] *)

Definition byte_val (c : ascii) : Z := Z.of_N (N_of_ascii c).

Definition RuneError : Z := 65533.

(** [utf8.DecodeRune]: the first rune of [s] and its width in bytes. *)
Definition DecodeRune (s : string) : Z * nat :=
  match s with
  | EmptyString => (RuneError, 0%nat)
  | String c0 s1 =>
    let p0 := byte_val c0 in
    if p0 <? 128 then (p0, 1%nat)
    else if (p0 <? 194) || (244 <? p0) then (RuneError, 1%nat)
    else
      let lo := if p0 =? 224 then 160 else if p0 =? 240 then 144 else 128 in
      let hi := if p0 =? 237 then 159 else if p0 =? 244 then 143 else 191 in
      match s1 with
      | EmptyString => (RuneError, 1%nat)
      | String c1 s2 =>
        let b1 := byte_val c1 in
        if (b1 <? lo) || (hi <? b1) then (RuneError, 1%nat)
        else if p0 <? 224 then
          (Z.lor (Z.shiftl (Z.land p0 31) 6) (Z.land b1 63), 2%nat)
        else
          match s2 with
          | EmptyString => (RuneError, 1%nat)
          | String c2 s3 =>
            let b2 := byte_val c2 in
            if (b2 <? 128) || (191 <? b2) then (RuneError, 1%nat)
            else if p0 <? 240 then
              (Z.lor (Z.lor (Z.shiftl (Z.land p0 15) 12)
                            (Z.shiftl (Z.land b1 63) 6)) (Z.land b2 63), 3%nat)
            else
              match s3 with
              | EmptyString => (RuneError, 1%nat)
              | String c3 _ =>
                let b3 := byte_val c3 in
                if (b3 <? 128) || (191 <? b3) then (RuneError, 1%nat)
                else
                  (Z.lor (Z.lor (Z.lor (Z.shiftl (Z.land p0 7) 18)
                                       (Z.shiftl (Z.land b1 63) 12))
                                (Z.shiftl (Z.land b2 63) 6)) (Z.land b3 63), 4%nat)
              end
          end
      end
  end.

(** [unicode.IsSpace]. *)
Definition IsSpace (r : Z) : bool :=
  if r <=? 255 then
    (r =? 9) || (r =? 10) || (r =? 11) || (r =? 12) || (r =? 13) || (r =? 32)
    || (r =? 133) || (r =? 160)
  else
    (r =? 5760) || ((8192 <=? r) && (r <=? 8202)) || (r =? 8232) || (r =? 8233)
    || (r =? 8239) || (r =? 8287) || (r =? 12288).

(** For every byte of [s], whether the rune that a left-to-right UTF-8
    decoding of [s] reads over that byte satisfies [f].  [skip] counts the
    bytes still belonging to the rune decoded last, [cur] is its verdict. *)
Fixpoint rune_mask_go (f : Z -> bool) (skip : nat) (cur : bool) (s : string)
  : list bool :=
  match s with
  | EmptyString => []
  | String _ s' =>
    match skip with
    | S k => cur :: rune_mask_go f k cur s'
    | O => let b := f (fst (DecodeRune s)) in
           b :: rune_mask_go f (Nat.pred (snd (DecodeRune s))) b s'
    end
  end.

Definition rune_mask (f : Z -> bool) (s : string) : list bool :=
  rune_mask_go f 0 false s.

Fixpoint drop_marked (m : list bool) (s : string) : string :=
  match m, s with
  | true :: m', String _ s' => drop_marked m' s'
  | _, _ => s
  end.

(** [bytes.TrimLeftFunc(s, f)]. *)
Definition TrimLeftFunc (s : string) (f : Z -> bool) : string :=
  drop_marked (rune_mask f s) s.

Fixpoint index_marked (m : list bool) (i : Z) : Z :=
  match m with
  | [] => -1
  | true :: _ => i
  | false :: m' => index_marked m' (i + 1)
  end.

(** [bytes.IndexFunc(s, f)]: byte offset of the first rune satisfying [f],
    or -1. *)
Definition IndexFunc (s : string) (f : Z -> bool) : Z :=
  index_marked (rune_mask f s) 0.

Definition flush (cur : string) : list string :=
  match cur with EmptyString => [] | _ => [cur] end.

Fixpoint fields_marked (m : list bool) (s : string) (cur : string)
  : list string :=
  match m, s with
  | b :: m', String c s' =>
    if b then flush cur ++ fields_marked m' s' ""
    else fields_marked m' s' (cur +:+ String c "")
  | _, _ => flush cur
  end.

(** [strings.Fields(s)] / [bytes.Fields(s)]: the maximal runs of runes
    that are not [unicode.IsSpace]. *)
Definition Fields (s : string) : list string :=
  fields_marked (rune_mask IsSpace s) s "".

(** [bytes.HasPrefix(s, prefix)]. *)
Definition HasPrefix (s p : string) : bool := String.prefix p s.

Fixpoint HasSuffix_rev (s p : list ascii) : bool :=
  match p, s with
  | [], _ => true
  | c :: p', d :: s' => if Ascii.eqb c d then HasSuffix_rev s' p' else false
  | _ :: _, [] => false
  end.

(** [strings.HasSuffix(s, suffix)]. *)
Definition HasSuffix (s p : string) : bool :=
  HasSuffix_rev (rev (list_ascii_of_string s)) (rev (list_ascii_of_string p)).

(** Go slicing [s[n:]] and [s[:n]] for [0 <= n <= len(s)]. *)
Fixpoint str_drop (n : nat) (s : string) : string :=
  match n, s with
  | S k, String _ s' => str_drop k s'
  | _, _ => s
  end.

Fixpoint str_take (n : nat) (s : string) : string :=
  match n, s with
  | S k, String c s' => String c (str_take k s')
  | _, _ => ""
  end.

(** [bytes.IndexRune(s, r)] / [strings.IndexRune] for an ASCII rune [r]:
    the offset of the first such byte, or -1. *)
Fixpoint IndexByte_from (s : string) (c : ascii) (i : Z) : Z :=
  match s with
  | EmptyString => -1
  | String d s' => if Ascii.eqb d c then i else IndexByte_from s' c (i + 1)
  end.

Definition IndexRune (s : string) (c : ascii) : Z := IndexByte_from s c 0.

Fixpoint drop_marked_right (m : list bool) (s : list ascii) : list ascii :=
  match m, s with
  | true :: m', _ :: s' => drop_marked_right m' s'
  | _, _ => s
  end.

(** [strings.TrimSpace(s)]. *)
Definition TrimSpace (s : string) : string :=
  let t := TrimLeftFunc s IsSpace in
  string_of_list_ascii
    (rev (drop_marked_right (rev (rune_mask IsSpace t))
                            (rev (list_ascii_of_string t)))).

(** ** [strconv] and [fmt] on integers *)

Definition maxInt : Z := 9223372036854775807.
Definition minInt : Z := -9223372036854775808.

Definition maxUint64 : Z := 18446744073709551615.

Inductive uint_result : Type :=
| UintOk (n : Z)
| UintSyntax
| UintRange.

(** The digit loop of [strconv.ParseUint(s, 10, 64)]: stops with a syntax
    error at the first byte that is not a decimal digit, and with a range
    error as soon as the value no longer fits 64 bits. *)
Fixpoint ParseUint_go (n : Z) (s : string) : uint_result :=
  match s with
  | EmptyString => UintOk n
  | String c s' =>
    let d := byte_val c - 48 in
    if (0 <=? d) && (d <=? 9) then
      if maxUint64 <? n * 10 + d then UintRange
      else ParseUint_go (n * 10 + d) s'
    else UintSyntax
  end.

(** [strconv.Atoi] on a 64-bit platform: an optional sign and at least one
    decimal digit, nothing else.  The value returned with a syntax error is
    0; with a range error it is the nearest bound. *)
Definition Atoi (s : string) : Z * option error :=
  let '(neg, body) :=
    match s with
    | String "-" r => (true, r)
    | String "+" r => (false, r)
    | _ => (false, s)
    end in
  match body with
  | EmptyString => (0, Some (ErrSyntax s))
  | _ =>
    match ParseUint_go 0 body with
    | UintSyntax => (0, Some (ErrSyntax s))
    | UintRange => (if neg then minInt else maxInt, Some (ErrOutOfRange s))
    | UintOk n =>
      if neg then
        if - minInt <? n then (minInt, Some (ErrOutOfRange s)) else (- n, None)
      else
        if maxInt <? n then (maxInt, Some (ErrOutOfRange s)) else (n, None)
    end
  end.

(** The verb [%d] of [fmt]. *)
Definition FormatInt (z : Z) : string := NilZero.string_of_int (Z.to_int z).

(** ** The reader, the writer and what the Go runtime supplies *)

(** A [bufio.Scanner] splitting on lines: the lines still to be returned,
    the error (if any) with which the underlying reader ends, whether a
    [Scan] has already returned false, and the last token. *)
Record Scanner : Type := mkScanner {
  pending : list string;
  final : option error;
  stopped : bool;
  token : string
}.

Definition NewScanner (lines : list string) (e : option error) : Scanner :=
  mkScanner lines e false "".

(** [r.Scan()]. *)
Definition Scan (r : Scanner) : bool * Scanner :=
  match pending r with
  | l :: rest => (true, mkScanner rest (final r) false l)
  | [] => (false, mkScanner [] (final r) true "")
  end.

(** [r.Err()]: non-nil only once a [Scan] has failed on a reader error. *)
Definition ScanErr (r : Scanner) : option error :=
  if stopped r then final r else None.

(** The [io.Writer] is an in-memory buffer: every write succeeds and
    appends, so the branches of the source that return a write error are
    never taken. *)
Definition Writer : Type := string.

Definition Fprint (w : Writer) (s : string) : Writer := w +:+ s.

(** A Name is a string. *)
Definition Name : Type := string.

Definition NameAtomsNbr : Name := "atoms".
Definition NameBondsNbr : Name := "bonds".
Definition NameAnglesNbr : Name := "angles".
Definition NameDihedralsNbr : Name := "dihedrals".
Definition NameAtomTypes : Name := "atom types".
Definition NameBondTypes : Name := "bond types".
Definition NameAngleTypes : Name := "angle types".
Definition NameDihedralTypes : Name := "dihedral types".
Definition NameBoxX : Name := "xlo xhi".
Definition NameBoxY : Name := "ylo yhi".
Definition NameBoxZ : Name := "zlo zhi".
Definition NameMasses : Name := "Masses".
Definition NamePairCoeffs : Name := "Pair Coeffs".
Definition NameBondCoeffs : Name := "Bond Coeffs".
Definition NameAngleCoeffs : Name := "Angle Coeffs".
Definition NameDihedralCoeffs : Name := "Dihedral Coeffs".
Definition NameAtoms : Name := "Atoms".
Definition NameBonds : Name := "Bonds".
Definition NameAngles : Name := "Angles".
Definition NameDihedrals : Name := "Dihedrals".
Definition NameTitle : Name := "Title".

Definition ListNames : list Name :=
  [ NameAngleCoeffs; NameAngleTypes; NameAngles; NameAnglesNbr;
    NameAtomTypes; NameAtoms; NameAtomsNbr; NameBondCoeffs; NameBondTypes;
    NameBonds; NameBondsNbr; NameBoxX; NameBoxY; NameBoxZ;
    NameDihedralCoeffs; NameDihedralTypes; NameDihedrals; NameDihedralsNbr;
    NameMasses; NamePairCoeffs; NameTitle ].

(** The places where the drivers [range] over a map keyed by Name. *)
Inductive Site : Type :=
| SiteHead (line : nat)     (* keyDecode over the header Keys, at a line *)
| SiteBody (line : nat)     (* keyDecode over the body Keys, at a line *)
| SiteCheck                 (* the loop calling Check on every Key *)
| SiteFields.               (* the loop over the tagged struct fields *)

(** What the embedding takes from outside the repository: the float
    conversions of [fmt] and [strconv], and the order in which the Go
    runtime visits the keys of a map in a [range] statement (unspecified
    by the language; any permutation of the keys). *)
Record Runtime : Type := mkRuntime {
  FormatG : float -> string;                  (* verb %g *)
  ParseFloat : string -> float * option error; (* strconv.ParseFloat(s, 64) *)
  rangeNames : Site -> list Name -> list Name;
  rangeInts : Name -> list Z -> list Z
}.

Definition fair (rt : Runtime) : Prop :=
  (forall site l, rangeNames rt site l ≡ₚ l) /\
  (forall n l, rangeInts rt n l ≡ₚ l).

(** [for k, v := range m] for an int-keyed map, in the runtime's order. *)
Definition range_map {V} (order : list Z -> list Z) (m : gmap Z V)
  : list (Z * V) :=
  omap (fun k => option_map (pair k) (m !! k)) (order (map fst (map_to_list m))).

(** [sortIntsMap]: the keys in increasing order. *)
Definition sortIntsMap {V} (m : gmap Z V) : list Z :=
  merge_sort Z.le (map fst (map_to_list m)).

(** [delComments]: everything from the first '#' on is dropped. *)
Definition delComments (s : string) : string :=
  let idx := IndexRune s "#" in
  if idx =? -1 then s else str_take (Z.to_nat idx) s.

Fixpoint keywordHeader_rest (s : string) (ps : list string) : bool :=
  match ps with
  | [] => true
  | p :: ps' =>
    let idx := IndexFunc s IsSpace in
    if idx =? -1 then false
    else
      let s := TrimLeftFunc (str_drop (Z.to_nat idx) s) IsSpace in
      if HasPrefix s p then keywordHeader_rest s ps' else false
  end.

(** [keywordHeader]: [s], after leading spaces, carries the words of
    [prefix] in order, each starting a space-separated field. *)
Definition keywordHeader (s : string) (prefix : list string) : bool :=
  match prefix with
  | [] => false
  | p0 :: rest =>
    let s := TrimLeftFunc s IsSpace in
    if HasPrefix s p0 then keywordHeader_rest s rest else false
  end.

(** [keyword]: [s] begins with [prefix] after trimming leading spaces. *)
Definition keyword (s prefix : string) : bool :=
  HasPrefix (TrimLeftFunc s IsSpace) prefix.

Definition len {V} (m : option (gmap Z V)) : Z :=
  match m with None => 0 | Some g => Z.of_nat (size g) end.

(** [outcome] is a monad; a definition that follows a Go function
    statement by statement is written with [x ← m; k]. *)
#[global] Instance outcome_ret : MRet outcome := fun _ a => Ok a.
#[global] Instance outcome_bind : MBind outcome := fun _ _ k m =>
  match m with Ok a => k a | Err e => Err e | Panic => Panic end.

Definition check_err {A} (err : option error) (ctx : string) (k : outcome A)
  : outcome A :=
  match err with Some e => Err (Wrap ctx e) | None => k end.

Definition nl : string := String (ascii_of_nat 10) "".

(** [f[i]]: indexing a slice out of range panics. *)
Definition index (f : list string) (i : nat) : outcome string :=
  match f !! i with Some x => Ok x | None => Panic end.

(** ** The Keys: their state *)

Record Title : Type := mkTitle { t_v : string }.

Record Header : Type := mkHeader {
  h_name : Name;
  h_nameSep : list string;
  h_vBytes : string;
  h_v : Z
}.

Record Box : Type := mkBox {
  b_name : Name;
  b_nameSep : list string;
  b_vBytes0 : string;
  b_vBytes1 : string;
  b_vlo : float;
  b_vhi : float
}.

Record Masses : Type := mkMasses {
  m_types : option Name;
  m_v : option (gmap Z float)
}.

Record Coeffs : Type := mkCoeffs {
  c_name : Name;
  c_types : option Name;
  c_v : option (gmap Z (list float))
}.

Record Atom : Type := mkAtom {
  MolTag : Z;
  AtomType : Z;
  Q : float;
  X : float;
  Y : float;
  Z_ : float;
  N : bool;
  NX : Z;
  NY : Z;
  NZ : Z
}.

Inductive AtomStyle : Type :=
| AtomStyleFull
| AtomStyleAtomic.

Record Atoms : Type := mkAtoms {
  a_atomStyle : AtomStyle;
  a_atomsNbr : option Name;
  a_atomTypes : option Name;
  a_v : option (gmap Z (option Atom))
}.

Record Link : Type := mkLink {
  l_typ : Z;
  l_atoms : list Z            (* the field [links] of [Link] *)
}.

Record Links : Type := mkLinks {
  l_name : Name;
  l_links : Z;
  l_nbr : option Name;
  l_types : option Name;
  l_atomsNbr : option Name;
  l_v : option (gmap Z (option Link))
}.

(** The Key interface is implemented by seven pointer types. *)
Inductive Key : Type :=
| KTitle (t : Title)
| KHeader (h : Header)
| KBox (b : Box)
| KMasses (m : Masses)
| KCoeffs (c : Coeffs)
| KAtoms (a : Atoms)
| KLinks (l : Links).

(** The values exchanged through [Set] and [Get] ([interface{}]), by
    dynamic type; [VOther] is a value of any other type. *)
Inductive GoValue : Type :=
| VString (s : string)
| VInt (n : Z)
| VFloat2 (lo hi : float)
| VMasses (m : option (gmap Z float))
| VCoeffs (m : option (gmap Z (list float)))
| VAtoms (m : option (gmap Z (option Atom)))
| VLinks (m : option (gmap Z (option Link)))
| VOther (ty : nat).

Inductive GoType : Type :=
| TString | TInt | TFloat2 | TMasses | TCoeffs | TAtoms | TLinks
| TOther (ty : nat).

Definition TypeOf (v : GoValue) : GoType :=
  match v with
  | VString _ => TString
  | VInt _ => TInt
  | VFloat2 _ _ => TFloat2
  | VMasses _ => TMasses
  | VCoeffs _ => TCoeffs
  | VAtoms _ => TAtoms
  | VLinks _ => TLinks
  | VOther ty => TOther ty
  end.

#[global] Instance GoType_eq_dec : EqDecision GoType.
Proof. solve_decision. Defined.

(** The registry's Keys, by Name ([map[Name]Key]).  A [*Header] held by
    another Key is the Name of that Header in this map. *)
Abbreviation Store := (gmap Name Key).

Definition deref (st : Store) (p : Name) : option Header :=
  match st !! p with
  | Some (KHeader h) => Some h
  | _ => None
  end.

(** [p.Get().(int)] for a non-nil [p : *Header]. *)
Definition getInt (st : Store) (p : Name) : outcome Z :=
  match deref st p with
  | Some h => Ok (h_v h)
  | None => Panic
  end.

(** [p.Set(n)] for a non-nil [p : *Header] and an int [n]. *)
Definition setInt (st : Store) (p : Name) (n : Z) : Store :=
  match deref st p with
  | Some h => <[p := KHeader (mkHeader (h_name h) (h_nameSep h) (h_vBytes h) n)]> st
  | None => st
  end.

(** ** Title *)

Definition Title_Set (t : Title) (v : GoValue) : Title * option error :=
  match v with
  | VString s => (mkTitle s, None)
  | _ => (t, Some ErrTypeAssertion)
  end.

(** ** Header *)

Definition NewHeader (name : Name) : Header :=
  mkHeader name (Fields name) "" 0.

Definition Header_Keyword (h : Header) (s : string) : bool * Header :=
  let s := TrimLeftFunc s IsSpace in
  let idx := IndexFunc s IsSpace in
  if idx =? -1 then (false, h)
  else
    (keywordHeader (str_drop (Z.to_nat idx) s) (h_nameSep h),
     mkHeader (h_name h) (h_nameSep h) (str_take (Z.to_nat idx) s) (h_v h)).

Definition Header_Encode (h : Header) (w : Writer) : Writer :=
  Fprint w (FormatInt (h_v h) +:+ " " +:+ h_name h +:+ nl).

Definition Header_Decode (h : Header) : Header * option error :=
  let '(v, err) := Atoi (h_vBytes h) in
  (mkHeader (h_name h) (h_nameSep h) (h_vBytes h) v,
   option_map (Wrap "strconv.Atoi") err).

Definition Header_Set (h : Header) (v : GoValue) : Header * option error :=
  match v with
  | VInt n => (mkHeader (h_name h) (h_nameSep h) (h_vBytes h) n, None)
  | _ => (mkHeader (h_name h) (h_nameSep h) (h_vBytes h) 0, Some ErrTypeAssertion)
  end.

Definition Header_Check (h : Header) : option error :=
  if h_v h <? 0 then Some ErrNegative else None.

(** ** Box *)

Definition NewBox (name : Name) : Box :=
  mkBox name (Fields name) "" "" 0%float 0%float.

Definition Box_Keyword (b : Box) (s : string) : bool * Box :=
  let s0 := TrimLeftFunc s IsSpace in
  let idx0 := IndexFunc s0 IsSpace in
  if idx0 <? 1 then (false, b)
  else
    let b := mkBox (b_name b) (b_nameSep b) (str_take (Z.to_nat idx0) s0)
                   (b_vBytes1 b) (b_vlo b) (b_vhi b) in
    let s1 := TrimLeftFunc (str_drop (Z.to_nat idx0) s0) IsSpace in
    let idx1 := IndexFunc s1 IsSpace in
    if idx1 <? 1 then (false, b)
    else
      let b := mkBox (b_name b) (b_nameSep b) (b_vBytes0 b)
                     (str_take (Z.to_nat idx1) s1) (b_vlo b) (b_vhi b) in
      (keywordHeader (str_drop (Z.to_nat idx1) s1) (b_nameSep b), b).

Definition Box_Encode (rt : Runtime) (b : Box) (w : Writer) : Writer :=
  Fprint w (FormatG rt (b_vlo b) +:+ " " +:+ FormatG rt (b_vhi b) +:+ " "
            +:+ b_name b +:+ nl).

Definition Box_Decode (rt : Runtime) (b : Box) : Box * option error :=
  let '(lo, err) := ParseFloat rt (b_vBytes0 b) in
  let b := mkBox (b_name b) (b_nameSep b) (b_vBytes0 b) (b_vBytes1 b) lo (b_vhi b) in
  match err with
  | Some e => (b, Some (Wrap "strconv.ParseFloat lo" e))
  | None =>
    let '(hi, err) := ParseFloat rt (b_vBytes1 b) in
    (mkBox (b_name b) (b_nameSep b) (b_vBytes0 b) (b_vBytes1 b) (b_vlo b) hi, err)
  end.

Definition Box_Set (b : Box) (v : GoValue) : Box * option error :=
  match v with
  | VFloat2 lo hi =>
    (mkBox (b_name b) (b_nameSep b) (b_vBytes0 b) (b_vBytes1 b) lo hi, None)
  | _ => (b, Some ErrTypeAssertion)
  end.

Definition Box_Check (b : Box) : option error :=
  if (b_vhi b <? b_vlo b)%float then Some ErrBoxOrder else None.

(** ** Tables: the shared loops *)

(** [for i := 0; i < n && r.Scan(); i++ { id, x, err := row(r.Text());
    if err != nil { return err }; v[id] = x }], the data loop of every
    table's Decode. *)
Fixpoint scan_rows {V} (row : string -> outcome (Z * V)) (n : nat)
    (v : gmap Z V) (r : Scanner) : gmap Z V * Scanner * outcome unit :=
  match n with
  | O => (v, r, Ok tt)
  | S n' =>
    let '(ok, r1) := Scan r in
    if ok then
      match row (token r1) with
      | Ok (id, x) => scan_rows row n' (<[id := x]> v) r1
      | Err e => (v, r1, Err e)
      | Panic => (v, r1, Panic)
      end
    else (v, r1, Ok tt)
  end.

(** [if r.Err() != nil { return fmt.Errorf(ctx, r.Err()) }; return nil]. *)
Definition scan_status (r : Scanner) (ctx : string) : outcome unit :=
  match ScanErr r with
  | Some e => Err (Wrap ctx e)
  | None => Ok tt
  end.

(** A loop body run over a list until the first error or panic. *)
Fixpoint for_each {A} (body : A -> outcome unit) (l : list A) : outcome unit :=
  match l with
  | [] => Ok tt
  | a :: l' =>
    match body a with
    | Ok _ => for_each body l'
    | Err e => Err e
    | Panic => Panic
    end
  end.

(** A loop body writing to [w], run until the first error or panic. *)
Fixpoint write_each {A} (body : A -> Writer -> Writer * outcome unit)
    (l : list A) (w : Writer) : Writer * outcome unit :=
  match l with
  | [] => (w, Ok tt)
  | a :: l' =>
    match body a w with
    | (w1, Ok _) => write_each body l' w1
    | (w1, r) => (w1, r)
    end
  end.

Definition entries {V} (m : option (gmap Z V)) : gmap Z V :=
  match m with Some g => g | None => ∅ end.

(** ** Masses *)

Definition Masses_SetKeys (m : Masses) (k : list Key) : Masses * option error :=
  match k with
  | [k0] =>
    match k0 with
    | KHeader h =>
      let m := mkMasses (Some (h_name h)) (m_v m) in
      if String.eqb (h_name h) NameAtomTypes then (m, None)
      else (m, Some ErrKeyName)
    | _ => (mkMasses None (m_v m), Some ErrTypeAssertion)
    end
  | _ => (m, Some ErrKeyCount)
  end.

Definition Masses_SetKeysVal (st : Store) (m : Masses) : Store * option error :=
  match m_types m with
  | None => (st, Some ErrNilKey)
  | Some p => (setInt st p (len (m_v m)), None)
  end.

Definition Masses_Encode (rt : Runtime) (m : Masses) (w : Writer)
  : Writer * outcome unit :=
  match m_v m with
  | None => (w, Err ErrNilMap)
  | Some v =>
    if (size v =? 0)%nat then (w, Ok tt)
    else
      let keys := sortIntsMap v in
      let w := Fprint w (NameMasses +:+ nl +:+ nl) in
      write_each (fun k w =>
        (Fprint w (FormatInt k +:+ " " +:+ FormatG rt (default 0%float (v !! k)) +:+ nl),
         Ok tt)) keys w
  end.

Definition Masses_row (rt : Runtime) (line : string) : outcome (Z * float) :=
  let f := Fields line in
  if Z.of_nat (length f) <? 2 then Err (ErrNotEnoughFields (Z.of_nat (length f)) 2)
  else
    f0 ← index f 0;
    let '(atomType, err) := Atoi f0 in
    check_err err "strconv.Atoi" (
      f1 ← index f 1;
      let '(mass, err) := ParseFloat rt f1 in
      check_err err "strconv.ParseFloat" (Ok (atomType, mass))).

Definition Masses_Decode (rt : Runtime) (st : Store) (m : Masses) (r : Scanner)
  : Masses * Scanner * outcome unit :=
  match m_types m with
  | None => (m, r, Err ErrNilKey)
  | Some p =>
    let m := mkMasses (m_types m) (Some ∅) in
    let '(ok, r) := Scan r in
    if negb ok then (m, r, scan_status r "r.Scan first line")
    else
      match getInt st p with
      | Ok types =>
        let '(v, r, res) := scan_rows (Masses_row rt) (Z.to_nat types) ∅ r in
        let m := mkMasses (m_types m) (Some v) in
        match res with
        | Ok _ => (m, r, scan_status r "r.Scan")
        | _ => (m, r, res)
        end
      | Err e => (m, r, Err e)
      | Panic => (m, r, Panic)
      end
  end.

Definition Masses_Set (m : Masses) (v : GoValue) : Masses * option error :=
  match v with
  | VMasses g => (mkMasses (m_types m) g, None)
  | _ => (mkMasses (m_types m) None, Some ErrTypeAssertion)
  end.

Definition Masses_Check (rt : Runtime) (st : Store) (m : Masses) : outcome unit :=
  match m_types m with
  | None => Err ErrNilKey
  | Some p =>
    types ← getInt st p;
    if negb (len (m_v m) =? types) then Err (ErrCount (len (m_v m)) types)
    else
      for_each (fun '(typ, mass) =>
        if (mass <? 0)%float then Err ErrNegative
        else if (typ <? 1) || (types <? typ) then Err (ErrRange typ types)
        else Ok tt)
        (range_map (rangeInts rt NameMasses) (entries (m_v m)))
  end.

(** ** Coeffs *)

Definition NewCoeffs (name : Name) : Coeffs := mkCoeffs name None None.

Definition Coeffs_SetKeys (c : Coeffs) (k : list Key) : Coeffs * option error :=
  match k with
  | [k0] =>
    match k0 with
    | KHeader h => (mkCoeffs (c_name c) (Some (h_name h)) (c_v c), None)
    | _ => (mkCoeffs (c_name c) None (c_v c), Some ErrTypeAssertion)
    end
  | _ => (c, Some ErrKeyCount)
  end.

Definition Coeffs_SetKeysVal (st : Store) (c : Coeffs) : Store * option error :=
  match c_types c with
  | None => (st, Some ErrNilKey)
  | Some p => (setInt st p (len (c_v c)), None)
  end.

Definition Coeffs_Encode (rt : Runtime) (c : Coeffs) (w : Writer)
  : Writer * outcome unit :=
  match c_v c with
  | None => (w, Err ErrNilMap)
  | Some v =>
    if (size v =? 0)%nat then (w, Ok tt)
    else
      let keys := sortIntsMap v in
      let w := Fprint w (c_name c +:+ nl +:+ nl) in
      write_each (fun k w =>
        let w := Fprint w (FormatInt k) in
        let w := fold_left (fun w x => Fprint w (" " +:+ FormatG rt x))
                           (default [] (v !! k)) w in
        (Fprint w nl, Ok tt)) keys w
  end.

(** [for _, v := range f { x, err := strconv.ParseFloat(v, 64); if err !=
    nil { return err }; coeffs = append(coeffs, x) }]. *)
Fixpoint parse_floats (rt : Runtime) (f : list string) (acc : list float)
  : outcome (list float) :=
  match f with
  | [] => Ok acc
  | v :: f' =>
    let '(x, err) := ParseFloat rt v in
    check_err err "strconv.ParseFloat" (parse_floats rt f' (acc ++ [x]))
  end.

Definition Coeffs_row (rt : Runtime) (line : string) : outcome (Z * list float) :=
  let s := delComments line in
  let f := Fields s in
  if Z.of_nat (length f) <? 2 then Err (ErrNotEnoughFields (Z.of_nat (length f)) 2)
  else
    f0 ← index f 0;
    let '(typ, err) := Atoi f0 in
    check_err err "strconv.Atoi type" (
      coeffs ← parse_floats rt (drop 1 f) [];
      Ok (typ, coeffs)).

Definition Coeffs_Decode (rt : Runtime) (st : Store) (c : Coeffs) (r : Scanner)
  : Coeffs * Scanner * outcome unit :=
  match c_types c with
  | None => (c, r, Err ErrNilKey)
  | Some p =>
    match getInt st p with
    | Ok types =>
      let c := mkCoeffs (c_name c) (c_types c) (Some ∅) in
      let '(ok, r) := Scan r in
      if negb ok then (c, r, scan_status r "r.Scan first line")
      else
        let '(v, r, res) := scan_rows (Coeffs_row rt) (Z.to_nat types) ∅ r in
        let c := mkCoeffs (c_name c) (c_types c) (Some v) in
        match res with
        | Ok _ => (c, r, scan_status r "r.Scan")
        | _ => (c, r, res)
        end
    | Err e => (c, r, Err e)
    | Panic => (c, r, Panic)
    end
  end.

Definition Coeffs_Set (c : Coeffs) (v : GoValue) : Coeffs * option error :=
  match v with
  | VCoeffs g => (mkCoeffs (c_name c) (c_types c) g, None)
  | _ => (mkCoeffs (c_name c) (c_types c) None, Some ErrTypeAssertion)
  end.

Definition Coeffs_Check (rt : Runtime) (st : Store) (c : Coeffs) : outcome unit :=
  match c_types c with
  | None => Err ErrNilKey
  | Some p =>
    types ← getInt st p;
    if negb (len (c_v c) =? types) then Err (ErrCount (len (c_v c)) types)
    else
      for_each (fun '(typ, _) =>
        if (typ <? 1) || (types <? typ) then Err (ErrRange typ types)
        else Ok tt)
        (range_map (rangeInts rt (c_name c)) (entries (c_v c)))
  end.

(** ** Atom styles *)

Definition AtomStyle_Name (s : AtomStyle) : string :=
  match s with AtomStyleFull => "full" | AtomStyleAtomic => "atomic" end.

Definition ListAtomStyles : list AtomStyle := [AtomStyleFull; AtomStyleAtomic].

Definition set_MolTag (x : Z) (a : Atom) : Atom :=
  mkAtom x (AtomType a) (Q a) (X a) (Y a) (Z_ a) (N a) (NX a) (NY a) (NZ a).
Definition set_AtomType (x : Z) (a : Atom) : Atom :=
  mkAtom (MolTag a) x (Q a) (X a) (Y a) (Z_ a) (N a) (NX a) (NY a) (NZ a).
Definition set_Q (x : float) (a : Atom) : Atom :=
  mkAtom (MolTag a) (AtomType a) x (X a) (Y a) (Z_ a) (N a) (NX a) (NY a) (NZ a).
Definition set_X (x : float) (a : Atom) : Atom :=
  mkAtom (MolTag a) (AtomType a) (Q a) x (Y a) (Z_ a) (N a) (NX a) (NY a) (NZ a).
Definition set_Y (x : float) (a : Atom) : Atom :=
  mkAtom (MolTag a) (AtomType a) (Q a) (X a) x (Z_ a) (N a) (NX a) (NY a) (NZ a).
Definition set_Z (x : float) (a : Atom) : Atom :=
  mkAtom (MolTag a) (AtomType a) (Q a) (X a) (Y a) x (N a) (NX a) (NY a) (NZ a).
Definition set_N (x : bool) (a : Atom) : Atom :=
  mkAtom (MolTag a) (AtomType a) (Q a) (X a) (Y a) (Z_ a) x (NX a) (NY a) (NZ a).
Definition set_NX (x : Z) (a : Atom) : Atom :=
  mkAtom (MolTag a) (AtomType a) (Q a) (X a) (Y a) (Z_ a) (N a) x (NY a) (NZ a).
Definition set_NY (x : Z) (a : Atom) : Atom :=
  mkAtom (MolTag a) (AtomType a) (Q a) (X a) (Y a) (Z_ a) (N a) (NX a) x (NZ a).
Definition set_NZ (x : Z) (a : Atom) : Atom :=
  mkAtom (MolTag a) (AtomType a) (Q a) (X a) (Y a) (Z_ a) (N a) (NX a) (NY a) x.

(** [atom.F = x] through [atom : *Atom]: a nil pointer panics. *)
Definition store_field (atom : option Atom) (upd : Atom -> Atom)
  : outcome (option Atom) :=
  match atom with
  | None => Panic
  | Some a => Ok (Some (upd a))
  end.

(** The optional image triple, read when [len(f)] is the style's minimum
    plus three; [i] is the index of [nx]. *)
Definition decode_images (f : list string) (i : nat) (atom : option Atom)
  : outcome (option Atom) :=
  atom ← store_field atom (set_N true);
  fx ← index f i;
  let '(x, err) := Atoi fx in
  atom ← store_field atom (set_NX x);
  check_err err "strconv.Atoi NX" (
    fy ← index f (i + 1);
    let '(x, err) := Atoi fy in
    atom ← store_field atom (set_NY x);
    check_err err "strconv.Atoi NY" (
      fz ← index f (i + 2);
      let '(x, err) := Atoi fz in
      atom ← store_field atom (set_NZ x);
      check_err err "strconv.Atoi NZ" (Ok atom))).

(** [atomStyleFull.Decode].  The result [atom] is a named result of
    pointer type that the function never allocates: it is nil when the
    first field is stored through it. *)
Definition atomStyleFull_Decode (rt : Runtime) (f : list string)
  : outcome (Z * option Atom) :=
  let atom : option Atom := None in
  if Z.of_nat (length f) <? 7
  then Err (ErrNotEnoughFields (Z.of_nat (length f)) 7)
  else
    f0 ← index f 0;
    let '(id, err) := Atoi f0 in
    check_err err "strconv.Atoi id" (
    f1 ← index f 1;
    let '(x, err) := Atoi f1 in
    atom ← store_field atom (set_MolTag x);
    check_err err "strconv.Atoi MolTag" (
    f2 ← index f 2;
    let '(x, err) := Atoi f2 in
    atom ← store_field atom (set_AtomType x);
    check_err err "strconv.Atoi AtomType" (
    f3 ← index f 3;
    let '(x, err) := ParseFloat rt f3 in
    atom ← store_field atom (set_Q x);
    check_err err "strconv.ParseFloat Q" (
    f4 ← index f 4;
    let '(x, err) := ParseFloat rt f4 in
    atom ← store_field atom (set_X x);
    check_err err "strconv.ParseFloat X" (
    f5 ← index f 5;
    let '(x, err) := ParseFloat rt f5 in
    atom ← store_field atom (set_Y x);
    check_err err "strconv.ParseFloat Y" (
    f6 ← index f 6;
    let '(x, err) := ParseFloat rt f6 in
    atom ← store_field atom (set_Z x);
    check_err err "strconv.ParseFloat Z" (
    atom ← store_field atom (set_N false);
    atom ← (if (length f =? 10)%nat then decode_images f 7 atom else Ok atom);
    Ok (id, atom)))))))).

(** [atomStyleAtomic.Decode]; the same remark applies to [atom]. *)
Definition atomStyleAtomic_Decode (rt : Runtime) (f : list string)
  : outcome (Z * option Atom) :=
  let atom : option Atom := None in
  if Z.of_nat (length f) <? 5
  then Err (ErrNotEnoughFields (Z.of_nat (length f)) 5)
  else
    f0 ← index f 0;
    let '(id, err) := Atoi f0 in
    check_err err "strconv.Atoi id" (
    f1 ← index f 1;
    let '(x, err) := Atoi f1 in
    atom ← store_field atom (set_AtomType x);
    check_err err "strconv.Atoi AtomType" (
    f2 ← index f 2;
    let '(x, err) := ParseFloat rt f2 in
    atom ← store_field atom (set_X x);
    check_err err "strconv.ParseFloat X" (
    f3 ← index f 3;
    let '(x, err) := ParseFloat rt f3 in
    atom ← store_field atom (set_Y x);
    check_err err "strconv.ParseFloat Y" (
    f4 ← index f 4;
    let '(x, err) := ParseFloat rt f4 in
    atom ← store_field atom (set_Z x);
    check_err err "strconv.ParseFloat Z" (
    atom ← store_field atom (set_N false);
    atom ← (if (length f =? 8)%nat then decode_images f 5 atom else Ok atom);
    Ok (id, atom)))))).

Definition AtomStyle_Decode (rt : Runtime) (s : AtomStyle) (f : list string)
  : outcome (Z * option Atom) :=
  match s with
  | AtomStyleFull => atomStyleFull_Decode rt f
  | AtomStyleAtomic => atomStyleAtomic_Decode rt f
  end.

(** [AtomStyle.Encode(atom, w)]: reads the fields through [atom]. *)
Definition AtomStyle_Encode (rt : Runtime) (s : AtomStyle) (atom : option Atom)
    (w : Writer) : Writer * outcome unit :=
  match atom with
  | None => (w, Panic)
  | Some a =>
    match s with
    | AtomStyleFull =>
      (Fprint w (FormatInt (MolTag a) +:+ " " +:+ FormatInt (AtomType a) +:+ " "
                 +:+ FormatG rt (Q a) +:+ " " +:+ FormatG rt (X a) +:+ " "
                 +:+ FormatG rt (Y a) +:+ " " +:+ FormatG rt (Z_ a)), Ok tt)
    | AtomStyleAtomic =>
      (Fprint w (FormatInt (AtomType a) +:+ " " +:+ FormatG rt (X a) +:+ " "
                 +:+ FormatG rt (Y a) +:+ " " +:+ FormatG rt (Z_ a)), Ok tt)
    end
  end.

(** ** Atoms *)

Definition NewAtoms (s : AtomStyle) : Atoms := mkAtoms s None None None.

Fixpoint Atoms_SetKeys (a : Atoms) (k : list Key) : Atoms * option error :=
  match k with
  | [] => (a, None)
  | key :: k' =>
    match key with
    | KHeader header =>
      if String.eqb (h_name header) NameAtomsNbr then
        Atoms_SetKeys (mkAtoms (a_atomStyle a) (Some (h_name header))
                               (a_atomTypes a) (a_v a)) k'
      else if String.eqb (h_name header) NameAtomTypes then
        Atoms_SetKeys (mkAtoms (a_atomStyle a) (a_atomsNbr a)
                               (Some (h_name header)) (a_v a)) k'
      else (a, Some ErrKeyName)
    | _ => (a, Some ErrTypeAssertion)
    end
  end.

Definition Atoms_Encode (rt : Runtime) (a : Atoms) (w : Writer)
  : Writer * outcome unit :=
  match a_v a with
  | None => (w, Err ErrNilMap)
  | Some v =>
    if (size v =? 0)%nat then (w, Ok tt)
    else
      let keys := sortIntsMap v in
      let w := Fprint w (NameAtoms +:+ nl +:+ nl) in
      write_each (fun k w =>
        let atom := default None (v !! k) in
        let w := Fprint w (FormatInt k +:+ " ") in
        match AtomStyle_Encode rt (a_atomStyle a) atom w with
        | (w, Ok _) =>
          match atom with
          | None => (w, Panic)
          | Some x =>
            if N x then
              (Fprint w (" " +:+ FormatInt (NX x) +:+ " " +:+ FormatInt (NY x)
                         +:+ " " +:+ FormatInt (NZ x) +:+ nl), Ok tt)
            else (Fprint w nl, Ok tt)
          end
        | (w, Err e) => (w, Err (Wrap "a.atomStyle.Encode" e))
        | (w, Panic) => (w, Panic)
        end) keys w
  end.

Definition Atoms_row (rt : Runtime) (s : AtomStyle) (line : string)
  : outcome (Z * option Atom) :=
  let s' := delComments line in
  let f := Fields s' in
  AtomStyle_Decode rt s f.

Definition Atoms_Decode (rt : Runtime) (st : Store) (a : Atoms) (r : Scanner)
  : Atoms * Scanner * outcome unit :=
  match a_atomsNbr a with
  | None => (a, r, Err ErrNilKey)
  | Some p =>
    let '(ok, r) := Scan r in
    if negb ok then (a, r, scan_status r "r.Scan first line")
    else
      let a := mkAtoms (a_atomStyle a) (a_atomsNbr a) (a_atomTypes a) (Some ∅) in
      match getInt st p with
      | Ok atomsNbr =>
        let '(v, r, res) :=
          scan_rows (Atoms_row rt (a_atomStyle a)) (Z.to_nat atomsNbr) ∅ r in
        let a := mkAtoms (a_atomStyle a) (a_atomsNbr a) (a_atomTypes a) (Some v) in
        match res with
        | Ok _ => (a, r, scan_status r "r.Scan")
        | _ => (a, r, res)
        end
      | Err e => (a, r, Err e)
      | Panic => (a, r, Panic)
      end
  end.

Definition Atoms_Set (a : Atoms) (v : GoValue) : Atoms * option error :=
  match v with
  | VAtoms g => (mkAtoms (a_atomStyle a) (a_atomsNbr a) (a_atomTypes a) g, None)
  | _ => (mkAtoms (a_atomStyle a) (a_atomsNbr a) (a_atomTypes a) None,
          Some ErrTypeAssertion)
  end.

(** The loop of [Atoms.Check]: [first] and [n] are its two variables. *)
Fixpoint Atoms_Check_loop (atomsNbr atomsTypes : Z) (first n : bool)
    (l : list (Z * option Atom)) : outcome unit :=
  match l with
  | [] => Ok tt
  | (typ, atom) :: l' =>
    n ← (if first then
           match atom with None => Panic | Some a => Ok (N a) end
         else Ok n);
    if (typ <? 1) || (atomsNbr <? typ) then Err (ErrRange typ atomsNbr)
    else
      match atom with
      | None => Panic
      | Some a =>
        if (AtomType a <? 1) || (atomsTypes <? AtomType a)
        then Err (ErrRange (AtomType a) atomsTypes)
        else if negb (Bool.eqb (N a) n) then Err (ErrImageFlag typ)
        else Atoms_Check_loop atomsNbr atomsTypes false n l'
      end
  end.

Definition Atoms_Check (rt : Runtime) (st : Store) (a : Atoms) : outcome unit :=
  match a_atomTypes a, a_atomsNbr a with
  | Some pt, Some pn =>
    atomsNbr ← getInt st pn;
    atomsTypes ← getInt st pt;
    if negb (len (a_v a) =? atomsNbr) then Err (ErrCount (len (a_v a)) atomsNbr)
    else if len (a_v a) =? 0 then Ok tt
    else
      Atoms_Check_loop atomsNbr atomsTypes true false
        (range_map (rangeInts rt NameAtoms) (entries (a_v a)))
  | _, _ => Err ErrNilKey
  end.

Definition Atoms_SetKeysVal (st : Store) (a : Atoms) : Store * option error :=
  match a_atomsNbr a with
  | None => (st, Some ErrNilKey)
  | Some p => (setInt st p (len (a_v a)), None)
  end.

(** ** Links *)

Definition NewLinks (name : Name) (links : Z) : Links :=
  mkLinks name (links + 2) None None None None.

Fixpoint Links_SetKeys (l : Links) (k : list Key) : Links * option error :=
  match k with
  | [] => (l, None)
  | key :: k' =>
    match key with
    | KHeader header =>
      if String.eqb (h_name header) NameAtomsNbr then
        Links_SetKeys (mkLinks (l_name l) (l_links l) (l_nbr l) (l_types l)
                               (Some (h_name header)) (l_v l)) k'
      else if HasSuffix (h_name header) "types" then
        Links_SetKeys (mkLinks (l_name l) (l_links l) (l_nbr l)
                               (Some (h_name header)) (l_atomsNbr l) (l_v l)) k'
      else
        Links_SetKeys (mkLinks (l_name l) (l_links l) (Some (h_name header))
                               (l_types l) (l_atomsNbr l) (l_v l)) k'
    | _ => (l, Some ErrTypeAssertion)
    end
  end.

Definition Links_Encode (l : Links) (w : Writer) : Writer * outcome unit :=
  match l_v l with
  | None => (w, Err ErrNilMap)
  | Some v =>
    if (size v =? 0)%nat then (w, Ok tt)
    else
      let keys := sortIntsMap v in
      let w := Fprint w (l_name l +:+ nl +:+ nl) in
      write_each (fun k w =>
        match default None (v !! k) with
        | None => (w, Panic)
        | Some link =>
          let w := Fprint w (FormatInt k +:+ " " +:+ FormatInt (l_typ link)) in
          let w := fold_left (fun w x => Fprint w (" " +:+ FormatInt x))
                             (l_atoms link) w in
          (Fprint w nl, Ok tt)
        end) keys w
  end.

(** [for _, v := range f { atom, err := strconv.Atoi(v); if err != nil {
    return err }; links = append(links, atom) }]. *)
Fixpoint parse_ints (f : list string) (acc : list Z) : outcome (list Z) :=
  match f with
  | [] => Ok acc
  | v :: f' =>
    let '(x, err) := Atoi v in
    check_err err "strconv.Atoi link" (parse_ints f' (acc ++ [x]))
  end.

Definition Links_row (links : Z) (line : string) : outcome (Z * option Link) :=
  let f := Fields line in
  if Z.of_nat (length f) <? links
  then Err (ErrNotEnoughFields (Z.of_nat (length f)) links)
  else
    f0 ← index f 0;
    let '(id, err) := Atoi f0 in
    check_err err "strconv.Atoi id" (
      f1 ← index f 1;
      let '(typ, err) := Atoi f1 in
      check_err err "strconv.Atoi type" (
        if links <? 2 then Panic          (* f[2:l.links] with 2 > l.links *)
        else
          atoms ← parse_ints (take (Z.to_nat links - 2) (drop 2 f)) [];
          Ok (id, Some (mkLink typ atoms)))).

Definition Links_Decode (st : Store) (l : Links) (r : Scanner)
  : Links * Scanner * outcome unit :=
  match l_nbr l with
  | None => (l, r, Err ErrNilKey)
  | Some p =>
    match getInt st p with
    | Ok types =>
      let l := mkLinks (l_name l) (l_links l) (l_nbr l) (l_types l)
                       (l_atomsNbr l) (Some ∅) in
      let '(ok, r) := Scan r in
      if negb ok then (l, r, scan_status r "r.Scan first line")
      else
        let '(v, r, res) := scan_rows (Links_row (l_links l)) (Z.to_nat types) ∅ r in
        let l := mkLinks (l_name l) (l_links l) (l_nbr l) (l_types l)
                         (l_atomsNbr l) (Some v) in
        match res with
        | Ok _ => (l, r, scan_status r "r.Scan")
        | _ => (l, r, res)
        end
    | Err e => (l, r, Err e)
    | Panic => (l, r, Panic)
    end
  end.

Definition Links_Set (l : Links) (v : GoValue) : Links * option error :=
  match v with
  | VLinks g => (mkLinks (l_name l) (l_links l) (l_nbr l) (l_types l)
                         (l_atomsNbr l) g, None)
  | _ => (mkLinks (l_name l) (l_links l) (l_nbr l) (l_types l)
                  (l_atomsNbr l) None, Some ErrTypeAssertion)
  end.

Definition Links_Check (rt : Runtime) (st : Store) (l : Links) : outcome unit :=
  match l_types l, l_atomsNbr l, l_nbr l with
  | Some pt, Some pa, Some pn =>
    nbr ← getInt st pn;
    types ← getInt st pt;
    atomsNbr ← getInt st pa;
    if negb (len (l_v l) =? nbr) then Err (ErrCount (len (l_v l)) nbr)
    else
      for_each (fun '(id, link) =>
        if (id <? 1) || (nbr <? id) then Err (ErrRange id nbr)
        else
          match link with
          | None => Panic
          | Some link =>
            if (l_typ link <? 1) || (types <? l_typ link) then Err (ErrRange id nbr)
            else
              for_each (fun atom =>
                if (atom <? 1) || (atomsNbr <? atom) then Err (ErrRange id nbr)
                else Ok tt) (l_atoms link)
          end)
        (range_map (rangeInts rt (l_name l)) (entries (l_v l)))
  | _, _, _ => Err ErrNilKey
  end.

Definition Links_SetKeysVal (st : Store) (l : Links) : Store * option error :=
  match l_nbr l with
  | None => (st, Some ErrNilKey)
  | Some p => (setInt st p (len (l_v l)), None)
  end.

(** ** The Key interface *)

Definition Key_Name (k : Key) : Name :=
  match k with
  | KTitle _ => NameTitle
  | KHeader h => h_name h
  | KBox b => b_name b
  | KMasses _ => NameMasses
  | KCoeffs c => c_name c
  | KAtoms _ => NameAtoms
  | KLinks l => l_name l
  end.

(** [k.Keyword(s)]: the verdict and the Key after the call (Header and Box
    cache the numeric substrings they cut out of the line). *)
Definition Key_Keyword (k : Key) (s : string) : bool * Key :=
  match k with
  | KTitle _ => (false, k)
  | KHeader h => let '(b, h) := Header_Keyword h s in (b, KHeader h)
  | KBox x => let '(b, x) := Box_Keyword x s in (b, KBox x)
  | KMasses _ | KCoeffs _ | KAtoms _ | KLinks _ => (keyword s (Key_Name k), k)
  end.

Definition Key_SetKeys (k : Key) (args : list Key) : Key * option error :=
  match k with
  | KTitle _ | KHeader _ | KBox _ => (k, Some ErrUnsupported)
  | KMasses m => let '(m, e) := Masses_SetKeys m args in (KMasses m, e)
  | KCoeffs c => let '(c, e) := Coeffs_SetKeys c args in (KCoeffs c, e)
  | KAtoms a => let '(a, e) := Atoms_SetKeys a args in (KAtoms a, e)
  | KLinks l => let '(l, e) := Links_SetKeys l args in (KLinks l, e)
  end.

Definition Key_SetKeysVal (st : Store) (k : Key) : Store * option error :=
  match k with
  | KTitle _ | KHeader _ | KBox _ => (st, Some ErrUnsupported)
  | KMasses m => Masses_SetKeysVal st m
  | KCoeffs c => Coeffs_SetKeysVal st c
  | KAtoms a => Atoms_SetKeysVal st a
  | KLinks l => Links_SetKeysVal st l
  end.

Definition Key_Encode (rt : Runtime) (k : Key) (w : Writer) : Writer * outcome unit :=
  match k with
  | KTitle t => (Fprint w (t_v t +:+ nl), Ok tt)
  | KHeader h => (Header_Encode h w, Ok tt)
  | KBox b => (Box_Encode rt b w, Ok tt)
  | KMasses m => Masses_Encode rt m w
  | KCoeffs c => Coeffs_Encode rt c w
  | KAtoms a => Atoms_Encode rt a w
  | KLinks l => Links_Encode l w
  end.

Definition lift (e : option error) : outcome unit :=
  match e with Some e => Err e | None => Ok tt end.

(** [k.Decode(s, r)]: the Key and the scanner after the call. *)
Definition Key_Decode (rt : Runtime) (st : Store) (k : Key) (s : string)
    (r : Scanner) : Key * Scanner * outcome unit :=
  match k with
  | KTitle _ => (KTitle (mkTitle s), r, Ok tt)
  | KHeader h => let '(h, e) := Header_Decode h in (KHeader h, r, lift e)
  | KBox b => let '(b, e) := Box_Decode rt b in (KBox b, r, lift e)
  | KMasses m => let '(m, r, o) := Masses_Decode rt st m r in (KMasses m, r, o)
  | KCoeffs c => let '(c, r, o) := Coeffs_Decode rt st c r in (KCoeffs c, r, o)
  | KAtoms a => let '(a, r, o) := Atoms_Decode rt st a r in (KAtoms a, r, o)
  | KLinks l => let '(l, r, o) := Links_Decode st l r in (KLinks l, r, o)
  end.

Definition Key_Set (k : Key) (v : GoValue) : Key * option error :=
  match k with
  | KTitle t => let '(t, e) := Title_Set t v in (KTitle t, e)
  | KHeader h => let '(h, e) := Header_Set h v in (KHeader h, e)
  | KBox b => let '(b, e) := Box_Set b v in (KBox b, e)
  | KMasses m => let '(m, e) := Masses_Set m v in (KMasses m, e)
  | KCoeffs c => let '(c, e) := Coeffs_Set c v in (KCoeffs c, e)
  | KAtoms a => let '(a, e) := Atoms_Set a v in (KAtoms a, e)
  | KLinks l => let '(l, e) := Links_Set l v in (KLinks l, e)
  end.

Definition Key_Get (k : Key) : GoValue :=
  match k with
  | KTitle t => VString (t_v t)
  | KHeader h => VInt (h_v h)
  | KBox b => VFloat2 (b_vlo b) (b_vhi b)
  | KMasses m => VMasses (m_v m)
  | KCoeffs c => VCoeffs (c_v c)
  | KAtoms a => VAtoms (a_v a)
  | KLinks l => VLinks (l_v l)
  end.

Definition Key_Check (rt : Runtime) (st : Store) (k : Key) : outcome unit :=
  match k with
  | KTitle _ => Ok tt
  | KHeader h => lift (Header_Check h)
  | KBox b => lift (Box_Check b)
  | KMasses m => Masses_Check rt st m
  | KCoeffs c => Coeffs_Check rt st c
  | KAtoms a => Atoms_Check rt st a
  | KLinks l => Links_Check rt st l
  end.

(** [IsHeader]. *)
Definition IsHeader (k : Key) : bool :=
  match k with KHeader _ | KBox _ => true | _ => false end.

(** [IsName]. *)
Definition IsName (name : Name) : bool :=
  existsb (String.eqb name) ListNames.

(** [IsAtomStyle] and [NewAtomStyle]. *)
Definition NewAtomStyle (s : string) : option AtomStyle :=
  find (fun x => String.eqb (AtomStyle_Name x) s) ListAtomStyles.

Definition IsAtomStyle (s : string) : bool :=
  existsb (fun x => String.eqb (AtomStyle_Name x) s) ListAtomStyles.

(** ** The registry: [MakeKeys] *)

Definition name_in (name : Name) (l : list Name) : bool :=
  existsb (String.eqb name) l.

(** The body of [makeKeys.New], its recursive calls made through [rec].
    The result of [SetKeys] is discarded, as in the source. *)
Definition New_body (rec : Store -> Name -> outcome (Store * Key))
    (s : AtomStyle) (st : Store) (name : Name) : outcome (Store * Key) :=
  match st !! name with
  | Some v => Ok (st, v)
  | None =>
    let coeffs dep :=
      '(st, d) ← rec st dep;
      let v := fst (Key_SetKeys (KCoeffs (NewCoeffs name)) [d]) in
      Ok (<[name := v]> st, v) in
    let links n dep1 dep2 dep3 :=
      '(st, d1) ← rec st dep1;
      '(st, d2) ← rec st dep2;
      '(st, d3) ← rec st dep3;
      let v := fst (Key_SetKeys (KLinks (NewLinks name n)) [d1; d2; d3]) in
      Ok (<[name := v]> st, v) in
    if String.eqb name NamePairCoeffs then coeffs NameAtomTypes
    else if String.eqb name NameBondCoeffs then coeffs NameBondTypes
    else if String.eqb name NameAngleCoeffs then coeffs NameAngleTypes
    else if String.eqb name NameDihedralCoeffs then coeffs NameDihedralTypes
    else if name_in name [NameAtomsNbr; NameBondsNbr; NameAnglesNbr; NameDihedralsNbr]
    then let v := KHeader (NewHeader name) in Ok (<[name := v]> st, v)
    else if name_in name [NameAtomTypes; NameBondTypes; NameAngleTypes; NameDihedralTypes]
    then let v := KHeader (NewHeader name) in Ok (<[name := v]> st, v)
    else if name_in name [NameBoxX; NameBoxY; NameBoxZ]
    then let v := KBox (NewBox name) in Ok (<[name := v]> st, v)
    else if String.eqb name NameMasses then
      '(st, d) ← rec st NameAtomTypes;
      let v := fst (Key_SetKeys (KMasses (mkMasses None None)) [d]) in
      Ok (<[name := v]> st, v)
    else if String.eqb name NameAtoms then
      '(st, d1) ← rec st NameAtomTypes;
      '(st, d2) ← rec st NameAtomsNbr;
      let v := fst (Key_SetKeys (KAtoms (NewAtoms s)) [d1; d2]) in
      Ok (<[name := v]> st, v)
    else if String.eqb name NameBonds
    then links 2 NameAtomsNbr NameBondsNbr NameBondTypes
    else if String.eqb name NameAngles
    then links 3 NameAtomsNbr NameAnglesNbr NameAngleTypes
    else if String.eqb name NameDihedrals
    then links 4 NameAtomsNbr NameDihedralsNbr NameDihedralTypes
    else if String.eqb name NameTitle then
      let v := KTitle (mkTitle "") in Ok (<[name := v]> st, v)
    else Panic
  end.

(** [makeKeys.New].  Its recursive calls are on Names of Headers only,
    whose case makes no further call: two levels unfold the recursion. *)
Definition New (s : AtomStyle) (st : Store) (name : Name) : outcome (Store * Key) :=
  New_body (New_body (fun _ _ => Panic) s) s st name.

Fixpoint MakeKeys_loop (s : AtomStyle) (names : list Name) (st : Store)
  : outcome Store :=
  match names with
  | [] => Ok st
  | n :: names' =>
    '(st, _) ← New s st n;
    MakeKeys_loop s names' st
  end.

Definition MakeKeys (names : list Name) (s : AtomStyle) : outcome Store :=
  MakeKeys_loop s names ∅.

(** ** The struct binding: [createNames], [headBody], [keyDecode] *)

(** A field of the struct passed to Decode or Encode: its [lmpsdat] tag,
    if any, and its type.  All tagged fields are exported. *)
Record StructField : Type := mkField {
  f_tag : option string;
  f_type : GoType
}.

Fixpoint createNames_loop (typ : list StructField) (i : nat)
    (atomStyle : AtomStyle) (names : list Name) (namesFields : gmap Name nat)
  : AtomStyle * list Name * gmap Name nat :=
  match typ with
  | [] => (atomStyle, names, namesFields)
  | f :: typ' =>
    match f_tag f with
    | None => createNames_loop typ' (S i) atomStyle names namesFields
    | Some v =>
      let '(atomStyle, v) :=
        if HasPrefix v NameAtoms then
          let idx := IndexRune v "," in
          if (0 <=? idx) && (idx <=? Z.of_nat (String.length v)) then
            let s := TrimSpace (str_drop (Z.to_nat (idx + 1)) v) in
            (if IsAtomStyle s then default atomStyle (NewAtomStyle s)
             else atomStyle,
             TrimSpace (str_take (Z.to_nat idx) v))
          else (atomStyle, v)
        else (atomStyle, v) in
      if IsName v then
        createNames_loop typ' (S i) atomStyle (names ++ [v]) (<[v := i]> namesFields)
      else createNames_loop typ' (S i) atomStyle names namesFields
    end
  end.

(** [createNames]: the field index of every requested Name, and the Keys.
    The warnings written to standard error are not part of the model. *)
Definition createNames (typ : list StructField) : gmap Name nat * outcome Store :=
  let '(atomStyle, names, namesFields) :=
    createNames_loop typ 0 AtomStyleFull [] ∅ in
  (namesFields, MakeKeys names atomStyle).

(** [headBody]: the Names of the header Keys and of the other Keys. *)
Definition headBody (keys : Store) : gset Name * gset Name :=
  (dom (filter (fun '(_, k) => IsHeader k = true) keys),
   dom (filter (fun '(_, k) => IsHeader k = false) keys)).

(** The loop of [keyDecode] over the Names in [order]. *)
Fixpoint keyDecode_loop (rt : Runtime) (s : string) (order : list Name)
    (st : Store) (keys : gset Name) (r : Scanner)
  : Store * gset Name * Scanner * outcome bool :=
  match order with
  | [] => (st, keys, r, Ok false)
  | n :: order' =>
    match st !! n with
    | None => keyDecode_loop rt s order' st keys r
    | Some k =>
      let '(ok, k) := Key_Keyword k s in
      let st := <[n := k]> st in
      if ok then
        let '(k, r, res) := Key_Decode rt st k s r in
        let st := <[n := k]> st in
        match res with
        | Ok _ => (st, keys ∖ {[n]}, r, Ok true)
        | Err e => (st, keys, r, Err (Wrap ("k.Decode for Key = " +:+ Key_Name k) e))
        | Panic => (st, keys, r, Panic)
        end
      else keyDecode_loop rt s order' st keys r
    end
  end.

Definition keyDecode (rt : Runtime) (site : Site) (s : string) (st : Store)
    (keys : gset Name) (r : Scanner)
  : Store * gset Name * Scanner * outcome bool :=
  keyDecode_loop rt s (rangeNames rt site (elements keys)) st keys r.

(** ** [Decoder.Decode] *)

(** The loop [for r.Scan() { ... }]; [i] counts its iterations.  [fuel]
    bounds them: the result is [None] when it runs out. *)
Fixpoint Decode_lines (rt : Runtime) (fuel : nat) (i : nat) (st : Store)
    (kHead kBody : gset Name) (inHeader : bool) (r : Scanner)
  : option (Store * Scanner * outcome unit) :=
  match fuel with
  | O => None
  | S fuel' =>
    let '(ok, r) := Scan r in
    if negb ok then Some (st, r, Ok tt)
    else
      let s := token r in
      let body st r :=
        let '(st, kBody, r, res) := keyDecode rt (SiteBody i) s st kBody r in
        match res with
        | Ok ok =>
          Decode_lines rt fuel' (S i) st kHead kBody (if ok then false else inHeader) r
        | Err e => Some (st, r, Err e)
        | Panic => Some (st, r, Panic)
        end in
      if inHeader then
        let '(st, kHead, r, res) := keyDecode rt (SiteHead i) s st kHead r in
        match res with
        | Ok true => Decode_lines rt fuel' (S i) st kHead kBody inHeader r
        | Ok false => body st r
        | Err e => Some (st, r, Err e)
        | Panic => Some (st, r, Panic)
        end
      else body st r
  end.

(** [for _, k := range keys { if err := k.Check(); err != nil { return
    ... } }]. *)
Definition check_all (rt : Runtime) (st : Store) : outcome unit :=
  for_each (fun n =>
    match st !! n with
    | None => Ok tt
    | Some k =>
      match Key_Check rt st k with
      | Ok _ => Ok tt
      | Err e => Err (Wrap ("k.Check for Key = " +:+ Key_Name k) e)
      | Panic => Panic
      end
    end) (rangeNames rt SiteCheck (elements (dom st))).

(** [reflect.Type.AssignableTo] between the modelled types. *)
Definition AssignableTo (t u : GoType) : bool := bool_decide (t = u).

(** The loop storing every Key's value into its field of the struct. *)
Fixpoint assign_fields (st : Store) (nFields : gmap Name nat)
    (typ : list StructField) (order : list Name) (val : list GoValue)
  : list GoValue * outcome unit :=
  match order with
  | [] => (val, Ok tt)
  | n :: order' =>
    match nFields !! n with
    | None => assign_fields st nFields typ order' val
    | Some f =>
      match st !! n, typ !! f with
      | Some k, Some field =>
        let v := Key_Get k in
        if negb (AssignableTo (f_type field) (TypeOf v))
        then (val, Err ErrNotAssignable)
        else assign_fields st nFields typ order' (<[f := v]> val)
      | _, _ => (val, Panic)
      end
    end
  end.

(** [Decoder.Decode(v)], for [v] a pointer to a struct of type [typ] whose
    fields hold [val]; [r] is the scanner over the decoder's reader.  The
    result is the struct's fields after the call and the error. *)
Definition Decode (rt : Runtime) (typ : list StructField) (r : Scanner)
    (val : list GoValue) : list GoValue * outcome unit :=
  match createNames typ with
  | (_, Err e) => (val, Err e)
  | (_, Panic) => (val, Panic)
  | (nFields, Ok keys) =>
    let '(kHead, kBody) := headBody keys in
    let inHeader := true in
    let '(ok, r) := Scan r in
    if negb ok then
      match ScanErr r with
      | Some e => (val, Err (Wrap "r.Scan title" e))
      | None => (val, Ok tt)
      end
    else
      let set_title :=
        match keys !! NameTitle with
        | Some k =>
          let '(k, e) := Key_Set k (VString (token r)) in
          (<[NameTitle := k]> keys, e)
        | None => (keys, None)
        end in
      match set_title with
      | (_, Some e) => (val, Err (Wrap "k.Set for Key = Title" e))
      | (keys, None) =>
        match Decode_lines rt (S (length (pending r))) 0 keys kHead kBody inHeader r with
        | None => (val, Panic)      (* not reached: Decode_lines_fuel *)
        | Some (_, _, Err e) => (val, Err e)
        | Some (_, _, Panic) => (val, Panic)
        | Some (keys, r, Ok _) =>
          match ScanErr r with
          | Some e => (val, Err (Wrap "r.Scan" e))
          | None =>
            match check_all rt keys with
            | Err e => (val, Err e)
            | Panic => (val, Panic)
            | Ok _ =>
              assign_fields keys nFields typ
                (rangeNames rt SiteFields (elements (dom nFields))) val
            end
          end
        end
      end
  end.

(** ** [Encoder.Encode] *)

(** The first loop of Encode: [k.Set(field)] then [k.SetKeysVal()], for
    every tagged field, in the order the runtime ranges over [nFields]. *)
Fixpoint set_fields (st : Store) (nFields : gmap Name nat) (val : list GoValue)
    (order : list Name) : Store * outcome unit :=
  match order with
  | [] => (st, Ok tt)
  | n :: order' =>
    match nFields !! n with
    | None => set_fields st nFields val order'
    | Some f =>
      match val !! f, st !! n with
      | Some field, Some k =>
        let '(k, e) := Key_Set k field in
        let st := <[n := k]> st in
        match e with
        | Some e => (st, Err (Wrap ("k.Set for Key = " +:+ n) e))
        | None =>
          let '(st, e) := Key_SetKeysVal st k in
          match e with
          | Some e =>
            if is_unsupported e then set_fields st nFields val order'
            else (st, Err (Wrap ("k.SetKeysVal for Key = " +:+ n) e))
          | None => set_fields st nFields val order'
          end
        end
      | _, _ => (st, Panic)
      end
    end
  end.

(** One group of header Keys: every present Key of [names] is encoded,
    and a blank line follows if there was one. *)
Fixpoint encode_group (rt : Runtime) (st : Store) (names : list Name)
    (set : bool) (w : Writer) : Writer * outcome unit :=
  match names with
  | [] => (if set then Fprint w nl else w, Ok tt)
  | n :: names' =>
    match st !! n with
    | Some k =>
      match Key_Encode rt k w with
      | (w, Ok _) => encode_group rt st names' true w
      | (w, Err e) => (w, Err (Wrap ("k.Encode for Key = " +:+ n) e))
      | (w, Panic) => (w, Panic)
      end
    | None => encode_group rt st names' set w
    end
  end.

(** The tables: every present Key is encoded and followed by a blank line. *)
Fixpoint encode_tables (rt : Runtime) (st : Store) (names : list Name)
    (w : Writer) : Writer * outcome unit :=
  match names with
  | [] => (w, Ok tt)
  | n :: names' =>
    match st !! n with
    | Some k =>
      match Key_Encode rt k w with
      | (w, Ok _) => encode_tables rt st names' (Fprint w nl)
      | (w, Err e) => (w, Err (Wrap ("k.Encode for Key = " +:+ n) e))
      | (w, Panic) => (w, Panic)
      end
    | None => encode_tables rt st names' w
    end
  end.

Definition nbr : list Name :=
  [NameAtomsNbr; NameBondsNbr; NameAnglesNbr; NameDihedralsNbr].
Definition types : list Name :=
  [NameAtomTypes; NameBondTypes; NameAngleTypes; NameDihedralTypes].
Definition box : list Name := [NameBoxX; NameBoxY; NameBoxZ].
Definition tables : list Name :=
  [NameMasses; NamePairCoeffs; NameBondCoeffs; NameAngleCoeffs;
   NameDihedralCoeffs; NameAtoms; NameBonds; NameAngles; NameDihedrals].

(** The part of Encode that writes, once the Keys are set and checked. *)
Definition write_all (rt : Runtime) (keys : Store) (w : Writer)
  : Writer * outcome unit :=
  match
    match keys !! NameTitle with
    | Some k =>
      match Key_Get k with VString s => Ok s | _ => Panic end
    | None => Ok ""
    end
  with
  | Err e => (w, Err e)
  | Panic => (w, Panic)
  | Ok title =>
    let w := Fprint w (title +:+ nl +:+ nl) in
    match encode_group rt keys nbr false w with
    | (w, Ok _) =>
      match encode_group rt keys types false w with
      | (w, Ok _) =>
        match encode_group rt keys box false w with
        | (w, Ok _) => encode_tables rt keys tables w
        | other => other
        end
      | other => other
      end
    | other => other
    end
  end.

(** The Keys of Encode after its first loop, or its error. *)
Definition Encode_keys (rt : Runtime) (typ : list StructField)
    (val : list GoValue) : outcome Store :=
  match createNames typ with
  | (_, Err e) => Err e
  | (_, Panic) => Panic
  | (nFields, Ok keys) =>
    match set_fields keys nFields val
            (rangeNames rt SiteFields (elements (dom nFields))) with
    | (keys, Ok _) => Ok keys
    | (_, Err e) => Err e
    | (_, Panic) => Panic
    end
  end.

(** [Encoder.Encode(v)], for [v] a pointer to a struct of type [typ] whose
    fields hold [val]; the result is what was written after [w] and the
    error. *)
Definition Encode (rt : Runtime) (typ : list StructField) (val : list GoValue)
    (w : Writer) : Writer * outcome unit :=
  match Encode_keys rt typ val with
  | Err e => (w, Err e)
  | Panic => (w, Panic)
  | Ok keys =>
    match check_all rt keys with
    | Err e => (w, Err e)
    | Panic => (w, Panic)
    | Ok _ => write_all rt keys w
    end
  end.

(** ** [bufio.Scanner] over a text *)

(** The raw lines of a whole input, without the newline that ends them;
    a last line without newline counts if it is not empty. *)
Fixpoint split_lines (s : string) (cur : string) : list string :=
  match s with
  | EmptyString => match cur with EmptyString => [] | _ => [cur] end
  | String c s' =>
    if Ascii.eqb c (ascii_of_nat 10) then cur :: split_lines s' ""
    else split_lines s' (cur +:+ String c "")
  end.

(** [bufio.MaxScanTokenSize] and [bufio.ErrTooLong]. *)
Definition MaxScanTokenSize : Z := 64 * 1024.

Definition ErrTooLong : error := ErrIO "bufio.Scanner: token too long".

(** [dropCR]: a carriage return that ends the line is dropped. *)
Fixpoint dropCR (s : string) : string :=
  match s with
  | EmptyString => ""
  | String c EmptyString => if Ascii.eqb c (ascii_of_nat 13) then "" else s
  | String c s' => String c (dropCR s')
  end.

(** The tokens [Scan] returns for the raw lines of the input, and the
    error it ends with: a line that does not fit in the buffer of
    [MaxScanTokenSize] bytes stops the scanner with [ErrTooLong]. *)
Fixpoint scan_tokens (ls : list string) : list string * option error :=
  match ls with
  | [] => ([], None)
  | l :: ls' =>
    if MaxScanTokenSize <=? Z.of_nat (String.length l) then ([], Some ErrTooLong)
    else let '(r, e) := scan_tokens ls' in (dropCR l :: r, e)
  end.

(** [bufio.NewScanner(r)] for a reader [r] that delivers [text] and then
    the end of the file. *)
Definition ScanBytes (text : string) : Scanner :=
  let '(ls, e) := scan_tokens (split_lines text "") in NewScanner ls e.

(** ** A runtime to run examples with *)

(** [%g] and [strconv.ParseFloat] on the few values the examples below
    use; the texts are the ones Go produces and accepts for them. *)
Definition FormatG_small (x : float) : string :=
  if (x =? 0)%float then "0"
  else if (x =? 1)%float then "1"
  else if (x =? 0.5)%float then "0.5"
  else if (x =? 2.5)%float then "2.5"
  else "NaN".

Definition ParseFloat_small (s : string) : float * option error :=
  if String.eqb s "0" then (0%float, None)
  else if String.eqb s "0.0" then (0%float, None)
  else if String.eqb s "1" then (1%float, None)
  else if String.eqb s "1.0" then (1%float, None)
  else if String.eqb s "0.5" then (0.5%float, None)
  else if String.eqb s "2.5" then (2.5%float, None)
  else if String.eqb s "NaN" then (nan, None)
  else (0%float, Some (ErrSyntax s)).

(** A runtime that ranges over maps in the order of [elements] /
    [map_to_list], and one that ranges in the opposite order. *)
Definition rt_fwd : Runtime :=
  mkRuntime FormatG_small ParseFloat_small (fun _ l => l) (fun _ l => l).

Definition rt_bwd : Runtime :=
  mkRuntime FormatG_small ParseFloat_small (fun _ l => rev l) (fun _ l => rev l).

(** * Properties *)

(** ** The text helpers on examples *)

Example DecodeRune_nbsp :
  DecodeRune (String (ascii_of_nat 194) (String (ascii_of_nat 160) "x")) = (160, 2%nat).
Proof. reflexivity. Qed.

Example Fields_ex : Fields "  1 2.5	x # c " = ["1"; "2.5"; "x"; "#"; "c"].
Proof. reflexivity. Qed.

Example Atoi_ex :
  Atoi "-42" = (-42, None) /\ Atoi "+7" = (7, None)
  /\ Atoi "" = (0, Some (ErrSyntax ""))
  /\ Atoi "-" = (0, Some (ErrSyntax "-"))
  /\ Atoi "1_0" = (0, Some (ErrSyntax "1_0"))
  /\ Atoi "-9223372036854775808" = (minInt, None)
  /\ Atoi "9223372036854775808"
     = (maxInt, Some (ErrOutOfRange "9223372036854775808")).
Proof. repeat split; reflexivity. Qed.

Example FormatInt_ex : FormatInt (-120) = "-120" /\ FormatInt 0 = "0".
Proof. split; reflexivity. Qed.

Example TrimSpace_ex : TrimSpace "  atomic 	" = "atomic".
Proof. reflexivity. Qed.

Lemma fair_fwd : fair rt_fwd.
Proof. split; intros; reflexivity. Qed.

Lemma fair_bwd : fair rt_bwd.
Proof. split; intros; simpl; apply Permutation_sym, Permutation_rev. Qed.

(** ** Atom styles: what Decode returns *)

Definition style_min (s : AtomStyle) : nat :=
  match s with AtomStyleFull => 7 | AtomStyleAtomic => 5 end.

Lemma AtomStyle_Decode_short rt s f :
  (length f < style_min s)%nat ->
  AtomStyle_Decode rt s f
  = Err (ErrNotEnoughFields (Z.of_nat (length f)) (Z.of_nat (style_min s))).
Proof.
  intros Hlen. destruct s; simpl in *;
    unfold atomStyleFull_Decode, atomStyleAtomic_Decode.
  - destruct (Z.ltb_spec (Z.of_nat (length f)) 7); [reflexivity | lia].
  - destruct (Z.ltb_spec (Z.of_nat (length f)) 5); [reflexivity | lia].
Qed.

(** With enough tokens, the identifier is parsed and the very next
    statement stores through the nil [atom]. *)
Lemma AtomStyle_Decode_enough rt s f :
  (style_min s <= length f)%nat ->
  match snd (Atoi (nth 0 f "")) with
  | None => AtomStyle_Decode rt s f = Panic
  | Some e => AtomStyle_Decode rt s f = Err (Wrap "strconv.Atoi id" e)
  end.
Proof.
  intros Hlen.
  destruct f as [|f0 [|f1 f']]; [destruct s; simpl in Hlen; lia .. |].
  destruct s; simpl in *;
    unfold atomStyleFull_Decode, atomStyleAtomic_Decode.
  - destruct (Z.ltb_spec (Z.of_nat (length (f0 :: f1 :: f'))) 7) as [Hlt|_];
      [simpl in Hlt; lia |].
    simpl. destruct (Atoi f0) as [id [e|]]; simpl; [reflexivity |].
    destruct (Atoi f1) as [x err]; reflexivity.
  - destruct (Z.ltb_spec (Z.of_nat (length (f0 :: f1 :: f'))) 5) as [Hlt|_];
      [simpl in Hlt; lia |].
    simpl. destruct (Atoi f0) as [id [e|]]; simpl; [reflexivity |].
    destruct (Atoi f1) as [x err]; reflexivity.
Qed.

(** C2 (the code): whatever the style and the tokens, [AtomStyle.Decode]
    never returns an identifier and a record: it panics on the nil record
    or returns an error. *)
Theorem AtomStyle_Decode_no_record rt s f :
  AtomStyle_Decode rt s f = Panic \/ exists e, AtomStyle_Decode rt s f = Err e.
Proof.
  destruct (Nat.lt_ge_cases (length f) (style_min s)) as [Hlt|Hge].
  - right. eexists. apply AtomStyle_Decode_short, Hlt.
  - pose proof (AtomStyle_Decode_enough rt s f Hge) as H.
    destruct (snd (Atoi (nth 0 f ""))); eauto.
Qed.

Example AtomStyle_Decode_full_row rt :
  AtomStyle_Decode rt AtomStyleFull ["1"; "1"; "1"; "0.0"; "0.5"; "0.5"; "0.5"]
  = Panic.
Proof. reflexivity. Qed.

(** ** Keyword of the table Keys *)

Definition is_table (k : Key) : bool :=
  match k with
  | KMasses _ | KCoeffs _ | KAtoms _ | KLinks _ => true
  | _ => false
  end.

Lemma app_String c p r : String c p +:+ r = String c (p +:+ r).
Proof. reflexivity. Qed.

Lemma app_Empty r : "" +:+ r = r.
Proof. reflexivity. Qed.

Lemma prefix_app p s : String.prefix p s = true <-> exists rest, s = p +:+ rest.
Proof.
  revert s. induction p as [|c p IH]; intros s; simpl.
  - split; [intros _; exists s; reflexivity | intros _; destruct s; reflexivity].
  - destruct s as [|d s]; simpl.
    + split; [discriminate | intros [rest H]; discriminate].
    + destruct (Ascii.ascii_dec c d) as [->|Hne].
      * rewrite IH. split; intros [rest H]; exists rest;
          rewrite app_String in *; congruence.
      * split; [discriminate | intros [rest H]; rewrite app_String in H; congruence].
Qed.

(** C4 (as amended): a table Key matches a line exactly when the line,
    after its leading white space is discarded, begins with the Key's
    Name; what follows the Name is not looked at. *)
Theorem Keyword_table_prefix k s :
  is_table k = true ->
  (fst (Key_Keyword k s) = true
   <-> exists rest, TrimLeftFunc s IsSpace = Key_Name k +:+ rest).
Proof.
  intros Ht. destruct k; try discriminate; simpl; unfold keyword, HasPrefix;
    apply prefix_app.
Qed.

Lemma Keyword_table_prefix_witness :
  is_table (KMasses (mkMasses None None)) = true
  /\ (fst (Key_Keyword (KMasses (mkMasses None None)) "  Masses") = true
      <-> exists rest, TrimLeftFunc "  Masses" IsSpace
                       = Key_Name (KMasses (mkMasses None None)) +:+ rest).
Proof.
  split; [reflexivity |].
  apply (Keyword_table_prefix (KMasses (mkMasses None None)) "  Masses").
  reflexivity.
Defined.

(** C4 (counterexample): the line "Masses of the atoms" is not the Name
    "Masses", and the Masses Key matches it. *)
Lemma Keyword_table_not_exact :
  TrimLeftFunc "Masses of the atoms" IsSpace <> NameMasses
  /\ fst (Key_Keyword (KMasses (mkMasses None None)) "Masses of the atoms") = true.
Proof. split; [discriminate | reflexivity]. Qed.

(** ** Encode of an empty table and of a Counter *)

(** C7: a table Key holding an empty, non-nil map writes nothing and
    succeeds; a Header always writes its line, also for the value zero. *)
Theorem Encode_empty_table_and_Header rt w :
  (forall p, Key_Encode rt (KMasses (mkMasses p (Some ∅))) w = (w, Ok tt))
  /\ (forall n p, Key_Encode rt (KCoeffs (mkCoeffs n p (Some ∅))) w = (w, Ok tt))
  /\ (forall s p q, Key_Encode rt (KAtoms (mkAtoms s p q (Some ∅))) w = (w, Ok tt))
  /\ (forall n k p q r, Key_Encode rt (KLinks (mkLinks n k p q r (Some ∅))) w = (w, Ok tt))
  /\ (forall h, Key_Encode rt (KHeader h) w
                = (w +:+ FormatInt (h_v h) +:+ " " +:+ h_name h +:+ nl, Ok tt))
  /\ (forall n sep vb, Key_Encode rt (KHeader (mkHeader n sep vb 0)) w
                        = (w +:+ "0 " +:+ n +:+ nl, Ok tt)).
Proof.
  repeat split; intros; simpl;
    unfold Masses_Encode, Coeffs_Encode, Atoms_Encode, Links_Encode,
      Header_Encode, Fprint; simpl; reflexivity.
Qed.

(** ** SetKeys *)

Definition is_KHeader (k : Key) : bool :=
  match k with KHeader _ => true | _ => false end.

Definition is_atoms_dep (k : Key) : bool :=
  match k with
  | KHeader h => String.eqb (h_name h) NameAtomsNbr || String.eqb (h_name h) NameAtomTypes
  | _ => false
  end.

Lemma snd_let {A B C} (x : A * C) (f : A -> B) :
  snd (let '(a, e) := x in (f a, e)) = snd x.
Proof. destruct x; reflexivity. Qed.

Lemma Masses_SetKeys_ok m args :
  snd (Masses_SetKeys m args) = None
  <-> exists h, args = [KHeader h] /\ h_name h = NameAtomTypes.
Proof.
  unfold Masses_SetKeys.
  destruct args as [|k0 [|k1 args]]; simpl.
  - split; [discriminate | intros (h & H & _); discriminate].
  - destruct k0; simpl;
      try (split; [discriminate | intros (h' & H & _); discriminate]).
    destruct (String.eqb_spec (h_name h) NameAtomTypes) as [Heq|Hne]; simpl.
    + split; [intros _; eauto | reflexivity].
    + split; [discriminate | intros (h' & [= <-] & Hn); contradiction].
  - split; [discriminate | intros (h & H & _); discriminate].
Qed.

Lemma Coeffs_SetKeys_ok c args :
  snd (Coeffs_SetKeys c args) = None <-> exists h, args = [KHeader h].
Proof.
  unfold Coeffs_SetKeys.
  destruct args as [|k0 [|k1 args]]; simpl.
  - split; [discriminate | intros (h & H); discriminate].
  - destruct k0; simpl; try (split; [discriminate | intros (h' & H); discriminate]).
    split; [intros _; eauto | reflexivity].
  - split; [discriminate | intros (h & H); discriminate].
Qed.

Lemma Atoms_SetKeys_ok a args :
  snd (Atoms_SetKeys a args) = None <-> forallb is_atoms_dep args = true.
Proof.
  revert a. induction args as [|k args IH]; intros a; simpl.
  - split; reflexivity.
  - destruct k; simpl; try (split; discriminate).
    destruct (String.eqb (h_name h) NameAtomsNbr); simpl; [apply IH |].
    destruct (String.eqb (h_name h) NameAtomTypes); simpl; [apply IH |].
    split; discriminate.
Qed.

Lemma Links_SetKeys_ok l args :
  snd (Links_SetKeys l args) = None <-> forallb is_KHeader args = true.
Proof.
  revert l. induction args as [|k args IH]; intros l; simpl.
  - split; reflexivity.
  - destruct k; simpl; try (split; discriminate).
    destruct (String.eqb (h_name h) NameAtomsNbr); [apply IH |].
    destruct (HasSuffix (h_name h) "types"); apply IH.
Qed.

(** C8 (as amended): Title, Header and Box answer every SetKeys call, with
    or without Keys, with the sentinel ErrUnsupported.  Masses accepts
    exactly one Header named "atom types"; Coeffs exactly one Header;
    Atoms any number of Headers named "atoms" or "atom types"; Links any
    number of Headers.  Atoms and Links do not count their Keys. *)
Theorem SetKeys_accepts :
  (forall t args, snd (Key_SetKeys (KTitle t) args) = Some ErrUnsupported)
  /\ (forall h args, snd (Key_SetKeys (KHeader h) args) = Some ErrUnsupported)
  /\ (forall b args, snd (Key_SetKeys (KBox b) args) = Some ErrUnsupported)
  /\ (forall m args, snd (Key_SetKeys (KMasses m) args) = None
        <-> exists h, args = [KHeader h] /\ h_name h = NameAtomTypes)
  /\ (forall c args, snd (Key_SetKeys (KCoeffs c) args) = None
        <-> exists h, args = [KHeader h])
  /\ (forall a args, snd (Key_SetKeys (KAtoms a) args) = None
        <-> forallb is_atoms_dep args = true)
  /\ (forall l args, snd (Key_SetKeys (KLinks l) args) = None
        <-> forallb is_KHeader args = true).
Proof.
  repeat apply conj; intros; simpl; try reflexivity; rewrite snd_let;
    [apply Masses_SetKeys_ok | apply Coeffs_SetKeys_ok
     | apply Atoms_SetKeys_ok | apply Links_SetKeys_ok].
Qed.

(** C8 (counterexample): a Links Key given no Key at all, or one Header
    instead of three, reports no error. *)
Lemma SetKeys_Links_any_count :
  snd (Key_SetKeys (KLinks (NewLinks NameBonds 2)) []) = None
  /\ snd (Key_SetKeys (KLinks (NewLinks NameBonds 2))
                      [KHeader (NewHeader NameAtomsNbr)]) = None.
Proof. split; reflexivity. Qed.

(** ** Atoms.Check *)

Lemma omap_lookup_fst {V} (m : gmap Z V) (l : list (Z * V)) :
  Forall (fun p => m !! p.1 = Some p.2) l ->
  omap (fun k => option_map (pair k) (m !! k)) (map fst l) = l.
Proof.
  induction 1 as [|[k v] l Hk _ IH]; simpl in *; [reflexivity |].
  rewrite Hk. simpl. f_equal. exact IH.
Qed.

Lemma range_map_perm {V} (order : list Z -> list Z) (m : gmap Z V) :
  (forall l, order l ≡ₚ l) -> range_map order m ≡ₚ map_to_list m.
Proof.
  intros Hfair. unfold range_map. rewrite Hfair.
  rewrite omap_lookup_fst; [reflexivity |].
  apply Forall_forall. intros [k v] Hin. simpl.
  apply elem_of_map_to_list. exact Hin.
Qed.

(** What the loop of Check accepts of one row, [n] being the flag of
    reference. *)
Definition atom_row_ok (atomsNbr atomsTypes : Z) (n : bool)
    (row : Z * option Atom) : Prop :=
  1 <= row.1 <= atomsNbr /\
  exists a, row.2 = Some a /\ 1 <= AtomType a <= atomsTypes /\ N a = n.

Lemma Atoms_Check_loop_first atomsNbr atomsTypes n id a l :
  Atoms_Check_loop atomsNbr atomsTypes true n ((id, Some a) :: l)
  = Atoms_Check_loop atomsNbr atomsTypes false (N a) ((id, Some a) :: l).
Proof. reflexivity. Qed.

Lemma Atoms_Check_loop_ok atomsNbr atomsTypes n l :
  Atoms_Check_loop atomsNbr atomsTypes false n l = Ok tt
  <-> Forall (atom_row_ok atomsNbr atomsTypes n) l.
Proof.
  induction l as [|[id oa] l IH]; simpl.
  - split; [constructor | reflexivity].
  - rewrite Forall_cons. unfold atom_row_ok at 1. simpl.
    destruct (Z.ltb_spec id 1); simpl;
      [split; [discriminate | intros [[? _] _]; lia] |].
    destruct (Z.ltb_spec atomsNbr id); simpl;
      [split; [discriminate | intros [[? _] _]; lia] |].
    destruct oa as [a|];
      [| split; [discriminate | intros [(_ & a & [=] & _) _]]].
    destruct (Z.ltb_spec (AtomType a) 1); simpl;
      [split; [discriminate | intros [(_ & a' & [= <-] & ? & _) _]; lia] |].
    destruct (Z.ltb_spec atomsTypes (AtomType a)); simpl;
      [split; [discriminate | intros [(_ & a' & [= <-] & ? & _) _]; lia] |].
    destruct (Bool.eqb_spec (N a) n) as [Hn|Hn]; simpl.
    + rewrite IH. split; [intros HF | intros [_ HF]; exact HF].
      split; [| exact HF]. split; [lia |]. exists a. repeat split; auto; lia.
    + split; [discriminate | intros [(_ & a' & [= <-] & _ & ?) _]; contradiction].
Qed.

Lemma Atoms_Check_loop_err atomsNbr atomsTypes first n l e :
  Atoms_Check_loop atomsNbr atomsTypes first n l = Err e ->
  (exists v b, e = ErrRange v b) \/ (exists id, e = ErrImageFlag id).
Proof.
  revert first n. induction l as [|[id oa] l IH]; intros first n; simpl;
    [discriminate |].
  destruct first.
  - destruct oa as [a|]; simpl; [| discriminate].
    destruct ((id <? 1) || (atomsNbr <? id)); [intros [= <-]; eauto |].
    destruct ((AtomType a <? 1) || (atomsTypes <? AtomType a));
      [intros [= <-]; eauto |].
    destruct (negb (Bool.eqb (N a) (N a))); [intros [= <-]; eauto |].
    apply IH.
  - simpl. destruct ((id <? 1) || (atomsNbr <? id)); [intros [= <-]; eauto |].
    destruct oa as [a|]; [| discriminate].
    destruct ((AtomType a <? 1) || (atomsTypes <? AtomType a));
      [intros [= <-]; eauto |].
    destruct (negb (Bool.eqb (N a) n)); [intros [= <-]; eauto |].
    apply IH.
Qed.

(** The three conditions of the claim on a table of (non-nil) records. *)
Definition atoms_in_range (atomsNbr atomsTypes : Z) (g : gmap Z Atom) : Prop :=
  (forall id a, g !! id = Some a -> 1 <= id <= atomsNbr)
  /\ (forall id a, g !! id = Some a -> 1 <= AtomType a <= atomsTypes)
  /\ (forall i x j y, g !! i = Some x -> g !! j = Some y -> N x = N y).

Lemma elem_of_range_map_fmap (order : list Z -> list Z) (g : gmap Z Atom) k oa :
  (forall l, order l ≡ₚ l) ->
  (k, oa) ∈ range_map order (Some <$> g)
  <-> exists a, oa = Some a /\ g !! k = Some a.
Proof.
  intros Hfair. rewrite (range_map_perm order _ Hfair).
  rewrite elem_of_map_to_list, lookup_fmap_Some.
  split; intros (a & H1 & H2); exists a; auto.
Qed.

Lemma Atoms_rows_ok (order : list Z -> list Z) (g : gmap Z Atom)
    atomsNbr atomsTypes id0 a0 :
  (forall l, order l ≡ₚ l) ->
  g !! id0 = Some a0 ->
  Forall (atom_row_ok atomsNbr atomsTypes (N a0)) (range_map order (Some <$> g))
  <-> atoms_in_range atomsNbr atomsTypes g.
Proof.
  intros Hfair H0. rewrite Forall_forall. unfold atoms_in_range. split.
  - intros HF.
    assert (Hrow : forall id a, g !! id = Some a ->
              1 <= id <= atomsNbr /\ 1 <= AtomType a <= atomsTypes /\ N a = N a0).
    { intros id a Hg.
      destruct (HF (id, Some a)) as (Hid & a' & [= <-] & Ht & Hn);
        [apply elem_of_range_map_fmap; eauto | auto]. }
    repeat split; intros.
    + eapply Hrow; eauto.
    + eapply Hrow; eauto.
    + eapply Hrow; eauto.
    + eapply Hrow; eauto.
    + destruct (Hrow _ _ H) as (_ & _ & ->).
      destruct (Hrow _ _ H1) as (_ & _ & ->). reflexivity.
  - intros (Hid & Ht & Hn) [k oa] Hin.
    apply elem_of_range_map_fmap in Hin as (a & -> & Hg); [| exact Hfair].
    split; simpl; [eauto |]. exists a. repeat split; eauto; eapply Ht; eauto.
Qed.

(** C3 (as amended): for an Atoms table wired to its two Counters,
    Check succeeds exactly when the number of records equals the atom
    count, every identifier is in [1, atom count], every type is in
    [1, atom-type count] and the image flag is the same in all records;
    the error is otherwise a count, range or image-flag error. *)
Theorem Atoms_Check_iff rt st s pn pt hn ht (g : gmap Z Atom) :
  (forall l, rangeInts rt NameAtoms l ≡ₚ l) ->
  deref st pn = Some hn ->
  deref st pt = Some ht ->
  (Atoms_Check rt st (mkAtoms s (Some pn) (Some pt) (Some (Some <$> g))) = Ok tt
   <-> Z.of_nat (size g) = h_v hn /\ atoms_in_range (h_v hn) (h_v ht) g)
  /\ (forall e,
        Atoms_Check rt st (mkAtoms s (Some pn) (Some pt) (Some (Some <$> g))) = Err e ->
        (exists got want, e = ErrCount got want)
        \/ (exists v b, e = ErrRange v b) \/ (exists id, e = ErrImageFlag id)).
Proof.
  intros Hfair Hn Ht. unfold Atoms_Check, getInt. simpl.
  rewrite Hn, Ht. simpl. rewrite map_size_fmap.
  destruct (Z.eqb_spec (Z.of_nat (size g)) (h_v hn)) as [Hsz|Hsz]; simpl.
  2:{ split; [split; [discriminate | intros [? _]; contradiction] |].
      intros e [= <-]. eauto. }
  destruct (Z.eqb_spec (Z.of_nat (size g)) 0) as [Hz|Hz].
  { assert (g = ∅) as -> by (apply map_size_empty_iff; lia).
    split; [| discriminate].
    split; [intros _ | reflexivity].
    split; [exact Hsz |].
    repeat split; intros; rewrite lookup_empty in *; discriminate. }
  destruct (range_map (rangeInts rt NameAtoms) (Some <$> g)) as [|[id0 oa0] L] eqn:EL.
  { exfalso. apply Hz.
    assert (Hp := range_map_perm (rangeInts rt NameAtoms) (Some <$> g) Hfair).
    rewrite EL in Hp. apply Permutation_nil_l in Hp. symmetry in Hp.
    apply map_to_list_empty_iff in Hp. apply fmap_empty_inv in Hp. subst g.
    rewrite map_size_empty. reflexivity. }
  assert (H0 : exists a0, oa0 = Some a0 /\ g !! id0 = Some a0).
  { apply (elem_of_range_map_fmap (rangeInts rt NameAtoms)); [exact Hfair |].
    rewrite EL. left. }
  destruct H0 as (a0 & -> & Hg0).
  rewrite Atoms_Check_loop_first. split.
  - rewrite Atoms_Check_loop_ok, <- EL, (Atoms_rows_ok _ g _ _ id0 a0 Hfair Hg0).
    split; [intros H; split; [exact Hsz | exact H] | intros [_ H]; exact H].
  - intros e He. right. eapply Atoms_Check_loop_err, He.
Qed.

(** Two Counters holding [n] atoms and [t] atom types. *)
Definition counters_ex (n t : Z) : Store :=
  <[NameAtomsNbr := KHeader (mkHeader NameAtomsNbr (Fields NameAtomsNbr) "" n)]>
    (<[NameAtomTypes := KHeader (mkHeader NameAtomTypes (Fields NameAtomTypes) "" t)]> ∅).

Definition atom_ex : Atom := mkAtom 1 1 0 0.5 0.5 0.5 false 0 0 0.

Definition atoms_ex (g : gmap Z Atom) : Atoms :=
  mkAtoms AtomStyleFull (Some NameAtomsNbr) (Some NameAtomTypes) (Some (Some <$> g)).

Lemma Atoms_Check_iff_witness :
  (Atoms_Check rt_bwd (counters_ex 1 1) (atoms_ex {[1 := atom_ex]}) = Ok tt
   <-> Z.of_nat (size ({[1 := atom_ex]} : gmap Z Atom)) = 1
       /\ atoms_in_range 1 1 {[1 := atom_ex]})
  /\ (forall e,
        Atoms_Check rt_bwd (counters_ex 1 1) (atoms_ex {[1 := atom_ex]}) = Err e ->
        (exists got want, e = ErrCount got want)
        \/ (exists v b, e = ErrRange v b) \/ (exists id, e = ErrImageFlag id)).
Proof.
  apply (Atoms_Check_iff rt_bwd (counters_ex 1 1) AtomStyleFull
           NameAtomsNbr NameAtomTypes
           (mkHeader NameAtomsNbr (Fields NameAtomsNbr) "" 1)
           (mkHeader NameAtomTypes (Fields NameAtomTypes) "" 1)
           {[1 := atom_ex]}).
  - intros l. simpl. apply Permutation_sym, Permutation_rev.
  - reflexivity.
  - reflexivity.
Defined.

(** C3 (counterexample): two atoms are declared and the table holds one
    record, with identifier 1, type 1 and no image flag.  The three
    conditions of the claim hold, and Check fails on the count. *)
Lemma Atoms_Check_count_mismatch :
  atoms_in_range 2 1 {[1 := atom_ex]}
  /\ Atoms_Check rt_fwd (counters_ex 2 1) (atoms_ex {[1 := atom_ex]})
     = Err (ErrCount 1 2).
Proof.
  split; [| reflexivity].
  repeat split; intros;
    repeat match goal with
           | H : {[_ := _]} !! _ = Some _ |- _ =>
             apply lookup_singleton_Some in H; destruct H as [<- <-]
           end; simpl; try lia; reflexivity.
Qed.

(** ** Comments on data lines *)

Definition bonds_ex : Links :=
  mkLinks NameBonds 4 (Some NameBondsNbr) (Some NameBondTypes)
          (Some NameAtomsNbr) None.

Definition bonds_counter_ex : Store :=
  <[NameBondsNbr := KHeader (mkHeader NameBondsNbr (Fields NameBondsNbr) "" 1)]> ∅.

(** C5 (the code, Links): the row "1 1 1 2#c" of a Bonds table is split
    with its comment still attached, and the last atom fails to parse. *)
Example Links_Decode_keeps_comment :
  snd (Links_Decode bonds_counter_ex bonds_ex (NewScanner [""; "1 1 1 2#c"] None))
  = Err (Wrap "strconv.Atoi link" (ErrSyntax "2#c")).
Proof. reflexivity. Qed.

(** The same row without the comment decodes. *)
Example Links_Decode_plain_row :
  snd (Links_Decode bonds_counter_ex bonds_ex (NewScanner [""; "1 1 1 2"] None))
  = Ok tt.
Proof. reflexivity. Qed.

(** C5 (the code, Masses): the row "1 1.0#m" reaches ParseFloat as the
    field "1.0#m". *)
Example Masses_row_keeps_comment rt :
  Masses_row rt "1 1.0#m"
  = let '(mass, err) := ParseFloat rt "1.0#m" in
    check_err err "strconv.ParseFloat" (Ok (1, mass)).
Proof. reflexivity. Qed.

Lemma IndexByte_from_sharp s c i :
  0 <= i ->
  IndexByte_from s "#" i = -1 ->
  (forall j, IndexByte_from (s +:+ "#" +:+ c) "#" j = j + Z.of_nat (String.length s))
  /\ str_take (String.length s) (s +:+ "#" +:+ c) = s.
Proof.
  revert i. induction s as [|d s IH]; intros i Hpos Hi.
  - rewrite app_Empty. split; [intros j; simpl; apply Zplus_0_r_reverse | reflexivity].
  - simpl in Hi. rewrite !app_String. simpl String.length.
    destruct (Ascii.eqb d "#") eqn:Ed; [lia |].
    destruct (IH (i + 1) ltac:(lia) Hi) as [H1 H2]. split.
    + intros j. simpl. rewrite Ed, H1. lia.
    + simpl. f_equal. exact H2.
Qed.

Lemma delComments_sharp s c :
  IndexRune s "#" = -1 -> delComments (s +:+ "#" +:+ c) = s.
Proof.
  intros Hs. unfold delComments.
  destruct (IndexByte_from_sharp s c 0 ltac:(lia) Hs) as [H1 H2].
  unfold IndexRune. rewrite H1.
  destruct (Z.eqb_spec (0 + Z.of_nat (String.length s)) (-1)); [lia |].
  rewrite Z.add_0_l, Nat2Z.id. exact H2.
Qed.

Lemma delComments_none s : IndexRune s "#" = -1 -> delComments s = s.
Proof. intros Hs. unfold delComments. rewrite Hs. reflexivity. Qed.

(** Coeffs rows are cut at the first '#' before they are split. *)
Lemma Coeffs_row_strips_comment rt s c :
  IndexRune s "#" = -1 ->
  Coeffs_row rt (s +:+ "#" +:+ c) = Coeffs_row rt s.
Proof.
  intros Hs. unfold Coeffs_row.
  rewrite delComments_sharp, delComments_none by exact Hs. reflexivity.
Qed.

(** ** The registry built by MakeKeys *)

(** The Counter of types a Coeffs table points to. *)
Definition coeffs_types (n : Name) : option Name :=
  if String.eqb n NamePairCoeffs then Some NameAtomTypes
  else if String.eqb n NameBondCoeffs then Some NameBondTypes
  else if String.eqb n NameAngleCoeffs then Some NameAngleTypes
  else if String.eqb n NameDihedralCoeffs then Some NameDihedralTypes
  else None.

(** The columns of a Links table and the Counters it points to. *)
Definition links_wiring (n : Name) : option (Z * Name * Name) :=
  if String.eqb n NameBonds then Some (4, NameBondsNbr, NameBondTypes)
  else if String.eqb n NameAngles then Some (5, NameAnglesNbr, NameAngleTypes)
  else if String.eqb n NameDihedrals then Some (6, NameDihedralsNbr, NameDihedralTypes)
  else None.

(** The Key that [New] creates for a Name: wired, and holding no value. *)
Definition fresh_key (s : AtomStyle) (n : Name) : option Key :=
  if name_in n (nbr ++ types) then Some (KHeader (NewHeader n))
  else if name_in n box then Some (KBox (NewBox n))
  else if String.eqb n NameTitle then Some (KTitle (mkTitle ""))
  else if String.eqb n NameMasses
  then Some (KMasses (mkMasses (Some NameAtomTypes) None))
  else if String.eqb n NameAtoms
  then Some (KAtoms (mkAtoms s (Some NameAtomsNbr) (Some NameAtomTypes) None))
  else
    match coeffs_types n, links_wiring n with
    | Some t, _ => Some (KCoeffs (mkCoeffs n (Some t) None))
    | None, Some (k, nb, ty) =>
      Some (KLinks (mkLinks n k (Some nb) (Some ty) (Some NameAtomsNbr) None))
    | None, None => None
    end.

(** The Names a Name depends on. *)
Definition deps (n : Name) : list Name :=
  if String.eqb n NameMasses then [NameAtomTypes]
  else if String.eqb n NameAtoms then [NameAtomTypes; NameAtomsNbr]
  else
    match coeffs_types n, links_wiring n with
    | Some t, _ => [t]
    | None, Some (_, nb, ty) => [NameAtomsNbr; nb; ty]
    | None, None => []
    end.

(** Every Key of the store is the fresh Key of its Name. *)
Definition all_fresh (s : AtomStyle) (st : Store) : Prop :=
  forall n k, st !! n = Some k -> fresh_key s n = Some k.

(** The store with the fresh Keys of [l] added where they are missing. *)
Fixpoint ensure (s : AtomStyle) (l : list Name) (st : Store) : Store :=
  match l with
  | [] => st
  | n :: l' =>
    match st !! n, fresh_key s n with
    | None, Some k => ensure s l' (<[n := k]> st)
    | _, _ => ensure s l' st
    end
  end.

(** The Keys a present Key depends on are present. *)
Definition closed (st : Store) : Prop :=
  forall n d, is_Some (st !! n) -> In d (deps n) -> is_Some (st !! d).

Lemma IsName_cases n : IsName n = true -> In n ListNames.
Proof.
  unfold IsName. rewrite existsb_exists. intros (x & Hin & Heq).
  apply String.eqb_eq in Heq. subst. exact Hin.
Qed.

Lemma all_fresh_insert s st n k :
  all_fresh s st -> fresh_key s n = Some k -> all_fresh s (<[n := k]> st).
Proof.
  intros Hf Hk m k' H. apply lookup_insert_Some in H as [[<- <-]|[_ H]]; auto.
Qed.

Lemma all_fresh_ensure s l st : all_fresh s st -> all_fresh s (ensure s l st).
Proof.
  revert st. induction l as [|n l IH]; intros st Hf; simpl; [exact Hf |].
  destruct (st !! n); [apply IH, Hf |].
  destruct (fresh_key s n) eqn:E; [| apply IH, Hf].
  apply IH, all_fresh_insert; assumption.
Qed.

Lemma ensure_cons s a l st : ensure s (a :: l) st = ensure s l (ensure s [a] st).
Proof. simpl. destruct (st !! a), (fresh_key s a); reflexivity. Qed.

Lemma ensure_2 s a b st : ensure s [a; b] st = ensure s [b] (ensure s [a] st).
Proof. apply ensure_cons. Qed.

Lemma ensure_3 s a b c st :
  ensure s [a; b; c] st = ensure s [c] (ensure s [b] (ensure s [a] st)).
Proof. rewrite ensure_cons, ensure_cons. reflexivity. Qed.

Lemma ensure_lookup s l st m :
  is_Some (ensure s l st !! m) <-> is_Some (st !! m) \/ (In m l /\ is_Some (fresh_key s m)).
Proof.
  revert st. induction l as [|n l IH]; intros st; simpl.
  - tauto.
  - destruct (st !! n) as [k|] eqn:E.
    + rewrite IH. split; [tauto |].
      intros [H|[[<-|H] Hk]]; [auto | left; rewrite E; eauto | auto].
    + destruct (fresh_key s n) as [k|] eqn:Ek.
      * rewrite IH, lookup_insert_is_Some'. split.
        -- intros [[<-|H]|[H Hk]]; [right; rewrite Ek; eauto | auto | auto].
        -- intros [H|[[<-|H] Hk]]; auto.
      * rewrite IH. split; [tauto |].
        intros [H|[[<-|H] Hk]]; [auto | | auto].
        rewrite Ek in Hk. destruct Hk; discriminate.
Qed.

Lemma New_dep_fresh s st d :
  all_fresh s st -> name_in d (nbr ++ types) = true ->
  New_body (fun _ _ => Panic) s st d
  = Ok (ensure s [d] st, KHeader (NewHeader d)).
Proof.
  intros Hf Hd. unfold New_body. simpl ensure.
  assert (Hk : fresh_key s d = Some (KHeader (NewHeader d))).
  { unfold fresh_key. rewrite Hd. reflexivity. }
  rewrite Hk.
  destruct (st !! d) as [k|] eqn:E.
  - apply Hf in E. rewrite Hk in E. injection E as <-. reflexivity.
  - unfold name_in in Hd. simpl in Hd.
    repeat (apply orb_true_iff in Hd; destruct Hd as [Hd|Hd]);
      try discriminate; apply String.eqb_eq in Hd; subst d; reflexivity.
Qed.

(** Tests between Names that are literals are decided by evaluation. *)
Ltac eval_closed_tests :=
  repeat match goal with
  | |- context [String.eqb ?a ?b] =>
    let v := eval vm_compute in (String.eqb a b) in
    change (String.eqb a b) with v
  | |- context [name_in ?a ?l] =>
    let v := eval vm_compute in (name_in a l) in
    change (name_in a l) with v
  end; cbv iota.

Lemma New_absent s st n :
  all_fresh s st -> IsName n = true -> st !! n = None ->
  exists k, fresh_key s n = Some k
            /\ New s st n = Ok (<[n := k]> (ensure s (deps n) st), k).
Proof.
  intros Hf Hn E. apply IsName_cases in Hn. unfold New.
  simpl in Hn.
  repeat (destruct Hn as [<-|Hn]); [.. | contradiction];
    unfold New_body at 1; rewrite E;
    match goal with |- context [deps ?n] =>
      let x := eval vm_compute in (deps n) in change (deps n) with x end;
    rewrite ?ensure_2, ?ensure_3;
    match goal with |- context [fresh_key s ?n] =>
      let x := eval vm_compute in (fresh_key s n) in change (fresh_key s n) with x end;
    eexists; (split; [reflexivity |]);
    eval_closed_tests;
    repeat (rewrite New_dep_fresh by (repeat apply all_fresh_ensure; auto);
            cbn [mbind outcome_bind]);
    reflexivity.
Qed.

Lemma deps_fresh s n d : IsName n = true -> In d (deps n) ->
  is_Some (fresh_key s d) /\ deps d = [].
Proof.
  intros Hn Hd. apply IsName_cases in Hn. simpl in Hn.
  repeat (destruct Hn as [<-|Hn]); [.. | contradiction];
    vm_compute in Hd;
    repeat (destruct Hd as [<-|Hd]); try contradiction; split; try reflexivity;
    eexists; reflexivity.
Qed.

Lemma fresh_key_IsName s n : is_Some (fresh_key s n) -> IsName n = true.
Proof.
  intros [k Hk]. unfold fresh_key, coeffs_types, links_wiring, name_in in Hk.
  simpl in Hk.
  repeat match type of Hk with
         | context [String.eqb n ?x] =>
           destruct (String.eqb_spec n x) as [->|?]; [reflexivity |]; simpl in Hk
         end.
  discriminate.
Qed.

(** The registry invariant: fresh Keys, closed under dependencies. *)
Definition registry (s : AtomStyle) (st : Store) : Prop :=
  all_fresh s st /\ closed st.

Lemma New_registry s st n :
  registry s st -> IsName n = true ->
  exists st' k, New s st n = Ok (st', k) /\ registry s st'
    /\ (forall m, is_Some (st' !! m)
                  <-> is_Some (st !! m) \/ m = n \/ In m (deps n)).
Proof.
  intros [Hf Hc] Hn. destruct (st !! n) as [k|] eqn:E.
  - exists st, k. split; [unfold New, New_body; rewrite E; reflexivity |].
    split; [split; assumption |].
    intros m. split; [auto |].
    intros [H|[->|H]]; [exact H | rewrite E; eauto |].
    eapply Hc; [| exact H]. rewrite E. eauto.
  - destruct (New_absent s st n Hf Hn E) as (k & Hk & HN).
    exists (<[n := k]> (ensure s (deps n) st)), k. split; [exact HN |].
    assert (Hdom : forall m, is_Some (<[n := k]> (ensure s (deps n) st) !! m)
                  <-> is_Some (st !! m) \/ m = n \/ In m (deps n)).
    { intros m. rewrite lookup_insert_is_Some', ensure_lookup. split.
      - intros [<-|[H|[H _]]]; auto.
      - intros [H|[->|H]]; auto.
        right. right. split; [exact H |]. eapply deps_fresh; eauto. }
    split; [| exact Hdom]. split.
    + apply all_fresh_insert; [apply all_fresh_ensure, Hf | exact Hk].
    + intros m d Hm Hd. apply Hdom. apply Hdom in Hm.
      destruct Hm as [Hm|[->|Hm]].
      * left. eapply Hc; eauto.
      * auto.
      * destruct (deps_fresh s n m Hn Hm) as [_ Hnil]. rewrite Hnil in Hd.
        destruct Hd.
Qed.

Lemma MakeKeys_loop_registry s names st :
  registry s st -> Forall (fun n => IsName n = true) names ->
  exists st', MakeKeys_loop s names st = Ok st' /\ registry s st'
    /\ (forall m, is_Some (st' !! m)
                  <-> is_Some (st !! m) \/ In m names
                      \/ exists n, In n names /\ In m (deps n)).
Proof.
  intros Hr Hnames. revert st Hr.
  induction Hnames as [|n names Hn _ IH]; intros st Hr; simpl.
  - exists st. split; [reflexivity |]. split; [exact Hr |].
    intros m. split; [auto |]. intros [H|[[]|(n & [] & _)]]. exact H.
  - destruct (New_registry s st n Hr Hn) as (st1 & k & HN & Hr1 & Hd1).
    rewrite HN. cbn [mbind outcome_bind].
    destruct (IH st1 Hr1) as (st' & HM & Hr' & Hd').
    exists st'. split; [exact HM |]. split; [exact Hr' |].
    intros m. rewrite Hd', Hd1. split.
    + intros [[H|[->|H]]|[H|(x & Hx & H)]]; eauto 8.
    + intros [H|[[->|H]|(x & [->|Hx] & H)]]; eauto 8.
Qed.

Lemma registry_empty s : registry s ∅.
Proof.
  split.
  - intros n k H. rewrite lookup_empty in H. discriminate.
  - intros n d [k H]. rewrite lookup_empty in H. discriminate.
Qed.

(** The Names and the atom style that [createNames] reads off the tags. *)
Definition requested (typ : list StructField) : AtomStyle * list Name * gmap Name nat :=
  createNames_loop typ 0 AtomStyleFull [] ∅.

Lemma createNames_loop_names typ i s names nF :
  Forall (fun n => IsName n = true) names ->
  Forall (fun n => IsName n = true) (createNames_loop typ i s names nF).1.2.
Proof.
  revert i s names nF. induction typ as [|f typ IH]; intros i s names nF HF; simpl.
  - exact HF.
  - destruct (f_tag f) as [v|]; [| apply IH, HF].
    destruct (if HasPrefix v NameAtoms then _ else _) as [s' v'].
    destruct (IsName v') eqn:E; [| apply IH, HF].
    apply IH. apply Forall_app. split; [exact HF |]. repeat constructor. exact E.
Qed.

(** MakeKeys never fails on the Names kept by createNames. *)
Lemma createNames_registry typ :
  exists st, (createNames typ).2 = Ok st
    /\ (createNames typ).1 = (requested typ).2
    /\ registry (requested typ).1.1 st
    /\ (forall m, is_Some (st !! m)
                  <-> In m (requested typ).1.2
                      \/ exists n, In n (requested typ).1.2 /\ In m (deps n)).
Proof.
  unfold createNames, requested.
  pose proof (createNames_loop_names typ 0 AtomStyleFull [] ∅ (Forall_nil_2 _)) as HF.
  destruct (createNames_loop typ 0 AtomStyleFull [] ∅) as [[s names] nF].
  simpl in *. unfold MakeKeys.
  destruct (MakeKeys_loop_registry s names ∅ (registry_empty s) HF)
    as (st & HM & Hr & Hd).
  exists st. split; [exact HM |]. split; [reflexivity |]. split; [exact Hr |].
  intros m. rewrite Hd. split; [| auto].
  intros [[k H]|H]; [rewrite lookup_empty in H; discriminate | exact H].
Qed.

(** ** The loop of Decode ends *)

Lemma Scan_pending r :
  (length (pending (Scan r).2) <= length (pending r))%nat
  /\ ((Scan r).1 = true -> (length (pending (Scan r).2) < length (pending r))%nat).
Proof.
  unfold Scan. destruct (pending r); simpl; split; try lia; discriminate.
Qed.

Lemma scan_rows_pending {V} (row : string -> outcome (Z * V)) n : forall v r,
  (length (pending (scan_rows row n v r).1.2) <= length (pending r))%nat.
Proof.
  induction n as [|n IH]; intros v r; simpl; [lia |].
  pose proof (Scan_pending r) as [Hle _].
  destruct (Scan r) as [ok r1]. simpl in Hle.
  destruct ok; [| simpl; exact Hle].
  destruct (row (token r1)) as [[id x]|e|]; simpl; try exact Hle.
  specialize (IH (<[id := x]> v) r1). lia.
Qed.

(** Decode of a Key only reads forward. *)
Lemma Key_Decode_pending rt st k s r :
  (length (pending (Key_Decode rt st k s r).1.2) <= length (pending r))%nat.
Proof.
  destruct k; simpl.
  - lia.
  - destruct (Header_Decode h). simpl. lia.
  - destruct (Box_Decode rt b). simpl. lia.
  - unfold Masses_Decode. destruct (m_types m); [| simpl; lia].
    pose proof (Scan_pending r) as [Hle _].
    destruct (Scan r) as [ok r1]. simpl in Hle.
    destruct ok; simpl; [| exact Hle].
    destruct (getInt st n) as [c|e|]; simpl; try exact Hle.
    pose proof (scan_rows_pending (Masses_row rt) (Z.to_nat c) ∅ r1) as Hs.
    destruct (scan_rows _ _ _ _) as [[v r2] res]. simpl in Hs.
    destruct res; simpl; lia.
  - unfold Coeffs_Decode. destruct (c_types c); [| simpl; lia].
    destruct (getInt st n) as [cnt|e|]; simpl; try lia.
    pose proof (Scan_pending r) as [Hle _].
    destruct (Scan r) as [ok r1]. simpl in Hle.
    destruct ok; simpl; [| exact Hle].
    pose proof (scan_rows_pending (Coeffs_row rt) (Z.to_nat cnt) ∅ r1) as Hs.
    destruct (scan_rows _ _ _ _) as [[v r2] res]. simpl in Hs.
    destruct res; simpl; lia.
  - unfold Atoms_Decode. destruct (a_atomsNbr a); [| simpl; lia].
    pose proof (Scan_pending r) as [Hle _].
    destruct (Scan r) as [ok r1]. simpl in Hle.
    destruct ok; simpl; [| exact Hle].
    destruct (getInt st n) as [cnt|e|]; simpl; try exact Hle.
    pose proof (scan_rows_pending (Atoms_row rt (a_atomStyle a)) (Z.to_nat cnt) ∅ r1) as Hs.
    destruct (scan_rows _ _ _ _) as [[v r2] res]. simpl in Hs.
    destruct res; simpl; lia.
  - unfold Links_Decode. destruct (l_nbr l); [| simpl; lia].
    destruct (getInt st n) as [cnt|e|]; simpl; try lia.
    pose proof (Scan_pending r) as [Hle _].
    destruct (Scan r) as [ok r1]. simpl in Hle.
    destruct ok; simpl; [| exact Hle].
    pose proof (scan_rows_pending (Links_row (l_links l)) (Z.to_nat cnt) ∅ r1) as Hs.
    destruct (scan_rows _ _ _ _) as [[v r2] res]. simpl in Hs.
    destruct res; simpl; lia.
Qed.

Lemma keyDecode_loop_pending rt s order : forall st keys r,
  (length (pending (keyDecode_loop rt s order st keys r).1.2)
   <= length (pending r))%nat.
Proof.
  induction order as [|n order IH]; intros st keys r; simpl; [lia |].
  destruct (st !! n) as [k|]; [| apply IH].
  destruct (Key_Keyword k s) as [ok k1].
  destruct ok; [| apply IH].
  pose proof (Key_Decode_pending rt (<[n := k1]> st) k1 s r) as H.
  destruct (Key_Decode _ _ _ _ _) as [[k2 r2] res]. simpl in H.
  destruct res; simpl; exact H.
Qed.

(** The loop of Decode makes at most one iteration per line: with more
    fuel than lines to read it returns. *)
Lemma Decode_lines_fuel rt fuel : forall i st kH kB inH r,
  (length (pending r) < fuel)%nat ->
  is_Some (Decode_lines rt fuel i st kH kB inH r).
Proof.
  induction fuel as [|fuel IH]; intros i st kH kB inH r Hlen; [lia |].
  cbn [Decode_lines].
  pose proof (Scan_pending r) as [_ Hlt].
  destruct (Scan r) as [ok r1]. simpl in Hlt.
  destruct ok; simpl; [| eauto]. specialize (Hlt eq_refl).
  assert (Hbody : forall st0 r0, (length (pending r0) <= length (pending r1))%nat ->
    is_Some
      (let '(st1, kBody, r2, res) := keyDecode rt (SiteBody i) (token r1) st0 kB r0 in
       match res with
       | Ok ok => Decode_lines rt fuel (S i) st1 kH kBody (if ok then false else inH) r2
       | Err e => Some (st1, r2, Err e)
       | Panic => Some (st1, r2, Panic)
       end)).
  { intros st0 r0 Hr0. unfold keyDecode.
    pose proof (keyDecode_loop_pending rt (token r1)
                  (rangeNames rt (SiteBody i) (elements kB)) st0 kB r0) as H.
    destruct (keyDecode_loop _ _ _ _ _ _) as [[[st1 kB1] r2] res]. simpl in H.
    destruct res as [ok| |]; [apply IH; lia | eauto | eauto]. }
  destruct inH; [| apply Hbody; lia].
  unfold keyDecode at 1.
  pose proof (keyDecode_loop_pending rt (token r1)
                (rangeNames rt (SiteHead i) (elements kH)) st kH r1) as H.
  destruct (keyDecode_loop _ _ _ _ _ _) as [[[st1 kH1] r2] res]. simpl in H.
  destruct res as [[|]| |]; [apply IH; lia | apply Hbody; lia | eauto | eauto].
Qed.

(** ** Decode and the destination struct *)

(** C9: on an input without any line Decode returns nil at once: the
    struct is left as it was, whatever the tags request. *)
Theorem Decode_empty_input rt typ val :
  Decode rt typ (NewScanner [] None) val = (val, Ok tt).
Proof.
  unfold Decode.
  destruct (createNames_registry typ) as (st & Hst & _).
  destruct (createNames typ) as [nF o]. simpl in Hst. subst o.
  destruct (headBody st) as [kHead kBody]. reflexivity.
Qed.

Lemma assign_fields_result st nF typ order val val' res :
  assign_fields st nF typ order val = (val', res) ->
  res = Ok tt \/ res = Err ErrNotAssignable \/ res = Panic.
Proof.
  revert val. induction order as [|n order IH]; intros val; simpl.
  - intros [= _ <-]. auto.
  - destruct (nF !! n) as [f|]; [| apply IH].
    destruct (st !! n) as [k|]; [| intros [= _ <-]; auto].
    destruct (typ !! f) as [field|]; [| intros [= _ <-]; auto].
    destruct (negb _); [intros [= _ <-]; auto | apply IH].
Qed.

(** C10: whatever Decode returns, either the struct is untouched or every
    Key's Check had succeeded and the fields were then being assigned; in
    particular an error of line decoding, of the reader or of validation
    leaves the struct untouched. *)
Theorem Decode_error_keeps_struct rt typ r val val' res :
  Decode rt typ r val = (val', res) ->
  (forall e, res = Err e -> e <> ErrNotAssignable -> val' = val)
  /\ (val' = val
      \/ exists nFields keys order,
           check_all rt keys = Ok tt
           /\ assign_fields keys nFields typ order val = (val', res)).
Proof.
  intros HD.
  assert (H : val' = val
      \/ exists nFields keys order,
           check_all rt keys = Ok tt
           /\ assign_fields keys nFields typ order val = (val', res)).
  { unfold Decode in HD.
    destruct (createNames typ) as [nF [keys|e|]];
      [| injection HD as <- _; auto ..].
    destruct (headBody keys) as [kHead kBody].
    destruct (Scan r) as [ok r1].
    destruct ok; cbn [negb] in HD;
      [| destruct (ScanErr r1); injection HD as <- _; auto].
    destruct (match keys !! NameTitle with Some _ => _ | None => _ end)
      as [keys1 [e|]]; [injection HD as <- _; auto |].
    destruct (Decode_lines _ _ _ _ _ _ _ _) as [[[keys2 r2] [[]|e|]]|];
      [| injection HD as <- _; auto ..].
    destruct (ScanErr r2); [injection HD as <- _; auto |].
    destruct (check_all rt keys2) as [[]|e|] eqn:EC;
      [| injection HD as <- _; auto ..].
    right. eauto. }
  split; [| exact H].
  intros e -> Hne. destruct H as [H|(nF & keys & order & _ & HA)]; [exact H |].
  apply assign_fields_result in HA as [HA|[HA|HA]]; congruence.
Qed.

Definition typ_counter_ex : list StructField :=
  [mkField (Some "Title") TString; mkField (Some "atoms") TInt].

Definition val_counter_ex : list GoValue := [VString "previous"; VInt 9].

Definition err_counter_ex : error :=
  Wrap "k.Decode for Key = atoms" (Wrap "strconv.Atoi" (ErrSyntax "x")).

Lemma Decode_error_keeps_struct_witness :
  Decode rt_fwd typ_counter_ex (NewScanner ["t"; "x atoms"] None) val_counter_ex
  = (val_counter_ex, Err err_counter_ex)
  /\ ((forall e, @Err unit err_counter_ex = Err e -> e <> ErrNotAssignable ->
                 val_counter_ex = val_counter_ex)
      /\ (val_counter_ex = val_counter_ex
          \/ exists nFields keys order,
               check_all rt_fwd keys = Ok tt
               /\ assign_fields keys nFields typ_counter_ex order val_counter_ex
                  = (val_counter_ex, Err err_counter_ex))).
Proof.
  split; [vm_compute; reflexivity |].
  apply (Decode_error_keeps_struct rt_fwd typ_counter_ex
           (NewScanner ["t"; "x atoms"] None)).
  vm_compute. reflexivity.
Defined.

(** ** Wiring: what the methods never change *)

(** A Key with its value and its caches reset: what is left is the
    variant, the Name and the pointers to other Keys. *)
Definition wiring (k : Key) : Key :=
  match k with
  | KTitle _ => KTitle (mkTitle "")
  | KHeader h => KHeader (mkHeader (h_name h) (h_nameSep h) "" 0)
  | KBox b => KBox (mkBox (b_name b) (b_nameSep b) "" "" 0%float 0%float)
  | KMasses m => KMasses (mkMasses (m_types m) None)
  | KCoeffs c => KCoeffs (mkCoeffs (c_name c) (c_types c) None)
  | KAtoms a => KAtoms (mkAtoms (a_atomStyle a) (a_atomsNbr a) (a_atomTypes a) None)
  | KLinks l => KLinks (mkLinks (l_name l) (l_links l) (l_nbr l) (l_types l)
                                (l_atomsNbr l) None)
  end.

(** A store whose Keys are wired as MakeKeys wires them. *)
Definition wired (s : AtomStyle) (st : Store) : Prop :=
  closed st /\ forall n k, st !! n = Some k -> fresh_key s n = Some (wiring k).

Lemma wiring_idem k : wiring (wiring k) = wiring k.
Proof. destruct k; reflexivity. Qed.

Lemma fresh_key_wiring s n k : fresh_key s n = Some k -> wiring k = k.
Proof.
  unfold fresh_key.
  destruct (name_in n (nbr ++ types)); [intros [= <-]; reflexivity |].
  destruct (name_in n box); [intros [= <-]; reflexivity |].
  destruct (String.eqb n NameTitle); [intros [= <-]; reflexivity |].
  destruct (String.eqb n NameMasses); [intros [= <-]; reflexivity |].
  destruct (String.eqb n NameAtoms); [intros [= <-]; reflexivity |].
  destruct (coeffs_types n); [intros [= <-]; reflexivity |].
  destruct (links_wiring n) as [[[? ?] ?]|]; [intros [= <-]; reflexivity |].
  discriminate.
Qed.

Lemma registry_wired s st : registry s st -> wired s st.
Proof.
  intros [Hf Hc]. split; [exact Hc |].
  intros n k H. apply Hf in H. rewrite (fresh_key_wiring _ _ _ H). exact H.
Qed.

(** Replacing a Key by one with the same wiring keeps the store wired. *)
Lemma wired_insert s st n k k' :
  wired s st -> st !! n = Some k -> wiring k' = wiring k ->
  wired s (<[n := k']> st).
Proof.
  intros [Hc Hw] Hn Hk. split.
  - intros m d Hm Hd. apply lookup_insert_is_Some'. right.
    apply lookup_insert_is_Some' in Hm as [<-|Hm]; eapply Hc; eauto.
  - intros m k0 H. apply lookup_insert_Some in H as [[<- <-]|[_ H]].
    + rewrite Hk. apply Hw, Hn.
    + apply Hw, H.
Qed.

Lemma wired_header s st n h :
  wired s st -> st !! n = Some (KHeader h) ->
  name_in n (nbr ++ types) = true /\ h_name h = n /\ h_nameSep h = Fields n.
Proof.
  intros [_ Hw] H. apply Hw in H. revert H. unfold fresh_key.
  destruct (name_in n (nbr ++ types)); [intros [= <- <-]; auto |].
  destruct (name_in n box); [discriminate |].
  destruct (String.eqb n NameTitle); [discriminate |].
  destruct (String.eqb n NameMasses); [discriminate |].
  destruct (String.eqb n NameAtoms); [discriminate |].
  destruct (coeffs_types n); [discriminate |].
  destruct (links_wiring n) as [[[? ?] ?]|]; discriminate.
Qed.

Lemma wired_header_name s st n k :
  wired s st -> st !! n = Some k -> name_in n (nbr ++ types) = true ->
  exists h, k = KHeader h.
Proof.
  intros [_ Hw] H Hn. apply Hw in H. unfold fresh_key in H. rewrite Hn in H.
  destruct k; try discriminate. eauto.
Qed.

Lemma deps_header n d : In d (deps n) -> name_in d (nbr ++ types) = true.
Proof.
  unfold deps, coeffs_types, links_wiring.
  repeat match goal with
         | |- context [String.eqb n ?x] => destruct (String.eqb n x)
         end; simpl; intros H;
    repeat (destruct H as [<-|H]; [reflexivity |]); destruct H.
Qed.

Lemma wired_deref s st n d :
  wired s st -> is_Some (st !! n) -> In d (deps n) ->
  exists h, deref st d = Some h.
Proof.
  intros Hw Hn Hd. destruct (proj1 Hw n d Hn Hd) as [k Hk].
  destruct (wired_header_name s st d k Hw Hk (deps_header n d Hd)) as [h ->].
  exists h. unfold deref. rewrite Hk. reflexivity.
Qed.

Lemma wired_masses s st n m :
  wired s st -> st !! n = Some (KMasses m) ->
  n = NameMasses /\ m_types m = Some NameAtomTypes.
Proof.
  intros [_ Hw] H. apply Hw in H. revert H. unfold fresh_key.
  destruct (name_in n (nbr ++ types)); [discriminate |].
  destruct (name_in n box); [discriminate |].
  destruct (String.eqb n NameTitle); [discriminate |].
  destruct (String.eqb_spec n NameMasses); [intros [= <-]; auto |].
  destruct (String.eqb n NameAtoms); [discriminate |].
  destruct (coeffs_types n); [discriminate |].
  destruct (links_wiring n) as [[[? ?] ?]|]; discriminate.
Qed.

Lemma wired_coeffs s st n c :
  wired s st -> st !! n = Some (KCoeffs c) ->
  c_name c = n /\ exists t, coeffs_types n = Some t /\ c_types c = Some t.
Proof.
  intros [_ Hw] H. apply Hw in H. revert H. unfold fresh_key.
  destruct (name_in n (nbr ++ types)); [discriminate |].
  destruct (name_in n box); [discriminate |].
  destruct (String.eqb n NameTitle); [discriminate |].
  destruct (String.eqb n NameMasses); [discriminate |].
  destruct (String.eqb n NameAtoms); [discriminate |].
  destruct (coeffs_types n); [intros [= <- <-]; eauto |].
  destruct (links_wiring n) as [[[? ?] ?]|]; discriminate.
Qed.

Lemma wired_atoms s st n a :
  wired s st -> st !! n = Some (KAtoms a) ->
  n = NameAtoms /\ a_atomStyle a = s /\ a_atomsNbr a = Some NameAtomsNbr
  /\ a_atomTypes a = Some NameAtomTypes.
Proof.
  intros [_ Hw] H. apply Hw in H. revert H. unfold fresh_key.
  destruct (name_in n (nbr ++ types)); [discriminate |].
  destruct (name_in n box); [discriminate |].
  destruct (String.eqb n NameTitle); [discriminate |].
  destruct (String.eqb n NameMasses); [discriminate |].
  destruct (String.eqb_spec n NameAtoms); [intros [= <- <- <-]; auto |].
  destruct (coeffs_types n); [discriminate |].
  destruct (links_wiring n) as [[[? ?] ?]|]; discriminate.
Qed.

Lemma wired_links s st n l :
  wired s st -> st !! n = Some (KLinks l) ->
  l_name l = n /\ exists k nb ty, links_wiring n = Some (k, nb, ty)
    /\ l_links l = k /\ l_nbr l = Some nb /\ l_types l = Some ty
    /\ l_atomsNbr l = Some NameAtomsNbr.
Proof.
  intros [_ Hw] H. apply Hw in H. revert H. unfold fresh_key.
  destruct (name_in n (nbr ++ types)); [discriminate |].
  destruct (name_in n box); [discriminate |].
  destruct (String.eqb n NameTitle); [discriminate |].
  destruct (String.eqb n NameMasses); [discriminate |].
  destruct (String.eqb n NameAtoms); [discriminate |].
  destruct (coeffs_types n); [discriminate |].
  destruct (links_wiring n) as [[[k nb] ty]|]; [| discriminate].
  intros [= <- <- <- <- <-]. split; [reflexivity |]. eauto 10.
Qed.

Lemma wired_box s st n b :
  wired s st -> st !! n = Some (KBox b) ->
  name_in n box = true /\ b_name b = n /\ b_nameSep b = Fields n.
Proof.
  intros [_ Hw] H. apply Hw in H. revert H. unfold fresh_key.
  destruct (name_in n (nbr ++ types)); [discriminate |].
  destruct (name_in n box); [intros [= <- <-]; auto |].
  destruct (String.eqb n NameTitle); [discriminate |].
  destruct (String.eqb n NameMasses); [discriminate |].
  destruct (String.eqb n NameAtoms); [discriminate |].
  destruct (coeffs_types n); [discriminate |].
  destruct (links_wiring n) as [[[? ?] ?]|]; discriminate.
Qed.

Lemma wired_title s st n t :
  wired s st -> st !! n = Some (KTitle t) -> n = NameTitle.
Proof.
  intros [_ Hw] H. apply Hw in H. revert H. unfold fresh_key.
  destruct (name_in n (nbr ++ types)); [discriminate |].
  destruct (name_in n box); [discriminate |].
  destruct (String.eqb_spec n NameTitle); [auto |].
  destruct (String.eqb n NameMasses); [discriminate |].
  destruct (String.eqb n NameAtoms); [discriminate |].
  destruct (coeffs_types n); [discriminate |].
  destruct (links_wiring n) as [[[? ?] ?]|]; discriminate.
Qed.

Lemma wired_Key_Name s st n k : wired s st -> st !! n = Some k -> Key_Name k = n.
Proof.
  intros Hw H. destruct k; simpl.
  - symmetry. eapply wired_title; eauto.
  - eapply wired_header; eauto.
  - eapply wired_box; eauto.
  - symmetry. eapply wired_masses; eauto.
  - eapply wired_coeffs; eauto.
  - symmetry. eapply wired_atoms; eauto.
  - eapply wired_links; eauto.
Qed.

(** The methods keep the wiring. *)
Lemma wiring_Key_Set k v : wiring (Key_Set k v).1 = wiring k.
Proof. destruct k, v; reflexivity. Qed.

Lemma wiring_Key_Keyword k s : wiring (Key_Keyword k s).2 = wiring k.
Proof.
  destruct k; simpl; try reflexivity.
  - unfold Header_Keyword. destruct (_ =? _); reflexivity.
  - unfold Box_Keyword. destruct (_ <? _); [reflexivity |].
    simpl. destruct (_ <? _); reflexivity.
Qed.

Lemma wired_setInt s st p n : wired s st -> wired s (setInt st p n).
Proof.
  intros Hw. unfold setInt, deref.
  destruct (st !! p) as [[]|] eqn:E; try exact Hw.
  eapply wired_insert; eauto.
Qed.

Lemma wired_SetKeysVal s st k : wired s st -> wired s (Key_SetKeysVal st k).1.
Proof.
  intros Hw. destruct k; simpl; try exact Hw.
  - unfold Masses_SetKeysVal. destruct (m_types m); [apply wired_setInt |]; exact Hw.
  - unfold Coeffs_SetKeysVal. destruct (c_types c); [apply wired_setInt |]; exact Hw.
  - unfold Atoms_SetKeysVal. destruct (a_atomsNbr a); [apply wired_setInt |]; exact Hw.
  - unfold Links_SetKeysVal. destruct (l_nbr l); [apply wired_setInt |]; exact Hw.
Qed.

(** ** Encode: assignment and propagation *)

(** The number of records of a table Key, and the Counter it pushes it to. *)
Definition rows (k : Key) : Z :=
  match k with
  | KMasses m => len (m_v m)
  | KCoeffs c => len (c_v c)
  | KAtoms a => len (a_v a)
  | KLinks l => len (l_v l)
  | _ => 0
  end.

Definition counter_ptr (k : Key) : option Name :=
  match k with
  | KMasses m => m_types m
  | KCoeffs c => c_types c
  | KAtoms a => a_atomsNbr a
  | KLinks l => l_nbr l
  | _ => None
  end.

(** The Counter of a table Key holds the table's record count. *)
Definition counter_agrees (st : Store) (k : Key) : Prop :=
  is_table k = true ->
  exists p h, counter_ptr k = Some p /\ deref st p = Some h /\ h_v h = rows k.


Lemma for_each_ok {A} (body : A -> outcome unit) l :
  for_each body l = Ok tt <-> Forall (fun a => body a = Ok tt) l.
Proof.
  induction l as [|a l IH]; simpl.
  - split; [constructor | reflexivity].
  - rewrite Forall_cons. destruct (body a) as [[]|e|]; [| split .. ].
    + rewrite IH. tauto.
    + discriminate.
    + intros [H _]. discriminate.
    + discriminate.
    + intros [H _]. discriminate.
Qed.

Lemma check_all_ok rt st :
  (forall l, rangeNames rt SiteCheck l ≡ₚ l) ->
  check_all rt st = Ok tt ->
  forall n k, st !! n = Some k -> Key_Check rt st k = Ok tt.
Proof.
  intros Hfair HC n k Hn. unfold check_all in HC.
  rewrite for_each_ok, Forall_forall in HC.
  specialize (HC n). rewrite Hn in HC.
  destruct (Key_Check rt st k) as [[]|e|]; [reflexivity | |];
    exfalso; assert (Hin : n ∈ rangeNames rt SiteCheck (elements (dom st)))
      by (rewrite Hfair; apply elem_of_elements, elem_of_dom; eauto);
    specialize (HC Hin); discriminate.
Qed.

Lemma Key_Check_counter rt st k :
  Key_Check rt st k = Ok tt -> counter_agrees st k.
Proof.
  intros HC Ht. destruct k; try discriminate; simpl in *.
  - unfold Masses_Check, getInt in HC. destruct (m_types m) as [p|]; [| discriminate].
    destruct (deref st p) as [h|] eqn:E; [| discriminate]. simpl in HC.
    destruct (Z.eqb_spec (len (m_v m)) (h_v h)); [| discriminate]. eauto.
  - unfold Coeffs_Check, getInt in HC. destruct (c_types c) as [p|]; [| discriminate].
    destruct (deref st p) as [h|] eqn:E; [| discriminate]. simpl in HC.
    destruct (Z.eqb_spec (len (c_v c)) (h_v h)); [| discriminate]. eauto.
  - unfold Atoms_Check, getInt in HC.
    destruct (a_atomTypes a) as [pt|]; [| discriminate].
    destruct (a_atomsNbr a) as [p|]; [| discriminate].
    destruct (deref st p) as [h|] eqn:E; [| discriminate]. simpl in HC.
    destruct (deref st pt) as [ht|]; [| discriminate]. simpl in HC.
    destruct (Z.eqb_spec (len (a_v a)) (h_v h)); [| discriminate]. eauto.
  - unfold Links_Check, getInt in HC.
    destruct (l_types l) as [pt|]; [| discriminate].
    destruct (l_atomsNbr l) as [pa|]; [| discriminate].
    destruct (l_nbr l) as [p|]; [| discriminate].
    destruct (deref st p) as [h|] eqn:E; [| discriminate]. simpl in HC.
    destruct (deref st pt) as [ht|]; [| discriminate]. simpl in HC.
    destruct (deref st pa) as [ha|]; [| discriminate]. simpl in HC.
    destruct (Z.eqb_spec (len (l_v l)) (h_v h)); [| discriminate]. eauto.
Qed.

Lemma Key_SetKeysVal_eq st k :
  Key_SetKeysVal st k
  = match counter_ptr k with
    | Some p => (setInt st p (rows k), None)
    | None => (st, Some (if is_table k then ErrNilKey else ErrUnsupported))
    end.
Proof.
  destruct k; simpl; try reflexivity;
    unfold Masses_SetKeysVal, Coeffs_SetKeysVal, Atoms_SetKeysVal, Links_SetKeysVal;
    match goal with |- context [match ?x with _ => _ end] => destruct x end;
    reflexivity.
Qed.

Lemma Key_Set_Get k v : (Key_Set k v).2 = None -> Key_Get (Key_Set k v).1 = v.
Proof. destruct k, v; simpl; intros H; try discriminate; reflexivity. Qed.

Lemma is_table_wiring k k' : wiring k' = wiring k -> is_table k' = is_table k.
Proof. destruct k, k'; simpl; intros H; try discriminate; reflexivity. Qed.

Lemma deps_coeffs n t : coeffs_types n = Some t -> deps n = [t].
Proof.
  intros Ht. unfold deps.
  destruct (String.eqb_spec n NameMasses) as [->|_]; [discriminate |].
  destruct (String.eqb_spec n NameAtoms) as [->|_]; [discriminate |].
  rewrite Ht. reflexivity.
Qed.

Lemma deps_links n k nb ty :
  links_wiring n = Some (k, nb, ty) -> deps n = [NameAtomsNbr; nb; ty].
Proof.
  intros Hl. unfold deps.
  destruct (String.eqb_spec n NameMasses) as [->|_]; [discriminate |].
  destruct (String.eqb_spec n NameAtoms) as [->|_]; [discriminate |].
  destruct (coeffs_types n) eqn:Ec.
  - unfold coeffs_types, links_wiring in *.
    repeat match type of Ec with
           | context [String.eqb n ?x] =>
             destruct (String.eqb_spec n x) as [->|_]; [discriminate |]
           end. discriminate.
  - rewrite Hl. reflexivity.
Qed.

Lemma counter_ptr_deps s st n k p :
  wired s st -> st !! n = Some k -> counter_ptr k = Some p -> In p (deps n).
Proof.
  intros Hw Hn Hp. destruct k; simpl in Hp; try discriminate.
  - destruct (wired_masses _ _ _ _ Hw Hn) as [-> Hm].
    rewrite Hm in Hp. injection Hp as <-. left. reflexivity.
  - destruct (wired_coeffs _ _ _ _ Hw Hn) as (_ & t & Ht & Hc).
    rewrite Hc in Hp. injection Hp as <-. rewrite (deps_coeffs _ _ Ht).
    left. reflexivity.
  - destruct (wired_atoms _ _ _ _ Hw Hn) as (-> & _ & Ha & _).
    rewrite Ha in Hp. injection Hp as <-. right. left. reflexivity.
  - destruct (wired_links _ _ _ _ Hw Hn) as (_ & kk & nb & ty & Hl & _ & Hnb & _).
    rewrite Hnb in Hp. injection Hp as <-. rewrite (deps_links _ _ _ _ Hl).
    right. left. reflexivity.
Qed.


Lemma set_fields_wired s st nF val l st' :
  wired s st -> set_fields st nF val l = (st', Ok tt) -> wired s st'.
Proof.
  revert st. induction l as [|n l IH]; intros st Hw; simpl.
  - intros [= <-]. exact Hw.
  - destruct (nF !! n) as [f|]; [| apply IH, Hw].
    destruct (val !! f) as [field|]; [| discriminate].
    destruct (st !! n) as [k|] eqn:En; [| discriminate].
    pose proof (wiring_Key_Set k field) as Hk.
    destruct (Key_Set k field) as [k' [e|]]; [discriminate |]. simpl in Hk.
    pose proof (wired_SetKeysVal s (<[n := k']> st) k'
                  (wired_insert s st n k k' Hw En Hk)) as Hw'.
    destruct (Key_SetKeysVal _ k') as [st1 [e|]]; simpl in Hw'; [| apply IH, Hw'].
    destruct (is_unsupported e); [apply IH, Hw' | discriminate].
Qed.


Lemma deref_Some st p h : deref st p = Some h <-> st !! p = Some (KHeader h).
Proof.
  unfold deref. destruct (st !! p) as [[]|]; split; intros H; try discriminate;
    congruence.
Qed.





Definition keys_of (o : outcome Store) : Store :=
  match o with Ok st => st | _ => ∅ end.



(** ** Round trip: the text layer *)

Lemma app_assoc_s (a b c : string) : (a +:+ b) +:+ c = a +:+ b +:+ c.
Proof. induction a as [|x a IH]; [reflexivity |]. rewrite !app_String, IH. reflexivity. Qed.

Lemma app_Empty_r (a : string) : a +:+ "" = a.
Proof. induction a as [|x a IH]; [reflexivity |]. rewrite app_String, IH. reflexivity. Qed.

Lemma length_app_s (a b : string) :
  String.length (a +:+ b) = (String.length a + String.length b)%nat.
Proof. induction a as [|x a IH]; [reflexivity |]. rewrite app_String. simpl. rewrite IH. reflexivity. Qed.

(** A byte that is ASCII and not white space. *)
Definition plain_byte (c : ascii) : bool :=
  (byte_val c <? 128) && negb (IsSpace (byte_val c)).

Fixpoint plain (t : string) : bool :=
  match t with
  | EmptyString => true
  | String c t' => plain_byte c && plain t'
  end.

Lemma rune_mask_go_cur f b b' s : rune_mask_go f 0 b s = rune_mask_go f 0 b' s.
Proof. destruct s; reflexivity. Qed.

Lemma rune_mask_ascii f c s :
  byte_val c < 128 -> rune_mask f (String c s) = f (byte_val c) :: rune_mask f s.
Proof.
  intros Hc. unfold rune_mask. simpl.
  destruct (Z.ltb_spec (byte_val c) 128); [| lia]. simpl.
  f_equal. apply rune_mask_go_cur.
Qed.

Lemma plain_byte_spec c :
  plain_byte c = true -> byte_val c < 128 /\ IsSpace (byte_val c) = false.
Proof.
  unfold plain_byte. intros H. apply andb_true_iff in H as [H1 H2].
  apply Z.ltb_lt in H1. apply negb_true_iff in H2. auto.
Qed.

Lemma rune_mask_plain t rest :
  plain t = true ->
  rune_mask IsSpace (t +:+ rest)
  = (repeat false (String.length t) ++ rune_mask IsSpace rest)%list.
Proof.
  induction t as [|c t IH]; intros Hp; [reflexivity |].
  simpl in Hp. apply andb_true_iff in Hp as [Hc Ht].
  apply plain_byte_spec in Hc as [Hc Hs].
  rewrite app_String, rune_mask_ascii, Hs, IH by assumption. reflexivity.
Qed.

Lemma rune_mask_space rest :
  rune_mask IsSpace (" " +:+ rest) = true :: rune_mask IsSpace rest.
Proof. rewrite app_String, app_Empty, rune_mask_ascii; [reflexivity | reflexivity]. Qed.

Lemma TrimLeft_plain t rest :
  plain t = true -> t <> "" -> TrimLeftFunc (t +:+ rest) IsSpace = t +:+ rest.
Proof.
  intros Hp Hne. destruct t as [|c t]; [contradiction |].
  simpl in Hp. apply andb_true_iff in Hp as [Hc _].
  apply plain_byte_spec in Hc as [Hc Hs].
  unfold TrimLeftFunc. rewrite app_String, rune_mask_ascii, Hs by assumption.
  reflexivity.
Qed.

Lemma TrimLeft_space rest :
  TrimLeftFunc (" " +:+ rest) IsSpace = TrimLeftFunc rest IsSpace.
Proof. unfold TrimLeftFunc. rewrite rune_mask_space. reflexivity. Qed.


Lemma index_marked_repeat n m i :
  index_marked (repeat false n ++ true :: m)%list i = i + Z.of_nat n.
Proof.
  revert i. induction n as [|n IH]; intros i; simpl repeat; simpl app.
  - simpl. lia.
  - cbn [index_marked]. rewrite IH. lia.
Qed.

Lemma index_marked_none n i : index_marked (repeat false n) i = -1.
Proof. revert i. induction n as [|n IH]; intros i; simpl; [reflexivity | apply IH]. Qed.

Lemma IndexFunc_plain_space t rest :
  plain t = true ->
  IndexFunc (t +:+ " " +:+ rest) IsSpace = Z.of_nat (String.length t).
Proof.
  intros Hp. unfold IndexFunc.
  rewrite rune_mask_plain, rune_mask_space, index_marked_repeat by assumption.
  lia.
Qed.

Lemma rune_mask_plain_end t :
  plain t = true -> rune_mask IsSpace t = repeat false (String.length t).
Proof.
  intros Hp. rewrite <- (app_Empty_r t) at 1.
  rewrite rune_mask_plain by assumption. apply app_nil_r.
Qed.

Lemma IndexFunc_plain t : plain t = true -> IndexFunc t IsSpace = -1.
Proof.
  intros Hp. unfold IndexFunc. rewrite rune_mask_plain_end by assumption.
  apply index_marked_none.
Qed.

Lemma str_take_app t rest : str_take (String.length t) (t +:+ rest) = t.
Proof.
  induction t as [|c t IH]; [destruct rest; reflexivity |].
  rewrite app_String. simpl. rewrite IH. reflexivity.
Qed.

Lemma str_drop_app t rest : str_drop (String.length t) (t +:+ rest) = rest.
Proof.
  induction t as [|c t IH]; [destruct rest; reflexivity |].
  rewrite app_String. simpl. exact IH.
Qed.

Lemma plain_app a b : plain (a +:+ b) = plain a && plain b.
Proof.
  induction a as [|c a IH]; [reflexivity |].
  rewrite app_String. simpl. rewrite IH. apply andb_assoc.
Qed.

(** Fields of tokens separated by single spaces. *)
Fixpoint join_sp (ts : list string) : string :=
  match ts with
  | [] => ""
  | [t] => t
  | t :: ts' => t +:+ " " +:+ join_sp ts'
  end.

Lemma fields_marked_plain t rest cur :
  plain t = true ->
  fields_marked (rune_mask IsSpace (t +:+ rest)) (t +:+ rest) cur
  = fields_marked (rune_mask IsSpace rest) rest (cur +:+ t).
Proof.
  revert cur. induction t as [|c t IH]; intros cur Hp.
  - rewrite app_Empty, app_Empty_r. reflexivity.
  - simpl in Hp. apply andb_true_iff in Hp as [Hc Ht].
    apply plain_byte_spec in Hc as [Hc Hs].
    rewrite app_String, rune_mask_ascii, Hs by assumption.
    cbn [fields_marked]. rewrite IH by assumption.
    rewrite app_assoc_s. reflexivity.
Qed.

Lemma fields_marked_space rest cur :
  fields_marked (rune_mask IsSpace (" " +:+ rest)) (" " +:+ rest) cur
  = (flush cur ++ fields_marked (rune_mask IsSpace rest) rest "")%list.
Proof. rewrite rune_mask_space. reflexivity. Qed.

Lemma Fields_join ts :
  Forall (fun t => plain t = true /\ t <> "") ts -> Fields (join_sp ts) = ts.
Proof.
  unfold Fields. induction 1 as [|t ts [Hp Hne] HF IH]; [reflexivity |].
  destruct ts as [|t' ts].
  - simpl. rewrite <- (app_Empty_r t) at 1 2.
    rewrite fields_marked_plain by assumption. simpl.
    destruct t; [contradiction | reflexivity].
  - change (join_sp (t :: t' :: ts)) with (t +:+ " " +:+ join_sp (t' :: ts)).
    rewrite fields_marked_plain, fields_marked_space, IH by assumption.
    simpl. destruct t; [contradiction | reflexivity].
Qed.

(** ** Integers: Atoi after FormatInt *)

Fixpoint uint_val (acc : Z) (d : Decimal.uint) : Z :=
  match d with
  | Decimal.Nil => acc
  | Decimal.D0 d => uint_val (acc * 10 + 0) d
  | Decimal.D1 d => uint_val (acc * 10 + 1) d
  | Decimal.D2 d => uint_val (acc * 10 + 2) d
  | Decimal.D3 d => uint_val (acc * 10 + 3) d
  | Decimal.D4 d => uint_val (acc * 10 + 4) d
  | Decimal.D5 d => uint_val (acc * 10 + 5) d
  | Decimal.D6 d => uint_val (acc * 10 + 6) d
  | Decimal.D7 d => uint_val (acc * 10 + 7) d
  | Decimal.D8 d => uint_val (acc * 10 + 8) d
  | Decimal.D9 d => uint_val (acc * 10 + 9) d
  end.

Lemma uint_val_ge acc d : 0 <= acc -> acc <= uint_val acc d.
Proof.
  revert acc. induction d; intros acc Hacc; simpl; try lia;
    match goal with |- _ <= uint_val ?a _ =>
      specialize (IHd a ltac:(lia)); lia end.
Qed.

Lemma of_uint_acc_val d acc :
  Z.pos (Pos.of_uint_acc d acc) = uint_val (Z.pos acc) d.
Proof.
  revert acc. induction d; intros acc; simpl; try reflexivity;
    rewrite IHd; f_equal; lia.
Qed.

Lemma of_uint_val d : Z.of_N (Pos.of_uint d) = uint_val 0 d.
Proof.
  induction d; simpl; try reflexivity; try exact IHd;
    rewrite of_uint_acc_val; reflexivity.
Qed.

Lemma ParseUint_go_digits d acc :
  0 <= acc -> uint_val acc d <= maxUint64 ->
  ParseUint_go acc (NilEmpty.string_of_uint d) = UintOk (uint_val acc d).
Proof.
  revert acc. induction d; intros acc Hacc Hmax; simpl NilEmpty.string_of_uint;
    [reflexivity | ..];
    cbn [ParseUint_go uint_val];
    match goal with |- context [byte_val ?c - 48] =>
      let v := eval vm_compute in (byte_val c - 48) in
      change (byte_val c - 48) with v end;
    cbn [Z.leb Z.compare andb];
    simpl in Hmax;
    match goal with H : uint_val ?a d <= _ |- _ =>
      pose proof (uint_val_ge a d ltac:(lia));
      destruct (Z.ltb_spec maxUint64 a); [lia |]; apply IHd; [lia | assumption]
    end.
Qed.

Lemma Atoi_digits d :
  d <> Decimal.Nil -> uint_val 0 d <= maxInt ->
  Atoi (NilEmpty.string_of_uint d) = (uint_val 0 d, None).
Proof.
  intros Hd Hmax. unfold Atoi.
  pose proof (ParseUint_go_digits d 0 ltac:(lia) ltac:(unfold maxUint64, maxInt in *; lia)) as HP.
  destruct d; [contradiction | ..]; simpl NilEmpty.string_of_uint in *;
    cbv iota beta; rewrite HP;
    match goal with |- context [maxInt <? ?v] =>
      destruct (Z.ltb_spec maxInt v); [lia | reflexivity] end.
Qed.

Lemma Atoi_neg_digits d :
  d <> Decimal.Nil -> uint_val 0 d <= - minInt ->
  Atoi (String "-" (NilEmpty.string_of_uint d)) = (- uint_val 0 d, None).
Proof.
  intros Hd Hmax. unfold Atoi. cbv iota beta.
  pose proof (ParseUint_go_digits d 0 ltac:(lia) ltac:(unfold maxUint64, minInt in *; lia)) as HP.
  rewrite HP.
  destruct d; [contradiction | ..]; simpl NilEmpty.string_of_uint in *;
    cbv iota beta;
    match goal with |- context [- minInt <? ?v] =>
      destruct (Z.ltb_spec (- minInt) v); [lia | reflexivity] end.
Qed.

Lemma to_uint_val p : uint_val 0 (Pos.to_uint p) = Z.pos p.
Proof.
  rewrite <- of_uint_val, DecimalPos.Unsigned.of_to. reflexivity.
Qed.

Lemma FormatInt_pos p :
  FormatInt (Z.pos p) = NilEmpty.string_of_uint (Pos.to_uint p).
Proof.
  unfold FormatInt. simpl. unfold NilZero.string_of_uint.
  pose proof (DecimalPos.Unsigned.to_uint_nonnil p).
  destruct (Pos.to_uint p); [contradiction | reflexivity ..].
Qed.

Lemma FormatInt_neg p :
  FormatInt (Z.neg p) = String "-" (NilEmpty.string_of_uint (Pos.to_uint p)).
Proof.
  unfold FormatInt. simpl. unfold NilZero.string_of_uint.
  pose proof (DecimalPos.Unsigned.to_uint_nonnil p).
  destruct (Pos.to_uint p); [contradiction | reflexivity ..].
Qed.

(** [strconv.Atoi] reads back what [%d] prints, for every int. *)
Lemma Atoi_FormatInt z :
  minInt <= z <= maxInt -> Atoi (FormatInt z) = (z, None).
Proof.
  intros Hz. destruct z as [|p|p].
  - reflexivity.
  - rewrite FormatInt_pos, Atoi_digits, to_uint_val;
      [reflexivity | apply DecimalPos.Unsigned.to_uint_nonnil
       | rewrite to_uint_val; lia].
  - rewrite FormatInt_neg, Atoi_neg_digits, to_uint_val;
      [reflexivity | apply DecimalPos.Unsigned.to_uint_nonnil
       | rewrite to_uint_val; unfold minInt in *; lia].
Qed.

Definition digit_byte (c : ascii) : bool :=
  (48 <=? byte_val c) && (byte_val c <=? 57).

Fixpoint digits (t : string) : bool :=
  match t with
  | EmptyString => true
  | String c t' => digit_byte c && digits t'
  end.

Lemma digits_string_of_uint d : digits (NilEmpty.string_of_uint d) = true.
Proof. induction d; simpl; try reflexivity; exact IHd. Qed.

(** What [%d] prints: an optional minus sign, then digits. *)
Definition int_text (t : string) : Prop :=
  exists ds, ds <> "" /\ digits ds = true /\ (t = ds \/ t = String "-" ds).

Lemma FormatInt_int_text z : int_text (FormatInt z).
Proof.
  destruct z as [|p|p].
  - exists "0". split; [discriminate | split; [reflexivity | left; reflexivity]].
  - rewrite FormatInt_pos. eexists. split; [| split; [apply digits_string_of_uint | left; reflexivity]].
    pose proof (DecimalPos.Unsigned.to_uint_nonnil p).
    destruct (Pos.to_uint p); [contradiction | discriminate ..].
  - rewrite FormatInt_neg. eexists. split; [| split; [apply digits_string_of_uint | right; reflexivity]].
    pose proof (DecimalPos.Unsigned.to_uint_nonnil p).
    destruct (Pos.to_uint p); [contradiction | discriminate ..].
Qed.

Lemma digit_byte_plain c : digit_byte c = true -> plain_byte c = true /\ Ascii.eqb c "#" = false.
Proof.
  unfold digit_byte, plain_byte. intros H. apply andb_true_iff in H as [H1 H2].
  apply Z.leb_le in H1, H2.
  destruct c as [[] [] [] [] [] [] [] []]; vm_compute in H1, H2; try (exfalso; auto; fail);
    split; reflexivity.
Qed.

Fixpoint no_sharp (t : string) : bool :=
  match t with
  | EmptyString => true
  | String c t' => negb (Ascii.eqb c "#") && no_sharp t'
  end.

Lemma no_sharp_IndexByte t i : no_sharp t = true -> IndexByte_from t "#" i = -1.
Proof.
  revert i. induction t as [|c t IH]; intros i H; [reflexivity |].
  simpl in *. apply andb_true_iff in H as [Hc Ht].
  apply negb_true_iff in Hc. rewrite Hc. apply IH, Ht.
Qed.

Lemma delComments_no_sharp t : no_sharp t = true -> delComments t = t.
Proof.
  intros H. apply delComments_none. unfold IndexRune.
  apply no_sharp_IndexByte, H.
Qed.

Lemma no_sharp_app a b : no_sharp (a +:+ b) = no_sharp a && no_sharp b.
Proof.
  induction a as [|c a IH]; [reflexivity |].
  rewrite app_String. simpl. rewrite IH. apply andb_assoc.
Qed.

(** A token of a data line: not empty, ASCII without white space and
    without '#'. *)
Definition token_ok (t : string) : bool :=
  negb (String.eqb t "") && plain t && no_sharp t.

Lemma token_ok_spec t :
  token_ok t = true <-> t <> "" /\ plain t = true /\ no_sharp t = true.
Proof.
  unfold token_ok. rewrite !andb_true_iff, negb_true_iff.
  destruct (String.eqb_spec t ""); intuition congruence.
Qed.

Lemma digits_token ds : digits ds = true -> plain ds = true /\ no_sharp ds = true.
Proof.
  induction ds as [|c ds IH]; simpl; [auto |].
  intros H. apply andb_true_iff in H as [Hc Hds].
  destruct (digit_byte_plain c Hc) as [Hp Hs].
  destruct (IH Hds) as [H1 H2]. rewrite Hp, Hs, H1, H2. auto.
Qed.

Lemma FormatInt_token z : token_ok (FormatInt z) = true.
Proof.
  apply token_ok_spec.
  destruct (FormatInt_int_text z) as (ds & Hne & Hd & [->| ->]);
    destruct (digits_token ds Hd) as [Hp Hs].
  - auto.
  - split; [discriminate |]. simpl. rewrite Hp, Hs. auto.
Qed.

(** The first byte is not a lower-case letter. *)
Definition lead_ok (t : string) : bool :=
  match t with
  | EmptyString => false
  | String c _ => negb ((97 <=? byte_val c) && (byte_val c <=? 122))
  end.

Lemma FormatInt_lead z : lead_ok (FormatInt z) = true.
Proof.
  destruct (FormatInt_int_text z) as (ds & Hne & Hd & [->| ->]); [| reflexivity].
  destruct ds as [|c ds]; [contradiction |]. simpl in *.
  apply andb_true_iff in Hd as [Hc _]. unfold digit_byte in Hc.
  apply andb_true_iff in Hc as [H1 H2]. apply Z.leb_le in H1, H2.
  apply negb_true_iff, andb_false_iff. left. apply Z.leb_gt. lia.
Qed.

Lemma name_in_In n l : name_in n l = true -> In n l.
Proof.
  unfold name_in. rewrite existsb_exists. intros (x & Hin & Heq).
  apply String.eqb_eq in Heq. subst. exact Hin.
Qed.

Lemma HasPrefix_lead t rest p :
  lead_ok t = true -> lead_ok p = false -> p <> "" ->
  HasPrefix (t +:+ rest) p = false.
Proof.
  intros Ht Hp Hne. destruct t as [|c t]; [discriminate |].
  destruct p as [|d p]; [contradiction |].
  rewrite app_String. unfold HasPrefix. simpl in *.
  destruct (ascii_dec d c) as [->|]; [| reflexivity].
  rewrite Hp in Ht. discriminate.
Qed.

(** ** Which Key matches which line *)

(** A header Key wired as by MakeKeys. *)
Definition header_wired (h : Header) : Prop :=
  name_in (h_name h) (nbr ++ types) = true /\ h_nameSep h = Fields (h_name h).

Definition box_wired (b : Box) : Prop :=
  name_in (b_name b) box = true /\ b_nameSep b = Fields (b_name b).

Ltac split_names H :=
  apply name_in_In in H; simpl in H;
  repeat (destruct H as [H|H]; [symmetry in H |]); [.. | contradiction].

Lemma length_pos_nonempty (t : string) : t <> "" -> (1 <= String.length t)%nat.
Proof. destruct t; [contradiction | simpl; lia]. Qed.

Lemma Header_Keyword_counter_line h t c :
  token_ok t = true -> header_wired h -> name_in c (nbr ++ types) = true ->
  Header_Keyword h (t +:+ " " +:+ c)
  = (String.eqb (h_name h) c, mkHeader (h_name h) (h_nameSep h) t (h_v h)).
Proof.
  intros Ht [Hn Hsep] Hc. apply token_ok_spec in Ht as (Hne & Hp & _).
  unfold Header_Keyword.
  rewrite TrimLeft_plain, IndexFunc_plain_space by assumption.
  destruct (Z.eqb_spec (Z.of_nat (String.length t)) (-1)); [lia |].
  rewrite Nat2Z.id, str_drop_app, str_take_app, Hsep. f_equal.
  split_names Hn; split_names Hc; rewrite Hn, Hc; vm_compute; reflexivity.
Qed.

Lemma Header_Keyword_box_line h g1 g2 bn :
  token_ok g1 = true -> token_ok g2 = true -> lead_ok g2 = true ->
  header_wired h ->
  Header_Keyword h (g1 +:+ " " +:+ g2 +:+ " " +:+ bn)
  = (false, mkHeader (h_name h) (h_nameSep h) g1 (h_v h)).
Proof.
  intros H1 H2 Hl [Hn Hsep].
  apply token_ok_spec in H1 as (Hne1 & Hp1 & _).
  apply token_ok_spec in H2 as (Hne2 & Hp2 & _).
  unfold Header_Keyword.
  rewrite TrimLeft_plain, IndexFunc_plain_space by assumption.
  destruct (Z.eqb_spec (Z.of_nat (String.length g1)) (-1)); [lia |].
  rewrite Nat2Z.id, str_drop_app, str_take_app, Hsep. f_equal.
  unfold keywordHeader.
  split_names Hn; rewrite Hn;
    match goal with |- context [Fields ?n] =>
      let v := eval vm_compute in (Fields n) in change (Fields n) with v end;
    cbv iota beta;
    rewrite TrimLeft_space, TrimLeft_plain, HasPrefix_lead by
      (auto; discriminate); reflexivity.
Qed.

Lemma Box_Keyword_counter_line b t c :
  token_ok t = true -> box_wired b -> name_in c (nbr ++ types) = true ->
  (Box_Keyword b (t +:+ " " +:+ c)).1 = false.
Proof.
  intros Ht [Hn Hsep] Hc. apply token_ok_spec in Ht as (Hne & Hp & _).
  pose proof (length_pos_nonempty t Hne) as Hlen.
  unfold Box_Keyword.
  rewrite TrimLeft_plain, IndexFunc_plain_space by assumption.
  destruct (Z.ltb_spec (Z.of_nat (String.length t)) 1); [lia |].
  rewrite Nat2Z.id, str_drop_app, str_take_app. cbn [b_nameSep b_name].
  rewrite Hsep.
  split_names Hn; split_names Hc; rewrite Hn, Hc; vm_compute; reflexivity.
Qed.

Lemma Box_Keyword_box_line b g1 g2 bn :
  token_ok g1 = true -> token_ok g2 = true ->
  box_wired b -> name_in bn box = true ->
  Box_Keyword b (g1 +:+ " " +:+ g2 +:+ " " +:+ bn)
  = (String.eqb (b_name b) bn,
     mkBox (b_name b) (b_nameSep b) g1 g2 (b_vlo b) (b_vhi b)).
Proof.
  intros H1 H2 [Hn Hsep] Hbn.
  apply token_ok_spec in H1 as (Hne1 & Hp1 & _).
  apply token_ok_spec in H2 as (Hne2 & Hp2 & _).
  pose proof (length_pos_nonempty g1 Hne1).
  pose proof (length_pos_nonempty g2 Hne2).
  unfold Box_Keyword.
  rewrite TrimLeft_plain, IndexFunc_plain_space by assumption.
  destruct (Z.ltb_spec (Z.of_nat (String.length g1)) 1); [lia |].
  rewrite Nat2Z.id, str_drop_app, str_take_app. cbn [b_nameSep b_name b_vlo b_vhi b_vBytes0 b_vBytes1].
  rewrite TrimLeft_space, TrimLeft_plain, IndexFunc_plain_space by assumption.
  destruct (Z.ltb_spec (Z.of_nat (String.length g2)) 1); [lia |].
  rewrite Nat2Z.id, str_drop_app, str_take_app. cbn [b_nameSep b_name b_vlo b_vhi b_vBytes0 b_vBytes1].
  rewrite Hsep. f_equal.
  split_names Hn; split_names Hbn; rewrite Hn, Hbn; vm_compute; reflexivity.
Qed.

Lemma Key_Keyword_blank k : Key_Name k <> "" -> Key_Keyword k "" = (false, k).
Proof.
  intros Hn.
  assert (Hk : forall n : Name, n <> "" -> keyword "" n = false)
    by (intros [|c n] H; [contradiction | reflexivity]).
  destruct k; simpl in *; try reflexivity; rewrite Hk by assumption; reflexivity.
Qed.

(** ** Rows *)

Definition int_ok (z : Z) : Prop := minInt <= z <= maxInt.

(** The conversions of the runtime agree on [x], and [%g] prints it as
    one token that does not begin with a lower-case letter. *)
Definition float_ok (rt : Runtime) (x : float) : Prop :=
  ParseFloat rt (FormatG rt x) = (x, None)
  /\ token_ok (FormatG rt x) = true
  /\ lead_ok (FormatG rt x) = true.

(** [" " t1 " " t2 ...]: what a loop of [Fprintf(w, " %v", x)] writes. *)
Fixpoint sp_join (ts : list string) : string :=
  match ts with
  | [] => ""
  | t :: ts' => " " +:+ t +:+ sp_join ts'
  end.

Lemma fold_left_Fprint {A} (g : A -> string) l w :
  fold_left (fun w x => Fprint w (" " +:+ g x)) l w = w +:+ sp_join (map g l).
Proof.
  revert w. induction l as [|x l IH]; intros w; simpl.
  - symmetry. apply app_Empty_r.
  - rewrite IH. unfold Fprint. rewrite !app_assoc_s. reflexivity.
Qed.

Lemma join_sp_cons t ts : join_sp (t :: ts) = t +:+ sp_join ts.
Proof.
  revert t. induction ts as [|t' ts IH]; intros t.
  - simpl. symmetry. apply app_Empty_r.
  - change (join_sp (t :: t' :: ts)) with (t +:+ " " +:+ join_sp (t' :: ts)).
    rewrite IH. reflexivity.
Qed.

Lemma token_ok_Forall ts :
  Forall (fun t => token_ok t = true) ts ->
  Forall (fun t => plain t = true /\ t <> "") ts.
Proof.
  intros HF. eapply Forall_impl; [exact HF |].
  intros t H. apply token_ok_spec in H. tauto.
Qed.

Lemma no_sharp_join ts :
  Forall (fun t => token_ok t = true) ts -> no_sharp (join_sp ts) = true.
Proof.
  induction 1 as [|t ts Ht HF IH]; [reflexivity |].
  apply token_ok_spec in Ht as (_ & _ & Hs).
  destruct ts as [|t' ts]; [exact Hs |].
  change (join_sp (t :: t' :: ts)) with (t +:+ " " +:+ join_sp (t' :: ts)).
  rewrite !no_sharp_app, Hs, IH. reflexivity.
Qed.

Lemma Masses_row_ok rt k x :
  int_ok k -> float_ok rt x ->
  Masses_row rt (FormatInt k +:+ " " +:+ FormatG rt x) = Ok (k, x).
Proof.
  intros Hk (Hx & Ht & _). unfold Masses_row.
  change (FormatInt k +:+ " " +:+ FormatG rt x)
    with (join_sp [FormatInt k; FormatG rt x]).
  rewrite Fields_join
    by (apply token_ok_Forall; repeat constructor; auto using FormatInt_token).
  simpl. rewrite Atoi_FormatInt by exact Hk. simpl. rewrite Hx. reflexivity.
Qed.

Lemma parse_floats_ok rt l acc :
  Forall (float_ok rt) l ->
  parse_floats rt (map (FormatG rt) l) acc = Ok (acc ++ l)%list.
Proof.
  intros HF. revert acc. induction HF as [|x l (Hx & _) _ IH]; intros acc; simpl.
  - rewrite app_nil_r. reflexivity.
  - rewrite Hx. simpl. rewrite IH, <- app_assoc. reflexivity.
Qed.

Lemma Coeffs_row_ok rt k l :
  int_ok k -> l <> [] -> Forall (float_ok rt) l ->
  Coeffs_row rt (FormatInt k +:+ sp_join (map (FormatG rt) l)) = Ok (k, l).
Proof.
  intros Hk Hl HF. unfold Coeffs_row.
  rewrite <- join_sp_cons.
  assert (Htok : Forall (fun t => token_ok t = true)
                        (FormatInt k :: map (FormatG rt) l)).
  { constructor; [apply FormatInt_token |].
    apply Forall_fmap. eapply Forall_impl; [exact HF |]. intros x H. apply H. }
  rewrite delComments_no_sharp by (apply no_sharp_join, Htok).
  rewrite Fields_join by (apply token_ok_Forall, Htok).
  destruct l as [|x l]; [contradiction |].
  cbn [length map]. destruct (Z.ltb_spec (Z.of_nat (S (S (length (map (FormatG rt) l))))) 2); [lia |].
  cbn [index lookup list_lookup mbind outcome_bind].
  rewrite Atoi_FormatInt by exact Hk. cbn [check_err drop].
  change (FormatG rt x :: map (FormatG rt) l) with (map (FormatG rt) (x :: l)).
  rewrite parse_floats_ok by exact HF. reflexivity.
Qed.

Lemma parse_ints_ok l acc :
  Forall int_ok l -> parse_ints (map FormatInt l) acc = Ok (acc ++ l)%list.
Proof.
  intros HF. revert acc. induction HF as [|x l Hx _ IH]; intros acc; simpl.
  - rewrite app_nil_r. reflexivity.
  - rewrite Atoi_FormatInt by exact Hx. simpl. rewrite IH, <- app_assoc. reflexivity.
Qed.

Lemma Links_row_ok links id link :
  int_ok id -> int_ok (l_typ link) -> Forall int_ok (l_atoms link) ->
  Z.of_nat (length (l_atoms link)) = links - 2 ->
  Links_row links
    (FormatInt id +:+ " " +:+ FormatInt (l_typ link)
     +:+ sp_join (map FormatInt (l_atoms link)))
  = Ok (id, Some link).
Proof.
  intros Hid Ht HF Hlen. unfold Links_row.
  rewrite <- join_sp_cons.
  change (FormatInt id +:+ " " +:+ join_sp (FormatInt (l_typ link) :: map FormatInt (l_atoms link)))
    with (join_sp (FormatInt id :: FormatInt (l_typ link) :: map FormatInt (l_atoms link))).
  assert (Htok : Forall (fun t => token_ok t = true)
            (FormatInt id :: FormatInt (l_typ link) :: map FormatInt (l_atoms link))).
  { repeat constructor; try apply FormatInt_token.
    apply Forall_fmap, Forall_forall. intros x _. apply FormatInt_token. }
  rewrite Fields_join by (apply token_ok_Forall, Htok).
  cbn [length]. rewrite length_map.
  destruct (Z.ltb_spec (Z.of_nat (S (S (length (l_atoms link))))) links); [lia |].
  cbn [index lookup list_lookup mbind outcome_bind].
  repeat (rewrite Atoi_FormatInt by assumption;
          cbn [check_err mbind outcome_bind index lookup list_lookup]).
  destruct (Z.ltb_spec links 2); [lia |].
  cbn [drop].
  replace (Z.to_nat links - 2)%nat with (length (map FormatInt (l_atoms link)))
    by (rewrite length_map; lia).
  rewrite drop_0, firstn_all, parse_ints_ok by exact HF.
  destruct link; reflexivity.
Qed.

(** ** Reading rows back *)

(** A scanner over [ls] whose reader ends without error. *)
Definition sc (ls : list string) (tok : string) : Scanner :=
  mkScanner ls None false tok.

Lemma last_cons_default {A} (a : A) l d d' : List.last (a :: l) d = List.last (a :: l) d'.
Proof.
  revert a. induction l as [|b l IH]; intros a; [reflexivity |].
  change (List.last (b :: l) d = List.last (b :: l) d'). apply IH.
Qed.

Lemma scan_rows_lines {V} (row : string -> outcome (Z * V)) lines es rest tok v0 :
  Forall2 (fun line e => row line = Ok e) lines es ->
  scan_rows row (length lines) v0 (sc (lines ++ rest) tok)
  = (fold_left (fun v e => <[e.1 := e.2]> v) es v0, sc rest (List.last lines tok), Ok tt).
Proof.
  intros HF. revert v0 tok. unfold sc.
  induction HF as [|line e lines es He HF IH]; intros v0 tok.
  - reflexivity.
  - cbn [length app scan_rows]. unfold Scan. cbn [pending final token].
    rewrite He. destruct e as [id x]. rewrite IH. cbn [fold_left fst snd].
    do 2 f_equal. destruct lines as [|l2 lines]; [reflexivity |].
    change (List.last (line :: l2 :: lines) tok) with (List.last (l2 :: lines) tok).
    f_equal. apply last_cons_default.
Qed.

Lemma fold_left_insert_list_to_map {V} (es : list (Z * V)) :
  fold_left (fun v e => <[e.1 := e.2]> v) es (∅ : gmap Z V) = list_to_map (rev es).
Proof.
  rewrite <- fold_left_rev_right. unfold list_to_map.
  induction (rev es) as [|[k x] l IH]; [reflexivity |].
  simpl. rewrite <- IH. reflexivity.
Qed.

Lemma sorted_entries_perm {V} (g : gmap Z V) (d : V) :
  map (fun k => (k, default d (g !! k))) (sortIntsMap g) ≡ₚ map_to_list g.
Proof.
  unfold sortIntsMap. rewrite merge_sort_Permutation.
  assert (H : forall l : list (Z * V),
            Forall (fun p => g !! p.1 = Some p.2) l ->
            map (fun k => (k, default d (g !! k))) (map fst l) = l).
  { induction 1 as [|[k x] l Hk _ IH]; simpl in *; [reflexivity |].
    rewrite Hk. simpl. f_equal. exact IH. }
  rewrite H; [reflexivity |].
  apply Forall_forall. intros [k x] Hin. apply elem_of_map_to_list. exact Hin.
Qed.

(** The rows of a table, written in the order of [sortIntsMap] and read
    back one by one, rebuild the table. *)
Lemma rebuild_map {V} (g : gmap Z V) (d : V) :
  fold_left (fun v e => <[e.1 := e.2]> v)
            (map (fun k => (k, default d (g !! k))) (sortIntsMap g)) ∅ = g.
Proof.
  rewrite fold_left_insert_list_to_map.
  rewrite <- (list_to_map_to_list g) at 2.
  assert (Hp : rev (map (fun k => (k, default d (g !! k))) (sortIntsMap g))
               ≡ₚ map_to_list g).
  { rewrite <- Permutation_rev. apply sorted_entries_perm. }
  apply list_to_map_proper; [| exact Hp].
  rewrite Hp. apply NoDup_fst_map_to_list.
Qed.

Lemma length_sortIntsMap {V} (g : gmap Z V) : length (sortIntsMap g) = size g.
Proof.
  unfold sortIntsMap. rewrite merge_sort_Permutation, length_map.
  apply length_map_to_list.
Qed.

Lemma elem_of_sortIntsMap {V} (g : gmap Z V) k :
  k ∈ sortIntsMap g <-> is_Some (g !! k).
Proof.
  unfold sortIntsMap. rewrite merge_sort_Permutation.
  rewrite list_elem_of_fmap. split.
  - intros ([k' x] & -> & Hin). apply elem_of_map_to_list in Hin. eauto.
  - intros [x Hx]. exists (k, x). split; [reflexivity |].
    apply elem_of_map_to_list. exact Hx.
Qed.

(** ** Keys up to their caches *)

(** A Key without the substrings cached by Keyword, a nil table read as
    an empty one. *)
Definition norm (k : Key) : Key :=
  match k with
  | KTitle _ => k
  | KHeader h => KHeader (mkHeader (h_name h) (h_nameSep h) "" (h_v h))
  | KBox b => KBox (mkBox (b_name b) (b_nameSep b) "" "" (b_vlo b) (b_vhi b))
  | KMasses m => KMasses (mkMasses (m_types m) (Some (entries (m_v m))))
  | KCoeffs c => KCoeffs (mkCoeffs (c_name c) (c_types c) (Some (entries (c_v c))))
  | KAtoms a => KAtoms (mkAtoms (a_atomStyle a) (a_atomsNbr a) (a_atomTypes a)
                                (Some (entries (a_v a))))
  | KLinks l => KLinks (mkLinks (l_name l) (l_links l) (l_nbr l) (l_types l)
                                (l_atomsNbr l) (Some (entries (l_v l))))
  end.

(** Two stores whose Keys agree up to caches. *)
Definition sim (st st' : Store) : Prop :=
  forall n, norm <$> st !! n = norm <$> st' !! n.


Lemma norm_idem k : norm (norm k) = norm k.
Proof. destruct k; reflexivity. Qed.

Lemma norm_wiring k k' : norm k = norm k' -> wiring k = wiring k'.
Proof. destruct k, k'; simpl; intros [=]; congruence. Qed.

Lemma norm_Key_Keyword k s : norm (Key_Keyword k s).2 = norm k.
Proof.
  destruct k; simpl; try reflexivity.
  - unfold Header_Keyword. destruct (_ =? _); reflexivity.
  - unfold Box_Keyword. destruct (_ <? _); [reflexivity |].
    simpl. destruct (_ <? _); reflexivity.
Qed.

Lemma verdict_norm k k' s :
  norm k = norm k' -> (Key_Keyword k s).1 = (Key_Keyword k' s).1.
Proof.
  destruct k, k'; simpl; intros [=]; try reflexivity; try congruence.
  - unfold Header_Keyword. destruct (_ =? _); simpl; congruence.
  - unfold Box_Keyword. destruct (_ <? _); [reflexivity |].
    simpl. destruct (_ <? _); simpl; congruence.
Qed.

Lemma len_entries {V} (m : option (gmap Z V)) : len m = Z.of_nat (size (entries m)).
Proof. destruct m; [reflexivity |]. simpl. rewrite map_size_empty. reflexivity. Qed.


Lemma sim_refl st : sim st st.
Proof. intros n. reflexivity. Qed.

Lemma sim_trans a b c : sim a b -> sim b c -> sim a c.
Proof. intros H1 H2 n. rewrite H1. apply H2. Qed.

Lemma sim_sym a b : sim a b -> sim b a.
Proof. intros H n. symmetry. apply H. Qed.

Lemma sim_lookup st st' n k :
  sim st st' -> st !! n = Some k -> exists k', st' !! n = Some k' /\ norm k' = norm k.
Proof.
  intros Hs Hn. specialize (Hs n). rewrite Hn in Hs.
  destruct (st' !! n) as [k'|]; [| discriminate].
  injection Hs as Hs. eauto.
Qed.

Lemma sim_insert st st' n k k' :
  sim st st' -> norm k = norm k' -> sim (<[n := k]> st) (<[n := k']> st').
Proof.
  intros Hs Hk m. destruct (decide (n = m)) as [->|Hne].
  - rewrite !lookup_insert_eq. simpl. congruence.
  - rewrite !lookup_insert_ne by exact Hne. apply Hs.
Qed.

Lemma sim_insert_l st st' n k k0 :
  sim st st' -> st !! n = Some k0 -> norm k = norm k0 -> sim (<[n := k]> st) st'.
Proof.
  intros Hs Hn Hk m. destruct (decide (n = m)) as [->|Hne].
  - rewrite lookup_insert_eq, <- Hs, Hn. simpl. congruence.
  - rewrite lookup_insert_ne by exact Hne. apply Hs.
Qed.

Lemma sim_getInt st st' p : sim st st' -> getInt st p = getInt st' p.
Proof.
  intros Hs. unfold getInt, deref. specialize (Hs p).
  destruct (st !! p) as [k|], (st' !! p) as [k'|]; try discriminate; [| reflexivity].
  injection Hs as Hs. destruct k, k'; simpl in Hs; try discriminate; try reflexivity.
  congruence.
Qed.


(** ** What Encode writes for a Key *)

Fixpoint unlines (ls : list string) : string :=
  match ls with
  | [] => ""
  | l :: ls' => l +:+ nl +:+ unlines ls'
  end.

Lemma unlines_app a b : unlines (a ++ b) = unlines a +:+ unlines b.
Proof.
  induction a as [|l a IH]; simpl; [reflexivity |].
  rewrite IH, !app_assoc_s. reflexivity.
Qed.

Definition masses_line (rt : Runtime) (g : gmap Z float) (id : Z) : string :=
  FormatInt id +:+ " " +:+ FormatG rt (default 0%float (g !! id)).

Definition coeffs_line (rt : Runtime) (g : gmap Z (list float)) (id : Z) : string :=
  FormatInt id +:+ sp_join (map (FormatG rt) (default [] (g !! id))).

Definition link_text (id : Z) (link : Link) : string :=
  FormatInt id +:+ " " +:+ FormatInt (l_typ link)
  +:+ sp_join (map FormatInt (l_atoms link)).

Definition links_line (g : gmap Z (option Link)) (id : Z) : string :=
  match default None (g !! id) with
  | Some link => link_text id link
  | None => ""
  end.

(** The tokens of the row of an atom: the identifier, the fields of the
    atom style, then the three image flags if the record has them. *)
Definition atom_tokens (rt : Runtime) (s : AtomStyle) (id : Z) (a : Atom)
  : list string :=
  (FormatInt id
   :: match s with
      | AtomStyleFull =>
        [FormatInt (MolTag a); FormatInt (AtomType a); FormatG rt (Q a);
         FormatG rt (X a); FormatG rt (Y a); FormatG rt (Z_ a)]
      | AtomStyleAtomic =>
        [FormatInt (AtomType a); FormatG rt (X a); FormatG rt (Y a);
         FormatG rt (Z_ a)]
      end
   ++ (if N a then [FormatInt (NX a); FormatInt (NY a); FormatInt (NZ a)]
       else []))%list.

Definition atoms_line (rt : Runtime) (s : AtomStyle) (g : gmap Z (option Atom))
    (id : Z) : string :=
  match default None (g !! id) with
  | Some a => join_sp (atom_tokens rt s id a)
  | None => ""
  end.

(** A table: nothing when it has no record, else its Name, a blank line
    and one line per record. *)
Definition table_lines {V} (name : Name) (g : gmap Z V) (line : Z -> string)
  : list string :=
  if (size g =? 0)%nat then [] else name :: "" :: map line (sortIntsMap g).

(** The lines of a Key in the file. *)
Definition key_lines (rt : Runtime) (k : Key) : list string :=
  match k with
  | KTitle t => [t_v t]
  | KHeader h => [FormatInt (h_v h) +:+ " " +:+ h_name h]
  | KBox b => [FormatG rt (b_vlo b) +:+ " " +:+ FormatG rt (b_vhi b) +:+ " "
               +:+ b_name b]
  | KMasses m => table_lines NameMasses (entries (m_v m)) (masses_line rt (entries (m_v m)))
  | KCoeffs c => table_lines (c_name c) (entries (c_v c)) (coeffs_line rt (entries (c_v c)))
  | KAtoms a =>
    table_lines NameAtoms (entries (a_v a))
                (atoms_line rt (a_atomStyle a) (entries (a_v a)))
  | KLinks l => table_lines (l_name l) (entries (l_v l)) (links_line (entries (l_v l)))
  end.

(** The map of a table Key is not nil. *)
Definition nonnil (k : Key) : Prop :=
  match k with
  | KMasses m => is_Some (m_v m)
  | KCoeffs c => is_Some (c_v c)
  | KAtoms a => is_Some (a_v a)
  | KLinks l => is_Some (l_v l)
  | _ => True
  end.

Definition link_ok (links : Z) (x : option Link) : Prop :=
  exists link, x = Some link /\ int_ok (l_typ link) /\ Forall int_ok (l_atoms link)
               /\ Z.of_nat (length (l_atoms link)) = links - 2.

Definition is_atoms (k : Key) : bool :=
  match k with KAtoms _ => true | _ => false end.

(** An atom whose floats the format carries. *)
Definition atom_ok (rt : Runtime) (x : option Atom) : Prop :=
  exists a, x = Some a /\ float_ok rt (Q a) /\ float_ok rt (X a)
            /\ float_ok rt (Y a) /\ float_ok rt (Z_ a).

Lemma atom_tokens_ok rt s id a :
  atom_ok rt (Some a) -> Forall (fun t => token_ok t = true) (atom_tokens rt s id a).
Proof.
  intros (y & [= <-] & (_ & HQ & _) & (_ & HX & _) & (_ & HY & _) & (_ & HZ & _)).
  unfold atom_tokens.
  destruct s, (N a); cbn [app]; repeat constructor;
    first [assumption | apply FormatInt_token].
Qed.

(** No line feed, and no carriage return at the end. *)
Fixpoint title_ok (t : string) : bool :=
  match t with
  | EmptyString => true
  | String c t' =>
    negb (Ascii.eqb c (ascii_of_nat 10))
    && negb (Ascii.eqb c (ascii_of_nat 13) && String.eqb t' "")
    && title_ok t'
  end.

(** The values of a Key that the file format carries faithfully. *)
Definition key_ok (rt : Runtime) (k : Key) : Prop :=
  match k with
  | KTitle t => title_ok (t_v t) = true
  | KHeader h => int_ok (h_v h)
  | KBox b => float_ok rt (b_vlo b) /\ float_ok rt (b_vhi b)
  | KMasses m =>
    map_Forall (fun id x => int_ok id /\ float_ok rt x) (entries (m_v m))
  | KCoeffs c =>
    map_Forall (fun id l => int_ok id /\ l <> [] /\ Forall (float_ok rt) l)
               (entries (c_v c))
  | KAtoms a =>
    map_Forall (fun id x => int_ok id /\ atom_ok rt x) (entries (a_v a))
  | KLinks l =>
    map_Forall (fun id x => int_ok id /\ link_ok (l_links l) x) (entries (l_v l))
  end.

Lemma write_each_lines {A} (body : A -> Writer -> Writer * outcome unit)
    (line : A -> string) l w :
  Forall (fun a => forall w, body a w = (w +:+ line a +:+ nl, Ok tt)) l ->
  write_each body l w = (w +:+ unlines (map line l), Ok tt).
Proof.
  intros HF. revert w. induction HF as [|a l Ha _ IH]; intros w; simpl.
  - rewrite app_Empty_r. reflexivity.
  - rewrite Ha, IH, !app_assoc_s. reflexivity.
Qed.

Lemma sortIntsMap_lookup {V} (g : gmap Z V) (P : Z -> V -> Prop) (Q : Z -> Prop) :
  map_Forall P g -> (forall id x, g !! id = Some x -> P id x -> Q id) ->
  Forall Q (sortIntsMap g).
Proof.
  intros HP HQ. apply Forall_forall. intros id Hin.
  apply elem_of_sortIntsMap in Hin as [x Hx]. eapply HQ; eauto.
Qed.

(** The row that Atoms.Encode writes for a record that is not nil. *)
Lemma Atoms_row_text rt s (g : gmap Z (option Atom)) id y w :
  g !! id = Some (Some y) ->
  (let atom := default None (g !! id) in
   let w := Fprint w (FormatInt id +:+ " ") in
   match AtomStyle_Encode rt s atom w with
   | (w, Ok _) =>
     match atom with
     | None => (w, Panic)
     | Some x =>
       if N x then
         (Fprint w (" " +:+ FormatInt (NX x) +:+ " " +:+ FormatInt (NY x)
                    +:+ " " +:+ FormatInt (NZ x) +:+ nl), Ok tt)
       else (Fprint w nl, Ok tt)
     end
   | (w, Err e) => (w, Err (Wrap "a.atomStyle.Encode" e))
   | (w, Panic) => (w, Panic)
   end) = (w +:+ atoms_line rt s g id +:+ nl, Ok tt).
Proof.
  intros Hx. unfold atoms_line, atom_tokens. rewrite Hx.
  change (default None (Some (Some y))) with (Some y). cbv beta zeta.
  destruct s, (N y); cbn [AtomStyle_Encode app join_sp]; unfold Fprint;
    rewrite !app_assoc_s; reflexivity.
Qed.

Lemma Key_Encode_lines rt k w :
  nonnil k -> key_ok rt k ->
  Key_Encode rt k w = (w +:+ unlines (key_lines rt k), Ok tt).
Proof.
  intros Hn Hok. destruct k; simpl in *.
  - unfold Fprint. rewrite app_Empty_r. reflexivity.
  - unfold Header_Encode, Fprint. rewrite app_Empty_r, !app_assoc_s. reflexivity.
  - unfold Box_Encode, Fprint. rewrite app_Empty_r, !app_assoc_s. reflexivity.
  - unfold Masses_Encode, table_lines. destruct (m_v m) as [g|]; [| destruct Hn; discriminate].
    simpl in *. destruct (size g =? 0)%nat; [rewrite app_Empty_r; reflexivity |].
    rewrite write_each_lines with (line := masses_line rt g).
    + unfold Fprint. simpl. rewrite !app_assoc_s. reflexivity.
    + apply Forall_forall. intros id _ w'. unfold Fprint, masses_line.
      rewrite !app_assoc_s. reflexivity.
  - unfold Coeffs_Encode, table_lines. destruct (c_v c) as [g|]; [| destruct Hn; discriminate].
    simpl in *. destruct (size g =? 0)%nat; [rewrite app_Empty_r; reflexivity |].
    rewrite write_each_lines with (line := coeffs_line rt g).
    + unfold Fprint. simpl. rewrite !app_assoc_s. reflexivity.
    + apply Forall_forall. intros id _ w'. unfold coeffs_line.
      rewrite fold_left_Fprint. unfold Fprint. rewrite !app_assoc_s. reflexivity.
  - unfold Atoms_Encode, table_lines. destruct (a_v a) as [g|]; [| destruct Hn; discriminate].
    simpl in *. destruct (size g =? 0)%nat; [rewrite app_Empty_r; reflexivity |].
    rewrite write_each_lines with (line := atoms_line rt (a_atomStyle a) g).
    + unfold Fprint. simpl. rewrite !app_assoc_s. reflexivity.
    + eapply sortIntsMap_lookup; [exact Hok |].
      intros id x Hx [_ (y & -> & _)] w'.
      exact (Atoms_row_text rt (a_atomStyle a) g id y w' Hx).
  - unfold Links_Encode, table_lines. destruct (l_v l) as [g|]; [| destruct Hn; discriminate].
    simpl in *. destruct (size g =? 0)%nat; [rewrite app_Empty_r; reflexivity |].
    rewrite write_each_lines with (line := links_line g).
    + unfold Fprint. simpl. rewrite !app_assoc_s. reflexivity.
    + eapply sortIntsMap_lookup; [exact Hok |].
      intros id x Hx [_ (link & -> & _)] w'. unfold links_line. rewrite Hx. simpl.
      rewrite fold_left_Fprint. unfold Fprint, link_text.
      rewrite !app_assoc_s. reflexivity.
Qed.

(** ** Decode of the lines of a Key *)

Lemma scan_table {V} (row : string -> outcome (Z * V)) (g : gmap Z V) (d : V)
    (line : Z -> string) rest tok :
  (forall id x, g !! id = Some x -> row (line id) = Ok (id, x)) ->
  scan_rows row (Z.to_nat (Z.of_nat (size g))) ∅
            (sc (map line (sortIntsMap g) ++ rest) tok)
  = (g, sc rest (List.last (map line (sortIntsMap g)) tok), Ok tt).
Proof.
  intros Hrow.
  pose (es := map (fun id => (id, default d (g !! id))) (sortIntsMap g)).
  assert (HF : Forall2 (fun l e => row l = Ok e) (map line (sortIntsMap g)) es).
  { unfold es. apply Forall2_fmap, Forall_Forall2_diag, Forall_forall.
    intros id Hin. apply elem_of_sortIntsMap in Hin as [x Hx].
    rewrite Hx. simpl. apply Hrow, Hx. }
  pose proof (scan_rows_lines row _ es rest tok ∅ HF) as Hscan.
  rewrite Nat2Z.id.
  rewrite length_map, length_sortIntsMap in Hscan. rewrite Hscan.
  unfold es. rewrite rebuild_map. reflexivity.
Qed.

Lemma last_blank rows d : List.last rows "" = List.last ("" :: rows) d.
Proof.
  destruct rows as [|a l]; [reflexivity |].
  change (List.last ("" :: a :: l) d) with (List.last (a :: l) d).
  apply last_cons_default.
Qed.

Lemma size_nonzero {V} (g : gmap Z V) : (size g =? 0)%nat = false -> Z.of_nat (size g) <> 0.
Proof. intros H. apply Nat.eqb_neq in H. lia. Qed.

Lemma scan_status_sc ls tok ctx : scan_status (sc ls tok) ctx = Ok tt.
Proof. reflexivity. Qed.

(** A table Key reads its lines back: [k] is the Key that was written,
    [k0] the Key that reads, wired alike; the Counter read by Decode holds
    the number of records. *)
Lemma Key_Decode_table rt st k0 k name more rest :
  wiring k0 = wiring k -> is_table k = true -> is_atoms k = false -> key_ok rt k ->
  key_lines rt k = name :: more ->
  (forall p, counter_ptr k = Some p -> getInt st p = Ok (rows k)) ->
  is_Some (counter_ptr k) ->
  exists k',
    Key_Decode rt st k0 name (sc (more ++ rest) name)
    = (k', sc rest (List.last more name), Ok tt)
    /\ norm k' = norm k.
Proof.
  intros Hw Ht Ha Hok Hlines Hcnt [p Hp]. specialize (Hcnt p Hp).
  destruct k; try discriminate; destruct k0; try discriminate;
    simpl in Hw, Hok, Hlines, Hp, Hcnt; simpl.
  - (* Masses *)
    injection Hw as Hw. rewrite len_entries in Hcnt.
    unfold table_lines in Hlines.
    destruct (size (entries (m_v m)) =? 0)%nat eqn:Es; [discriminate |].
    injection Hlines as _ <-.
    unfold Masses_Decode. rewrite Hw, Hp. simpl app. unfold sc at 1, Scan. simpl.
    rewrite Hcnt.
    pose proof (scan_table (Masses_row rt) (entries (m_v m)) 0%float
                (masses_line rt (entries (m_v m))) rest "") as Hs.
    unfold sc in Hs at 1. rewrite Hs.
    + eexists. split; [rewrite (last_blank _ name); reflexivity | reflexivity].
    + intros id x Hx. unfold masses_line. rewrite Hx. simpl.
      destruct (Hok id x Hx). apply Masses_row_ok; assumption.
  - (* Coeffs *)
    injection Hw as Hw1 Hw2. rewrite len_entries in Hcnt.
    unfold table_lines in Hlines.
    destruct (size (entries (c_v c)) =? 0)%nat eqn:Es; [discriminate |].
    injection Hlines as _ <-.
    unfold Coeffs_Decode. rewrite Hw2, Hp, Hcnt. simpl app. unfold sc at 1, Scan. simpl.
    pose proof (scan_table (Coeffs_row rt) (entries (c_v c)) []
                (coeffs_line rt (entries (c_v c))) rest "") as Hs.
    unfold sc in Hs at 1. rewrite Hs.
    + eexists. split; [rewrite (last_blank _ name); reflexivity |].
      simpl. rewrite Hw1. reflexivity.
    + intros id x Hx. unfold coeffs_line. rewrite Hx. simpl.
      destruct (Hok id x Hx) as (? & ? & ?). apply Coeffs_row_ok; assumption.
  - (* Links *)
    injection Hw as Hw1 Hw2 Hw3 Hw4 Hw5. rewrite len_entries in Hcnt.
    unfold table_lines in Hlines.
    destruct (size (entries (l_v l)) =? 0)%nat eqn:Es; [discriminate |].
    injection Hlines as _ <-.
    unfold Links_Decode. rewrite Hw3, Hp, Hcnt. simpl app. unfold sc at 1, Scan. simpl.
    pose proof (scan_table (Links_row (l_links l0)) (entries (l_v l)) None
                (links_line (entries (l_v l))) rest "") as Hs.
    unfold sc in Hs at 1. rewrite Hs.
    + eexists. split; [rewrite (last_blank _ name); reflexivity |].
      simpl. rewrite <- Hp, <- Hw3. congruence.
    + intros id x Hx. unfold links_line. rewrite Hx. simpl.
      destruct (Hok id x Hx) as (? & link & -> & ? & ? & ?).
      rewrite Hw2. apply Links_row_ok; assumption.
Qed.

(** The row of an atom is not read back: it has the tokens of its atom
    style and its identifier is parsed, so the atom style goes on to store
    through its nil record. *)
Lemma Atoms_row_panics rt s id a :
  int_ok id -> atom_ok rt (Some a) ->
  Atoms_row rt s (join_sp (atom_tokens rt s id a)) = Panic.
Proof.
  intros Hid Ha. pose proof (atom_tokens_ok rt s id a Ha) as Htok.
  unfold Atoms_row.
  rewrite delComments_no_sharp by (apply no_sharp_join, Htok).
  rewrite Fields_join by (apply token_ok_Forall, Htok).
  assert (Hlen : (style_min s <= length (atom_tokens rt s id a))%nat)
    by (unfold atom_tokens; destruct s, (N a); simpl; lia).
  pose proof (AtomStyle_Decode_enough rt s (atom_tokens rt s id a) Hlen) as H.
  change (nth 0 (atom_tokens rt s id a) "") with (FormatInt id) in H.
  rewrite Atoi_FormatInt in H by exact Hid. exact H.
Qed.

(** A table of atoms with a record is not read back: Decode of its Key
    panics on the first row. *)
Lemma Key_Decode_atoms rt st k0 a name more rest :
  wiring k0 = wiring (KAtoms a) -> key_ok rt (KAtoms a) ->
  key_lines rt (KAtoms a) = name :: more ->
  (forall p, a_atomsNbr a = Some p -> getInt st p = Ok (len (a_v a))) ->
  is_Some (a_atomsNbr a) ->
  exists k' r',
    Key_Decode rt st k0 name (sc (more ++ rest) name) = (k', r', Panic).
Proof.
  intros Hw Hok Hlines Hcnt [p Hp]. specialize (Hcnt p Hp).
  destruct k0 as [| | | | |a0|]; try discriminate.
  simpl in Hw. injection Hw as Hw1 Hw2 Hw3.
  simpl in Hok. cbn [key_lines] in Hlines. rewrite len_entries in Hcnt.
  unfold table_lines in Hlines.
  destruct (size (entries (a_v a)) =? 0)%nat eqn:Es; [discriminate |].
  injection Hlines as _ <-. apply Nat.eqb_neq in Es.
  destruct (sortIntsMap (entries (a_v a))) as [|id ids] eqn:Eids.
  { exfalso. apply Es. rewrite <- length_sortIntsMap, Eids. reflexivity. }
  assert (Hin : id ∈ sortIntsMap (entries (a_v a))) by (rewrite Eids; left).
  apply elem_of_sortIntsMap in Hin as [x Hx].
  destruct (Hok id x Hx) as [Hid Hy]. pose proof Hy as (y & -> & _).
  cbn [Key_Decode]. unfold Atoms_Decode. rewrite Hw2, Hp.
  cbn [map app]. unfold sc, Scan. cbn [pending final token negb].
  cbn [a_atomStyle a_atomsNbr a_atomTypes]. rewrite Hcnt.
  destruct (Z.to_nat (Z.of_nat (size (entries (a_v a))))) as [|cnt] eqn:En; [lia |].
  cbn [scan_rows Scan pending final token].
  unfold atoms_line at 1. rewrite Hx.
  change (default None (Some (Some y))) with (Some y). cbv iota.
  rewrite Hw1, (Atoms_row_panics rt _ id y Hid Hy).
  eexists _, _. reflexivity.
Qed.

Lemma sim_wired s st st' : wired s st' -> sim st st' -> wired s st.
Proof.
  intros [Hc Hw] Hs. split.
  - intros n d [k Hn] Hd.
    destruct (sim_lookup _ _ _ _ Hs Hn) as (k' & Hk' & _).
    destruct (Hc n d (ex_intro _ k' Hk') Hd) as [kd Hkd].
    specialize (Hs d). rewrite Hkd in Hs.
    destruct (st !! d); [eauto | discriminate].
  - intros n k Hn. destruct (sim_lookup _ _ _ _ Hs Hn) as (k' & Hk' & Hnorm).
    rewrite <- (norm_wiring _ _ Hnorm). apply Hw, Hk'.
Qed.

Lemma wired_header_wired s st n h :
  wired s st -> st !! n = Some (KHeader h) -> header_wired h /\ h_name h = n.
Proof.
  intros Hw Hn. destruct (wired_header s st n h Hw Hn) as (H1 & H2 & H3).
  unfold header_wired. rewrite H2, H3. auto.
Qed.

Lemma wired_box_wired s st n b :
  wired s st -> st !! n = Some (KBox b) -> box_wired b /\ b_name b = n.
Proof.
  intros Hw Hn. destruct (wired_box s st n b Hw Hn) as (H1 & H2 & H3).
  unfold box_wired. rewrite H2, H3. auto.
Qed.

(** The Names of the tables. *)
Lemma wired_table_name s st n k :
  wired s st -> st !! n = Some k -> is_table k = true ->
  name_in n tables = true /\ Key_Name k = n /\ is_Some (counter_ptr k).
Proof.
  intros Hw Hn Ht. pose proof (wired_Key_Name s st n k Hw Hn) as HN.
  destruct k; try discriminate; simpl.
  - destruct (wired_masses _ _ _ _ Hw Hn) as [-> ->]. eauto.
  - destruct (wired_coeffs _ _ _ _ Hw Hn) as (_ & t & Ht1 & ->).
    split; [| eauto]. unfold coeffs_types in Ht1.
    repeat match type of Ht1 with
           | context [String.eqb n ?x] =>
             destruct (String.eqb_spec n x) as [->|_]; [reflexivity |]
           end. discriminate.
  - destruct (wired_atoms _ _ _ _ Hw Hn) as (-> & _ & -> & _). eauto.
  - destruct (wired_links _ _ _ _ Hw Hn) as (_ & kk & nb & ty & Hl & _ & -> & _).
    split; [| eauto]. unfold links_wiring in Hl.
    repeat match type of Hl with
           | context [String.eqb n ?x] =>
             destruct (String.eqb_spec n x) as [->|_]; [reflexivity |]
           end. discriminate.
Qed.

Lemma table_first_line rt k line more :
  is_table k = true -> key_lines rt k = line :: more -> line = Key_Name k.
Proof.
  intros Ht. destruct k; try discriminate; simpl; unfold table_lines;
    try destruct (_ =? _)%nat; intros [=]; auto.
Qed.

(** The Key of a line recognises it and reads it back. *)
Lemma Key_hit rt s (keys st : Store) n k k0 line more rest :
  wired s keys -> keys !! n = Some k -> n <> NameTitle -> is_atoms k = false ->
  wiring k0 = wiring k -> key_ok rt k -> key_lines rt k = line :: more ->
  (forall p, counter_ptr k = Some p -> getInt st p = Ok (rows k)) ->
  (Key_Keyword k0 line).1 = true
  /\ exists k2,
       Key_Decode rt st (Key_Keyword k0 line).2 line (sc (more ++ rest) line)
       = (k2, sc rest (List.last more line), Ok tt)
       /\ norm k2 = norm k.
Proof.
  intros Hw Hn Hnt Hna Hwk Hok Hlines Hcnt.
  destruct (is_table k) eqn:Ht.
  { destruct (wired_table_name _ _ _ _ Hw Hn Ht) as (Hin & Hname & Hptr).
    pose proof (table_first_line _ _ _ _ Ht Hlines) as ->.
    assert (Hkw : Key_Keyword k0 (Key_Name k) = (true, k0)).
    { assert (HN : Key_Name k0 = Key_Name k)
        by (destruct k, k0; simpl in Hwk; try discriminate; simpl; congruence).
      assert (Hk0 : Key_Keyword k0 (Key_Name k)
                    = (keyword (Key_Name k) (Key_Name k0), k0))
        by (destruct k, k0; simpl in Hwk; try discriminate; reflexivity).
      rewrite Hk0, HN, Hname. f_equal.
      split_names Hin; rewrite Hin; vm_compute; reflexivity. }
    rewrite Hkw. simpl. split; [reflexivity |].
    eapply Key_Decode_table; eauto. }
  destruct k as [t|h|b|m|c|a|l]; try discriminate.
  - exfalso. apply Hnt. eapply wired_title; eauto.
  - destruct k0 as [|h0| | | | |]; try discriminate.
    destruct (wired_header_wired _ _ _ _ Hw Hn) as [[Hin Hsep] Hname].
    injection Hwk as Hw1 Hw2. simpl in Hlines. injection Hlines as <- <-.
    simpl in Hok. simpl.
    rewrite Header_Keyword_counter_line;
      [| apply FormatInt_token | split; congruence | exact Hin].
    simpl. rewrite Hw1, String.eqb_refl. split; [reflexivity |].
    unfold Header_Decode. simpl. rewrite Atoi_FormatInt by exact Hok. simpl.
    eexists. split; [reflexivity |]. simpl. congruence.
  - destruct k0 as [| |b0| | | |]; try discriminate.
    destruct (wired_box_wired _ _ _ _ Hw Hn) as [[Hin Hsep] Hname].
    injection Hwk as Hw1 Hw2. simpl in Hlines. injection Hlines as <- <-.
    destruct Hok as [(Hlo & Htlo & _) (Hhi & Hthi & _)]. simpl.
    rewrite Box_Keyword_box_line;
      [| assumption | assumption | split; congruence | exact Hin].
    simpl. rewrite Hw1, String.eqb_refl. split; [reflexivity |].
    unfold Box_Decode. simpl. rewrite Hlo, Hhi.
    eexists. split; [reflexivity |]. simpl. congruence.
Qed.

(** The Key of a table of atoms recognises its line, and panics on the
    rows that follow. *)
Lemma Key_hit_atoms rt s (keys st : Store) a k0 line more rest :
  wired s keys -> keys !! NameAtoms = Some (KAtoms a) ->
  wiring k0 = wiring (KAtoms a) -> key_ok rt (KAtoms a) ->
  key_lines rt (KAtoms a) = line :: more ->
  (forall p, a_atomsNbr a = Some p -> getInt st p = Ok (len (a_v a))) ->
  (Key_Keyword k0 line).1 = true
  /\ exists k2 r2,
       Key_Decode rt st (Key_Keyword k0 line).2 line (sc (more ++ rest) line)
       = (k2, r2, Panic).
Proof.
  intros Hw Hn Hwk Hok Hlines Hcnt.
  pose proof (table_first_line rt (KAtoms a) line more eq_refl Hlines) as ->.
  destruct (wired_atoms _ _ _ _ Hw Hn) as (_ & _ & Hp & _).
  destruct k0 as [| | | | |a0|]; try discriminate.
  split; [reflexivity |].
  apply (Key_Decode_atoms rt st (KAtoms a0) a (Key_Name (KAtoms a)) more rest Hwk Hok
           Hlines Hcnt).
  rewrite Hp. eauto.
Qed.

Lemma table_lines_name rt s (keys : Store) n k line more :
  wired s keys -> keys !! n = Some k -> is_table k = true ->
  key_lines rt k = line :: more ->
  line = n /\ name_in n tables = true.
Proof.
  intros Hw Hn Ht Hl.
  destruct (wired_table_name _ _ _ _ Hw Hn Ht) as (Hin & Hname & _).
  rewrite (table_first_line _ _ _ _ Ht Hl). auto.
Qed.

(** No other Key recognises the line: a Key asked in the header pass is
    a Counter or a Box bound, one asked for the line of a table is any
    Key but the table's. *)
Lemma Key_miss rt s (keys st : Store) n k m km line more :
  wired s keys -> keys !! n = Some k -> n <> NameTitle ->
  key_ok rt k -> key_lines rt k = line :: more ->
  wired s st -> st !! m = Some km -> m <> n ->
  IsHeader km = true \/ IsHeader k = false ->
  (Key_Keyword km line).1 = false.
Proof.
  intros Hw Hn Hnt Hok Hlines Hws Hm Hne Hcls.
  assert (Htitle : forall t, k <> KTitle t).
  { intros t ->. apply Hnt. exact (wired_title _ _ _ _ Hw Hn). }
  destruct (is_table k) eqn:Ht.
  { (* the line is the Name of a table *)
    destruct (table_lines_name _ _ _ _ _ _ _ Hw Hn Ht Hlines) as [-> Hin].
    destruct (is_table km) eqn:Htm.
    - destruct (wired_table_name _ _ _ _ Hws Hm Htm) as (Hinm & Hnamem & _).
      assert (Hk0 : Key_Keyword km n = (keyword n (Key_Name km), km))
        by (destruct km; try discriminate; reflexivity).
      rewrite Hk0, Hnamem. simpl.
      split_names Hin; split_names Hinm; rewrite Hin, Hinm in *;
        try (exfalso; apply Hne; reflexivity); vm_compute; reflexivity.
    - destruct km as [t0|h0|b0| | | |]; try discriminate.
      + reflexivity.
      + destruct (wired_header_wired _ _ _ _ Hws Hm) as [[Hinm Hsep] Hname0].
        simpl. unfold Header_Keyword. rewrite Hsep.
        split_names Hin; split_names Hinm; rewrite Hin, Hinm;
          vm_compute; reflexivity.
      + destruct (wired_box_wired _ _ _ _ Hws Hm) as [[Hinm Hsep] Hname0].
        simpl. unfold Box_Keyword. cbn [b_nameSep b_name]. rewrite Hsep.
        split_names Hin; split_names Hinm; rewrite Hin, Hinm;
          vm_compute; reflexivity. }
  destruct k as [t|h|b| | | |]; try discriminate.
  - exfalso. exact (Htitle t eq_refl).
  - (* the line of a Counter *)
    destruct (wired_header_wired _ _ _ _ Hw Hn) as [[Hin Hsep] Hname].
    simpl in Hlines. injection Hlines as <- <-.
    destruct Hcls as [Hcls|Hcls]; [| discriminate].
    destruct km as [|h0|b0| | | |]; try discriminate.
    + destruct (wired_header_wired _ _ _ _ Hws Hm) as [Hhw Hname0]. simpl.
      rewrite Header_Keyword_counter_line;
        [| apply FormatInt_token | exact Hhw | exact Hin].
      simpl. rewrite Hname0, Hname. apply String.eqb_neq, Hne.
    + destruct (wired_box_wired _ _ _ _ Hws Hm) as [Hbw Hname0]. simpl.
      destruct (Box_Keyword b0 _) as [v b1] eqn:E.
      change v with (v, b1).1. rewrite <- E.
      apply Box_Keyword_counter_line; [apply FormatInt_token | exact Hbw | exact Hin].
  - (* the line of a Box bound *)
    destruct (wired_box_wired _ _ _ _ Hw Hn) as [[Hin Hsep] Hname].
    simpl in Hlines. injection Hlines as <- <-.
    destruct Hok as [(_ & Htlo & _) (_ & Hthi & Hlead)].
    destruct Hcls as [Hcls|Hcls]; [| discriminate].
    destruct km as [|h0|b0| | | |]; try discriminate.
    + destruct (wired_header_wired _ _ _ _ Hws Hm) as [Hhw Hname0]. simpl.
      rewrite Header_Keyword_box_line by assumption. reflexivity.
    + destruct (wired_box_wired _ _ _ _ Hws Hm) as [Hbw Hname0]. simpl.
      rewrite Box_Keyword_box_line by assumption.
      simpl. rewrite Hname0, Hname. apply String.eqb_neq, Hne.
Qed.

(** ** One call of keyDecode *)

Lemma keyDecode_loop_none rt line order (ref : Store) :
  (forall m km, m ∈ order -> ref !! m = Some km -> (Key_Keyword km line).1 = false) ->
  forall st keys r, sim st ref ->
  exists st', keyDecode_loop rt line order st keys r = (st', keys, r, Ok false)
              /\ sim st' ref.
Proof.
  induction order as [|m order IH]; intros Hmiss st keys r Hs; simpl.
  - eauto.
  - destruct (st !! m) as [km|] eqn:Em.
    + destruct (sim_lookup _ _ _ _ Hs Em) as (kr & Hkr & Hnorm).
      pose proof (Hmiss m kr (list_elem_of_here _ _) Hkr) as Hv.
      rewrite (verdict_norm _ _ line Hnorm) in Hv.
      pose proof (norm_Key_Keyword km line) as Hk.
      destruct (Key_Keyword km line) as [v km']. simpl in Hv, Hk. subst v.
      apply IH.
      * intros m' km'' Hin. apply Hmiss. right. exact Hin.
      * eapply sim_insert_l; eauto.
    + apply IH; [| exact Hs].
      intros m' km'' Hin. apply Hmiss. right. exact Hin.
Qed.

Lemma keyDecode_loop_hit rt line order (ref : Store) n k2 r r2 :
  n ∈ order -> is_Some (ref !! n) ->
  (forall m km, m ∈ order -> m <> n -> ref !! m = Some km ->
                (Key_Keyword km line).1 = false) ->
  (forall st k0, sim st ref -> st !! n = Some k0 ->
     (Key_Keyword k0 line).1 = true
     /\ exists k2',
          Key_Decode rt (<[n := (Key_Keyword k0 line).2]> st)
                     (Key_Keyword k0 line).2 line r = (k2', r2, Ok tt)
          /\ norm k2' = norm k2) ->
  forall st keys, sim st ref ->
  exists st', keyDecode_loop rt line order st keys r = (st', keys ∖ {[n]}, r2, Ok true)
              /\ sim st' (<[n := k2]> ref).
Proof.
  intros Hin [kn Hkn] Hmiss Hhit.
  induction order as [|m order IH]; intros st keys Hs; [inversion Hin |].
  simpl. destruct (decide (m = n)) as [->|Hne].
  - specialize (Hs n) as Hsn. rewrite Hkn in Hsn.
    destruct (st !! n) as [k0|] eqn:E0; [| discriminate].
    destruct (Hhit st k0 Hs E0) as (Hv & k2' & HD & Hn2).
    destruct (Key_Keyword k0 line) as [v k1] eqn:EK. simpl in *. subst v.
    rewrite HD. eexists. split; [reflexivity |].
    rewrite insert_insert_eq. apply sim_insert; assumption.
  - apply elem_of_cons in Hin as [Hin|Hin]; [congruence |].
    destruct (st !! m) as [km|] eqn:Em.
    + destruct (sim_lookup _ _ _ _ Hs Em) as (kr & Hkr & Hnorm).
      pose proof (Hmiss m kr (list_elem_of_here _ _) Hne Hkr) as Hv.
      rewrite (verdict_norm _ _ line Hnorm) in Hv.
      pose proof (norm_Key_Keyword km line) as Hk.
      destruct (Key_Keyword km line) as [v km']. simpl in Hv, Hk. subst v.
      apply IH.
      * exact Hin.
      * intros m' km'' Hin'. apply Hmiss. right. exact Hin'.
      * eapply sim_insert_l; eauto.
    + apply IH; [exact Hin | | exact Hs].
      intros m' km'' Hin'. apply Hmiss. right. exact Hin'.
Qed.

Lemma keyDecode_loop_panic rt line order (ref : Store) n r :
  n ∈ order -> is_Some (ref !! n) ->
  (forall m km, m ∈ order -> m <> n -> ref !! m = Some km ->
                (Key_Keyword km line).1 = false) ->
  (forall st k0, sim st ref -> st !! n = Some k0 ->
     (Key_Keyword k0 line).1 = true
     /\ exists k2 r2,
          Key_Decode rt (<[n := (Key_Keyword k0 line).2]> st)
                     (Key_Keyword k0 line).2 line r = (k2, r2, Panic)) ->
  forall st keys, sim st ref ->
  exists st' r2, keyDecode_loop rt line order st keys r = (st', keys, r2, Panic).
Proof.
  intros Hin [kn Hkn] Hmiss Hhit.
  induction order as [|m order IH]; intros st keys Hs; [inversion Hin |].
  simpl. destruct (decide (m = n)) as [->|Hne].
  - specialize (Hs n) as Hsn. rewrite Hkn in Hsn.
    destruct (st !! n) as [k0|] eqn:E0; [| discriminate].
    destruct (Hhit st k0 Hs E0) as (Hv & k2 & r2 & HD).
    destruct (Key_Keyword k0 line) as [v k1] eqn:EK. simpl in *. subst v.
    rewrite HD. eexists _, _. reflexivity.
  - apply elem_of_cons in Hin as [Hin|Hin]; [congruence |].
    destruct (st !! m) as [km|] eqn:Em.
    + destruct (sim_lookup _ _ _ _ Hs Em) as (kr & Hkr & Hnorm).
      pose proof (Hmiss m kr (list_elem_of_here _ _) Hne Hkr) as Hv.
      rewrite (verdict_norm _ _ line Hnorm) in Hv.
      pose proof (norm_Key_Keyword km line) as Hk.
      destruct (Key_Keyword km line) as [v km']. simpl in Hv, Hk. subst v.
      apply IH.
      * exact Hin.
      * intros m' km'' Hin'. apply Hmiss. right. exact Hin'.
      * eapply sim_insert_l; eauto.
    + apply IH; [exact Hin | | exact Hs].
      intros m' km'' Hin'. apply Hmiss. right. exact Hin'.
Qed.

(** ** Reading a file written from a registry *)

Lemma IsHeader_wiring k k' : wiring k = wiring k' -> IsHeader k = IsHeader k'.
Proof. destruct k, k'; simpl; intros H; try discriminate; reflexivity. Qed.

Lemma wired_same s (a b : Store) n k k' :
  wired s a -> wired s b -> a !! n = Some k -> b !! n = Some k' ->
  wiring k = wiring k'.
Proof.
  intros [_ Ha] [_ Hb] Hk Hk'. apply Ha in Hk. apply Hb in Hk'. congruence.
Qed.

Lemma wired_name_nonempty s (st : Store) n k :
  wired s st -> st !! n = Some k -> Key_Name k <> "".
Proof.
  intros Hw Hn. rewrite (wired_Key_Name _ _ _ _ Hw Hn).
  destruct Hw as [_ Hw]. apply Hw in Hn.
  assert (HN : IsName n = true) by (apply (fresh_key_IsName s); eauto).
  intros ->. discriminate.
Qed.

Lemma wired_blank s (st : Store) n k :
  wired s st -> st !! n = Some k -> (Key_Keyword k "").1 = false.
Proof.
  intros Hw Hn. rewrite Key_Keyword_blank; [reflexivity |].
  eapply wired_name_nonempty; eauto.
Qed.

Section Reading.
Variables (rt : Runtime) (s : AtomStyle).
(** [keys]: the registry the file was written from; [init]: the
    registry of the reader before the first line after the title. *)
Variables (keys init : Store).
Hypothesis Hfair : fair rt.
Hypothesis Hkeys : wired s keys.
Hypothesis Hinit : wired s init.
Hypothesis Hdom : forall n, is_Some (keys !! n) <-> is_Some (init !! n).
Hypothesis Hok : forall n k, keys !! n = Some k -> key_ok rt k.
Hypothesis Hcnt : forall n k, keys !! n = Some k -> counter_agrees keys k.
Hypothesis Hnew : forall n k, init !! n = Some k -> rows k = 0.

(** The reader's registry once the Keys of [D] have been read. *)
Fixpoint mix (D : list Name) : Store :=
  match D with
  | [] => init
  | n :: D' =>
    match keys !! n with
    | Some k => <[n := k]> (mix D')
    | None => mix D'
    end
  end.

Lemma mix_lookup D n :
  mix D !! n = if bool_decide (n ∈ D) then keys !! n else init !! n.
Proof.
  induction D as [|m D IH]; simpl.
  - reflexivity.
  - destruct (decide (n = m)) as [->|Hne].
    + rewrite bool_decide_eq_true_2 by apply list_elem_of_here.
      destruct (keys !! m) as [k|] eqn:E; [apply lookup_insert_eq |].
      rewrite IH. destruct (bool_decide _); [reflexivity |].
      destruct (init !! m) eqn:Ei; [| reflexivity].
      assert (H : is_Some (keys !! m)) by (apply Hdom; eauto).
      rewrite E in H. destruct H; discriminate.
    + assert (Hb : bool_decide (n ∈ m :: D) = bool_decide (n ∈ D)).
      { apply bool_decide_ext. rewrite elem_of_cons. tauto. }
      rewrite Hb, <- IH.
      destruct (keys !! m); [apply lookup_insert_ne; congruence | reflexivity].
Qed.

Lemma mix_is_Some D n : is_Some (mix D !! n) <-> is_Some (keys !! n).
Proof.
  rewrite mix_lookup. destruct (bool_decide _); [tauto |]. symmetry. apply Hdom.
Qed.

Lemma mix_wired D : wired s (mix D).
Proof.
  split.
  - intros n d Hn Hd. apply mix_is_Some. apply mix_is_Some in Hn.
    exact (proj1 Hkeys n d Hn Hd).
  - intros n k. rewrite mix_lookup. destruct (bool_decide _).
    + apply Hkeys.
    + apply Hinit.
Qed.

(** The state of the loop of Decode once the Keys of [D] are read. *)
Definition inv (st : Store) (kH kB : gset Name) (D : list Name) : Prop :=
  sim st (mix D)
  /\ (forall n, n ∈ kH -> exists k, keys !! n = Some k /\ IsHeader k = true)
  /\ (forall n, n ∈ kB -> exists k, keys !! n = Some k /\ IsHeader k = false)
  /\ (forall n k, keys !! n = Some k -> n ∉ D ->
        if IsHeader k then n ∈ kH else n ∈ kB).

Lemma inv_wired st kH kB D : inv st kH kB D -> wired s st.
Proof. intros [Hs _]. eapply sim_wired; [apply mix_wired | exact Hs]. Qed.


Lemma keyDecode_blank site st (ks : gset Name) r D :
  sim st (mix D) ->
  exists st', keyDecode rt site "" st ks r = (st', ks, r, Ok false)
              /\ sim st' (mix D).
Proof.
  intros Hs. unfold keyDecode. apply keyDecode_loop_none; [| exact Hs].
  intros m km _ Hm. eapply wired_blank; [apply (mix_wired D) | exact Hm].
Qed.

Lemma step_blank fuel i st kH kB inH D rest tok :
  inv st kH kB D ->
  exists st',
    Decode_lines rt (S fuel) i st kH kB inH (sc ("" :: rest) tok)
    = Decode_lines rt fuel (S i) st' kH kB inH (sc rest "")
    /\ inv st' kH kB D.
Proof.
  intros (Hs & HH & HB & Hrem).
  cbn [Decode_lines]. unfold Scan, sc. cbn [pending final token negb].
  destruct inH.
  - destruct (keyDecode_blank (SiteHead i) st kH (mkScanner rest None false "") D Hs)
      as (st1 & E1 & Hs1).
    rewrite E1.
    destruct (keyDecode_blank (SiteBody i) st1 kB (mkScanner rest None false "") D Hs1)
      as (st2 & E2 & Hs2).
    rewrite E2. exists st2. split; [reflexivity |]. repeat split; assumption.
  - destruct (keyDecode_blank (SiteBody i) st kB (mkScanner rest None false "") D Hs)
      as (st2 & E2 & Hs2).
    rewrite E2. exists st2. split; [reflexivity |]. repeat split; assumption.
Qed.

Lemma inv_next st kH kB D n k st' :
  inv st kH kB D -> keys !! n = Some k ->
  sim st' (<[n := k]> (mix D)) ->
  inv st' (if IsHeader k then kH ∖ {[n]} else kH)
          (if IsHeader k then kB else kB ∖ {[n]}) (n :: D).
Proof.
  intros (Hs & HH & HB & Hrem) Hn Hs'. split; [| split; [| split]].
  - simpl. rewrite Hn. exact Hs'.
  - intros m Hm. apply HH. destruct (IsHeader k); [| exact Hm].
    apply elem_of_difference in Hm. tauto.
  - intros m Hm. apply HB. destruct (IsHeader k); [exact Hm |].
    apply elem_of_difference in Hm. tauto.
  - intros m km Hm Hnot. apply not_elem_of_cons in Hnot as [Hne Hnot].
    specialize (Hrem m km Hm Hnot).
    destruct (IsHeader km) eqn:Em, (IsHeader k) eqn:Ek; try exact Hrem;
      apply elem_of_difference; split; try exact Hrem;
      rewrite elem_of_singleton; exact Hne.
Qed.

(** The header pass finds the Key of a header line. *)
Lemma step_header fuel i st kH kB D n k line rest tok :
  inv st kH kB D -> keys !! n = Some k -> IsHeader k = true -> n ∉ D ->
  key_lines rt k = [line] ->
  exists st',
    Decode_lines rt (S fuel) i st kH kB true (sc (line :: rest) tok)
    = Decode_lines rt fuel (S i) st' (kH ∖ {[n]}) kB true (sc rest line)
    /\ inv st' (kH ∖ {[n]}) kB (n :: D).
Proof.
  intros Hinv Hn Hh HnD Hlines.
  pose proof Hinv as (Hs & HH & HB & Hrem).
  assert (Hnt : n <> NameTitle).
  { intros ->. destruct k; try discriminate.
    - pose proof (wired_header _ _ _ _ Hkeys Hn) as (H & _). discriminate.
    - pose proof (wired_box _ _ _ _ Hkeys Hn) as (H & _). discriminate. }
  cbn [Decode_lines]. unfold Scan, sc. cbn [pending final token negb].
  unfold keyDecode.
  destruct (keyDecode_loop_hit rt line
              (rangeNames rt (SiteHead i) (elements kH)) (mix D) n k
              (mkScanner rest None false line) (mkScanner rest None false line))
    with (st := st) (keys := kH) as (st' & E & Hs').
  - rewrite (proj1 Hfair). apply elem_of_elements.
    specialize (Hrem n k Hn HnD). rewrite Hh in Hrem. exact Hrem.
  - apply mix_is_Some. eauto.
  - intros m km Hm Hne Hkm. rewrite (proj1 Hfair) in Hm.
    apply elem_of_elements, HH in Hm as (k' & Hk' & Hh').
    eapply (Key_miss rt s keys (mix D) n k m km); eauto using mix_wired.
    left. rewrite <- Hh'. apply IsHeader_wiring.
    eapply wired_same; [apply (mix_wired D) | exact Hkeys | exact Hkm | exact Hk'].
  - intros st1 k0 Hs1 Hk0.
    destruct (sim_lookup _ _ _ _ Hs1 Hk0) as (km & Hkm & Hnorm).
    assert (Hwk : wiring k0 = wiring k).
    { rewrite <- (norm_wiring _ _ Hnorm).
      eapply wired_same; [apply (mix_wired D) | exact Hkeys | exact Hkm | exact Hn]. }
    assert (Hptr : forall p, counter_ptr k = Some p ->
              getInt (<[n := (Key_Keyword k0 line).2]> st1) p = Ok (rows k))
      by (intros p Hp; destruct k; discriminate).
    assert (Hna : is_atoms k = false) by (destruct k; try discriminate; reflexivity).
    destruct (Key_hit rt s keys (<[n := (Key_Keyword k0 line).2]> st1) n k k0
                line [] rest Hkeys Hn Hnt Hna Hwk (Hok n k Hn) Hlines Hptr)
      as (Hv & k2 & HD & Hn2).
    split; [exact Hv |]. exists k2. split; [exact HD | exact Hn2].
  - exact Hs.
  - rewrite E. exists st'. split; [reflexivity |].
    pose proof (inv_next st kH kB D n k st' Hinv Hn Hs') as Hi.
    rewrite Hh in Hi. exact Hi.
Qed.

Lemma table_not_header k : is_table k = true -> IsHeader k = false.
Proof. destruct k; try discriminate; reflexivity. Qed.

Lemma table_not_title n k :
  keys !! n = Some k -> is_table k = true -> n <> NameTitle.
Proof.
  intros Hn Ht ->.
  destruct (wired_table_name _ _ _ _ Hkeys Hn Ht) as (H & _). discriminate.
Qed.

(** The Counter a table reads its number of records from has been
    read, and holds that number. *)
Lemma counter_read st D n k p :
  sim st (mix D) -> keys !! n = Some k -> is_table k = true ->
  (forall d, In d (deps n) -> d ∈ D) ->
  counter_ptr k = Some p -> getInt st p = Ok (rows k).
Proof.
  intros Hs Hn Ht Hdeps Hp.
  destruct (Hcnt n k Hn Ht) as (p' & h & Hp' & Hh & Hv).
  rewrite Hp in Hp'. injection Hp' as <-.
  rewrite (sim_getInt _ _ p Hs). unfold getInt, deref.
  rewrite mix_lookup, bool_decide_eq_true_2
    by exact (Hdeps _ (counter_ptr_deps s keys n k p Hkeys Hn Hp)).
  apply deref_Some in Hh. rewrite Hh, Hv. reflexivity.
Qed.

Lemma body_table i st kB D n k line more rest :
  sim st (mix D) -> n ∈ kB ->
  (forall m, m ∈ kB -> exists k, keys !! m = Some k /\ IsHeader k = false) ->
  keys !! n = Some k -> is_table k = true -> is_atoms k = false ->
  key_lines rt k = line :: more ->
  (forall d, In d (deps n) -> d ∈ D) ->
  exists st',
    keyDecode rt (SiteBody i) line st kB (mkScanner (more ++ rest) None false line)
    = (st', kB ∖ {[n]}, sc rest (List.last more line), Ok true)
    /\ sim st' (<[n := k]> (mix D)).
Proof.
  intros Hs HnB HB Hn Ht Hna Hlines Hdeps.
  pose proof (table_not_title n k Hn Ht) as Hnt.
  unfold keyDecode. apply keyDecode_loop_hit; [| | | | exact Hs].
  - rewrite (proj1 Hfair). apply elem_of_elements, HnB.
  - apply mix_is_Some. eauto.
  - intros m km Hm Hne Hkm.
    eapply (Key_miss rt s keys (mix D) n k m km); eauto using mix_wired.
    right. apply table_not_header, Ht.
  - intros st1 k0 Hs1 Hk0.
    destruct (sim_lookup _ _ _ _ Hs1 Hk0) as (km & Hkm & Hnorm).
    assert (Hwk : wiring k0 = wiring k).
    { rewrite <- (norm_wiring _ _ Hnorm).
      eapply wired_same; [apply (mix_wired D) | exact Hkeys | exact Hkm | exact Hn]. }
    assert (Hs2 : sim (<[n := (Key_Keyword k0 line).2]> st1) (mix D)).
    { eapply sim_insert_l; [exact Hs1 | exact Hk0 | apply norm_Key_Keyword]. }
    assert (Hptr : forall p, counter_ptr k = Some p ->
              getInt (<[n := (Key_Keyword k0 line).2]> st1) p = Ok (rows k))
      by (intros p Hp; eapply counter_read; eauto).
    destruct (Key_hit rt s keys (<[n := (Key_Keyword k0 line).2]> st1) n k k0
                line more rest Hkeys Hn Hnt Hna Hwk (Hok n k Hn) Hlines Hptr)
      as (Hv & k2 & HD & Hn2).
    split; [exact Hv |]. exists k2. split; [exact HD | exact Hn2].
Qed.

Lemma head_table i st kH D n k line more r :
  sim st (mix D) ->
  (forall m, m ∈ kH -> exists k, keys !! m = Some k /\ IsHeader k = true) ->
  keys !! n = Some k -> is_table k = true ->
  key_lines rt k = line :: more ->
  exists st', keyDecode rt (SiteHead i) line st kH r = (st', kH, r, Ok false)
              /\ sim st' (mix D).
Proof.
  intros Hs HH Hn Ht Hlines.
  pose proof (table_not_title n k Hn Ht) as Hnt.
  unfold keyDecode. apply keyDecode_loop_none; [| exact Hs].
  intros m km Hm Hkm. rewrite (proj1 Hfair) in Hm.
  apply elem_of_elements, HH in Hm as (k' & Hk' & Hh').
  assert (Hne : m <> n).
  { intros ->. rewrite Hn in Hk'. injection Hk' as <-.
    rewrite (table_not_header _ Ht) in Hh'. discriminate. }
  eapply (Key_miss rt s keys (mix D) n k m km); eauto using mix_wired.
  left. rewrite <- Hh'. apply IsHeader_wiring.
  eapply wired_same; [apply (mix_wired D) | exact Hkeys | exact Hkm | exact Hk'].
Qed.

(** The Name of a table, on its line, starts the body; the table's
    Key reads the lines that follow. *)
Lemma step_table fuel i st kH kB inH D n k line more rest tok :
  inv st kH kB D -> keys !! n = Some k -> is_table k = true ->
  is_atoms k = false -> n ∉ D ->
  key_lines rt k = line :: more ->
  (forall d, In d (deps n) -> d ∈ D) ->
  exists st',
    Decode_lines rt (S fuel) i st kH kB inH (sc (line :: more ++ rest) tok)
    = Decode_lines rt fuel (S i) st' kH (kB ∖ {[n]}) false
                   (sc rest (List.last more line))
    /\ inv st' kH (kB ∖ {[n]}) (n :: D).
Proof.
  intros Hinv Hn Ht Hna HnD Hlines Hdeps.
  pose proof Hinv as (Hs & HH & HB & Hrem).
  pose proof (table_not_header _ Ht) as Hh.
  assert (HnB : n ∈ kB).
  { specialize (Hrem n k Hn HnD). rewrite Hh in Hrem. exact Hrem. }
  cbn [Decode_lines].
  change (sc (line :: more ++ rest) tok)
    with (mkScanner (line :: more ++ rest) None false tok).
  unfold Scan. cbn [pending final token negb].
  assert (Hbody : forall st0, sim st0 (mix D) ->
    exists st',
      match keyDecode rt (SiteBody i) line st0 kB
                      (mkScanner (more ++ rest) None false line) with
      | (st1, kBody, r, Ok ok) =>
        Decode_lines rt fuel (S i) st1 kH kBody (if ok then false else inH) r
      | (st1, _, r, Err e) => Some (st1, r, Err e)
      | (st1, _, r, Panic) => Some (st1, r, Panic)
      end
      = Decode_lines rt fuel (S i) st' kH (kB ∖ {[n]}) false
                     (sc rest (List.last more line))
      /\ inv st' kH (kB ∖ {[n]}) (n :: D)).
  { intros st0 Hs0.
    destruct (body_table i st0 kB D n k line more rest Hs0 HnB HB Hn Ht Hna Hlines
                Hdeps) as (st' & E & Hs').
    rewrite E. exists st'. split; [reflexivity |].
    assert (Hinv0 : inv st0 kH kB D) by (repeat split; assumption).
    pose proof (inv_next st0 kH kB D n k st' Hinv0 Hn Hs') as Hi.
    rewrite Hh in Hi. exact Hi. }
  destruct inH.
  - destruct (head_table i st kH D n k line more
                (mkScanner (more ++ rest) None false line) Hs HH Hn Ht Hlines)
      as (st1 & E1 & Hs1).
    rewrite E1. destruct (Hbody st1 Hs1) as (st' & E & Hi).
    exists st'. split; [| exact Hi].
    rewrite <- E. destruct (keyDecode _ _ _ _ _ _) as [[[? ?] ?] [[]| |]]; reflexivity.
  - destruct (Hbody st Hs) as (st' & E & Hi).
    exists st'. split; [| exact Hi].
    rewrite <- E. destruct (keyDecode _ _ _ _ _ _) as [[[? ?] ?] [[]| |]]; reflexivity.
Qed.

(** The Name of a table of atoms with a record, on its line: the
    table's Key panics on the first row, and so does the loop. *)
Lemma step_atoms fuel i st kH kB inH D a line more rest tok :
  inv st kH kB D -> keys !! NameAtoms = Some (KAtoms a) -> NameAtoms ∉ D ->
  key_lines rt (KAtoms a) = line :: more ->
  (forall d, In d (deps NameAtoms) -> d ∈ D) ->
  exists st' r',
    Decode_lines rt (S fuel) i st kH kB inH (sc (line :: more ++ rest) tok)
    = Some (st', r', Panic).
Proof.
  intros Hinv Hn HnD Hlines Hdeps.
  pose proof Hinv as (Hs & HH & HB & Hrem).
  assert (HnB : NameAtoms ∈ kB) by exact (Hrem NameAtoms (KAtoms a) Hn HnD).
  cbn [Decode_lines].
  change (sc (line :: more ++ rest) tok)
    with (mkScanner (line :: more ++ rest) None false tok).
  unfold Scan. cbn [pending final token negb].
  assert (Hbody : forall st0, sim st0 (mix D) ->
    exists st' r',
      keyDecode rt (SiteBody i) line st0 kB (mkScanner (more ++ rest) None false line)
      = (st', kB, r', Panic)).
  { intros st0 Hs0. unfold keyDecode.
    apply (keyDecode_loop_panic rt line _ (mix D) NameAtoms); [| | | | exact Hs0].
    - rewrite (proj1 Hfair). apply elem_of_elements, HnB.
    - apply mix_is_Some. eauto.
    - intros m km Hm Hne Hkm.
      apply (Key_miss rt s keys (mix D) NameAtoms (KAtoms a) m km line more Hkeys Hn);
        [discriminate | exact (Hok _ _ Hn) | exact Hlines | apply mix_wired
        | exact Hkm | exact Hne | right; reflexivity].
    - intros st1 k0 Hs1 Hk0.
      destruct (sim_lookup _ _ _ _ Hs1 Hk0) as (km & Hkm & Hnorm).
      assert (Hwk : wiring k0 = wiring (KAtoms a)).
      { rewrite <- (norm_wiring _ _ Hnorm).
        eapply wired_same; [apply (mix_wired D) | exact Hkeys | exact Hkm | exact Hn]. }
      assert (Hs2 : sim (<[NameAtoms := (Key_Keyword k0 line).2]> st1) (mix D)).
      { eapply sim_insert_l; [exact Hs1 | exact Hk0 | apply norm_Key_Keyword]. }
      apply (Key_hit_atoms rt s keys _ a k0 line more rest Hkeys Hn Hwk
               (Hok _ _ Hn) Hlines).
      intros p Hp.
      exact (counter_read _ D NameAtoms (KAtoms a) p Hs2 Hn eq_refl Hdeps Hp). }
  destruct inH.
  - destruct (head_table i st kH D NameAtoms (KAtoms a) line more
                (mkScanner (more ++ rest) None false line) Hs HH Hn eq_refl Hlines)
      as (st1 & E1 & Hs1).
    rewrite E1. destruct (Hbody st1 Hs1) as (st' & r' & E).
    rewrite E. eauto.
  - destruct (Hbody st Hs) as (st' & r' & E). rewrite E. eauto.
Qed.

(** What the loop meets: a blank line, or the lines of a Key. *)
Inductive event : Type :=
| EvBlank
| EvKey (n : Name).

Definition name_lines (n : Name) : list string :=
  match keys !! n with
  | Some k => key_lines rt k
  | None => []
  end.

Definition ev_lines (e : event) : list string :=
  match e with
  | EvBlank => [""]
  | EvKey n => name_lines n
  end.

Fixpoint ev_names (evs : list event) : list Name :=
  match evs with
  | [] => []
  | EvBlank :: evs' => ev_names evs'
  | EvKey n :: evs' => n :: ev_names evs'
  end.

(** Whether the loop is still in the header once the lines of [n]
    are read. *)
Definition next_mode (inH : bool) (n : Name) : bool :=
  match keys !! n with
  | Some k =>
    if IsHeader k then inH
    else match key_lines rt k with [] => inH | _ => false end
  | None => inH
  end.

(** The Keys come in an order Decode can follow: each once, Counters
    and Box bounds while the loop is in the header, a table after the
    Counters it points to. *)
Fixpoint valid (D : list Name) (inH : bool) (names : list Name) : Prop :=
  match names with
  | [] => True
  | n :: ns =>
    (n ∉ D) /\ n <> NameTitle
    /\ (forall k, keys !! n = Some k ->
          if IsHeader k then inH = true
          else forall d, In d (deps n) -> d ∈ D)
    /\ valid (n :: D) (next_mode inH n) ns
  end.

Lemma size_entries_empty {V} (m : option (gmap Z V)) : len m = 0 -> entries m = ∅.
Proof.
  rewrite len_entries. intros H. apply map_size_empty_iff. lia.
Qed.

Lemma norm_table_empty k k' :
  wiring k = wiring k' -> is_table k = true -> rows k = 0 -> rows k' = 0 ->
  norm k = norm k'.
Proof.
  intros Hw Ht Hr Hr'.
  destruct k, k'; try discriminate; simpl in *;
    apply size_entries_empty in Hr, Hr'; rewrite Hr, Hr'; congruence.
Qed.

Lemma lines_empty_rows n k :
  keys !! n = Some k -> is_table k = true -> key_lines rt k = [] -> rows k = 0.
Proof.
  intros Hn Ht Hl.
  destruct k; try discriminate; simpl in *; rewrite len_entries;
    unfold table_lines in Hl;
    match type of Hl with
    | context [(size ?g =? 0)%nat] =>
      destruct (Nat.eqb_spec (size g) 0); [lia | discriminate]
    end.
Qed.

Lemma not_header_table n k :
  keys !! n = Some k -> n <> NameTitle -> IsHeader k = false -> is_table k = true.
Proof.
  intros Hn Hnt Hh. destruct k; try discriminate; try reflexivity.
  exfalso. apply Hnt. exact (wired_title _ _ _ _ Hkeys Hn).
Qed.

Lemma header_lines k : IsHeader k = true -> exists line, key_lines rt k = [line].
Proof. destruct k; try discriminate; simpl; eauto. Qed.

(** A Key without lines in the file: absent, or a table without
    records, which the reader leaves as it was created. *)
Lemma inv_skip st kH kB D n :
  inv st kH kB D -> n ∉ D -> name_lines n = [] ->
  (forall k, keys !! n = Some k -> is_table k = true) ->
  inv st kH kB (n :: D).
Proof.
  intros (Hs & HH & HB & Hrem) HnD Hl Ht. split; [| split; [| split]]; auto.
  - simpl. unfold name_lines in Hl. destruct (keys !! n) as [k|] eqn:Hn; [| exact Hs].
    pose proof (Ht k eq_refl) as Htk.
    intros m. destruct (decide (n = m)) as [<-|Hne].
    + rewrite lookup_insert_eq, Hs, mix_lookup, bool_decide_eq_false_2 by exact HnD.
      destruct (proj1 (Hdom n) (ex_intro _ k Hn)) as [ki Hki]. rewrite Hki. simpl.
      f_equal. symmetry. apply norm_table_empty.
      * eapply wired_same; [exact Hkeys | exact Hinit | exact Hn | exact Hki].
      * exact Htk.
      * exact (lines_empty_rows n k Hn Htk Hl).
      * eapply Hnew, Hki.
    + rewrite lookup_insert_ne by exact Hne. apply Hs.
  - intros m km Hm Hnot. apply not_elem_of_cons in Hnot as [_ Hnot].
    exact (Hrem m km Hm Hnot).
Qed.

Lemma valid_app_l names more : forall D inH,
  valid D inH (names ++ more) -> valid D inH names.
Proof.
  induction names as [|n names IH]; intros D inH; [intros _; exact I |].
  cbn [app valid]. intros (H1 & H2 & H3 & H4).
  repeat split; [exact H1 | exact H2 | exact H3 | exact (IH _ _ H4)].
Qed.

(** The loop of Decode over the lines of the Keys of [evs], up to the
    lines [rest] that follow them.  A table of atoms among them holds no
    record: Decode reads no row of atoms. *)
Lemma run_to evs rest : forall D inH st kH kB i fuel tok,
  inv st kH kB D -> valid D inH (ev_names evs) ->
  (NameAtoms ∈ ev_names evs -> name_lines NameAtoms = []) ->
  (length (flat_map ev_lines evs ++ rest) < fuel)%nat ->
  exists st' kH' kB' inH' i' fuel' tok',
    Decode_lines rt fuel i st kH kB inH (sc (flat_map ev_lines evs ++ rest) tok)
    = Decode_lines rt fuel' i' st' kH' kB' inH' (sc rest tok')
    /\ (length rest < fuel')%nat
    /\ inv st' kH' kB' (rev (ev_names evs) ++ D).
Proof.
  induction evs as [|e evs IH]; intros D inH st kH kB i fuel tok Hinv Hv Hat Hfuel.
  - exists st, kH, kB, inH, i, fuel, tok. split; [reflexivity |].
    split; [exact Hfuel | exact Hinv].
  - destruct e as [|n].
    + destruct fuel as [|fuel]; [simpl in Hfuel; lia |].
      destruct (step_blank fuel i st kH kB inH D (flat_map ev_lines evs ++ rest) tok
                  Hinv) as (st1 & E & Hinv1).
      change (flat_map ev_lines (EvBlank :: evs) ++ rest)%list
        with ("" :: flat_map ev_lines evs ++ rest)%list.
      rewrite E. apply IH; [exact Hinv1 | exact Hv | exact Hat |].
      simpl in Hfuel. lia.
    + change (flat_map ev_lines (EvKey n :: evs))
        with (name_lines n ++ flat_map ev_lines evs)%list in *.
      change (ev_names (EvKey n :: evs)) with (n :: ev_names evs) in *.
      destruct Hv as (HnD & Hnt & Hk & Hv).
      replace (rev (n :: ev_names evs) ++ D)%list
        with (rev (ev_names evs) ++ n :: D)%list
        by (simpl; rewrite <- app_assoc; reflexivity).
      assert (Hat' : NameAtoms ∈ ev_names evs -> name_lines NameAtoms = [])
        by (intros H; apply Hat; right; exact H).
      rewrite <- app_assoc, length_app in Hfuel.
      destruct (name_lines n) as [|line more] eqn:El.
      * (* no line for this Key *)
        assert (Hm : next_mode inH n = inH).
        { unfold next_mode. unfold name_lines in El.
          destruct (keys !! n) as [k|]; [| reflexivity].
          rewrite El. destruct (IsHeader k); reflexivity. }
        rewrite Hm in Hv.
        apply IH; [| exact Hv | exact Hat' | simpl in Hfuel; simpl; lia].
        apply inv_skip; [exact Hinv | exact HnD | exact El |].
        intros k Hn. unfold name_lines in El. rewrite Hn in El.
        destruct (IsHeader k) eqn:Eh.
        -- destruct (header_lines k Eh) as [l Hl]. rewrite Hl in El. discriminate.
        -- eapply not_header_table; eauto.
      * unfold name_lines in El.
        destruct (keys !! n) as [k|] eqn:Hn; [| discriminate].
        specialize (Hk k eq_refl).
        destruct fuel as [|fuel]; [simpl in Hfuel; lia |].
        unfold next_mode in Hv. rewrite Hn, El in Hv.
        destruct (IsHeader k) eqn:Eh.
        -- subst inH. destruct (header_lines k Eh) as [l Hl].
           rewrite Hl in El. injection El as <- <-.
           destruct (step_header fuel i st kH kB D n k l
                       (flat_map ev_lines evs ++ rest) tok
                       Hinv Hn Eh HnD Hl) as (st1 & E & Hinv1).
           simpl app. rewrite E. apply IH; [exact Hinv1 | exact Hv | exact Hat' |].
           simpl in Hfuel. lia.
        -- pose proof (not_header_table n k Hn Hnt Eh) as Ht.
           assert (Hna : is_atoms k = false).
           { destruct k as [| | | | |a|]; try reflexivity. exfalso.
             destruct (wired_atoms _ _ _ _ Hkeys Hn) as (-> & _).
             specialize (Hat (list_elem_of_here _ _)).
             unfold name_lines in Hat. rewrite Hn, El in Hat. discriminate. }
           destruct (step_table fuel i st kH kB inH D n k line more
                       (flat_map ev_lines evs ++ rest) tok Hinv Hn Ht Hna HnD El Hk)
             as (st1 & E & Hinv1).
           rewrite <- app_assoc. simpl app. rewrite E.
           apply IH; [exact Hinv1 | exact Hv | exact Hat' |].
           simpl in Hfuel. lia.
Qed.


End Reading.

(** ** Lines *)

Definition short_lines (text : string) : Prop :=
  Forall (fun l => Z.of_nat (String.length l) < MaxScanTokenSize) (split_lines text "").

Lemma title_ok_cons c t :
  title_ok (String c t) = true ->
  Ascii.eqb c (ascii_of_nat 10) = false /\ title_ok t = true
  /\ (t = "" -> Ascii.eqb c (ascii_of_nat 13) = false).
Proof.
  simpl. rewrite !andb_true_iff, !negb_true_iff, andb_false_iff.
  intros [[H1 H2] H3]. repeat split; try assumption.
  intros ->. destruct H2 as [H2|H2]; [exact H2 | discriminate].
Qed.

Lemma split_lines_line l rest cur :
  title_ok l = true ->
  split_lines (l +:+ nl +:+ rest) cur = (cur +:+ l) :: split_lines rest "".
Proof.
  revert cur. induction l as [|c l IH]; intros cur Hl.
  - rewrite app_Empty, app_Empty_r. reflexivity.
  - apply title_ok_cons in Hl as (Hc & Hl & _).
    rewrite app_String. cbn [split_lines]. rewrite Hc, IH by exact Hl.
    rewrite app_assoc_s. reflexivity.
Qed.

Lemma split_unlines ls :
  Forall (fun l => title_ok l = true) ls -> split_lines (unlines ls) "" = ls.
Proof.
  induction 1 as [|l ls Hl _ IH]; [reflexivity |].
  cbn [unlines]. rewrite split_lines_line by exact Hl.
  rewrite IH. reflexivity.
Qed.

Lemma dropCR_ok l : title_ok l = true -> dropCR l = l.
Proof.
  induction l as [|c l IH]; [reflexivity |].
  intros H. apply title_ok_cons in H as (_ & Hl & Hcr).
  destruct l as [|d l].
  - simpl. rewrite Hcr; reflexivity.
  - change (dropCR (String c (String d l))) with (String c (dropCR (String d l))).
    rewrite IH by exact Hl. reflexivity.
Qed.

Lemma scan_tokens_ok ls :
  Forall (fun l => title_ok l = true) ls ->
  Forall (fun l => Z.of_nat (String.length l) < MaxScanTokenSize) ls ->
  scan_tokens ls = (ls, None).
Proof.
  induction 1 as [|l ls Hl _ IH]; intros Hs; [reflexivity |].
  apply Forall_cons in Hs as [Hs1 Hs2].
  cbn [scan_tokens]. destruct (Z.leb_spec MaxScanTokenSize (Z.of_nat (String.length l))); [lia |].
  rewrite IH, dropCR_ok by assumption. reflexivity.
Qed.

(** The scanner over a text made of clean, short lines. *)
Lemma ScanBytes_unlines ls :
  Forall (fun l => title_ok l = true) ls ->
  short_lines (unlines ls) ->
  ScanBytes (unlines ls) = NewScanner ls None.
Proof.
  intros Hc Hs. unfold ScanBytes, short_lines in *.
  rewrite split_unlines in * by exact Hc.
  rewrite scan_tokens_ok by assumption. reflexivity.
Qed.

(** A text without line feed and carriage return. *)
Definition clean_byte (c : ascii) : bool :=
  negb (Ascii.eqb c (ascii_of_nat 10)) && negb (Ascii.eqb c (ascii_of_nat 13)).

Fixpoint clean (t : string) : bool :=
  match t with
  | EmptyString => true
  | String c t' => clean_byte c && clean t'
  end.

Lemma clean_title_ok t : clean t = true -> title_ok t = true.
Proof.
  induction t as [|c t IH]; [reflexivity |]. simpl. unfold clean_byte.
  intros H. apply andb_true_iff in H as [H H3].
  apply andb_true_iff in H as [H1 H2]. apply negb_true_iff in H1, H2.
  rewrite H1, H2, IH by exact H3. reflexivity.
Qed.

Lemma clean_app a b : clean (a +:+ b) = clean a && clean b.
Proof.
  induction a as [|c a IH]; [reflexivity |].
  rewrite app_String. simpl. rewrite IH. apply andb_assoc.
Qed.

Lemma plain_clean t : plain t = true -> clean t = true.
Proof.
  induction t as [|c t IH]; [reflexivity |]. simpl.
  rewrite !andb_true_iff. intros [Hc Ht]. split; [| exact (IH Ht)].
  apply plain_byte_spec in Hc as [_ Hs]. unfold clean_byte.
  apply andb_true_iff; split; apply negb_true_iff, Ascii.eqb_neq;
    intros ->; discriminate.
Qed.

Lemma token_clean t : token_ok t = true -> clean t = true.
Proof. intros H. apply token_ok_spec in H as (_ & Hp & _). apply plain_clean, Hp. Qed.

Lemma clean_sp_join ts :
  Forall (fun t => token_ok t = true) ts -> clean (sp_join ts) = true.
Proof.
  induction 1 as [|t ts Ht _ IH]; [reflexivity |].
  cbn [sp_join]. rewrite !clean_app, (token_clean t Ht), IH. reflexivity.
Qed.

Lemma clean_name n : IsName n = true -> clean n = true.
Proof.
  intros H. apply IsName_cases in H. simpl in H.
  repeat (destruct H as [<-|H]; [reflexivity |]). destruct H.
Qed.

Lemma clean_table_lines {V} name (g : gmap Z V) line :
  clean name = true ->
  (forall id x, g !! id = Some x -> clean (line id) = true) ->
  Forall (fun l => clean l = true) (table_lines name g line).
Proof.
  intros Hn Hl. unfold table_lines. destruct (size g =? 0)%nat; [constructor |].
  repeat constructor; [exact Hn |].
  apply Forall_fmap, Forall_forall. intros id Hin.
  apply elem_of_sortIntsMap in Hin as [x Hx]. simpl. eauto.
Qed.

Lemma clean_join_sp ts :
  Forall (fun t => token_ok t = true) ts -> clean (join_sp ts) = true.
Proof.
  destruct 1 as [|t ts Ht HF]; [reflexivity |].
  rewrite join_sp_cons, clean_app, (token_clean t Ht), (clean_sp_join ts HF).
  reflexivity.
Qed.

(** The lines of the Keys other than Title are clean. *)
Lemma key_lines_clean rt s (keys : Store) n k :
  wired s keys -> keys !! n = Some k -> key_ok rt k -> n <> NameTitle ->
  Forall (fun l => clean l = true) (key_lines rt k).
Proof.
  intros Hw Hn Hok Hnt.
  assert (HN : clean (Key_Name k) = true).
  { rewrite (wired_Key_Name _ _ _ _ Hw Hn). apply clean_name.
    apply (fresh_key_IsName s). destruct Hw as [_ Hw]. apply Hw in Hn. eauto. }
  destruct k; simpl in *.
  - exfalso. apply Hnt. exact (wired_title _ _ _ _ Hw Hn).
  - repeat constructor.
    rewrite !clean_app, (token_clean _ (FormatInt_token _)), HN. reflexivity.
  - destruct Hok as [(_ & H1 & _) (_ & H2 & _)]. repeat constructor.
    rewrite !clean_app, (token_clean _ H1), (token_clean _ H2), HN. reflexivity.
  - apply clean_table_lines; [reflexivity |].
    intros id x Hx. unfold masses_line. rewrite Hx. simpl.
    destruct (Hok id x Hx) as [_ (_ & Ht & _)].
    rewrite !clean_app, (token_clean _ (FormatInt_token _)), (token_clean _ Ht).
    reflexivity.
  - apply clean_table_lines; [exact HN |].
    intros id x Hx. unfold coeffs_line. rewrite Hx. simpl.
    destruct (Hok id x Hx) as (_ & _ & HF).
    rewrite clean_app, (token_clean _ (FormatInt_token _)), clean_sp_join; [reflexivity |].
    apply Forall_fmap. eapply Forall_impl; [exact HF |]. intros y Hy. apply Hy.
  - apply clean_table_lines; [reflexivity |].
    intros id x Hx. destruct (Hok id x Hx) as [_ Hy]. pose proof Hy as (y & -> & _).
    unfold atoms_line. rewrite Hx.
    change (default None (Some (Some y))) with (Some y). cbv iota.
    apply clean_join_sp, atom_tokens_ok, Hy.
  - apply clean_table_lines; [exact HN |].
    intros id x Hx. unfold links_line. rewrite Hx. simpl.
    destruct (Hok id x Hx) as (_ & link & -> & _). unfold link_text.
    rewrite !clean_app, !(token_clean _ (FormatInt_token _)), clean_sp_join;
      [reflexivity |].
    apply Forall_fmap, Forall_forall. intros y _. apply FormatInt_token.
Qed.

(** ** The text that Encode writes *)

Lemma Key_Encode_nonnil rt k w w' : Key_Encode rt k w = (w', Ok tt) -> nonnil k.
Proof.
  destruct k; simpl; auto.
  - unfold Masses_Encode. destruct (m_v m); [eauto | discriminate].
  - unfold Coeffs_Encode. destruct (c_v c); [eauto | discriminate].
  - unfold Atoms_Encode. destruct (a_v a); [eauto | discriminate].
  - unfold Links_Encode. destruct (l_v l); [eauto | discriminate].
Qed.

Lemma encode_tables_nonnil rt (st : Store) names w w' :
  encode_tables rt st names w = (w', Ok tt) ->
  forall n k, In n names -> st !! n = Some k -> nonnil k.
Proof.
  revert w. induction names as [|m names IH]; intros w HE n k Hin Hn; [destruct Hin |].
  simpl in HE. destruct (st !! m) as [km|] eqn:Em.
  - destruct (Key_Encode rt km w) as [w1 [[]|e|]] eqn:EK; try discriminate.
    destruct Hin as [->|Hin].
    + rewrite Hn in Em. injection Em as <-. eapply Key_Encode_nonnil, EK.
    + eapply IH; eauto.
  - destruct Hin as [->|Hin]; [congruence |]. eapply IH; eauto.
Qed.

Lemma write_all_tables rt (st : Store) w w' :
  write_all rt st w = (w', Ok tt) ->
  exists w1, encode_tables rt st tables w1 = (w', Ok tt).
Proof.
  unfold write_all.
  destruct (match st !! NameTitle with Some _ => _ | None => _ end) as [t|e|];
    try discriminate.
  destruct (encode_group rt st nbr false _) as [w1 [[]|e|]]; try discriminate.
  destruct (encode_group rt st types false _) as [w2 [[]|e|]]; try discriminate.
  destruct (encode_group rt st box false _) as [w3 [[]|e|]]; try discriminate.
  eauto.
Qed.

(** Encode fails on a table whose map is nil. *)
Lemma write_all_nonnil rt s (st : Store) w w' :
  wired s st -> write_all rt st w = (w', Ok tt) ->
  forall n k, st !! n = Some k -> nonnil k.
Proof.
  intros Hw HW n k Hn. destruct (is_table k) eqn:Ht.
  - destruct (write_all_tables _ _ _ _ HW) as [w1 HE].
    destruct (wired_table_name _ _ _ _ Hw Hn Ht) as (Hin & _).
    eapply encode_tables_nonnil; [exact HE | | exact Hn].
    apply name_in_In, Hin.
  - destruct k; try discriminate; exact I.
Qed.

Section Writing.
Variables (rt : Runtime) (s : AtomStyle) (keys : Store).
Hypothesis Hkeys : wired s keys.
Hypothesis Hok : forall n k, keys !! n = Some k -> key_ok rt k.
Hypothesis Hnn : forall n k, keys !! n = Some k -> nonnil k.

Definition present (n : Name) : bool := bool_decide (is_Some (keys !! n)).

(** A group of header lines, then a blank line if there was a line. *)
Definition doc_group (names : list Name) : list event :=
  map EvKey names ++ (if existsb present names then [EvBlank] else []).

(** Every table that is present, then a blank line. *)
Definition doc_tables (names : list Name) : list event :=
  flat_map (fun n => EvKey n :: (if present n then [EvBlank] else [])) names.

(** The file after its first line. *)
Definition doc_events : list event :=
  EvBlank :: doc_group nbr ++ doc_group types ++ doc_group box
          ++ doc_tables tables.

Definition title_of : string :=
  match keys !! NameTitle with
  | Some (KTitle t) => t_v t
  | _ => ""
  end.

Lemma present_Some n k : keys !! n = Some k -> present n = true.
Proof. intros H. apply bool_decide_eq_true_2. eauto. Qed.

Lemma present_None n : keys !! n = None -> present n = false.
Proof. intros H. apply bool_decide_eq_false_2. rewrite H. intros []; discriminate. Qed.

Lemma encode_group_lines names : forall set w,
  encode_group rt keys names set w
  = (w +:+ unlines (flat_map (name_lines rt keys) names
                    ++ (if set || existsb present names then [""] else [])),
     Ok tt).
Proof.
  induction names as [|n names IH]; intros set w.
  - simpl. destruct set; simpl; unfold Fprint; rewrite ?app_Empty_r; reflexivity.
  - cbn [encode_group flat_map existsb]. unfold name_lines at 1.
    destruct (keys !! n) as [k|] eqn:Hn.
    + rewrite (Key_Encode_lines rt k w (Hnn n k Hn) (Hok n k Hn)), IH.
      rewrite (present_Some n k Hn), orb_true_r. cbn [orb].
      rewrite <- app_assoc, (unlines_app (key_lines rt k)), app_assoc_s.
      reflexivity.
    + rewrite IH, (present_None n Hn). reflexivity.
Qed.

Lemma encode_tables_lines names : forall w,
  encode_tables rt keys names w
  = (w +:+ unlines (flat_map (fun n => (name_lines rt keys n
                                ++ (if present n then [""] else []))%list) names),
     Ok tt).
Proof.
  induction names as [|n names IH]; intros w.
  - simpl. rewrite app_Empty_r. reflexivity.
  - cbn [encode_tables flat_map]. unfold name_lines at 1.
    destruct (keys !! n) as [k|] eqn:Hn.
    + rewrite (Key_Encode_lines rt k w (Hnn n k Hn) (Hok n k Hn)), IH.
      rewrite (present_Some n k Hn). unfold Fprint.
      rewrite !unlines_app, !app_assoc_s. reflexivity.
    + rewrite IH, (present_None n Hn). reflexivity.
Qed.

Lemma flat_map_group names :
  flat_map (ev_lines rt keys) (doc_group names)
  = (flat_map (name_lines rt keys) names
     ++ (if existsb present names then [""] else []))%list.
Proof.
  unfold doc_group. rewrite flat_map_app. f_equal.
  - induction names as [|n names IH]; [reflexivity |]. simpl. rewrite IH. reflexivity.
  - destruct (existsb present names); reflexivity.
Qed.

Lemma flat_map_tables names :
  flat_map (ev_lines rt keys) (doc_tables names)
  = flat_map (fun n => (name_lines rt keys n ++ (if present n then [""] else []))%list)
             names.
Proof.
  induction names as [|n names IH]; [reflexivity |].
  cbn [doc_tables flat_map]. fold (doc_tables names).
  rewrite flat_map_app, IH. f_equal.
  destruct (present n); cbn [flat_map ev_lines app]; rewrite ?app_nil_r; reflexivity.
Qed.

Lemma Title_key k : keys !! NameTitle = Some k -> exists t, k = KTitle t.
Proof.
  intros Hn. destruct Hkeys as [_ Hw]. apply Hw in Hn.
  destruct k; try discriminate. eauto.
Qed.

(** What Encode writes once the Keys are set and checked. *)
Lemma write_all_text w :
  write_all rt keys w
  = (w +:+ unlines (title_of :: flat_map (ev_lines rt keys) doc_events), Ok tt).
Proof.
  unfold write_all, title_of.
  assert (HT : match keys !! NameTitle with
               | Some k => match Key_Get k with VString t => Ok t | _ => Panic end
               | None => Ok ""
               end
               = Ok match keys !! NameTitle with
                    | Some (KTitle t) => t_v t
                    | _ => ""
                    end).
  { destruct (keys !! NameTitle) as [k|] eqn:E; [| reflexivity].
    destruct (Title_key k E) as [t ->]. reflexivity. }
  rewrite HT. rewrite !encode_group_lines, encode_tables_lines.
  unfold doc_events. cbn [flat_map ev_lines unlines].
  rewrite !flat_map_app, !flat_map_group, flat_map_tables.
  unfold Fprint. cbn [orb app unlines].
  rewrite !unlines_app, !app_assoc_s, !app_Empty. reflexivity.
Qed.

Lemma ev_names_app a b : ev_names (a ++ b) = (ev_names a ++ ev_names b)%list.
Proof.
  induction a as [|[|n] a IH]; simpl; [reflexivity | exact IH |].
  rewrite IH. reflexivity.
Qed.

Lemma ev_names_group names : ev_names (doc_group names) = names.
Proof.
  unfold doc_group. rewrite ev_names_app.
  replace (ev_names (if existsb present names then [EvBlank] else [])) with (@nil Name)
    by (destruct (existsb present names); reflexivity).
  rewrite app_nil_r. induction names as [|n names IH]; simpl; congruence.
Qed.

Lemma ev_names_tables names : ev_names (doc_tables names) = names.
Proof.
  induction names as [|n names IH]; [reflexivity |].
  cbn [doc_tables flat_map]. fold (doc_tables names).
  change ((EvKey n :: (if present n then [EvBlank] else [])) ++ doc_tables names)%list
    with (EvKey n :: ((if present n then [EvBlank] else []) ++ doc_tables names))%list.
  cbn [ev_names]. rewrite ev_names_app, IH.
  destruct (present n); reflexivity.
Qed.

Lemma ev_names_doc : ev_names doc_events = (nbr ++ types ++ box ++ tables)%list.
Proof.
  unfold doc_events. cbn [ev_names].
  rewrite !ev_names_app, !ev_names_group, ev_names_tables. reflexivity.
Qed.

End Writing.

(** ** The order of the Keys in the file *)

Section Order.
Variables (rt : Runtime) (s : AtomStyle) (keys : Store).
Hypothesis Hkeys : wired s keys.

Lemma header_name_kind n k :
  name_in n (nbr ++ types ++ box) = true -> keys !! n = Some k ->
  IsHeader k = true.
Proof.
  intros Hin Hn. destruct Hkeys as [_ Hw]. apply Hw in Hn.
  split_names Hin; rewrite Hin in Hn; vm_compute in Hn;
    destruct k; try discriminate; reflexivity.
Qed.

Lemma table_name_kind n k :
  name_in n tables = true -> keys !! n = Some k -> is_table k = true.
Proof.
  intros Hin Hn. destruct Hkeys as [_ Hw]. apply Hw in Hn.
  split_names Hin; rewrite Hin in Hn; vm_compute in Hn;
    destruct k; try discriminate; reflexivity.
Qed.

Lemma next_mode_header n :
  (forall k, keys !! n = Some k -> IsHeader k = true) ->
  next_mode rt keys true n = true.
Proof.
  intros H. unfold next_mode. destruct (keys !! n) as [k|]; [| reflexivity].
  rewrite (H k eq_refl). reflexivity.
Qed.

Lemma valid_headers hs : forall D ns,
  NoDup hs ->
  (forall n, n ∈ hs -> (n ∉ D) /\ n <> NameTitle
                       /\ forall k, keys !! n = Some k -> IsHeader k = true) ->
  valid rt keys (rev hs ++ D) true ns ->
  valid rt keys D true (hs ++ ns).
Proof.
  induction hs as [|h hs IH]; intros D ns Hnd Hhs Hns; [exact Hns |].
  apply NoDup_cons in Hnd as [Hh Hnd].
  destruct (Hhs h (list_elem_of_here _ _)) as (HhD & Hnt & Hk).
  cbn [app valid]. split; [exact HhD |]. split; [exact Hnt |]. split.
  - intros k Hn. rewrite (Hk k Hn). reflexivity.
  - rewrite next_mode_header by exact Hk. apply IH; [exact Hnd | |].
    + intros n Hin. destruct (Hhs n (list_elem_of_further _ _ _ Hin)) as (H1 & H2 & H3).
      split; [| auto]. apply not_elem_of_cons. split; [| exact H1].
      intros ->. contradiction.
    + simpl in Hns. rewrite <- app_assoc in Hns. exact Hns.
Qed.

Lemma valid_tables ts : forall D inH,
  NoDup ts ->
  (forall n, n ∈ ts -> (n ∉ D) /\ n <> NameTitle
                       /\ forall k, keys !! n = Some k ->
                            IsHeader k = false
                            /\ forall d, In d (deps n) -> d ∈ D) ->
  valid rt keys D inH ts.
Proof.
  induction ts as [|t ts IH]; intros D inH Hnd Hts; [exact I |].
  apply NoDup_cons in Hnd as [Ht Hnd].
  destruct (Hts t (list_elem_of_here _ _)) as (HtD & Hnt & Hk).
  cbn [valid]. split; [exact HtD |]. split; [exact Hnt |]. split.
  - intros k Hn. destruct (Hk k Hn) as [-> Hd]. exact Hd.
  - apply IH; [exact Hnd |].
    intros n Hin. destruct (Hts n (list_elem_of_further _ _ _ Hin)) as (H1 & H2 & H3).
    split; [| split; [exact H2 |]].
    + apply not_elem_of_cons. split; [| exact H1]. intros ->. contradiction.
    + intros k Hn. destruct (H3 k Hn) as [H4 H5]. split; [exact H4 |].
      intros d Hd. right. apply H5, Hd.
Qed.

(** Encode writes the Keys in an order that Decode can follow. *)
Lemma valid_doc : valid rt keys [] true (nbr ++ types ++ box ++ tables).
Proof.
  rewrite 2!app_assoc. apply valid_headers.
  - apply (bool_decide_unpack _). vm_compute. exact I.
  - intros n Hin. split; [apply not_elem_of_nil |].
    assert (Hn : name_in n (nbr ++ types ++ box) = true).
    { unfold name_in. apply existsb_exists. exists n.
      split; [| apply String.eqb_refl].
      rewrite <- !app_assoc in Hin. apply list_elem_of_In, Hin. }
    split; [intros ->; discriminate |].
    intros k Hk. eapply header_name_kind; eauto.
  - rewrite app_nil_r. apply valid_tables.
    + apply (bool_decide_unpack _). vm_compute. exact I.
    + intros n Hin.
      assert (Hn : name_in n tables = true).
      { unfold name_in. apply existsb_exists. exists n.
        split; [| apply String.eqb_refl]. apply list_elem_of_In, Hin. }
      split; [| split].
      * split_names Hn; rewrite Hn; apply (bool_decide_unpack _); vm_compute; exact I.
      * intros ->. discriminate.
      * intros k Hk. split.
        -- apply table_not_header. eapply table_name_kind; eauto.
        -- intros d Hd. split_names Hn; rewrite Hn in Hd; vm_compute in Hd;
             repeat (destruct Hd as [<-|Hd];
                     [apply (bool_decide_unpack _); vm_compute; exact I |]);
             destruct Hd.
Qed.

End Order.

(** ** The fields of the struct *)

(** The Name that createNames reads off a tag. *)
Definition tag_name (v : string) : string :=
  if HasPrefix v NameAtoms then
    let idx := IndexRune v "," in
    if (0 <=? idx) && (idx <=? Z.of_nat (String.length v))
    then TrimSpace (str_take (Z.to_nat idx) v)
    else v
  else v.

Lemma createNames_loop_fields typ : forall i s names nF n f,
  (createNames_loop typ i s names nF).2 !! n = Some f ->
  nF !! n = Some f
  \/ ((i <= f)%nat
      /\ exists fld v, typ !! (f - i)%nat = Some fld /\ f_tag fld = Some v
                       /\ tag_name v = n).
Proof.
  induction typ as [|fld typ IH]; intros i s names nF n f; simpl.
  - auto.
  - assert (Hshift : forall st names' nF',
      (createNames_loop typ (S i) st names' nF').2 !! n = Some f ->
      nF' !! n = Some f
      \/ ((i <= f)%nat
          /\ exists fld' v, (fld :: typ) !! (f - i)%nat = Some fld'
                            /\ f_tag fld' = Some v /\ tag_name v = n)).
    { intros st names' nF' H. apply IH in H as [H|(Hle & fld' & v & H1 & H2 & H3)];
        [auto |]. right. split; [lia |]. exists fld', v.
      replace (f - i)%nat with (S (f - S i)) by lia. auto. }
    destruct (f_tag fld) as [v|] eqn:Etag; [| apply Hshift].
    assert (Hv : (if HasPrefix v NameAtoms
                  then
                    let idx := IndexRune v "," in
                    if (0 <=? idx) && (idx <=? Z.of_nat (String.length v))
                    then
                      (if IsAtomStyle (TrimSpace (str_drop (Z.to_nat (idx + 1)) v))
                       then default s (NewAtomStyle
                              (TrimSpace (str_drop (Z.to_nat (idx + 1)) v)))
                       else s,
                       TrimSpace (str_take (Z.to_nat idx) v))
                    else (s, v)
                  else (s, v)).2 = tag_name v).
    { unfold tag_name. destruct (HasPrefix v NameAtoms); [| reflexivity].
      simpl. destruct (_ && _); reflexivity. }
    destruct (if HasPrefix v NameAtoms then _ else _) as [s' v'].
    simpl in Hv. subst v'.
    destruct (IsName (tag_name v)); [| apply Hshift].
    intros H. apply Hshift in H as [H|H]; [| auto].
    apply lookup_insert_Some in H as [[<- <-]|[_ H]]; [| auto].
    right. split; [lia |]. exists fld, v. rewrite Nat.sub_diag. auto.
Qed.

Lemma createNames_loop_dom typ : forall i s names nF,
  (forall n, is_Some (nF !! n) -> In n names) ->
  forall n, is_Some ((createNames_loop typ i s names nF).2 !! n) ->
            In n (createNames_loop typ i s names nF).1.2.
Proof.
  induction typ as [|fld typ IH]; intros i s names nF Hdom; simpl.
  - exact Hdom.
  - destruct (f_tag fld) as [v|]; [| apply IH, Hdom].
    destruct (if HasPrefix v NameAtoms then _ else _) as [s' v'].
    destruct (IsName v'); [| apply IH, Hdom].
    apply IH. intros n Hn. apply in_or_app.
    apply lookup_insert_is_Some' in Hn as [<-|Hn]; [right; left; reflexivity |].
    left. apply Hdom, Hn.
Qed.

(** A requested Name is the Name on the tag of its field; its Key is in
    the registry. *)
Lemma requested_fields typ n f :
  (requested typ).2 !! n = Some f ->
  In n (requested typ).1.2
  /\ exists fld v, typ !! f = Some fld /\ f_tag fld = Some v /\ tag_name v = n.
Proof.
  intros H. split.
  - apply (createNames_loop_dom typ 0 AtomStyleFull [] ∅); [| eauto].
    intros m [x Hx]. rewrite lookup_empty in Hx. discriminate.
  - apply createNames_loop_fields in H as [H|(_ & fld & v & H)].
    + rewrite lookup_empty in H. discriminate.
    + rewrite Nat.sub_0_r in H. eauto.
Qed.

Lemma requested_inj typ n m f :
  (requested typ).2 !! n = Some f -> (requested typ).2 !! m = Some f -> n = m.
Proof.
  intros Hn Hm.
  apply requested_fields in Hn as (_ & fld & v & H1 & H2 & H3).
  apply requested_fields in Hm as (_ & fld' & v' & H1' & H2' & H3').
  congruence.
Qed.

Lemma assign_fields_ok (st : Store) nF typ : forall order val,
  (forall n f, n ∈ order -> nF !! n = Some f ->
     exists k fld, st !! n = Some k /\ typ !! f = Some fld
                   /\ f_type fld = TypeOf (Key_Get k)) ->
  exists val', assign_fields st nF typ order val = (val', Ok tt)
    /\ length val' = length val
    /\ (forall j, (forall n, n ∈ order -> nF !! n <> Some j) -> val' !! j = val !! j)
    /\ (forall n f k, nF !! n = Some f -> st !! n = Some k ->
          (forall m, m ∈ order -> nF !! m = Some f -> m = n) ->
          (f < length val)%nat ->
          n ∈ order \/ val !! f = Some (Key_Get k) ->
          val' !! f = Some (Key_Get k)).
Proof.
  induction order as [|m order IH]; intros val Hok; simpl.
  - exists val. split; [reflexivity |]. split; [reflexivity |]. split; [auto |].
    intros n f k _ _ _ _ [H|H]; [inversion H | exact H].
  - assert (Hok' : forall n f, n ∈ order -> nF !! n = Some f ->
              exists k fld, st !! n = Some k /\ typ !! f = Some fld
                            /\ f_type fld = TypeOf (Key_Get k)).
    { intros n f Hin. apply Hok. right. exact Hin. }
    destruct (nF !! m) as [g|] eqn:Em.
    + destruct (Hok m g (list_elem_of_here _ _) Em) as (km & fld & Hkm & Hfld & Hty).
      rewrite Hkm, Hfld, Hty.
      unfold AssignableTo. rewrite bool_decide_eq_true_2 by reflexivity. simpl.
      destruct (IH (<[g := Key_Get km]> val) Hok') as (val' & HA & Hlen & Hkeep & Hset).
      exists val'. split; [exact HA |]. rewrite length_insert in Hlen.
      split; [exact Hlen |]. split.
      * intros j Hj. rewrite Hkeep by (intros n Hn; apply Hj; right; exact Hn).
        apply list_lookup_insert_ne. intros ->.
        exact (Hj m (list_elem_of_here _ _) Em).
      * intros n f k Hn Hk Hinj Hf Hcase.
        apply (Hset n f k); try assumption.
        -- intros m' Hm'. apply Hinj. right. exact Hm'.
        -- rewrite length_insert. exact Hf.
        -- destruct (decide (g = f)) as [->|Hne].
           ++ right. assert (m = n) by (apply Hinj; [left | exact Em]). subst m.
              rewrite Hkm in Hk. injection Hk as <-.
              apply list_lookup_insert_eq. exact Hf.
           ++ rewrite list_lookup_insert_ne by exact Hne.
              destruct Hcase as [Hin|Hv]; [| auto].
              apply elem_of_cons in Hin as [->|Hin]; [congruence | auto].
    + destruct (IH val Hok') as (val' & HA & Hlen & Hkeep & Hset).
      exists val'. split; [exact HA |]. split; [exact Hlen |]. split.
      * intros j Hj. apply Hkeep. intros n Hn. apply Hj. right. exact Hn.
      * intros n f k Hn Hk Hinj Hf Hcase. apply (Hset n f k); try assumption.
        -- intros m' Hm'. apply Hinj. right. exact Hm'.
        -- destruct Hcase as [Hin|Hv]; [| auto].
           apply elem_of_cons in Hin as [->|Hin]; [congruence | auto].
Qed.

(** ** The first loop of Encode *)

Lemma setInt_is_Some (st : Store) p c n :
  is_Some (setInt st p c !! n) <-> is_Some (st !! n).
Proof.
  unfold setInt. destruct (deref st p) as [h|] eqn:E; [| tauto].
  apply deref_Some in E. rewrite lookup_insert_is_Some'. split; [| auto].
  intros [<-|H]; [rewrite E; eauto | exact H].
Qed.

Lemma Key_SetKeysVal_is_Some (st : Store) k n :
  is_Some ((Key_SetKeysVal st k).1 !! n) <-> is_Some (st !! n).
Proof.
  rewrite Key_SetKeysVal_eq. destruct (counter_ptr k); simpl; [| tauto].
  apply setInt_is_Some.
Qed.

Lemma set_fields_dom nF val order : forall (st st' : Store) res,
  set_fields st nF val order = (st', res) ->
  forall n, is_Some (st' !! n) <-> is_Some (st !! n).
Proof.
  induction order as [|m order IH]; intros st st' res; simpl.
  - intros [= <- _]. tauto.
  - destruct (nF !! m) as [f|]; [| apply IH].
    destruct (val !! f) as [field|]; [| intros [= <- _]; tauto].
    destruct (st !! m) as [k|] eqn:Em; [| intros [= <- _]; tauto].
    assert (Hins : forall k' n, is_Some (<[m := k']> st !! n) <-> is_Some (st !! n)).
    { intros k' n. rewrite lookup_insert_is_Some'. split; [| auto].
      intros [<-|H]; [rewrite Em; eauto | exact H]. }
    destruct (Key_Set k field) as [k' [e|]]; [intros [= <- _]; apply Hins |].
    pose proof (Key_SetKeysVal_is_Some (<[m := k']> st) k') as HS.
    destruct (Key_SetKeysVal _ k') as [st1 [e|]]; simpl in HS.
    + destruct (is_unsupported e).
      * intros H n. rewrite (IH _ _ _ H), HS. apply Hins.
      * intros [= <- _] n. rewrite HS. apply Hins.
    + intros H n. rewrite (IH _ _ _ H), HS. apply Hins.
Qed.




Lemma setInt_lookup_other s (st : Store) p c n :
  wired s st -> name_in n (nbr ++ types) = false ->
  setInt st p c !! n = st !! n.
Proof.
  intros Hw Hn. unfold setInt. destruct (deref st p) as [h|] eqn:E; [| reflexivity].
  apply deref_Some in E. apply lookup_insert_ne. intros ->.
  destruct (wired_header _ _ _ _ Hw E) as (H & _). congruence.
Qed.

(** A field that is not a Counter is in its Key as the struct holds it,
    whatever the order of the loop. *)
Lemma set_fields_value s nF val order n f : forall (st st' : Store),
  wired s st -> set_fields st nF val order = (st', Ok tt) ->
  nF !! n = Some f -> name_in n (nbr ++ types) = false ->
  n ∈ order \/ (exists k, st !! n = Some k /\ val !! f = Some (Key_Get k)) ->
  exists k, st' !! n = Some k /\ val !! f = Some (Key_Get k).
Proof.
  induction order as [|m order IH]; intros st st' Hw HS Hf Hn Hcase.
  - simpl in HS. injection HS as <-.
    destruct Hcase as [H|H]; [inversion H | exact H].
  - simpl in HS. destruct (nF !! m) as [g|] eqn:Em.
    + destruct (val !! g) as [field|] eqn:Ev; [| discriminate].
      destruct (st !! m) as [k|] eqn:Ek; [| discriminate].
      pose proof (Key_Set_Get k field) as HG.
      pose proof (wiring_Key_Set k field) as Hwk.
      destruct (Key_Set k field) as [k' [e|]]; [discriminate |]. simpl in HG, Hwk.
      specialize (HG eq_refl).
      pose proof (wired_insert s st m k k' Hw Ek Hwk) as Hw1.
      pose proof (wired_SetKeysVal s _ k' Hw1) as Hw2.
      assert (Hkeep : (Key_SetKeysVal (<[m := k']> st) k').1 !! n
                      = <[m := k']> st !! n).
      { rewrite Key_SetKeysVal_eq. destruct (counter_ptr k'); [| reflexivity].
        simpl. eapply setInt_lookup_other; eauto. }
      assert (Hnext : n ∈ order
                \/ exists k1, (Key_SetKeysVal (<[m := k']> st) k').1 !! n = Some k1
                              /\ val !! f = Some (Key_Get k1)).
      { rewrite Hkeep. destruct (decide (m = n)) as [->|Hne].
        - right. exists k'. rewrite lookup_insert_eq. split; [reflexivity |].
          rewrite Em in Hf. injection Hf as <-. rewrite HG. exact Ev.
        - rewrite lookup_insert_ne by exact Hne.
          destruct Hcase as [Hin|H]; [| auto].
          apply elem_of_cons in Hin as [->|Hin]; [congruence | auto]. }
      destruct (Key_SetKeysVal _ k') as [st1 [e|]]; simpl in *.
      * destruct (is_unsupported e); [| discriminate]. eapply IH; eauto.
      * eapply IH; eauto.
    + eapply IH; eauto. destruct Hcase as [Hin|H]; [| auto].
      apply elem_of_cons in Hin as [->|Hin]; [congruence | auto].
Qed.

(** ** Validation of what was read *)



(** ** Decode after Encode *)

(** The values of a registry that the file format carries faithfully. *)
Definition encodable (rt : Runtime) (keys : Store) : Prop :=
  forall n k, keys !! n = Some k -> key_ok rt k.

Lemma ev_lines_clean rt s (keys : Store) evs :
  wired s keys -> encodable rt keys ->
  (forall n, In n (ev_names evs) -> n <> NameTitle) ->
  Forall (fun l => clean l = true) (flat_map (ev_lines rt keys) evs).
Proof.
  intros Hw Hok. induction evs as [|[|n] evs IH]; intros Hnt.
  - constructor.
  - simpl. constructor; [reflexivity | apply IH, Hnt].
  - simpl. apply Forall_app. split.
    + unfold name_lines. destruct (keys !! n) as [k|] eqn:Hn; [| constructor].
      eapply key_lines_clean; eauto. apply Hnt. left. reflexivity.
    + apply IH. intros m Hm. apply Hnt. right. exact Hm.
Qed.

Lemma doc_names_not_title n : In n (nbr ++ types ++ box ++ tables) -> n <> NameTitle.
Proof.
  intros Hin ->. simpl in Hin.
  repeat (destruct Hin as [Hin|Hin]; [discriminate |]). destruct Hin.
Qed.

Lemma doc_lines_ok rt s (keys : Store) :
  wired s keys -> encodable rt keys ->
  Forall (fun l => title_ok l = true)
         (title_of keys :: flat_map (ev_lines rt keys) (doc_events keys)).
Proof.
  intros Hw Hok. constructor.
  - unfold title_of. destruct (keys !! NameTitle) as [[t| | | | | |]|] eqn:E;
      try reflexivity. exact (Hok _ _ E).
  - eapply Forall_impl.
    + eapply ev_lines_clean; eauto. intros n Hn. rewrite ev_names_doc in Hn.
      apply doc_names_not_title, Hn.
    + intros l. apply clean_title_ok.
Qed.

Lemma fresh_rows s n k : fresh_key s n = Some k -> rows k = 0.
Proof.
  unfold fresh_key.
  destruct (name_in n (nbr ++ types)); [intros [= <-]; reflexivity |].
  destruct (name_in n box); [intros [= <-]; reflexivity |].
  destruct (String.eqb n NameTitle); [intros [= <-]; reflexivity |].
  destruct (String.eqb n NameMasses); [intros [= <-]; reflexivity |].
  destruct (String.eqb n NameAtoms); [intros [= <-]; reflexivity |].
  destruct (coeffs_types n); [intros [= <-]; reflexivity |].
  destruct (links_wiring n) as [[[? ?] ?]|]; [intros [= <-]; reflexivity |].
  discriminate.
Qed.

Lemma headBody_head (st : Store) n :
  n ∈ (headBody st).1 <-> exists k, st !! n = Some k /\ IsHeader k = true.
Proof.
  unfold headBody. simpl. rewrite elem_of_dom. split.
  - intros [k Hk]. apply map_lookup_filter_Some in Hk. eauto.
  - intros (k & Hk & Hh). exists k. apply map_lookup_filter_Some. auto.
Qed.

Lemma headBody_body (st : Store) n :
  n ∈ (headBody st).2 <-> exists k, st !! n = Some k /\ IsHeader k = false.
Proof.
  unfold headBody. simpl. rewrite elem_of_dom. split.
  - intros [k Hk]. apply map_lookup_filter_Some in Hk. eauto.
  - intros (k & Hk & Hh). exists k. apply map_lookup_filter_Some. auto.
Qed.


(** The registry of Decode once the title is read, for a file written
    from [keys]: where the loop over the lines starts. *)
Lemma Decode_init rt s (keys st0 : Store) :
  fair rt -> registry s st0 -> wired s keys ->
  (forall n, is_Some (keys !! n) <-> is_Some (st0 !! n)) ->
  check_all rt keys = Ok tt ->
  let init := match st0 !! NameTitle with
              | Some k => <[NameTitle := (Key_Set k (VString (title_of keys))).1]> st0
              | None => st0
              end in
  wired s init
  /\ (forall n, is_Some (keys !! n) <-> is_Some (init !! n))
  /\ (forall n k, init !! n = Some k -> rows k = 0)
  /\ init !! NameTitle = keys !! NameTitle
  /\ (forall n k, keys !! n = Some k -> counter_agrees keys k)
  /\ inv keys init init (headBody st0).1 (headBody st0).2 [].
Proof.
  intros Hfair Hreg Hwk Hdom HC init.
  pose proof (registry_wired _ _ Hreg) as Hw0.
  assert (Htitle0 : forall k, st0 !! NameTitle = Some k -> k = KTitle (mkTitle "")).
  { intros k Hk. destruct Hreg as [Hf _]. apply Hf in Hk. vm_compute in Hk. congruence. }
  assert (Hinit : wired s init).
  { subst init. destruct (st0 !! NameTitle) as [k|] eqn:E; [| exact Hw0].
    eapply wired_insert; [exact Hw0 | exact E | apply wiring_Key_Set]. }
  assert (Hdomi : forall n, is_Some (keys !! n) <-> is_Some (init !! n)).
  { intros n. rewrite Hdom. subst init.
    destruct (st0 !! NameTitle) as [k|] eqn:E; [| tauto].
    rewrite lookup_insert_is_Some'. split; [auto |].
    intros [<-|H]; [rewrite E; eauto | exact H]. }
  assert (Hnew : forall n k, init !! n = Some k -> rows k = 0).
  { intros n k. subst init. destruct (st0 !! NameTitle) as [k0|] eqn:E.
    - intros H. apply lookup_insert_Some in H as [[<- <-]|[_ H]].
      + rewrite (Htitle0 k0 eq_refl). reflexivity.
      + destruct Hreg as [Hf _]. eapply fresh_rows, Hf, H.
    - intros H. destruct Hreg as [Hf _]. eapply fresh_rows, Hf, H. }
  assert (HT : init !! NameTitle = keys !! NameTitle).
  { subst init. unfold title_of.
    destruct (st0 !! NameTitle) as [k0|] eqn:E.
    - rewrite lookup_insert_eq, (Htitle0 k0 eq_refl).
      destruct (proj2 (Hdom NameTitle) (ex_intro _ k0 E)) as [k Hk].
      rewrite Hk. destruct (Title_key s keys Hwk k Hk) as [[t] ->]. reflexivity.
    - rewrite E. destruct (keys !! NameTitle) as [k|] eqn:Ek; [| reflexivity].
      assert (H : is_Some (st0 !! NameTitle)) by (apply Hdom; eauto).
      rewrite E in H. destruct H; discriminate. }
  assert (Hcnt : forall n k, keys !! n = Some k -> counter_agrees keys k).
  { intros n k Hn. eapply Key_Check_counter.
    exact (check_all_ok rt keys (proj1 Hfair SiteCheck) HC n k Hn). }
  assert (Hkind : forall n k k0, keys !! n = Some k -> st0 !! n = Some k0 ->
                                 IsHeader k0 = IsHeader k).
  { intros n k k0 Hk Hk0. apply IsHeader_wiring.
    exact (wired_same s st0 keys n k0 k Hw0 Hwk Hk0 Hk). }
  repeat (split; [assumption |]).
  split; [apply sim_refl |]. split; [| split].
  - intros n Hn. apply headBody_head in Hn as (k0 & Hk0 & Hh).
    destruct (proj2 (Hdom n) (ex_intro _ k0 Hk0)) as [k Hk].
    exists k. split; [exact Hk |]. rewrite <- (Hkind n k k0 Hk Hk0). exact Hh.
  - intros n Hn. apply headBody_body in Hn as (k0 & Hk0 & Hh).
    destruct (proj2 (Hdom n) (ex_intro _ k0 Hk0)) as [k Hk].
    exists k. split; [exact Hk |]. rewrite <- (Hkind n k k0 Hk Hk0). exact Hh.
  - intros n k Hk _.
    destruct (proj1 (Hdom n) (ex_intro _ k Hk)) as [k0 Hk0].
    pose proof (Hkind n k k0 Hk Hk0) as Hh.
    destruct (IsHeader k) eqn:E.
    + apply headBody_head. eauto.
    + apply headBody_body. eauto.
Qed.




Definition typ_file_ex : list StructField :=
  [mkField (Some "Title") TString;
   mkField (Some "atoms") TInt;
   mkField (Some "atom types") TInt;
   mkField (Some "bond types") TInt;
   mkField (Some "xlo xhi") TFloat2;
   mkField None (TOther 0);
   mkField (Some "Masses") TMasses;
   mkField (Some "Pair Coeffs") TCoeffs;
   mkField (Some "Bonds") TLinks].

Definition val_file_ex : list GoValue :=
  [VString "water box";
   VInt 2;
   VInt 1;
   VInt 1;
   VFloat2 0%float 2.5%float;
   VOther 0;
   VMasses (Some {[1 := 1%float]});
   VCoeffs (Some {[1 := [0.5%float; 2.5%float]]});
   VLinks (Some {[1 := Some (mkLink 1 [1; 2])]})].



Definition text_file_ex : string := (Encode rt_fwd typ_file_ex val_file_ex "").1.

(** A Forall over the entries of a map given in full. *)
Ltac each_entry :=
  repeat (apply List.Forall_cons; [unfold uncurry; cbv beta iota |]);
  [.. | apply List.Forall_nil].

Ltac map_entries :=
  apply map_Forall_to_list;
  match goal with |- Forall _ ?l =>
    let v := eval vm_compute in l in change l with v
  end;
  each_entry.

Ltac int_range := split; apply Z.leb_le; vm_compute; reflexivity.

Ltac float_range := split; [vm_compute; reflexivity | split; reflexivity].




Definition typ_title_ex : list StructField := [mkField (Some "Title") TString].

Definition val_title_ex : list GoValue := [VString ("a" +:+ nl +:+ "b")].

Definition typ_coeffs_ex : list StructField :=
  [mkField (Some "atom types") TInt; mkField (Some "Pair Coeffs") TCoeffs].

Definition val_coeffs_ex : list GoValue := [VInt 1; VCoeffs (Some {[1 := []]})].

(** The conditions on the title and on the records of Coeffs are needed:
    a title with a line feed passes validation and is written, but Decode
    reads back its first line only; a record of Pair Coeffs without
    coefficients passes validation and is written as a line that Decode
    refuses. *)
Lemma Decode_Encode_not_inverse :
  (Encode rt_fwd typ_title_ex val_title_ex "").2 = Ok tt
  /\ Decode rt_fwd typ_title_ex
            (ScanBytes (Encode rt_fwd typ_title_ex val_title_ex "").1) [VString ""]
     = ([VString "a"], Ok tt)
  /\ [VString "a"] <> val_title_ex
  /\ (Encode rt_fwd typ_coeffs_ex val_coeffs_ex "").2 = Ok tt
  /\ Decode rt_fwd typ_coeffs_ex
            (ScanBytes (Encode rt_fwd typ_coeffs_ex val_coeffs_ex "").1)
            [VInt 0; VCoeffs None]
     = ([VInt 0; VCoeffs None],
        Err (Wrap "k.Decode for Key = Pair Coeffs" (ErrNotEnoughFields 1 2))).
Proof.
  split; [vm_compute; reflexivity |].
  split; [vm_compute; reflexivity |].
  split; [discriminate |].
  split; vm_compute; reflexivity.
Qed.

(** ** Decode after Encode: a struct with atoms *)

(** The tables that Encode writes before and after the atoms. *)
Definition tables_before_atoms : list Name :=
  [NameMasses; NamePairCoeffs; NameBondCoeffs; NameAngleCoeffs; NameDihedralCoeffs].

Definition tables_after_atoms : list Name := [NameBonds; NameAngles; NameDihedrals].

(** The file up to the table of atoms. *)
Definition doc_before_atoms (keys : Store) : list event :=
  EvBlank :: doc_group keys nbr ++ doc_group keys types ++ doc_group keys box
          ++ doc_tables keys tables_before_atoms.

Lemma doc_events_atoms keys :
  doc_events keys
  = (doc_before_atoms keys
     ++ EvKey NameAtoms
        :: ((if present keys NameAtoms then [EvBlank] else [])
            ++ doc_tables keys tables_after_atoms))%list.
Proof.
  unfold doc_events, doc_before_atoms.
  change tables with (tables_before_atoms ++ NameAtoms :: tables_after_atoms)%list.
  unfold doc_tables. rewrite flat_map_app. cbn [flat_map].
  change ((EvBlank :: ?x) ++ ?y)%list with (EvBlank :: (x ++ y))%list.
  rewrite <- !app_assoc. reflexivity.
Qed.

(** The loop of Decode over a file written from a registry with an atom:
    it panics on the first row of the table of atoms. *)
Lemma Decode_registry_atoms rt s (keys st0 : Store) a :
  fair rt -> registry s st0 -> wired s keys ->
  (forall n, is_Some (keys !! n) <-> is_Some (st0 !! n)) ->
  encodable rt keys ->
  check_all rt keys = Ok tt ->
  keys !! NameAtoms = Some (KAtoms a) -> entries (a_v a) <> ∅ ->
  let init := match st0 !! NameTitle with
              | Some k => <[NameTitle := (Key_Set k (VString (title_of keys))).1]> st0
              | None => st0
              end in
  let lines := flat_map (ev_lines rt keys) (doc_events keys) in
  exists st' r',
    Decode_lines rt (S (length lines)) 0 init (headBody st0).1 (headBody st0).2 true
                 (mkScanner lines None false (title_of keys))
    = Some (st', r', Panic).
Proof.
  intros Hfair Hreg Hwk Hdom Hok HC Hn Hne init lines.
  destruct (Decode_init rt s keys st0 Hfair Hreg Hwk Hdom HC)
    as (Hinit & Hdomi & Hnew & HT & Hcnt & Hinv).
  fold init in Hinit, Hdomi, Hnew, HT, Hinv.
  assert (Hl : exists line more, key_lines rt (KAtoms a) = line :: more).
  { cbn [key_lines]. unfold table_lines.
    destruct (Nat.eqb_spec (size (entries (a_v a))) 0) as [Hz|_]; [| eauto].
    apply map_size_empty_iff in Hz. contradiction. }
  destruct Hl as (line & more & Hl).
  set (post := flat_map (ev_lines rt keys)
                 ((if present keys NameAtoms then [EvBlank] else [])
                  ++ doc_tables keys tables_after_atoms)).
  assert (Hlines : lines
                   = (flat_map (ev_lines rt keys) (doc_before_atoms keys)
                      ++ line :: more ++ post)%list).
  { subst lines post. rewrite doc_events_atoms, flat_map_app. f_equal.
    cbn [flat_map ev_lines]. unfold name_lines at 1. rewrite Hn, Hl. reflexivity. }
  assert (Hnames : ev_names (doc_before_atoms keys)
                   = (nbr ++ types ++ box ++ tables_before_atoms)%list).
  { unfold doc_before_atoms. cbn [ev_names].
    rewrite !ev_names_app, !ev_names_group, ev_names_tables. reflexivity. }
  remember (S (length lines)) as fuel eqn:Ef.
  destruct (run_to rt s keys init Hfair Hwk Hinit Hdomi Hok Hcnt Hnew
              (doc_before_atoms keys) (line :: more ++ post) [] true init
              (headBody st0).1 (headBody st0).2 0%nat fuel
              (title_of keys) Hinv)
    as (st1 & kH1 & kB1 & inH1 & i1 & fuel1 & tok1 & E & Hf & Hinv1).
  - rewrite Hnames.
    apply (valid_app_l rt keys _ (NameAtoms :: tables_after_atoms)).
    rewrite <- !app_assoc. exact (valid_doc rt s keys Hwk).
  - rewrite Hnames. intros Hin. exfalso. revert Hin.
    apply (bool_decide_unpack _). vm_compute. exact I.
  - rewrite <- Hlines. lia.
  - change (mkScanner lines None false (title_of keys)) with (sc lines (title_of keys)).
    rewrite Hlines, E. destruct fuel1 as [|fuel1]; [simpl in Hf; lia |].
    rewrite Hnames in Hinv1.
    apply (step_atoms rt s keys init Hfair Hwk Hinit Hdomi Hok Hcnt fuel1 i1 st1 kH1 kB1
             inH1 _ a line more post tok1 Hinv1 Hn); [| exact Hl |].
    + apply (bool_decide_unpack _). vm_compute. exact I.
    + intros d Hd. vm_compute in Hd.
      repeat (destruct Hd as [<-|Hd];
              [apply (bool_decide_unpack _); vm_compute; exact I |]).
      destruct Hd.
Qed.

(** C1 (the code): a struct with at least one atom that Encode writes
    without error is not read back.  Whatever else the struct holds, when
    its values are ones the file format carries and every line fits the
    scanner's buffer, Decode of the written text reaches the first row of
    the table of atoms and panics there, the atom style storing through the
    nil record it never allocates; the destination is left as it was. *)
Theorem Decode_Encode_atoms rt typ val val0 keys text a :
  fair rt ->
  Encode_keys rt typ val = Ok keys ->
  Encode rt typ val "" = (text, Ok tt) ->
  encodable rt keys ->
  short_lines text ->
  keys !! NameAtoms = Some (KAtoms a) -> entries (a_v a) <> ∅ ->
  Decode rt typ (ScanBytes text) val0 = (val0, Panic).
Proof.
  intros Hfair HEk HE Hok Hshort Hn Hne.
  destruct (createNames_registry typ) as (st0 & Hst & HnF & Hreg & Hreq).
  unfold Encode in HE. rewrite HEk in HE.
  unfold Encode_keys in HEk. unfold Decode.
  destruct (createNames typ) as [nF o] eqn:EC. simpl in Hst, HnF. subst o.
  destruct (set_fields st0 nF val (rangeNames rt SiteFields (elements (dom nF))))
    as [keys' [[]|e|]] eqn:ES; try discriminate.
  injection HEk as ->.
  pose proof (registry_wired _ _ Hreg) as Hw0.
  pose proof (set_fields_wired _ _ _ _ _ _ Hw0 ES) as Hwk.
  pose proof (set_fields_dom _ _ _ _ _ _ ES) as Hdom.
  destruct (check_all rt keys) as [[]|e|] eqn:HC; try discriminate.
  pose proof (write_all_nonnil rt _ keys "" text Hwk HE) as Hnn.
  assert (Htext : text = unlines (title_of keys
                                  :: flat_map (ev_lines rt keys) (doc_events keys))).
  { rewrite (write_all_text rt _ keys Hwk Hok Hnn), app_Empty in HE. congruence. }
  clear HE. subst text.
  rewrite (ScanBytes_unlines _ (doc_lines_ok rt _ keys Hwk Hok) Hshort).
  unfold NewScanner, Scan. cbn [pending final token negb].
  destruct (headBody st0) as [kH kB] eqn:EHB.
  destruct (Decode_registry_atoms rt _ keys st0 a Hfair Hreg Hwk Hdom Hok HC Hn Hne)
    as (st' & r' & HD).
  rewrite EHB in HD. cbn [fst snd] in HD.
  assert (Htitle : match st0 !! NameTitle with
                   | Some k =>
                     let '(k, e) := Key_Set k (VString (title_of keys)) in
                     (<[NameTitle := k]> st0, e)
                   | None => (st0, None)
                   end
                   = (match st0 !! NameTitle with
                      | Some k => <[NameTitle := (Key_Set k (VString (title_of keys))).1]> st0
                      | None => st0
                      end, None)).
  { destruct (st0 !! NameTitle) as [k|] eqn:E; [| reflexivity].
    destruct Hreg as [Hf _]. apply Hf in E. vm_compute in E.
    injection E as <-. reflexivity. }
  rewrite Htitle, HD. reflexivity.
Qed.

(** A struct with a title, one atom type with its mass, and one atom: the
    first row of atoms is [1 1 1 0 0.5 0.5 0.5]. *)
Definition typ_atom_file_ex : list StructField :=
  [mkField (Some "Title") TString;
   mkField (Some "atoms") TInt;
   mkField (Some "atom types") TInt;
   mkField (Some "Masses") TMasses;
   mkField (Some "Atoms, full") TAtoms].

Definition val_atom_file_ex : list GoValue :=
  [VString "one atom";
   VInt 1;
   VInt 1;
   VMasses (Some {[1 := 1%float]});
   VAtoms (Some {[1 := Some atom_ex]})].

Definition val_atom_blank_ex : list GoValue :=
  [VString ""; VInt 0; VInt 0; VMasses None; VAtoms None].

Definition keys_atom_file_ex : Store :=
  keys_of (Encode_keys rt_fwd typ_atom_file_ex val_atom_file_ex).

Definition text_atom_file_ex : string :=
  (Encode rt_fwd typ_atom_file_ex val_atom_file_ex "").1.

Example text_atom_file_lines :
  split_lines text_atom_file_ex ""
  = ["one atom"; ""; "1 atoms"; ""; "1 atom types"; ""; "Masses"; ""; "1 1"; "";
     "Atoms"; ""; "1 1 1 0 0.5 0.5 0.5"; ""].
Proof. vm_compute. reflexivity. Qed.

Lemma encodable_atom_file_ex : encodable rt_fwd keys_atom_file_ex.
Proof.
  unfold encodable.
  change (map_Forall (fun _ k => key_ok rt_fwd k) keys_atom_file_ex).
  map_entries; cbn [key_ok h_v b_vlo b_vhi t_v m_v a_v entries].
  - map_entries. split; [int_range | float_range].
  - int_range.
  - int_range.
  - map_entries. split; [int_range |].
    unfold atom_ok. exists atom_ex. split; [reflexivity |].
    repeat split; reflexivity.
  - reflexivity.
Defined.

Lemma short_lines_atom_file_ex : short_lines text_atom_file_ex.
Proof.
  unfold short_lines.
  match goal with |- Forall _ ?l =>
    let v := eval vm_compute in l in change l with v
  end.
  each_entry; vm_compute; reflexivity.
Defined.

(** The theorem at the struct with one atom: Encode writes it, and Decode
    of the text into a blank struct panics. *)
Lemma Decode_Encode_atoms_witness :
  Encode rt_fwd typ_atom_file_ex val_atom_file_ex "" = (text_atom_file_ex, Ok tt)
  /\ Decode rt_fwd typ_atom_file_ex (ScanBytes text_atom_file_ex) val_atom_blank_ex
     = (val_atom_blank_ex, Panic).
Proof.
  assert (H1 : Encode_keys rt_fwd typ_atom_file_ex val_atom_file_ex
               = Ok keys_atom_file_ex) by (vm_compute; reflexivity).
  assert (H2 : Encode rt_fwd typ_atom_file_ex val_atom_file_ex ""
               = (text_atom_file_ex, Ok tt)) by (vm_compute; reflexivity).
  assert (H3 : keys_atom_file_ex !! NameAtoms
               = Some (KAtoms (mkAtoms AtomStyleFull (Some NameAtomsNbr)
                                       (Some NameAtomTypes)
                                       (Some {[1 := Some atom_ex]}))))
    by (vm_compute; reflexivity).
  assert (H4 : entries (Some ({[1 := Some atom_ex]} : gmap Z (option Atom))) <> ∅)
    by (intros H; apply (f_equal size) in H; vm_compute in H; discriminate).
  split; [exact H2 |].
  exact (Decode_Encode_atoms rt_fwd typ_atom_file_ex val_atom_file_ex
           val_atom_blank_ex keys_atom_file_ex text_atom_file_ex _ fair_fwd H1 H2
           encodable_atom_file_ex short_lines_atom_file_ex H3 H4).
Defined.

(** * Further properties of the code *)

(** ** [delComments] and [sortIntsMap] *)

Lemma sharp_split s :
  no_sharp s = true
  \/ exists a b, s = a +:+ "#" +:+ b /\ no_sharp a = true.
Proof.
  induction s as [|c s IH]; [left; reflexivity |].
  destruct (Ascii.eqb c "#") eqn:Ec.
  - right. apply Ascii.eqb_eq in Ec. subst c. exists "", s. split; reflexivity.
  - destruct IH as [IH|(a & b & -> & Ha)].
    + left. simpl. rewrite Ec, IH. reflexivity.
    + right. exists (String c a), b. split; [reflexivity |].
      simpl. rewrite Ec, Ha. reflexivity.
Qed.

(** X1: [delComments] returns the part of its argument before the first '#':
    a prefix without '#', the argument itself when it holds none; a second
    call changes nothing. *)
Theorem delComments_prefix s :
  no_sharp (delComments s) = true
  /\ HasPrefix s (delComments s) = true
  /\ delComments (delComments s) = delComments s
  /\ (delComments s = s <-> no_sharp s = true).
Proof.
  assert (H1 : no_sharp (delComments s) = true
               /\ HasPrefix s (delComments s) = true).
  { destruct (sharp_split s) as [Hs|(a & b & -> & Ha)].
    - rewrite delComments_no_sharp by exact Hs. split; [exact Hs |].
      apply prefix_app. exists "". symmetry. apply app_Empty_r.
    - rewrite delComments_sharp by (apply no_sharp_IndexByte, Ha).
      split; [exact Ha |]. apply prefix_app. eauto. }
  destruct H1 as [Hn Hp]. split; [exact Hn |]. split; [exact Hp |]. split.
  - apply delComments_no_sharp, Hn.
  - split; [intros <-; exact Hn | apply delComments_no_sharp].
Qed.

(** X2: [sortIntsMap] returns every key of the map once, in increasing
    order. *)
Theorem sortIntsMap_increasing {V} (m : gmap Z V) :
  StronglySorted Z.lt (sortIntsMap m)
  /\ forall k, k ∈ sortIntsMap m <-> is_Some (m !! k).
Proof.
  split; [| apply elem_of_sortIntsMap].
  assert (Hs : StronglySorted Z.le (sortIntsMap m)).
  { unfold sortIntsMap. apply StronglySorted_merge_sort; apply _. }
  assert (Hnd : NoDup (sortIntsMap m)).
  { unfold sortIntsMap. rewrite merge_sort_Permutation.
    apply NoDup_fst_map_to_list. }
  induction Hs as [|x l Hl IH Hx]; [constructor |].
  apply NoDup_cons in Hnd as [Hx' Hnd]. constructor; [apply IH, Hnd |].
  rewrite Forall_forall in Hx |- *. intros y Hy.
  specialize (Hx y Hy). assert (x <> y) by (intros ->; contradiction). lia.
Qed.

(** ** Header lines: what Keyword accepts *)

(** A header line after its number: each word of a Name but the last,
    with the text that follows it up to the next space; then the last
    word, with anything after it. *)
Fixpoint lax_words (ws : list (string * string)) (last tail : string) : string :=
  match ws with
  | [] => last +:+ tail
  | (w, j) :: ws' => w +:+ j +:+ " " +:+ lax_words ws' last tail
  end.

Definition word_ok (wj : string * string) : Prop :=
  plain wj.1 = true /\ wj.1 <> "" /\ plain wj.2 = true.

Lemma HasPrefix_app p rest : HasPrefix (p +:+ rest) p = true.
Proof. apply prefix_app. eauto. Qed.

Lemma keywordHeader_rest_lax ws last tail : forall u,
  Forall word_ok ws -> plain last = true -> last <> "" -> plain u = true ->
  keywordHeader_rest (u +:+ " " +:+ lax_words ws last tail) (map fst ws ++ [last])
  = true.
Proof.
  induction ws as [|[w j] ws IH]; intros u Hws Hl Hne Hu.
  - cbn [map app keywordHeader_rest lax_words].
    rewrite IndexFunc_plain_space by exact Hu.
    destruct (Z.eqb_spec (Z.of_nat (String.length u)) (-1)); [lia |].
    rewrite Nat2Z.id, str_drop_app, TrimLeft_space, TrimLeft_plain by assumption.
    rewrite HasPrefix_app. reflexivity.
  - apply Forall_cons in Hws as [(Hw & Hwne & Hj) Hws]. simpl in Hw, Hwne, Hj.
    cbn [map app keywordHeader_rest lax_words fst].
    rewrite IndexFunc_plain_space by exact Hu.
    destruct (Z.eqb_spec (Z.of_nat (String.length u)) (-1)); [lia |].
    rewrite Nat2Z.id, str_drop_app, TrimLeft_space, TrimLeft_plain by assumption.
    rewrite HasPrefix_app. rewrite <- app_assoc_s.
    apply IH; try assumption. rewrite plain_app, Hw, Hj. reflexivity.
Qed.

(** X3: Header.Keyword compares word by word and by prefix: after the
    number, a line matches a Counter as soon as its fields begin with the
    words of the Name, whatever follows each word. *)
Theorem Header_Keyword_word_prefixes h t ws last tail :
  token_ok t = true ->
  Forall word_ok ws -> plain last = true -> last <> "" ->
  h_nameSep h = (map fst ws ++ [last])%list ->
  Header_Keyword h (t +:+ " " +:+ lax_words ws last tail)
  = (true, mkHeader (h_name h) (h_nameSep h) t (h_v h)).
Proof.
  intros Ht Hws Hl Hne Hsep. apply token_ok_spec in Ht as (Htne & Hp & _).
  unfold Header_Keyword.
  rewrite TrimLeft_plain, IndexFunc_plain_space by assumption.
  destruct (Z.eqb_spec (Z.of_nat (String.length t)) (-1)); [lia |].
  rewrite Nat2Z.id, str_drop_app, str_take_app, Hsep. f_equal.
  unfold keywordHeader. rewrite TrimLeft_space.
  destruct Hws as [|[w j] ws (Hw & Hwne & Hj) Hws];
    cbn [map app lax_words fst]; simpl in *.
  - rewrite TrimLeft_plain, HasPrefix_app by assumption. reflexivity.
  - rewrite TrimLeft_plain, HasPrefix_app by assumption.
    rewrite <- app_assoc_s. apply keywordHeader_rest_lax; try assumption.
    rewrite plain_app, Hw, Hj. reflexivity.
Qed.

(** "7 atomic typesetting 1" is taken as the line of "atom types". *)
Lemma Header_Keyword_word_prefixes_witness :
  Header_Keyword (NewHeader NameAtomTypes)
                 ("7" +:+ " " +:+ lax_words [("atom", "ic")] "types" "etting 1")
  = (true, mkHeader NameAtomTypes (h_nameSep (NewHeader NameAtomTypes)) "7" 0).
Proof.
  apply (Header_Keyword_word_prefixes (NewHeader NameAtomTypes) "7"
           [("atom", "ic")] "types" "etting 1").
  - reflexivity.
  - repeat constructor; discriminate.
  - reflexivity.
  - discriminate.
  - reflexivity.
Defined.

(** ** Rows: the fields that are read *)

(** X4: A Masses row is read from its first two fields; what follows them
    on the line, such as a comment set apart by a space, is ignored. *)
Theorem Masses_row_extra_fields rt t0 t1 extra :
  Forall (fun t => plain t = true /\ t <> "") (t0 :: t1 :: extra) ->
  Masses_row rt (join_sp (t0 :: t1 :: extra)) = Masses_row rt (join_sp [t0; t1]).
Proof.
  intros HF.
  assert (HF2 : Forall (fun t => plain t = true /\ t <> "") [t0; t1]).
  { apply Forall_cons in HF as [H0 HF]. apply Forall_cons in HF as [H1 _].
    constructor; [exact H0 |]. constructor; [exact H1 | constructor]. }
  unfold Masses_row. rewrite (Fields_join _ HF), (Fields_join _ HF2).
  cbn [length].
  destruct (Z.ltb_spec (Z.of_nat (S (S (length extra)))) 2); [lia |].
  reflexivity.
Qed.

Lemma Masses_row_extra_fields_witness :
  Masses_row rt_fwd (join_sp ["1"; "2.5"; "#"; "hydrogen"])
  = Masses_row rt_fwd (join_sp ["1"; "2.5"]).
Proof.
  apply (Masses_row_extra_fields rt_fwd "1" "2.5" ["#"; "hydrogen"]).
  repeat constructor; discriminate.
Defined.

(** X5: A row of Bonds, Angles or Dihedrals is read from its first [l.links]
    fields; the fields after them are ignored. *)
Theorem Links_row_extra_fields links fs extra :
  Forall (fun t => plain t = true /\ t <> "") (fs ++ extra) ->
  Z.of_nat (length fs) = links -> 2 <= links ->
  Links_row links (join_sp (fs ++ extra)) = Links_row links (join_sp fs).
Proof.
  intros HF Hlen H2. unfold Links_row.
  rewrite (Fields_join _ HF).
  rewrite Fields_join by (apply Forall_app in HF as [HF _]; exact HF).
  rewrite length_app.
  destruct (Z.ltb_spec (Z.of_nat (length fs + length extra)) links); [lia |].
  destruct (Z.ltb_spec (Z.of_nat (length fs)) links); [lia |].
  destruct fs as [|f0 [|f1 fs]]; [simpl in Hlen; lia .. |].
  cbn [app index lookup list_lookup mbind outcome_bind].
  destruct (Atoi f0) as [id [e|]]; [reflexivity |]. cbn [check_err].
  cbn [index lookup list_lookup mbind outcome_bind].
  destruct (Atoi f1) as [typ [e|]]; [reflexivity |]. cbn [check_err].
  destruct (links <? 2); [reflexivity |].
  cbn [drop].
  replace (Z.to_nat links - 2)%nat with (length fs) by (simpl in Hlen; lia).
  rewrite !drop_0, take_app_length, firstn_all. reflexivity.
Qed.

Lemma Links_row_extra_fields_witness :
  Links_row 4 (join_sp (["1"; "1"; "1"; "2"] ++ ["#"; "O-H"]))
  = Links_row 4 (join_sp ["1"; "1"; "1"; "2"]).
Proof.
  apply (Links_row_extra_fields 4 ["1"; "1"; "1"; "2"] ["#"; "O-H"]).
  - repeat constructor; discriminate.
  - reflexivity.
  - lia.
Defined.

(** ** A Key reads back what it writes *)

(** X6: The line that a Counter writes is recognised by a Counter of the
    same Name, which then decodes the integer that was written. *)
Theorem Header_round_trip h h0 w :
  name_in (h_name h) (nbr ++ types) = true -> int_ok (h_v h) ->
  h_name h0 = h_name h -> h_nameSep h0 = Fields (h_name h) ->
  exists line,
    Header_Encode h w = w +:+ line +:+ nl
    /\ (Header_Keyword h0 line).1 = true
    /\ (Header_Decode (Header_Keyword h0 line).2).2 = None
    /\ h_v (Header_Decode (Header_Keyword h0 line).2).1 = h_v h.
Proof.
  intros Hin Hv Hn Hsep. exists (FormatInt (h_v h) +:+ " " +:+ h_name h).
  split; [unfold Header_Encode, Fprint; rewrite !app_assoc_s; reflexivity |].
  rewrite Header_Keyword_counter_line;
    [| apply FormatInt_token | split; congruence | exact Hin].
  cbn [fst snd]. rewrite Hn, String.eqb_refl. split; [reflexivity |].
  unfold Header_Decode. cbn [h_vBytes]. rewrite Atoi_FormatInt by exact Hv.
  split; reflexivity.
Qed.

Lemma Header_round_trip_witness :
  exists line,
    Header_Encode (mkHeader NameAtomsNbr (Fields NameAtomsNbr) "" 12) "" = "" +:+ line +:+ nl
    /\ (Header_Keyword (NewHeader NameAtomsNbr) line).1 = true
    /\ (Header_Decode (Header_Keyword (NewHeader NameAtomsNbr) line).2).2 = None
    /\ h_v (Header_Decode (Header_Keyword (NewHeader NameAtomsNbr) line).2).1 = 12.
Proof.
  apply (Header_round_trip (mkHeader NameAtomsNbr (Fields NameAtomsNbr) "" 12)
           (NewHeader NameAtomsNbr) "").
  - reflexivity.
  - split; apply Z.leb_le; vm_compute; reflexivity.
  - reflexivity.
  - reflexivity.
Defined.

(** X7: The line that a Box bound writes is recognised by a Box of the same
    Name, which then decodes the two floats, provided the runtime prints
    each of them as a token it reads back. *)
Theorem Box_round_trip rt b b0 w :
  name_in (b_name b) box = true ->
  float_ok rt (b_vlo b) -> float_ok rt (b_vhi b) ->
  b_name b0 = b_name b -> b_nameSep b0 = Fields (b_name b) ->
  exists line,
    Box_Encode rt b w = w +:+ line +:+ nl
    /\ (Box_Keyword b0 line).1 = true
    /\ (Box_Decode rt (Box_Keyword b0 line).2).2 = None
    /\ b_vlo (Box_Decode rt (Box_Keyword b0 line).2).1 = b_vlo b
    /\ b_vhi (Box_Decode rt (Box_Keyword b0 line).2).1 = b_vhi b.
Proof.
  intros Hin (Hlo & Htlo & _) (Hhi & Hthi & _) Hn Hsep.
  exists (FormatG rt (b_vlo b) +:+ " " +:+ FormatG rt (b_vhi b) +:+ " " +:+ b_name b).
  split; [unfold Box_Encode, Fprint; rewrite !app_assoc_s; reflexivity |].
  rewrite Box_Keyword_box_line;
    [| assumption | assumption | split; congruence | exact Hin].
  cbn [fst snd]. rewrite Hn, String.eqb_refl. split; [reflexivity |].
  unfold Box_Decode. cbn [b_vBytes0 b_vBytes1 b_name b_nameSep b_vlo b_vhi].
  rewrite Hlo. cbn [b_vBytes0 b_vBytes1 b_name b_nameSep b_vlo b_vhi].
  rewrite Hhi. repeat split; reflexivity.
Qed.

Lemma Box_round_trip_witness :
  exists line,
    Box_Encode rt_fwd (mkBox NameBoxX (Fields NameBoxX) "" "" 0.5 2.5) "" = "" +:+ line +:+ nl
    /\ (Box_Keyword (NewBox NameBoxX) line).1 = true
    /\ (Box_Decode rt_fwd (Box_Keyword (NewBox NameBoxX) line).2).2 = None
    /\ b_vlo (Box_Decode rt_fwd (Box_Keyword (NewBox NameBoxX) line).2).1 = 0.5%float
    /\ b_vhi (Box_Decode rt_fwd (Box_Keyword (NewBox NameBoxX) line).2).1 = 2.5%float.
Proof.
  apply (Box_round_trip rt_fwd (mkBox NameBoxX (Fields NameBoxX) "" "" 0.5 2.5)
           (NewBox NameBoxX) "").
  - reflexivity.
  - split; [vm_compute; reflexivity | split; reflexivity].
  - split; [vm_compute; reflexivity | split; reflexivity].
  - reflexivity.
  - reflexivity.
Defined.

Lemma table_lines_rows {V} name (g : gmap Z V) line :
  size g <> 0%nat ->
  table_lines name g line = name :: "" :: map line (sortIntsMap g).
Proof.
  intros Hs. unfold table_lines. destruct (Nat.eqb_spec (size g) 0); [contradiction |].
  reflexivity.
Qed.

(** X8: Masses.Decode reads back the table that Masses.Encode wrote, when
    the Counter of atom types holds the number of records. *)
Theorem Masses_round_trip rt st m m0 p g rest w :
  m_v m = Some g -> size g <> 0%nat ->
  map_Forall (fun id x => int_ok id /\ float_ok rt x) g ->
  m_types m0 = Some p -> getInt st p = Ok (Z.of_nat (size g)) ->
  exists rows,
    Masses_Encode rt m w = (w +:+ unlines (NameMasses :: "" :: rows), Ok tt)
    /\ Masses_Decode rt st m0 (sc ("" :: rows ++ rest) NameMasses)
       = (mkMasses (Some p) (Some g), sc rest (List.last rows ""), Ok tt).
Proof.
  intros Hv Hs Hok Hp Hcnt.
  exists (map (masses_line rt g) (sortIntsMap g)). split.
  - pose proof (Key_Encode_lines rt (KMasses m) w) as HE.
    cbn [Key_Encode key_lines nonnil key_ok] in HE. rewrite Hv in HE.
    cbn [entries] in HE. rewrite table_lines_rows in HE by exact Hs.
    apply HE; [eauto | exact Hok].
  - unfold Masses_Decode. rewrite Hp. unfold sc at 1, Scan.
    cbn [pending final token negb app m_types]. rewrite Hcnt.
    pose proof (scan_table (Masses_row rt) g 0%float (masses_line rt g) rest "") as HS.
    unfold sc in HS at 1. rewrite HS; [reflexivity |].
    intros id x Hx. unfold masses_line. rewrite Hx. cbn [default].
    destruct (Hok id x Hx). apply Masses_row_ok; assumption.
Qed.

Lemma Masses_round_trip_witness :
  exists rows,
    Masses_Encode rt_fwd (mkMasses None (Some {[1 := 1%float; 2 := 2.5%float]})) ""
    = ("" +:+ unlines (NameMasses :: "" :: rows), Ok tt)
    /\ Masses_Decode rt_fwd {[NameAtomTypes := KHeader (mkHeader NameAtomTypes [] "" 2)]}
         (mkMasses (Some NameAtomTypes) None) (sc ("" :: rows ++ ["Bonds"]) NameMasses)
       = (mkMasses (Some NameAtomTypes) (Some {[1 := 1%float; 2 := 2.5%float]}),
          sc ["Bonds"] (List.last rows ""), Ok tt).
Proof.
  apply (Masses_round_trip rt_fwd
           {[NameAtomTypes := KHeader (mkHeader NameAtomTypes [] "" 2)]}
           (mkMasses None (Some {[1 := 1%float; 2 := 2.5%float]}))
           (mkMasses (Some NameAtomTypes) None) NameAtomTypes
           {[1 := 1%float; 2 := 2.5%float]} ["Bonds"] "").
  - reflexivity.
  - vm_compute. discriminate.
  - map_entries; (split; [int_range | float_range]).
  - reflexivity.
  - vm_compute. reflexivity.
Defined.

(** X9: Coeffs.Decode reads back the table that Coeffs.Encode wrote, when
    no record is without coefficient and the Counter of types holds the
    number of records. *)
Theorem Coeffs_round_trip rt st c c0 p g rest w :
  c_v c = Some g -> size g <> 0%nat ->
  map_Forall (fun id l => int_ok id /\ l <> [] /\ Forall (float_ok rt) l) g ->
  c_types c0 = Some p -> getInt st p = Ok (Z.of_nat (size g)) ->
  exists rows,
    Coeffs_Encode rt c w = (w +:+ unlines (c_name c :: "" :: rows), Ok tt)
    /\ Coeffs_Decode rt st c0 (sc ("" :: rows ++ rest) (c_name c))
       = (mkCoeffs (c_name c0) (Some p) (Some g), sc rest (List.last rows ""), Ok tt).
Proof.
  intros Hv Hs Hok Hp Hcnt.
  exists (map (coeffs_line rt g) (sortIntsMap g)). split.
  - pose proof (Key_Encode_lines rt (KCoeffs c) w) as HE.
    cbn [Key_Encode key_lines nonnil key_ok] in HE. rewrite Hv in HE.
    cbn [entries] in HE. rewrite table_lines_rows in HE by exact Hs.
    apply HE; [eauto | exact Hok].
  - unfold Coeffs_Decode. rewrite Hp, Hcnt. unfold sc at 1, Scan.
    cbn [pending final token negb app c_types c_name].
    pose proof (scan_table (Coeffs_row rt) g [] (coeffs_line rt g) rest "") as HS.
    unfold sc in HS at 1. rewrite HS; [reflexivity |].
    intros id x Hx. unfold coeffs_line. rewrite Hx. cbn [default].
    destruct (Hok id x Hx) as (? & ? & ?). apply Coeffs_row_ok; assumption.
Qed.

Lemma Coeffs_round_trip_witness :
  exists rows,
    Coeffs_Encode rt_fwd (mkCoeffs NamePairCoeffs None (Some {[1 := [0.5%float; 2.5%float]]})) ""
    = ("" +:+ unlines (NamePairCoeffs :: "" :: rows), Ok tt)
    /\ Coeffs_Decode rt_fwd {[NameAtomTypes := KHeader (mkHeader NameAtomTypes [] "" 1)]}
         (mkCoeffs NamePairCoeffs (Some NameAtomTypes) None)
         (sc ("" :: rows ++ []) NamePairCoeffs)
       = (mkCoeffs NamePairCoeffs (Some NameAtomTypes) (Some {[1 := [0.5%float; 2.5%float]]}),
          sc [] (List.last rows ""), Ok tt).
Proof.
  apply (Coeffs_round_trip rt_fwd
           {[NameAtomTypes := KHeader (mkHeader NameAtomTypes [] "" 1)]}
           (mkCoeffs NamePairCoeffs None (Some {[1 := [0.5%float; 2.5%float]]}))
           (mkCoeffs NamePairCoeffs (Some NameAtomTypes) None) NameAtomTypes
           {[1 := [0.5%float; 2.5%float]]} [] "").
  - reflexivity.
  - vm_compute. discriminate.
  - map_entries. split; [int_range |]. split; [discriminate |].
    each_entry; float_range.
  - reflexivity.
  - vm_compute. reflexivity.
Defined.

(** X10: Links.Decode reads back the table that Links.Encode wrote, when
    every record holds as many atoms as the table has atom columns and the
    Counter of the table holds the number of records. *)
Theorem Links_round_trip st l l0 p g rest w :
  l_v l = Some g -> size g <> 0%nat ->
  map_Forall (fun id x => int_ok id /\ link_ok (l_links l) x) g ->
  l_nbr l0 = Some p -> l_links l0 = l_links l ->
  getInt st p = Ok (Z.of_nat (size g)) ->
  exists rows,
    Links_Encode l w = (w +:+ unlines (l_name l :: "" :: rows), Ok tt)
    /\ Links_Decode st l0 (sc ("" :: rows ++ rest) (l_name l))
       = (mkLinks (l_name l0) (l_links l0) (Some p) (l_types l0) (l_atomsNbr l0)
                  (Some g),
          sc rest (List.last rows ""), Ok tt).
Proof.
  intros Hv Hs Hok Hp Hl Hcnt.
  exists (map (links_line g) (sortIntsMap g)). split.
  - pose proof (Key_Encode_lines rt_fwd (KLinks l) w) as HE.
    cbn [Key_Encode key_lines nonnil key_ok] in HE. rewrite Hv in HE.
    cbn [entries] in HE. rewrite table_lines_rows in HE by exact Hs.
    apply HE; [eauto | exact Hok].
  - unfold Links_Decode. rewrite Hp, Hcnt. unfold sc at 1, Scan.
    cbn [pending final token negb app l_nbr l_name l_links l_types l_atomsNbr].
    pose proof (scan_table (Links_row (l_links l0)) g None (links_line g) rest "") as HS.
    unfold sc in HS at 1. rewrite HS; [reflexivity |].
    intros id x Hx. unfold links_line. rewrite Hx. cbn [default].
    destruct (Hok id x Hx) as (? & link & -> & ? & ? & ?).
    rewrite Hl. apply Links_row_ok; assumption.
Qed.

Lemma Links_round_trip_witness :
  exists rows,
    Links_Encode (mkLinks NameBonds 4 None None None
                          (Some {[1 := Some (mkLink 1 [1; 2])]})) ""
    = ("" +:+ unlines (NameBonds :: "" :: rows), Ok tt)
    /\ Links_Decode {[NameBondsNbr := KHeader (mkHeader NameBondsNbr [] "" 1)]}
         (mkLinks NameBonds 4 (Some NameBondsNbr) None None None)
         (sc ("" :: rows ++ []) NameBonds)
       = (mkLinks NameBonds 4 (Some NameBondsNbr) None None
                  (Some {[1 := Some (mkLink 1 [1; 2])]}),
          sc [] (List.last rows ""), Ok tt).
Proof.
  apply (Links_round_trip
           {[NameBondsNbr := KHeader (mkHeader NameBondsNbr [] "" 1)]}
           (mkLinks NameBonds 4 None None None (Some {[1 := Some (mkLink 1 [1; 2])]}))
           (mkLinks NameBonds 4 (Some NameBondsNbr) None None None) NameBondsNbr
           {[1 := Some (mkLink 1 [1; 2])]} [] "").
  - reflexivity.
  - vm_compute. discriminate.
  - map_entries. split; [int_range |].
    exists (mkLink 1 [1; 2]). split; [reflexivity |].
    split; [int_range |]. split; [| reflexivity]. each_entry; int_range.
  - reflexivity.
  - reflexivity.
  - vm_compute. reflexivity.
Defined.

(** ** Check of the tables *)

(** As many identifiers as the count, all in [1, count]: the identifiers
    are exactly 1, ..., count. *)
Lemma ids_exact {V} (g : gmap Z V) (n : Z) :
  (Z.of_nat (size g) = n /\ forall id, is_Some (g !! id) -> 1 <= id <= n)
  <-> (0 <= n /\ forall id, is_Some (g !! id) <-> 1 <= id <= n).
Proof.
  set (S := list_to_set (seqZ 1 n) : gset Z).
  assert (HS : forall id, id ∈ S <-> 1 <= id <= n).
  { intros id. unfold S. rewrite elem_of_list_to_set, elem_of_seqZ. lia. }
  assert (Hsize : size S = Z.to_nat n).
  { unfold S. rewrite size_list_to_set by apply NoDup_seqZ.
    apply length_seqZ. }
  split.
  - intros [Hn Hin]. split; [lia |].
    assert (Hsub : dom g ⊆ S).
    { intros id Hid. apply HS, Hin, elem_of_dom, Hid. }
    assert (Heq : dom g = S).
    { apply set_subseteq_size_eq; [exact Hsub |].
      rewrite size_dom, Hsize. lia. }
    intros id. rewrite <- HS, <- Heq, elem_of_dom. reflexivity.
  - intros [Hn Hin]. split; [| intros id; apply Hin].
    assert (Heq : dom g = S).
    { apply set_eq. intros id. rewrite HS, elem_of_dom. apply Hin. }
    rewrite <- size_dom, Heq, Hsize. lia.
Qed.

Lemma for_each_range_map {V} (order : list Z -> list Z) (g : gmap Z V)
    (body : Z * V -> outcome unit) :
  (forall l, order l ≡ₚ l) ->
  for_each body (range_map order g) = Ok tt
  <-> forall id x, g !! id = Some x -> body (id, x) = Ok tt.
Proof.
  intros Hfair. rewrite for_each_ok, (range_map_perm order g Hfair).
  rewrite Forall_forall. split.
  - intros H id x Hx. apply (H (id, x)), elem_of_map_to_list, Hx.
  - intros H [id x] Hin. apply H, elem_of_map_to_list, Hin.
Qed.

(** X11: Masses.Check succeeds exactly when the table holds one mass for each
    of the types 1, ..., count and no mass compares lower than zero. *)
Theorem Masses_Check_exact rt st m p h :
  (forall l, rangeInts rt NameMasses l ≡ₚ l) ->
  m_types m = Some p -> deref st p = Some h ->
  Masses_Check rt st m = Ok tt
  <-> 0 <= h_v h
      /\ (forall id, is_Some (entries (m_v m) !! id) <-> 1 <= id <= h_v h)
      /\ (forall id x, entries (m_v m) !! id = Some x -> (x <? 0)%float = false).
Proof.
  intros Hfair Hp Hh. unfold Masses_Check, getInt. rewrite Hp, Hh. simpl.
  assert (Hlen : len (m_v m) = Z.of_nat (size (entries (m_v m)))).
  { destruct (m_v m); [reflexivity | symmetry; simpl; rewrite map_size_empty; reflexivity]. }
  rewrite Hlen.
  rewrite <- Logic.and_assoc, <- ids_exact.
  destruct (Z.eqb_spec (Z.of_nat (size (entries (m_v m)))) (h_v h)) as [Hsz|Hsz]; simpl.
  2:{ split; [discriminate | intros [[? _] _]; contradiction]. }
  rewrite (for_each_range_map _ _ _ Hfair). split.
  - intros H. split; [split; [exact Hsz |] |].
    + intros id [x Hx]. specialize (H id x Hx). simpl in H.
      destruct (x <? 0)%float; [discriminate |].
      destruct (Z.ltb_spec id 1); [discriminate |].
      destruct (Z.ltb_spec (h_v h) id); [discriminate |]. lia.
    + intros id x Hx. specialize (H id x Hx). simpl in H.
      destruct (x <? 0)%float; [discriminate | reflexivity].
  - intros [[_ Hid] Hm] id x Hx. simpl. rewrite (Hm id x Hx).
    specialize (Hid id (ex_intro _ x Hx)).
    destruct (Z.ltb_spec id 1); [lia |].
    destruct (Z.ltb_spec (h_v h) id); [lia | reflexivity].
Qed.

Lemma Masses_Check_exact_witness :
  Masses_Check rt_fwd {[NameAtomTypes := KHeader (mkHeader NameAtomTypes [] "" 1)]}
    (mkMasses (Some NameAtomTypes) (Some {[1 := 0%float]})) = Ok tt
  <-> 0 <= 1
      /\ (forall id, is_Some (({[1 := 0%float]} : gmap Z float) !! id) <-> 1 <= id <= 1)
      /\ (forall id x, ({[1 := 0%float]} : gmap Z float) !! id = Some x ->
                       (x <? 0)%float = false).
Proof.
  refine (Masses_Check_exact rt_fwd
            {[NameAtomTypes := KHeader (mkHeader NameAtomTypes [] "" 1)]}
            (mkMasses (Some NameAtomTypes) (Some {[1 := 0%float]})) NameAtomTypes
            (mkHeader NameAtomTypes [] "" 1) _ _ _).
  - intros l. reflexivity.
  - reflexivity.
  - reflexivity.
Defined.

(** X12: Coeffs.Check succeeds exactly when the table holds one record for
    each of the types 1, ..., count. *)
Theorem Coeffs_Check_exact rt st c p h :
  (forall l, rangeInts rt (c_name c) l ≡ₚ l) ->
  c_types c = Some p -> deref st p = Some h ->
  Coeffs_Check rt st c = Ok tt
  <-> 0 <= h_v h
      /\ (forall id, is_Some (entries (c_v c) !! id) <-> 1 <= id <= h_v h).
Proof.
  intros Hfair Hp Hh. unfold Coeffs_Check, getInt. rewrite Hp, Hh. simpl.
  assert (Hlen : len (c_v c) = Z.of_nat (size (entries (c_v c)))).
  { destruct (c_v c); [reflexivity | symmetry; simpl; rewrite map_size_empty; reflexivity]. }
  rewrite Hlen, <- ids_exact.
  destruct (Z.eqb_spec (Z.of_nat (size (entries (c_v c)))) (h_v h)) as [Hsz|Hsz]; simpl.
  2:{ split; [discriminate | intros [? _]; contradiction]. }
  rewrite (for_each_range_map _ _ _ Hfair). split.
  - intros H. split; [exact Hsz |].
    intros id [x Hx]. specialize (H id x Hx). simpl in H.
    destruct (Z.ltb_spec id 1); [discriminate |].
    destruct (Z.ltb_spec (h_v h) id); [discriminate |]. lia.
  - intros [_ Hid] id x Hx. simpl.
    specialize (Hid id (ex_intro _ x Hx)).
    destruct (Z.ltb_spec id 1); [lia |].
    destruct (Z.ltb_spec (h_v h) id); [lia | reflexivity].
Qed.

Lemma Coeffs_Check_exact_witness :
  Coeffs_Check rt_fwd {[NameBondTypes := KHeader (mkHeader NameBondTypes [] "" 1)]}
    (mkCoeffs NameBondCoeffs (Some NameBondTypes) (Some {[1 := []]})) = Ok tt
  <-> 0 <= 1
      /\ (forall id, is_Some (({[1 := []]} : gmap Z (list float)) !! id)
                     <-> 1 <= id <= 1).
Proof.
  refine (Coeffs_Check_exact rt_fwd
            {[NameBondTypes := KHeader (mkHeader NameBondTypes [] "" 1)]}
            (mkCoeffs NameBondCoeffs (Some NameBondTypes) (Some {[1 := []]}))
            NameBondTypes (mkHeader NameBondTypes [] "" 1) _ _ _).
  - intros l. reflexivity.
  - reflexivity.
  - reflexivity.
Defined.

(** X13: Links.Check succeeds exactly when the table holds one record for each
    of the identifiers 1, ..., count, every record's type is in
    [1, type count] and every atom it names is in [1, atom count]; how many
    atoms a record names is never looked at. *)
Theorem Links_Check_exact rt st l pt pa pn ht ha hn :
  (forall ks, rangeInts rt (l_name l) ks ≡ₚ ks) ->
  l_types l = Some pt -> l_atomsNbr l = Some pa -> l_nbr l = Some pn ->
  deref st pt = Some ht -> deref st pa = Some ha -> deref st pn = Some hn ->
  Links_Check rt st l = Ok tt
  <-> 0 <= h_v hn
      /\ (forall id, is_Some (entries (l_v l) !! id) <-> 1 <= id <= h_v hn)
      /\ (forall id x, entries (l_v l) !! id = Some x ->
            exists link, x = Some link
              /\ 1 <= l_typ link <= h_v ht
              /\ Forall (fun atom => 1 <= atom <= h_v ha) (l_atoms link)).
Proof.
  intros Hfair Hpt Hpa Hpn Hht Hha Hhn. unfold Links_Check, getInt.
  rewrite Hpt, Hpa, Hpn, Hht, Hha, Hhn. simpl.
  assert (Hlen : len (l_v l) = Z.of_nat (size (entries (l_v l)))).
  { destruct (l_v l); [reflexivity | symmetry; simpl; rewrite map_size_empty; reflexivity]. }
  rewrite Hlen.
  rewrite <- Logic.and_assoc, <- ids_exact.
  destruct (Z.eqb_spec (Z.of_nat (size (entries (l_v l)))) (h_v hn)) as [Hsz|Hsz]; simpl.
  2:{ split; [discriminate | intros [[? _] _]; contradiction]. }
  rewrite (for_each_range_map _ _ _ Hfair).
  assert (Hrow : forall id x,
            (if (id <? 1) || (h_v hn <? id) then Err (ErrRange id (h_v hn))
             else match x with
                  | None => Panic
                  | Some link =>
                    if (l_typ link <? 1) || (h_v ht <? l_typ link)
                    then Err (ErrRange id (h_v hn))
                    else for_each (fun atom =>
                           if (atom <? 1) || (h_v ha <? atom)
                           then Err (ErrRange id (h_v hn)) else Ok tt)
                           (l_atoms link)
                  end) = Ok tt
            <-> 1 <= id <= h_v hn
                /\ exists link, x = Some link /\ 1 <= l_typ link <= h_v ht
                     /\ Forall (fun atom => 1 <= atom <= h_v ha) (l_atoms link)).
  { intros id x.
    destruct (Z.ltb_spec id 1); simpl;
      [split; [discriminate | intros [? _]; lia] |].
    destruct (Z.ltb_spec (h_v hn) id); simpl;
      [split; [discriminate | intros [? _]; lia] |].
    destruct x as [link|];
      [| split; [discriminate | intros (_ & ? & [=] & _)]].
    destruct (Z.ltb_spec (l_typ link) 1); simpl;
      [split; [discriminate | intros (_ & ? & [= <-] & ? & _); lia] |].
    destruct (Z.ltb_spec (h_v ht) (l_typ link)); simpl;
      [split; [discriminate | intros (_ & ? & [= <-] & ? & _); lia] |].
    rewrite for_each_ok. split.
    - intros HF. split; [lia |]. exists link. split; [reflexivity |].
      split; [lia |]. eapply Forall_impl; [exact HF |].
      intros atom Ha. cbv beta in Ha.
      destruct (Z.ltb_spec atom 1); [discriminate |].
      destruct (Z.ltb_spec (h_v ha) atom); [discriminate |]. lia.
    - intros (_ & ? & [= <-] & _ & HF). eapply Forall_impl; [exact HF |].
      intros atom Ha. cbv beta in Ha |- *.
      destruct (Z.ltb_spec atom 1); [lia |].
      destruct (Z.ltb_spec (h_v ha) atom); [lia | reflexivity]. }
  split.
  - intros H. split; [split; [exact Hsz |] |].
    + intros id [x Hx]. apply (Hrow id x), (H id x Hx).
    + intros id x Hx. apply (Hrow id x), (H id x Hx).
  - intros [[_ Hid] Hl] id x Hx. apply (Hrow id x). split; [| eauto].
    apply Hid. eauto.
Qed.

Lemma Links_Check_exact_witness :
  Links_Check rt_fwd
    {[NameBondsNbr := KHeader (mkHeader NameBondsNbr [] "" 1);
      NameBondTypes := KHeader (mkHeader NameBondTypes [] "" 1);
      NameAtomsNbr := KHeader (mkHeader NameAtomsNbr [] "" 2)]}
    (mkLinks NameBonds 4 (Some NameBondsNbr) (Some NameBondTypes) (Some NameAtomsNbr)
             (Some {[1 := Some (mkLink 1 [2])]})) = Ok tt
  <-> 0 <= 1
      /\ (forall id, is_Some (({[1 := Some (mkLink 1 [2])]} : gmap Z (option Link)) !! id)
                     <-> 1 <= id <= 1)
      /\ (forall id x,
            ({[1 := Some (mkLink 1 [2])]} : gmap Z (option Link)) !! id = Some x ->
            exists link, x = Some link /\ 1 <= l_typ link <= 1
              /\ Forall (fun atom => 1 <= atom <= 2) (l_atoms link)).
Proof.
  refine (Links_Check_exact rt_fwd
    {[NameBondsNbr := KHeader (mkHeader NameBondsNbr [] "" 1);
      NameBondTypes := KHeader (mkHeader NameBondTypes [] "" 1);
      NameAtomsNbr := KHeader (mkHeader NameAtomsNbr [] "" 2)]}
    (mkLinks NameBonds 4 (Some NameBondsNbr) (Some NameBondTypes) (Some NameAtomsNbr)
             (Some {[1 := Some (mkLink 1 [2])]}))
    NameBondTypes NameAtomsNbr NameBondsNbr
    (mkHeader NameBondTypes [] "" 1) (mkHeader NameAtomsNbr [] "" 2)
    (mkHeader NameBondsNbr [] "" 1) _ _ _ _ _ _ _).
  - intros ks. reflexivity.
  - reflexivity.
  - reflexivity.
  - reflexivity.
  - vm_compute. reflexivity.
  - vm_compute. reflexivity.
  - vm_compute. reflexivity.
Defined.

(** ** Atoms.Decode on a table with rows *)

(** X14: Atoms.Decode never reads a row: with a Counter of at least one atom
    and a line after the one that follows the keyword, it ends in an error
    or a panic, and the table it leaves is empty. *)
Theorem Atoms_Decode_row_fails rt st a p n blank line rest tok :
  a_atomsNbr a = Some p -> getInt st p = Ok n -> 1 <= n ->
  exists r res,
    Atoms_Decode rt st a (sc (blank :: line :: rest) tok)
    = (mkAtoms (a_atomStyle a) (Some p) (a_atomTypes a) (Some ∅), r, res)
    /\ res <> Ok tt.
Proof.
  intros Hp Hn H1. unfold Atoms_Decode. rewrite Hp. unfold sc, Scan.
  cbn [pending final token negb a_atomStyle a_atomsNbr a_atomTypes]. rewrite Hn.
  destruct (Z.to_nat n) as [|k] eqn:Ek; [lia |].
  cbn [scan_rows Scan pending final token]. unfold Atoms_row.
  set (f := Fields (delComments line)).
  destruct (Nat.lt_ge_cases (length f) (style_min (a_atomStyle a))) as [Hlt|Hge].
  - rewrite (AtomStyle_Decode_short rt _ f Hlt).
    eexists _, _. split; [reflexivity | discriminate].
  - pose proof (AtomStyle_Decode_enough rt (a_atomStyle a) f Hge) as H.
    destruct (snd (Atoi (nth 0 f ""))); rewrite H;
      (eexists _, _; split; [reflexivity | discriminate]).
Qed.

Lemma Atoms_Decode_row_fails_witness :
  exists r res,
    Atoms_Decode rt_fwd {[NameAtomsNbr := KHeader (mkHeader NameAtomsNbr [] "" 1)]}
      (mkAtoms AtomStyleAtomic (Some NameAtomsNbr) None None)
      (sc [""; "1 1 0.5 0.5 0.5"] "Atoms")
    = (mkAtoms AtomStyleAtomic (Some NameAtomsNbr) None (Some ∅), r, res)
    /\ res <> Ok tt.
Proof.
  apply (Atoms_Decode_row_fails rt_fwd
           {[NameAtomsNbr := KHeader (mkHeader NameAtomsNbr [] "" 1)]}
           (mkAtoms AtomStyleAtomic (Some NameAtomsNbr) None None)
           NameAtomsNbr 1 "" "1 1 0.5 0.5 0.5" [] "Atoms").
  - reflexivity.
  - vm_compute. reflexivity.
  - lia.
Defined.

(** ** MakeKeys *)

(** X15: On supported Names MakeKeys returns the Keys of these Names and of
    the Counters they depend on, and no other; every Key is the one New
    creates for its Name, wired to its Counters and holding no value. *)
Theorem MakeKeys_closure names s :
  Forall (fun n => IsName n = true) names ->
  exists st, MakeKeys names s = Ok st
    /\ (forall m, is_Some (st !! m)
                  <-> In m names \/ exists n, In n names /\ In m (deps n))
    /\ (forall m k, st !! m = Some k -> fresh_key s m = Some k /\ Key_Name k = m).
Proof.
  intros Hnames. unfold MakeKeys.
  destruct (MakeKeys_loop_registry s names ∅ (registry_empty s) Hnames)
    as (st & HM & Hr & Hd).
  exists st. split; [exact HM |]. split.
  - intros m. rewrite Hd. split; [| auto].
    intros [[k H]|H]; [rewrite lookup_empty in H; discriminate | exact H].
  - intros m k Hm. split; [apply Hr, Hm |].
    eapply wired_Key_Name; [apply registry_wired, Hr | exact Hm].
Qed.

Lemma MakeKeys_closure_witness :
  exists st, MakeKeys [NameMasses; NameBonds] AtomStyleFull = Ok st
    /\ (forall m, is_Some (st !! m)
                  <-> In m [NameMasses; NameBonds]
                      \/ exists n, In n [NameMasses; NameBonds] /\ In m (deps n))
    /\ (forall m k, st !! m = Some k ->
                    fresh_key AtomStyleFull m = Some k /\ Key_Name k = m).
Proof.
  apply (MakeKeys_closure [NameMasses; NameBonds] AtomStyleFull).
  repeat constructor.
Defined.

Lemma New_unsupported s st n :
  all_fresh s st -> IsName n = false -> New s st n = Panic.
Proof.
  intros Hf Hn. unfold New, New_body.
  destruct (st !! n) as [k|] eqn:E.
  { apply Hf in E. assert (IsName n = true) by (apply (fresh_key_IsName s); eauto).
    congruence. }
  unfold name_in. simpl.
  repeat match goal with
         | |- context [String.eqb n ?x] =>
           destruct (String.eqb_spec n x) as [->|?]; [discriminate Hn |]; simpl
         end.
  reflexivity.
Qed.

Lemma MakeKeys_loop_panics s names : forall st,
  registry s st ->
  MakeKeys_loop s names st = Panic <-> Exists (fun n => IsName n = false) names.
Proof.
  induction names as [|n names IH]; intros st Hr; simpl.
  - split; [discriminate | intros H; inversion H].
  - rewrite Exists_cons. destruct (IsName n) eqn:Hn.
    + destruct (New_registry s st n Hr Hn) as (st1 & k & HN & Hr1 & _).
      rewrite HN. cbn [mbind outcome_bind]. rewrite (IH st1 Hr1).
      split; [auto | intros [H|H]; [discriminate | exact H]].
    + rewrite (New_unsupported s st n (proj1 Hr) Hn). cbn [mbind outcome_bind].
      split; auto.
Qed.

(** X16: MakeKeys panics exactly when one of the Names is not in ListNames;
    it never returns an error. *)
Theorem MakeKeys_panics names s :
  (MakeKeys names s = Panic <-> Exists (fun n => IsName n = false) names)
  /\ (forall e, MakeKeys names s <> Err e).
Proof.
  split; [apply MakeKeys_loop_panics, registry_empty |].
  intros e. unfold MakeKeys. generalize (registry_empty s).
  generalize (∅ : Store). induction names as [|n names IH]; intros st Hr; simpl.
  - discriminate.
  - destruct (IsName n) eqn:Hn.
    + destruct (New_registry s st n Hr Hn) as (st1 & k & HN & Hr1 & _).
      rewrite HN. cbn [mbind outcome_bind]. apply IH, Hr1.
    + rewrite (New_unsupported s st n (proj1 Hr) Hn). discriminate.
Qed.

(** ** Set and Get *)

(** Whether a failed Set leaves the value of the Key as it was: Title and
    Box assign after the type assertion, the other Keys assign its result. *)
Definition keeps_on_failure (k : Key) : bool :=
  match k with KTitle _ | KBox _ => true | _ => false end.

(** X17: Set succeeds exactly on a value of the dynamic type that Get returns,
    and Get then returns that value; a failed Set leaves the value of a
    Title or a Box and clears the value of every other Key.  The Name and
    the pointers to other Keys never change. *)
Theorem Key_Set_then_Get k v :
  ((Key_Set k v).2 = None <-> TypeOf v = TypeOf (Key_Get k))
  /\ ((Key_Set k v).2 = None -> Key_Get (Key_Set k v).1 = v)
  /\ ((Key_Set k v).2 <> None ->
        (Key_Set k v).2 = Some ErrTypeAssertion
        /\ Key_Get (Key_Set k v).1
           = if keeps_on_failure k then Key_Get k else Key_Get (wiring k))
  /\ wiring (Key_Set k v).1 = wiring k
  /\ Key_Name (Key_Set k v).1 = Key_Name k.
Proof.
  destruct k, v; cbn; repeat split; intros;
    try reflexivity; try discriminate; congruence.
Qed.

(** ** createNames: which field a Name is bound to *)

Lemma createNames_loop_last typ : forall i s names nF n f,
  (createNames_loop typ i s names nF).2 !! n = Some f <->
  (IsName n = true
   /\ (exists fld v, typ !! (f - i)%nat = Some fld /\ f_tag fld = Some v
                     /\ tag_name v = n)
   /\ (i <= f)%nat
   /\ (forall g fld v, typ !! g = Some fld -> f_tag fld = Some v -> tag_name v = n ->
                        (i + g <= f)%nat))
  \/ (nF !! n = Some f
      /\ (IsName n = true ->
          forall g fld v, typ !! g = Some fld -> f_tag fld = Some v -> tag_name v <> n)).
Proof.
  induction typ as [|fld typ IH]; intros i s names nF n f.
  - simpl. split.
    + intros H. right. split; [exact H |]. intros _ g fld v Hg. destruct g; discriminate.
    + intros [(_ & (fld & v & H & _) & _)|[H _]]; [| exact H].
      destruct (f - i)%nat; discriminate.
  - cbn [createNames_loop].
    assert (Hv : forall v, (if HasPrefix v NameAtoms
                  then
                    let idx := IndexRune v "," in
                    if (0 <=? idx) && (idx <=? Z.of_nat (String.length v))
                    then
                      (if IsAtomStyle (TrimSpace (str_drop (Z.to_nat (idx + 1)) v))
                       then default s (NewAtomStyle
                              (TrimSpace (str_drop (Z.to_nat (idx + 1)) v)))
                       else s,
                       TrimSpace (str_take (Z.to_nat idx) v))
                    else (s, v)
                  else (s, v)).2 = tag_name v).
    { intros v. unfold tag_name. destruct (HasPrefix v NameAtoms); [| reflexivity].
      simpl. destruct (_ && _); reflexivity. }
    (* the first field does not bind [n] *)
    assert (Hskip : forall s' names',
      (forall v, f_tag fld = Some v -> IsName n = true -> tag_name v <> n) ->
      (createNames_loop typ (S i) s' names' nF).2 !! n = Some f <->
      (IsName n = true
       /\ (exists fld0 v, (fld :: typ) !! (f - i)%nat = Some fld0 /\ f_tag fld0 = Some v
                          /\ tag_name v = n)
       /\ (i <= f)%nat
       /\ (forall g fld0 v, (fld :: typ) !! g = Some fld0 -> f_tag fld0 = Some v ->
                            tag_name v = n -> (i + g <= f)%nat))
      \/ (nF !! n = Some f
          /\ (IsName n = true ->
              forall g fld0 v, (fld :: typ) !! g = Some fld0 -> f_tag fld0 = Some v ->
                               tag_name v <> n))).
    { intros s' names' Hfld. rewrite IH. split.
      - intros [(Hn & (fld0 & v & H1 & H2 & H3) & Hle & Hmax)|[H Hno]].
        + left. split; [exact Hn |]. split; [| split; [lia |]].
          * exists fld0, v. replace (f - i)%nat with (S (f - S i)) by lia. auto.
          * intros [|g] fld1 v1 Hg Ht Hn1.
            -- injection Hg as <-. exfalso. exact (Hfld v1 Ht Hn Hn1).
            -- specialize (Hmax g fld1 v1 Hg Ht Hn1). lia.
        + right. split; [exact H |]. intros Hn [|g] fld1 v1 Hg Ht.
          * injection Hg as <-. exact (Hfld v1 Ht Hn).
          * exact (Hno Hn g fld1 v1 Hg Ht).
      - intros [(Hn & (fld0 & v & H1 & H2 & H3) & Hle & Hmax)|[H Hno]].
        + left. split; [exact Hn |].
          destruct (f - i)%nat as [|d] eqn:Ed.
          { injection H1 as <-. exfalso. exact (Hfld v H2 Hn H3). }
          split; [| split; [lia |]].
          * exists fld0, v. replace (f - S i)%nat with d by lia. auto.
          * intros g fld1 v1 Hg Ht Hn1.
            specialize (Hmax (S g) fld1 v1 Hg Ht Hn1). lia.
        + right. split; [exact H |]. intros Hn g fld1 v1 Hg Ht.
          exact (Hno Hn (S g) fld1 v1 Hg Ht). }
    destruct (f_tag fld) as [v|] eqn:Etag;
      [| apply Hskip; intros v; discriminate].
    specialize (Hv v).
    destruct (if HasPrefix v NameAtoms then _ else _) as [s' v'].
    simpl in Hv. subst v'.
    destruct (IsName (tag_name v)) eqn:Ename.
    2:{ apply Hskip. intros v0 [= <-] Hn Heq. congruence. }
    destruct (String.eqb_spec (tag_name v) n) as [Heq|Hne].
    2:{ (* another Name is bound: [n] is as before *)
      rewrite IH. rewrite lookup_insert_ne by exact Hne.
      rewrite <- (IH (S i) s' (names ++ [tag_name v])%list nF n f).
      apply Hskip. intros v0 [= <-] _. exact Hne. }
    (* the first field binds [n] *)
    subst n. rewrite IH, lookup_insert_eq. split.
    + intros [(Hn & (fld0 & v0 & H1 & H2 & H3) & Hle & Hmax)|[H Hno]].
      * left. split; [exact Hn |]. split; [| split; [lia |]].
        -- exists fld0, v0. replace (f - i)%nat with (S (f - S i)) by lia. auto.
        -- intros [|g] fld1 v1 Hg Ht Hn1; [lia |].
           specialize (Hmax g fld1 v1 Hg Ht Hn1). lia.
      * injection H as <-. left. split; [exact Ename |].
        split; [| split; [lia |]].
        -- exists fld, v. rewrite Nat.sub_diag. auto.
        -- intros [|g] fld1 v1 Hg Ht Hn1; [lia |].
           exfalso. exact (Hno Ename g fld1 v1 Hg Ht Hn1).
    + intros [(Hn & (fld0 & v0 & H1 & H2 & H3) & Hle & Hmax)|[H Hno]].
      * destruct (f - i)%nat as [|d] eqn:Ed.
        -- right. assert (f = i) by lia. subst f. split; [reflexivity |].
           intros _ g fld1 v1 Hg Ht Hn1.
           specialize (Hmax (S g) fld1 v1 Hg Ht Hn1). lia.
        -- left. split; [exact Hn |]. split; [| split; [lia |]].
           ++ exists fld0, v0. replace (f - S i)%nat with d by lia. auto.
           ++ intros g fld1 v1 Hg Ht Hn1.
              specialize (Hmax (S g) fld1 v1 Hg Ht Hn1). lia.
      * exfalso. exact (Hno Ename 0%nat fld v eq_refl Etag eq_refl).
Qed.

(** X18: createNames binds a Name to field [f] exactly when the Name is
    supported, the tag of field [f] names it, and no later field does: of
    two fields with the same tag the last one is read and written. *)
Theorem createNames_last_field typ n f :
  (createNames typ).1 !! n = Some f <->
  IsName n = true
  /\ (exists fld v, typ !! f = Some fld /\ f_tag fld = Some v /\ tag_name v = n)
  /\ (forall g fld v, typ !! g = Some fld -> f_tag fld = Some v -> tag_name v = n ->
                      (g <= f)%nat).
Proof.
  unfold createNames.
  pose proof (createNames_loop_last typ 0 AtomStyleFull [] ∅ n f) as H.
  destruct (createNames_loop typ 0 AtomStyleFull [] ∅) as [[s names] nF].
  cbn [fst snd] in *. rewrite H, Nat.sub_0_r. split.
  - intros [(Hn & Hex & _ & Hmax)|[Hnone _]];
      [| rewrite lookup_empty in Hnone; discriminate].
    split; [exact Hn |]. split; [exact Hex |]. exact Hmax.
  - intros (Hn & Hex & Hmax). left. split; [exact Hn |]. split; [exact Hex |].
    split; [lia | exact Hmax].
Qed.

(** ** Decode and the errors of the reader *)

Lemma Scan_final r :
  final (Scan r).2 = final r /\ ((Scan r).1 = false -> stopped (Scan r).2 = true).
Proof. unfold Scan. destruct (pending r); simpl; split; auto; discriminate. Qed.

Lemma scan_rows_final {V} (row : string -> outcome (Z * V)) n : forall v r,
  final (scan_rows row n v r).1.2 = final r.
Proof.
  induction n as [|n IH]; intros v r; simpl; [reflexivity |].
  pose proof (Scan_final r) as [Hf _].
  destruct (Scan r) as [ok r1]. simpl in Hf.
  destruct ok; [| exact Hf].
  destruct (row (token r1)) as [[id x]|e|]; simpl; try exact Hf.
  rewrite IH. exact Hf.
Qed.

(** Decode of a Key keeps the error the reader ends with. *)
Lemma Key_Decode_final rt st k s r :
  final (Key_Decode rt st k s r).1.2 = final r.
Proof.
  destruct k; simpl.
  - reflexivity.
  - destruct (Header_Decode h). reflexivity.
  - destruct (Box_Decode rt b). reflexivity.
  - unfold Masses_Decode. destruct (m_types m); [| reflexivity].
    pose proof (Scan_final r) as [Hf _].
    destruct (Scan r) as [ok r1]. simpl in Hf.
    destruct ok; simpl; [| exact Hf].
    destruct (getInt st n) as [c|e|]; simpl; try exact Hf.
    pose proof (scan_rows_final (Masses_row rt) (Z.to_nat c) ∅ r1) as Hs.
    destruct (scan_rows _ _ _ _) as [[v r2] res]. simpl in Hs.
    destruct res; simpl; congruence.
  - unfold Coeffs_Decode. destruct (c_types c); [| reflexivity].
    destruct (getInt st n) as [cnt|e|]; simpl; try reflexivity.
    pose proof (Scan_final r) as [Hf _].
    destruct (Scan r) as [ok r1]. simpl in Hf.
    destruct ok; simpl; [| exact Hf].
    pose proof (scan_rows_final (Coeffs_row rt) (Z.to_nat cnt) ∅ r1) as Hs.
    destruct (scan_rows _ _ _ _) as [[v r2] res]. simpl in Hs.
    destruct res; simpl; congruence.
  - unfold Atoms_Decode. destruct (a_atomsNbr a); [| reflexivity].
    pose proof (Scan_final r) as [Hf _].
    destruct (Scan r) as [ok r1]. simpl in Hf.
    destruct ok; simpl; [| exact Hf].
    destruct (getInt st n) as [cnt|e|]; simpl; try exact Hf.
    pose proof (scan_rows_final (Atoms_row rt (a_atomStyle a)) (Z.to_nat cnt) ∅ r1) as Hs.
    destruct (scan_rows _ _ _ _) as [[v r2] res]. simpl in Hs.
    destruct res; simpl; congruence.
  - unfold Links_Decode. destruct (l_nbr l); [| reflexivity].
    destruct (getInt st n) as [cnt|e|]; simpl; try reflexivity.
    pose proof (Scan_final r) as [Hf _].
    destruct (Scan r) as [ok r1]. simpl in Hf.
    destruct ok; simpl; [| exact Hf].
    pose proof (scan_rows_final (Links_row (l_links l)) (Z.to_nat cnt) ∅ r1) as Hs.
    destruct (scan_rows _ _ _ _) as [[v r2] res]. simpl in Hs.
    destruct res; simpl; congruence.
Qed.

Lemma keyDecode_loop_final rt s order : forall st keys r,
  final (keyDecode_loop rt s order st keys r).1.2 = final r.
Proof.
  induction order as [|n order IH]; intros st keys r; simpl; [reflexivity |].
  destruct (st !! n) as [k|]; [| apply IH].
  destruct (Key_Keyword k s) as [ok k1].
  destruct ok; [| apply IH].
  pose proof (Key_Decode_final rt (<[n := k1]> st) k1 s r) as H.
  destruct (Key_Decode _ _ _ _ _) as [[k2 r2] res]. simpl in H.
  destruct res; simpl; exact H.
Qed.

(** The loop of Decode ends without error only on a Scan that failed, and
    the scanner still holds the error of the reader. *)
Lemma Decode_lines_final rt fuel : forall i st kH kB inH r st' r',
  Decode_lines rt fuel i st kH kB inH r = Some (st', r', Ok tt) ->
  final r' = final r /\ stopped r' = true.
Proof.
  induction fuel as [|fuel IH]; intros i st kH kB inH r st' r'; [discriminate |].
  cbn [Decode_lines].
  pose proof (Scan_final r) as [Hf Hs].
  destruct (Scan r) as [ok r1]. simpl in Hf, Hs.
  destruct ok; simpl; [| intros [= <- <-]; auto].
  assert (Hbody : forall st0 r0, final r0 = final r ->
    (let '(st1, kBody, r2, res) := keyDecode rt (SiteBody i) (token r1) st0 kB r0 in
     match res with
     | Ok ok => Decode_lines rt fuel (S i) st1 kH kBody (if ok then false else inH) r2
     | Err e => Some (st1, r2, Err e)
     | Panic => Some (st1, r2, Panic)
     end) = Some (st', r', Ok tt) ->
    final r' = final r /\ stopped r' = true).
  { intros st0 r0 Hr0. unfold keyDecode.
    pose proof (keyDecode_loop_final rt (token r1)
                  (rangeNames rt (SiteBody i) (elements kB)) st0 kB r0) as H.
    destruct (keyDecode_loop _ _ _ _ _ _) as [[[st1 kB1] r2] res]. simpl in H.
    destruct res as [ok| |]; [| discriminate | discriminate].
    intros HD. apply IH in HD as [H1 H2]. split; [congruence | exact H2]. }
  destruct inH; [| apply Hbody; exact Hf].
  unfold keyDecode at 1.
  pose proof (keyDecode_loop_final rt (token r1)
                (rangeNames rt (SiteHead i) (elements kH)) st kH r1) as H.
  destruct (keyDecode_loop _ _ _ _ _ _) as [[[st1 kH1] r2] res]. simpl in H.
  destruct res as [[|]| |]; [| apply Hbody; congruence | discriminate | discriminate].
  intros HD. apply IH in HD as [H1 H2]. split; [congruence | exact H2].
Qed.

(** X19: A reader that ends with an error is never taken for the end of the
    file: whatever was read before, Decode returns an error or panics, and
    the struct is left as it was. *)
Theorem Decode_reader_error rt typ r val e :
  final r = Some e ->
  exists res, Decode rt typ r val = (val, res) /\ res <> Ok tt.
Proof.
  intros He. unfold Decode.
  destruct (createNames typ) as [nF [keys|e0|]];
    [| eexists; split; [reflexivity | discriminate] ..].
  destruct (headBody keys) as [kH kB].
  pose proof (Scan_final r) as [Hf Hs].
  destruct (Scan r) as [ok r1]. simpl in Hf, Hs.
  destruct ok; cbn [negb].
  2:{ unfold ScanErr. rewrite (Hs eq_refl), Hf, He.
      eexists; split; [reflexivity | discriminate]. }
  destruct (match keys !! NameTitle with Some _ => _ | None => _ end)
    as [keys1 [e1|]]; [eexists; split; [reflexivity | discriminate] |].
  destruct (Decode_lines rt (S (length (pending r1))) 0 keys1 kH kB true r1)
    as [[[st' r'] [[]|e1|]]|] eqn:ED;
    try (eexists; split; [reflexivity | discriminate]).
  apply Decode_lines_final in ED as [H1 H2].
  unfold ScanErr. rewrite H2, H1, Hf, He.
  eexists; split; [reflexivity | discriminate].
Qed.

Lemma Decode_reader_error_witness :
  exists res,
    Decode rt_fwd [mkField (Some "atoms") TInt]
      (NewScanner ["title"; ""; "3 atoms"] (Some (ErrIO "unexpected EOF"))) [VInt 7]
    = ([VInt 7], res) /\ res <> Ok tt.
Proof.
  apply (Decode_reader_error rt_fwd [mkField (Some "atoms") TInt]
           (NewScanner ["title"; ""; "3 atoms"] (Some (ErrIO "unexpected EOF")))
           [VInt 7] (ErrIO "unexpected EOF")).
  reflexivity.
Defined.

(** ** Decode: a Key is read once *)

Lemma keyDecode_loop_frame rt s order : forall st keys r st' keys' r' res,
  keyDecode_loop rt s order st keys r = (st', keys', r', res) ->
  keys' ⊆ keys /\ forall n, n ∉ order -> st' !! n = st !! n.
Proof.
  induction order as [|m order IH]; intros st keys r st' keys' r' res; simpl.
  - intros [= <- <- _ _]. split; [reflexivity | auto].
  - assert (Hne : forall n, n ∉ m :: order -> n <> m /\ n ∉ order).
    { intros n Hn. split; [intros -> | intros H]; apply Hn; [left | right; exact H]. }
    destruct (st !! m) as [k|] eqn:Em.
    2:{ intros H. apply IH in H as [H1 H2]. split; [exact H1 |].
        intros n Hn. apply H2, Hne, Hn. }
    destruct (Key_Keyword k s) as [ok k1].
    destruct ok.
    + destruct (Key_Decode rt (<[m := k1]> st) k1 s r) as [[k2 r2] res2].
      assert (Hst : forall n, n ∉ m :: order ->
                <[m := k2]> (<[m := k1]> st) !! n = st !! n).
      { intros n Hn. apply Hne in Hn as [Hn _].
        rewrite !lookup_insert_ne by congruence. reflexivity. }
      destruct res2 as [[]|e|]; intros [= Hst' Hkeys' _ _];
        rewrite <- Hst', <- Hkeys';
        (split; [first [reflexivity | apply subseteq_difference_l; reflexivity]
                | exact Hst]).
    + intros H. apply IH in H as [H1 H2]. split; [exact H1 |].
      intros n Hn. apply Hne in Hn as [Hn Hn'].
      rewrite (H2 n Hn'), lookup_insert_ne by congruence. reflexivity.
Qed.

Lemma keyDecode_frame rt site s st keys r st' keys' r' res :
  fair rt ->
  keyDecode rt site s st keys r = (st', keys', r', res) ->
  keys' ⊆ keys /\ forall n, n ∉ keys -> st' !! n = st !! n.
Proof.
  intros Hfair H. unfold keyDecode in H. apply keyDecode_loop_frame in H as [H1 H2].
  split; [exact H1 |]. intros n Hn. apply H2.
  rewrite (proj1 Hfair site), elem_of_elements. exact Hn.
Qed.

(** X20: A Key that is no longer among the Keys to decode is left as it is by
    the rest of the file, and so is every header Key once a table has been
    read: a keyword met a second time, or a Counter line after a table,
    changes nothing. *)
Theorem Decode_lines_frame rt fuel : forall i st kH kB inH r st' r' res n,
  fair rt ->
  Decode_lines rt fuel i st kH kB inH r = Some (st', r', res) ->
  n ∉ kB -> (inH = true -> n ∉ kH) ->
  st' !! n = st !! n.
Proof.
  induction fuel as [|fuel IH]; intros i st kH kB inH r st' r' res n Hfair;
    [discriminate |].
  cbn [Decode_lines].
  destruct (Scan r) as [ok r1].
  destruct ok; simpl; [| intros [= <- _ _]; reflexivity].
  intros HD HB HH.
  assert (Hbody : forall st0 r0, st0 !! n = st !! n ->
    (let '(st1, kBody, r2, res0) := keyDecode rt (SiteBody i) (token r1) st0 kB r0 in
     match res0 with
     | Ok ok => Decode_lines rt fuel (S i) st1 kH kBody (if ok then false else inH) r2
     | Err e => Some (st1, r2, Err e)
     | Panic => Some (st1, r2, Panic)
     end) = Some (st', r', res) ->
    st' !! n = st !! n).
  { intros st0 r0 H0.
    destruct (keyDecode rt (SiteBody i) (token r1) st0 kB r0)
      as [[[st1 kB1] r2] res0] eqn:EK.
    apply (keyDecode_frame _ _ _ _ _ _ _ _ _ _ Hfair) in EK as [Hsub Hst].
    specialize (Hst n HB).
    destruct res0 as [ok| |]; [| intros [= <- _ _]; congruence ..].
    intros HD'. rewrite <- H0, <- Hst.
    apply (IH _ _ _ _ _ _ _ _ _ n Hfair HD'); [set_solver |].
    destruct ok; [discriminate | exact HH]. }
  destruct inH; [| apply (Hbody st r1 eq_refl HD)].
  destruct (keyDecode rt (SiteHead i) (token r1) st kH r1)
    as [[[st1 kH1] r2] res0] eqn:EK.
  apply (keyDecode_frame _ _ _ _ _ _ _ _ _ _ Hfair) in EK as [Hsub Hst].
  specialize (Hst n (HH eq_refl)).
  destruct res0 as [[|]| |].
  - rewrite <- Hst.
    apply (IH _ _ _ _ _ _ _ _ _ n Hfair HD); [exact HB |].
    intros _. specialize (HH eq_refl). set_solver.
  - apply (Hbody st1 r2 Hst HD).
  - injection HD as <- _ _. exact Hst.
  - injection HD as <- _ _. exact Hst.
Qed.

Lemma Decode_lines_frame_witness :
  exists st' r' res,
    Decode_lines rt_fwd 3 0
      {[NameAtomsNbr := KHeader (mkHeader NameAtomsNbr (Fields NameAtomsNbr) "3" 3)]}
      ∅ ∅ true (NewScanner ["5 atoms"; "Masses"] None) = Some (st', r', res)
    /\ st' !! NameAtomsNbr
       = ({[NameAtomsNbr := KHeader (mkHeader NameAtomsNbr (Fields NameAtomsNbr) "3" 3)]}
          : Store) !! NameAtomsNbr.
Proof.
  exists {[NameAtomsNbr := KHeader (mkHeader NameAtomsNbr (Fields NameAtomsNbr) "3" 3)]},
         (mkScanner [] None true ""), (Ok tt).
  assert (HD : Decode_lines rt_fwd 3 0
      {[NameAtomsNbr := KHeader (mkHeader NameAtomsNbr (Fields NameAtomsNbr) "3" 3)]}
      ∅ ∅ true (NewScanner ["5 atoms"; "Masses"] None)
      = Some ({[NameAtomsNbr := KHeader (mkHeader NameAtomsNbr (Fields NameAtomsNbr) "3" 3)]},
              mkScanner [] None true "", Ok tt))
    by (vm_compute; reflexivity).
  split; [exact HD |].
  apply (Decode_lines_frame rt_fwd 3 0
           {[NameAtomsNbr := KHeader (mkHeader NameAtomsNbr (Fields NameAtomsNbr) "3" 3)]}
           ∅ ∅ true (NewScanner ["5 atoms"; "Masses"] None)
           {[NameAtomsNbr := KHeader (mkHeader NameAtomsNbr (Fields NameAtomsNbr) "3" 3)]}
           (mkScanner [] None true "") (Ok tt) NameAtomsNbr fair_fwd HD).
  - set_solver.
  - intros _. set_solver.
Defined.

(** ** Encode needs every table *)

(** A nil map ([map[int]...](nil)) held in an [interface{}]. *)
Definition is_nil (v : GoValue) : bool :=
  match v with
  | VMasses None | VCoeffs None | VAtoms None | VLinks None => true
  | _ => false
  end.

Lemma tables_not_counters n :
  name_in n tables = true -> name_in n (nbr ++ types) = false.
Proof.
  intros H. apply name_in_In in H. simpl in H.
  repeat (destruct H as [<-|H]; [reflexivity |]). destruct H.
Qed.

(** X21: Encode succeeds only if no tagged table field of the struct is a nil
    map: a table left unset makes Encode fail. *)
Theorem Encode_needs_tables rt typ val w w' n f :
  fair rt ->
  Encode rt typ val w = (w', Ok tt) ->
  (createNames typ).1 !! n = Some f -> name_in n tables = true ->
  exists v, val !! f = Some v /\ is_nil v = false.
Proof.
  intros Hfair HE Hf Hn.
  destruct (createNames_registry typ) as (st0 & Hst & HnF & Hreg & Hreq).
  unfold Encode in HE.
  destruct (Encode_keys rt typ val) as [keys|e|] eqn:HEk; try discriminate.
  destruct (check_all rt keys) as [[]|e|]; try discriminate.
  unfold Encode_keys in HEk.
  destruct (createNames typ) as [nF o] eqn:EC. simpl in Hst, HnF, Hf. subst o.
  destruct (set_fields st0 nF val (rangeNames rt SiteFields (elements (dom nF))))
    as [keys' [[]|e|]] eqn:ES; try discriminate.
  injection HEk as ->.
  pose proof (registry_wired _ _ Hreg) as Hw0.
  pose proof (set_fields_wired _ _ _ _ _ _ Hw0 ES) as Hwk.
  pose proof (write_all_nonnil rt _ keys w w' Hwk HE) as Hnn.
  destruct (set_fields_value _ nF val _ n f st0 keys Hw0 ES Hf
              (tables_not_counters n Hn)) as (k & Hk & Hv).
  { left. rewrite (proj1 Hfair SiteFields), elem_of_elements, elem_of_dom. eauto. }
  exists (Key_Get k). split; [exact Hv |].
  specialize (Hnn n k Hk). destruct k; simpl in *; try reflexivity;
    destruct Hnn as [g ->]; reflexivity.
Qed.

Lemma Encode_needs_tables_witness :
  exists v, val_file_ex !! 6%nat = Some v /\ is_nil v = false.
Proof.
  apply (Encode_needs_tables rt_fwd typ_file_ex val_file_ex "" text_file_ex
           NameMasses 6 fair_fwd).
  - vm_compute. reflexivity.
  - vm_compute. reflexivity.
  - reflexivity.
Defined.

(** ** Decode of a file that is a title and nothing else *)

(** The dynamic type of the value that the Key of a Name holds. *)
Definition value_type (n : Name) : GoType :=
  if name_in n (nbr ++ types) then TInt
  else if name_in n box then TFloat2
  else if String.eqb n NameTitle then TString
  else if String.eqb n NameMasses then TMasses
  else if String.eqb n NameAtoms then TAtoms
  else if name_in n [NamePairCoeffs; NameBondCoeffs; NameAngleCoeffs;
                     NameDihedralCoeffs]
  then TCoeffs
  else TLinks.

(** The zero value of a type: what a Key holds before any Set or Decode. *)
Definition zero_value (t : GoType) : GoValue :=
  match t with
  | TString => VString ""
  | TInt => VInt 0
  | TFloat2 => VFloat2 0%float 0%float
  | TMasses => VMasses None
  | TCoeffs => VCoeffs None
  | TAtoms => VAtoms None
  | TLinks => VLinks None
  | TOther ty => VOther ty
  end.

Lemma fresh_key_value s n k :
  fresh_key s n = Some k -> Key_Get k = zero_value (value_type n).
Proof.
  intros H. assert (Hn : IsName n = true) by (apply (fresh_key_IsName s); eauto).
  apply IsName_cases in Hn. simpl in Hn.
  repeat (destruct Hn as [<-|Hn]; [vm_compute in H; injection H as <-; reflexivity |]).
  destruct Hn.
Qed.

Lemma TypeOf_zero_value t : TypeOf (zero_value t) = t.
Proof. destruct t; reflexivity. Qed.

(** A Key that holds no value: its wiring and nothing else (a title
    apart). *)
Definition unset (k : Key) : Prop :=
  match k with KTitle _ => True | _ => wiring k = k end.

Lemma range_map_empty {V} (order : list Z -> list Z) :
  range_map order (∅ : gmap Z V) = [].
Proof.
  unfold range_map. induction (order _) as [|k l IH]; simpl; [reflexivity |].
  rewrite lookup_empty. exact IH.
Qed.

Lemma unset_counter s (st : Store) n d :
  wired s st -> (forall m k, st !! m = Some k -> unset k) ->
  is_Some (st !! n) -> In d (deps n) -> getInt st d = Ok 0.
Proof.
  intros Hw Hu Hn Hd.
  destruct (wired_deref s st n d Hw Hn Hd) as [h Hh].
  unfold getInt. rewrite Hh. apply deref_Some in Hh. apply Hu in Hh.
  destruct h as [nm sep vb v]. simpl in *. injection Hh as _ <-. reflexivity.
Qed.

Lemma coeffs_deps n t : coeffs_types n = Some t -> deps n = [t].
Proof.
  unfold deps, coeffs_types.
  repeat match goal with
         | |- context [String.eqb n ?x] =>
           destruct (String.eqb_spec n x) as [->|?]; [intros [= <-]; reflexivity |]
         end.
  discriminate.
Qed.

Lemma links_deps n k nb ty :
  links_wiring n = Some (k, nb, ty) -> deps n = [NameAtomsNbr; nb; ty].
Proof.
  unfold deps, coeffs_types, links_wiring.
  repeat match goal with
         | |- context [String.eqb n ?x] =>
           destruct (String.eqb_spec n x) as [->|?];
             [intros [= <- <- <-]; reflexivity |]
         end.
  discriminate.
Qed.

(** Check accepts every Key of a registry in which nothing was set. *)
Lemma Key_Check_unset rt s (st : Store) n k :
  wired s st -> (forall m k, st !! m = Some k -> unset k) ->
  st !! n = Some k -> Key_Check rt st k = Ok tt.
Proof.
  intros Hw Hu Hn. pose proof (Hu n k Hn) as Hk.
  assert (Hsome : is_Some (st !! n)) by eauto.
  destruct k as [t|h|b|m|c|a|l]; simpl in *.
  - reflexivity.
  - destruct h as [nm sep vb v]. simpl in Hk. injection Hk as _ <-. reflexivity.
  - destruct b as [nm sep vb0 vb1 lo hi]. simpl in Hk. injection Hk as _ _ <- <-.
    reflexivity.
  - destruct (wired_masses s st n m Hw Hn) as [-> Hp].
    destruct m as [p v]. simpl in *. injection Hk as <-.
    unfold Masses_Check. cbn [m_types m_v]. rewrite Hp.
    rewrite (unset_counter s st NameMasses NameAtomTypes Hw Hu Hsome)
      by (left; reflexivity).
    simpl. apply for_each_ok. rewrite range_map_empty. constructor.
  - destruct (wired_coeffs s st n c Hw Hn) as (_ & t & Ht & Hp).
    destruct c as [nm p v]. simpl in *. injection Hk as <-.
    unfold Coeffs_Check. cbn [c_types c_v c_name]. rewrite Hp.
    rewrite (unset_counter s st n t Hw Hu Hsome)
      by (rewrite (coeffs_deps n t Ht); left; reflexivity).
    simpl. apply for_each_ok. rewrite range_map_empty. constructor.
  - destruct (wired_atoms s st n a Hw Hn) as (-> & _ & Hpn & Hpt).
    destruct a as [sty pn pt v]. simpl in *. injection Hk as <-.
    unfold Atoms_Check. cbn [a_atomsNbr a_atomTypes a_v]. rewrite Hpn, Hpt.
    rewrite (unset_counter s st NameAtoms NameAtomsNbr Hw Hu Hsome)
      by (right; left; reflexivity).
    rewrite (unset_counter s st NameAtoms NameAtomTypes Hw Hu Hsome)
      by (left; reflexivity).
    reflexivity.
  - destruct (wired_links s st n l Hw Hn)
      as (_ & cols & nb & ty & Hl & _ & Hnb & Hty & Hat).
    destruct l as [nm lk pn pt pa v]. simpl in *. injection Hk as <-.
    unfold Links_Check. cbn [l_nbr l_types l_atomsNbr l_v l_name].
    rewrite Hnb, Hty, Hat.
    pose proof (links_deps n cols nb ty Hl) as Hdeps.
    rewrite (unset_counter s st n nb Hw Hu Hsome)
      by (rewrite Hdeps; right; left; reflexivity).
    rewrite (unset_counter s st n ty Hw Hu Hsome)
      by (rewrite Hdeps; right; right; left; reflexivity).
    rewrite (unset_counter s st n NameAtomsNbr Hw Hu Hsome)
      by (rewrite Hdeps; left; reflexivity).
    simpl. apply for_each_ok. rewrite range_map_empty. constructor.
Qed.

Lemma check_all_unset rt s (st : Store) :
  wired s st -> (forall m k, st !! m = Some k -> unset k) ->
  check_all rt st = Ok tt.
Proof.
  intros Hw Hu. unfold check_all. apply for_each_ok, Forall_forall.
  intros n _. destruct (st !! n) as [k|] eqn:E; [| reflexivity].
  rewrite (Key_Check_unset rt s st n k Hw Hu E). reflexivity.
Qed.

(** X22: A file that is its title and nothing else is accepted, and it is not
    the empty file: every tagged field of a fitting type is overwritten,
    the title by the line, a Counter by 0, a Box bound by (0, 0) and a
    table by the nil map; the other fields are left as they were. *)
Theorem Decode_title_only rt typ title val :
  fair rt -> length val = length typ ->
  (forall n f fld, (createNames typ).1 !! n = Some f -> typ !! f = Some fld ->
                   f_type fld = value_type n) ->
  exists val',
    Decode rt typ (NewScanner [title] None) val = (val', Ok tt)
    /\ length val' = length val
    /\ (forall n f, (createNames typ).1 !! n = Some f ->
          val' !! f = Some (if String.eqb n NameTitle then VString title
                            else zero_value (value_type n)))
    /\ (forall j, (forall n, (createNames typ).1 !! n <> Some j) ->
                  val' !! j = val !! j).
Proof.
  intros Hfair Hlen Hty.
  destruct (createNames_registry typ) as (st0 & Hst & HnF & Hreg & Hreq).
  unfold Decode.
  destruct (createNames typ) as [nF o] eqn:EC. simpl in Hst, HnF, Hty |- *. subst o.
  destruct (headBody st0) as [kH kB].
  set (keys1 := match st0 !! NameTitle with
                | Some _ => <[NameTitle := KTitle (mkTitle title)]> st0
                | None => st0
                end).
  assert (Htitle : match st0 !! NameTitle with
                   | Some k =>
                     let '(k, e) := Key_Set k (VString title) in
                     (<[NameTitle := k]> st0, e)
                   | None => (st0, None)
                   end = (keys1, None)).
  { unfold keys1. destruct (st0 !! NameTitle) as [k|] eqn:E; [| reflexivity].
    apply (proj1 Hreg) in E. vm_compute in E. injection E as <-. reflexivity. }
  rewrite Htitle. clear Htitle.
  pose proof (registry_wired _ _ Hreg) as Hw0.
  assert (Hw1 : wired (requested typ).1.1 keys1).
  { unfold keys1. destruct (st0 !! NameTitle) as [k|] eqn:E; [| exact Hw0].
    apply (wired_insert _ _ _ k); [exact Hw0 | exact E |].
    apply (proj1 Hreg) in E. vm_compute in E. injection E as <-. reflexivity. }
  assert (Hget : forall n k, keys1 !! n = Some k ->
            unset k
            /\ Key_Get k = if String.eqb n NameTitle then VString title
                           else zero_value (value_type n)).
  { intros n k Hk. unfold keys1 in Hk.
    assert (Hfresh : st0 !! n = Some k -> n <> NameTitle ->
              unset k /\ Key_Get k = if String.eqb n NameTitle then VString title
                                     else zero_value (value_type n)).
    { intros H Hne. apply (proj1 Hreg) in H.
      destruct (String.eqb_spec n NameTitle) as [->|_]; [contradiction |].
      split; [| exact (fresh_key_value _ _ _ H)].
      apply fresh_key_wiring in H. destruct k; [exact I | exact H ..]. }
    destruct (st0 !! NameTitle) as [kt|] eqn:E.
    - cbv iota in Hk. apply lookup_insert_Some in Hk as [[<- <-]|[Hne Hk]].
      + split; [exact I | reflexivity].
      + apply Hfresh; [exact Hk | intros Heq; apply Hne; symmetry; exact Heq].
    - cbv iota in Hk. apply Hfresh; [exact Hk |].
      intros ->. pose proof (eq_trans (eq_sym E) Hk). discriminate. }
  rewrite (check_all_unset rt _ keys1 Hw1 (fun n k H => proj1 (Hget n k H))).
  assert (Hdom : forall n, is_Some (keys1 !! n) <-> is_Some (st0 !! n)).
  { intros n. unfold keys1. destruct (st0 !! NameTitle) as [kt|] eqn:E; [| tauto].
    rewrite lookup_insert_is_Some'. split; [| auto].
    intros [<-|H]; [rewrite E; eauto | exact H]. }
  assert (Hbound : forall n f, nF !! n = Some f ->
            exists k fld, keys1 !! n = Some k /\ typ !! f = Some fld
                          /\ f_type fld = TypeOf (Key_Get k)).
  { intros n f Hf. rewrite HnF in Hf.
    destruct (requested_fields typ n f Hf) as (Hin & fld & v & Hfld & _).
    destruct (proj2 (Hdom n)) as [k Hk]; [apply Hreq; left; exact Hin |].
    exists k, fld. split; [exact Hk |]. split; [exact Hfld |].
    rewrite <- HnF in Hf. rewrite (Hty n f fld Hf Hfld).
    destruct (Hget n k Hk) as [_ ->].
    destruct (String.eqb_spec n NameTitle) as [->|_];
      [reflexivity | symmetry; apply TypeOf_zero_value]. }
  destruct (assign_fields_ok keys1 nF typ
              (rangeNames rt SiteFields (elements (dom nF))) val)
    as (val' & HA & Hlen' & Hother & Hset).
  { intros n f _ Hf. exact (Hbound n f Hf). }
  exists val'. split; [exact HA |]. split; [exact Hlen' |]. split.
  - intros n f Hf. destruct (Hbound n f Hf) as (k & fld & Hk & Hfld & _).
    rewrite <- (proj2 (Hget n k Hk)).
    apply (Hset n f k Hf Hk).
    + intros m _ Hm. rewrite HnF in Hf, Hm. exact (requested_inj typ m n f Hm Hf).
    + rewrite Hlen. apply lookup_lt_Some in Hfld. exact Hfld.
    + left. rewrite (proj1 Hfair SiteFields), elem_of_elements, elem_of_dom. eauto.
  - intros j Hj. apply Hother. intros n _. apply Hj.
Qed.

Lemma Decode_title_only_witness :
  exists val',
    Decode rt_fwd typ_file_ex (NewScanner ["water box"] None) val_file_ex
    = (val', Ok tt)
    /\ length val' = length val_file_ex
    /\ (forall n f, (createNames typ_file_ex).1 !! n = Some f ->
          val' !! f = Some (if String.eqb n NameTitle then VString "water box"
                            else zero_value (value_type n)))
    /\ (forall j, (forall n, (createNames typ_file_ex).1 !! n <> Some j) ->
                  val' !! j = val_file_ex !! j).
Proof.
  apply (Decode_title_only rt_fwd typ_file_ex "water box" val_file_ex fair_fwd).
  - reflexivity.
  - intros n f fld Hf Hfld.
    change ((requested typ_file_ex).2 !! n = Some f) in Hf.
    apply requested_fields in Hf as (_ & fld' & v & H1 & H2 & H3).
    rewrite Hfld in H1. injection H1 as <-.
    do 9 (destruct f as [|f];
          [simpl in Hfld; injection Hfld as <-;
           first [discriminate H2
                 | simpl in H2; injection H2 as <-; subst n; reflexivity] |]).
    destruct f; discriminate.
Defined.

(** ** The layout of the file that Encode writes *)

Lemma write_each_text {A} (body : A -> Writer -> Writer * outcome unit)
    (line : A -> string) l :
  (forall a w1 w2, body a w1 = (w2, Ok tt) -> w2 = w1 +:+ line a +:+ nl) ->
  forall w w', write_each body l w = (w', Ok tt) ->
               w' = w +:+ unlines (map line l).
Proof.
  intros Hb. induction l as [|a l IH]; intros w w'; simpl.
  - intros [= <-]. symmetry. apply app_Empty_r.
  - destruct (body a w) as [w1 [[]|e|]] eqn:E; try discriminate.
    intros H. apply IH in H. rewrite (Hb _ _ _ E) in H.
    rewrite H, !app_assoc_s. reflexivity.
Qed.

(** What a Key writes when its Encode succeeds: its lines, whatever the
    values it holds. *)
Lemma Key_Encode_text rt k w w' :
  Key_Encode rt k w = (w', Ok tt) -> w' = w +:+ unlines (key_lines rt k).
Proof.
  destruct k as [t|h|b|m|c|a|l]; cbn [Key_Encode key_lines].
  - intros [= <-]. unfold Fprint. cbn [unlines]. rewrite app_Empty_r. reflexivity.
  - intros [= <-]. unfold Header_Encode, Fprint. cbn [unlines].
    rewrite app_Empty_r, !app_assoc_s. reflexivity.
  - intros [= <-]. unfold Box_Encode, Fprint. cbn [unlines].
    rewrite app_Empty_r, !app_assoc_s. reflexivity.
  - unfold Masses_Encode, table_lines. destruct (m_v m) as [g|]; [| discriminate].
    cbn [entries]. destruct (size g =? 0)%nat.
    { intros [= <-]. symmetry. apply app_Empty_r. }
    intros H. apply (write_each_text _ (masses_line rt g)) in H.
    + rewrite H. unfold Fprint. cbn [unlines]. rewrite !app_assoc_s. reflexivity.
    + intros id w1 w2 [= <-]. unfold Fprint, masses_line.
      rewrite !app_assoc_s. reflexivity.
  - unfold Coeffs_Encode, table_lines. destruct (c_v c) as [g|]; [| discriminate].
    cbn [entries]. destruct (size g =? 0)%nat.
    { intros [= <-]. symmetry. apply app_Empty_r. }
    intros H. apply (write_each_text _ (coeffs_line rt g)) in H.
    + rewrite H. unfold Fprint. cbn [unlines]. rewrite !app_assoc_s. reflexivity.
    + intros id w1 w2 [= <-]. unfold coeffs_line.
      rewrite fold_left_Fprint. unfold Fprint. rewrite !app_assoc_s. reflexivity.
  - unfold Atoms_Encode, table_lines. destruct (a_v a) as [g|]; [| discriminate].
    cbn [entries]. destruct (size g =? 0)%nat.
    { intros [= <-]. symmetry. apply app_Empty_r. }
    intros H. apply (write_each_text _ (atoms_line rt (a_atomStyle a) g)) in H.
    + rewrite H. unfold Fprint. cbn [unlines]. rewrite !app_assoc_s. reflexivity.
    + intros id w1 w2 Hbody.
      assert (Hc : (exists y, g !! id = Some (Some y))
                   \/ default None (g !! id) = None)
        by (destruct (g !! id) as [[y|]|]; eauto).
      destruct Hc as [[y Hy]|Hnone].
      * pose proof (eq_trans (eq_sym (Atoms_row_text rt (a_atomStyle a) g id y w1 Hy))
                             Hbody) as Heq.
        injection Heq as <-. reflexivity.
      * rewrite Hnone in Hbody. cbn in Hbody. discriminate.
  - unfold Links_Encode, table_lines. destruct (l_v l) as [g|]; [| discriminate].
    cbn [entries]. destruct (size g =? 0)%nat.
    { intros [= <-]. symmetry. apply app_Empty_r. }
    intros H. apply (write_each_text _ (links_line g)) in H.
    + rewrite H. unfold Fprint. cbn [unlines]. rewrite !app_assoc_s. reflexivity.
    + intros id w1 w2. unfold links_line.
      destruct (default None (g !! id)) as [link|]; [| discriminate].
      intros [= <-]. rewrite fold_left_Fprint. unfold Fprint, link_text.
      rewrite !app_assoc_s. reflexivity.
Qed.

Lemma encode_group_text rt (keys : Store) names : forall set w w',
  encode_group rt keys names set w = (w', Ok tt) ->
  w' = w +:+ unlines (flat_map (name_lines rt keys) names
                      ++ (if set || existsb (present keys) names then [""] else [])).
Proof.
  induction names as [|n names IH]; intros set w w'.
  - simpl. intros [= <-]. destruct set; simpl; unfold Fprint;
      rewrite ?app_Empty_r; reflexivity.
  - cbn [encode_group flat_map existsb]. unfold name_lines at 1.
    destruct (keys !! n) as [k|] eqn:Hn.
    + destruct (Key_Encode rt k w) as [w1 [[]|e|]] eqn:EK; try discriminate.
      intros H. apply IH in H. apply Key_Encode_text in EK. subst w1.
      rewrite (present_Some keys n k Hn), orb_true_r. cbn [orb] in H.
      rewrite H, <- app_assoc, (unlines_app (key_lines rt k)), app_assoc_s.
      reflexivity.
    + intros H. apply IH in H. rewrite (present_None keys n Hn). exact H.
Qed.

Lemma encode_tables_text rt (keys : Store) names : forall w w',
  encode_tables rt keys names w = (w', Ok tt) ->
  w' = w +:+ unlines (flat_map (fun n => (name_lines rt keys n
                                 ++ (if present keys n then [""] else []))%list)
                               names).
Proof.
  induction names as [|n names IH]; intros w w'.
  - simpl. intros [= <-]. symmetry. apply app_Empty_r.
  - cbn [encode_tables flat_map]. unfold name_lines at 1.
    destruct (keys !! n) as [k|] eqn:Hn.
    + destruct (Key_Encode rt k w) as [w1 [[]|e|]] eqn:EK; try discriminate.
      intros H. apply IH in H. apply Key_Encode_text in EK. subst w1.
      rewrite (present_Some keys n k Hn). rewrite H. unfold Fprint.
      rewrite !unlines_app, !app_assoc_s. reflexivity.
    + intros H. apply IH in H. rewrite (present_None keys n Hn). exact H.
Qed.

(** What a successful Encode writes once the Keys are set and checked. *)
Lemma write_all_layout rt s (keys : Store) w w' :
  wired s keys -> write_all rt keys w = (w', Ok tt) ->
  w' = w +:+ unlines (title_of keys :: flat_map (ev_lines rt keys) (doc_events keys)).
Proof.
  intros Hw. unfold write_all, title_of.
  assert (HT : match keys !! NameTitle with
               | Some k => match Key_Get k with VString t => Ok t | _ => Panic end
               | None => Ok ""
               end
               = Ok match keys !! NameTitle with
                    | Some (KTitle t) => t_v t
                    | _ => ""
                    end).
  { destruct (keys !! NameTitle) as [k|] eqn:E; [| reflexivity].
    destruct (Title_key s keys Hw k E) as [t ->]. reflexivity. }
  rewrite HT. clear HT.
  set (title := match keys !! NameTitle with Some (KTitle t) => t_v t | _ => "" end).
  destruct (encode_group rt keys nbr false _) as [w1 [[]|e|]] eqn:E1; try discriminate.
  destruct (encode_group rt keys types false w1) as [w2 [[]|e|]] eqn:E2;
    try discriminate.
  destruct (encode_group rt keys box false w2) as [w3 [[]|e|]] eqn:E3;
    try discriminate.
  intros E4.
  apply encode_group_text in E1, E2, E3. apply encode_tables_text in E4.
  subst w' w3 w2 w1.
  unfold doc_events. cbn [flat_map ev_lines unlines].
  rewrite !flat_map_app, !flat_map_group, flat_map_tables.
  unfold Fprint. cbn [orb app unlines].
  rewrite !unlines_app, !app_assoc_s, !app_Empty. reflexivity.
Qed.

(** X23: What Encode writes when it succeeds, whatever the values: the
    title, a blank line, the Counters of numbers, the Counters of types
    and the Box bounds, each group in the order of the source and followed
    by a blank line if it is not empty, then the tables in the order of the
    source, each followed by a blank line; a table is its Name, a blank line
    and its rows by increasing identifier, and an empty table has no line.
    The order of the fields in the struct plays no part. *)
Theorem Encode_layout rt typ val w text keys :
  Encode_keys rt typ val = Ok keys ->
  Encode rt typ val w = (text, Ok tt) ->
  text = w +:+ unlines (title_of keys :: flat_map (ev_lines rt keys) (doc_events keys)).
Proof.
  intros HEk HE.
  destruct (createNames_registry typ) as (st0 & Hst & HnF & Hreg & Hreq).
  unfold Encode in HE. rewrite HEk in HE.
  unfold Encode_keys in HEk.
  destruct (createNames typ) as [nF o] eqn:EC. simpl in Hst, HnF. subst o.
  destruct (set_fields st0 nF val (rangeNames rt SiteFields (elements (dom nF))))
    as [keys' [[]|e|]] eqn:ES; try discriminate.
  injection HEk as ->.
  pose proof (registry_wired _ _ Hreg) as Hw0.
  pose proof (set_fields_wired _ _ _ _ _ _ Hw0 ES) as Hwk.
  destruct (check_all rt keys) as [[]|e|] eqn:HC; try discriminate.
  exact (write_all_layout rt _ keys w text Hwk HE).
Qed.

(** The theorem at the struct with one atom. *)
Lemma Encode_layout_witness :
  text_atom_file_ex
  = "" +:+ unlines (title_of keys_atom_file_ex
                    :: flat_map (ev_lines rt_fwd keys_atom_file_ex)
                                (doc_events keys_atom_file_ex)).
Proof.
  apply (Encode_layout rt_fwd typ_atom_file_ex val_atom_file_ex "" text_atom_file_ex
           keys_atom_file_ex).
  - vm_compute. reflexivity.
  - vm_compute. reflexivity.
Defined.
